(** * Fragment extraction with tree kernels: a shallow embedding

    A model of [discodop/_fragments.pyx] (fragment extraction, exact counts,
    renumbering of discontinuous fragments) and of the tree arena [Ctrees]
    of [discodop/containers.pyx], with the properties stated about them.

    Conventions.
    - C integers ([int], [short], [uint32_t], [uint64_t]) are values of [Z].
      Indices stay within the lengths of the arrays they address, so index
      arithmetic is written in [Z] directly; stores into unsigned counters
      have their wrap-around written out.
    - A C array ([Node *], [uint64_t *]) is a [list]; reading or writing
      outside the allocation is undefined behaviour and is modelled by
      [None].  Loops and recursions of the source that are not structural
      carry a fuel argument computed by the caller from the sizes of the
      trees; running out of fuel also gives [None].  Every theorem that
      says the code produces a result shows a [Some].
    - Python exceptions are values of [exn]; a function that can raise
      returns a [res]. *)

From Stdlib Require Import ZArith Lia List Bool Ascii DecimalN.
From stdpp Require Import base option list list_numbers sorting strings gmap sets.

Local Open Scope Z_scope.

(** ** Results of Python-level functions *)

Inductive exn :=
  | ValueError (msg : string)
  | IndexError
  | KeyError
  | AttributeError
  | OverflowError
  | TypeError
  | AssertionError
  | StopIteration
  | UnicodeDecodeError.

(** The outcome of a call: a value, a raised exception, or undefined
    behaviour of the C code underneath (which includes the exhaustion of the
    fuel of a loop). *)
Inductive res (A : Type) :=
  | Ok (x : A)
  | Raise (e : exn)
  | Undefined.
Global Arguments Ok {A} x.
Global Arguments Raise {A} e.
Global Arguments Undefined {A}.

Global Instance res_ret : MRet res := λ A x, Ok x.
Global Instance res_bind : MBind res := λ A B f m,
  match m with
  | Ok x => f x
  | Raise e => Raise e
  | Undefined => Undefined
  end.

(** A C-level result inside a Python-level function. *)
Definition of_option {A} (o : option A) : res A :=
  match o with
  | Some x => Ok x
  | None => Undefined
  end.

(** The position that the index [i] stands for in a Python list: negative
    indices count from the end. *)
Definition py_slot {A} (l : list A) (i : Z) : res nat :=
  let n := Z.of_nat (length l) in
  if decide (0 ≤ i < n) then Ok (Z.to_nat i)
  else if decide (- n ≤ i < 0) then Ok (Z.to_nat (n + i))
  else Raise IndexError.

(** [l[i]] on a Python list. *)
Definition py_index {A} (l : list A) (i : Z) : res A :=
  k ← py_slot l i; of_option (l !! k).

(** Conversion of a Python integer to a C [short] and to a C [int]. *)
Definition py_to_short (z : Z) : res Z :=
  if decide (- 2 ^ 15 ≤ z < 2 ^ 15) then Ok z else Raise OverflowError.
Definition py_to_int (z : Z) : res Z :=
  if decide (- 2 ^ 31 ≤ z < 2 ^ 31) then Ok z else Raise OverflowError.

(** ** Arrays *)

(** [a[i]] for a C pointer [a] into an allocation holding the list. *)
Definition load {A} (a : list A) (i : Z) : option A :=
  if decide (0 ≤ i) then a !! Z.to_nat i else None.

(** [a[i] = x]. *)
Definition store {A} (a : list A) (i : Z) (x : A) : option (list A) :=
  if decide (0 ≤ i < Z.of_nat (length a)) then Some (<[Z.to_nat i := x]> a)
  else None.

(** ** Bit-set macros *)

Definition BITSIZE : Z := 64.

(** Modelled from the spec: [macros.h] is not part of the sources; the spec
    describes fixed-width bitsets over arrays of 64-bit words with
    set/clear/test of the bit at global index [b], and
    [SLOTS = ceil((maxnodes+1)/64)].  Word [b / 64], bit [b % 64]. *)
Definition BITSLOT (b : Z) : Z := Z.quot b BITSIZE.

(** Modelled from the spec: the mask of bit [b] inside its word ([macros.h]
    is not part of the sources). *)
Definition BITMASK (b : Z) : Z := Z.shiftl 1 (Z.rem b BITSIZE).

(** Modelled from the spec: the number of 64-bit words that hold [nb] bits
    ([macros.h] is not part of the sources). *)
Definition BITNSLOTS (nb : Z) : Z := Z.quot (nb + BITSIZE - 1) BITSIZE.

(** Modelled from the spec: [SETBIT(&a[off], b)] sets bit [b] of the bitset
    starting at word [off] ([macros.h] is not part of the sources).  A
    negative [b] shifts by a negative amount: undefined. *)
Definition SETBIT (a : list Z) (off b : Z) : option (list Z) :=
  if decide (0 ≤ b) then
    w ← load a (off + BITSLOT b);
    store a (off + BITSLOT b) (Z.lor w (BITMASK b))
  else None.

(** Modelled from the spec: [CLEARBIT(&a[off], b)] ([macros.h] is not part of
    the sources).  The complement of the mask is taken in [Z]; on a word in
    [0, 2^64) the conjunction is the same as with the 64-bit complement. *)
Definition CLEARBIT (a : list Z) (off b : Z) : option (list Z) :=
  if decide (0 ≤ b) then
    w ← load a (off + BITSLOT b);
    store a (off + BITSLOT b) (Z.land w (Z.lnot (BITMASK b)))
  else None.

(** Modelled from the spec: [TESTBIT(&a[off], b)], as a truth value
    ([macros.h] is not part of the sources). *)
Definition TESTBIT (a : list Z) (off b : Z) : option bool :=
  if decide (0 ≤ b) then
    w ← load a (off + BITSLOT b);
    Some (negb (Z.land w (BITMASK b) =? 0))
  else None.

(** [memset(&a[off], 0, n * sizeof(uint64_t))]. *)
Definition memset0 (a : list Z) (off n : Z) : option (list Z) :=
  if decide (0 ≤ off ∧ 0 ≤ n ∧ off + n ≤ Z.of_nat (length a)) then
    Some (take (Z.to_nat off) a ++ replicate (Z.to_nat n) 0
            ++ drop (Z.to_nat (off + n)) a)
  else None.

(** ** Nodes *)

(** [Node] of [containers.pxd]: the production id and the two child indices;
    a negative [left] encodes a terminal, [right = -1] a unary node. *)
Record Node := mkNode { prod : Z; left : Z; right : Z }.

(** ** The fast tree kernel *)

(** The innermost loop of [fasttreekernel]:
    [while a[ii].prod == b[j].prod: SETBIT(&matrix[j * SLOTS], ii); ii += 1;
     if ii >= alen: break]. *)
Fixpoint ftk_run (fuel : nat) (a b : list Node) (alen SLOTS : Z)
    (matrix : list Z) (j ii : Z) : option (list Z) :=
  match fuel with
  | O => None
  | S fuel =>
    an ← load a ii;
    bn ← load b j;
    if decide (prod an = prod bn) then
      matrix ← SETBIT matrix (j * SLOTS) ii;
      if decide (ii + 1 >= alen) then Some matrix
      else ftk_run fuel a b alen SLOTS matrix j (ii + 1)
    else Some matrix
  end.

(** The loop [while a[i].prod == b[j].prod: ...; j += 1; if j >= blen: return].
    The result is the matrix and [None] when the function returned from
    inside the loop, [Some j] when the loop condition failed at [j]. *)
Fixpoint ftk_block (fuel : nat) (a b : list Node) (alen blen SLOTS : Z)
    (matrix : list Z) (i j : Z) : option (list Z * option Z) :=
  match fuel with
  | O => None
  | S fuel =>
    an ← load a i;
    bn ← load b j;
    if decide (prod an = prod bn) then
      matrix ← ftk_run (S (Z.to_nat alen)) a b alen SLOTS matrix j i;
      if decide (j + 1 >= blen) then Some (matrix, None)
      else ftk_block fuel a b alen blen SLOTS matrix i (j + 1)
    else Some (matrix, Some j)
  end.

(** The outer [while True] loop of [fasttreekernel]. *)
Fixpoint ftk_loop (fuel : nat) (a b : list Node) (alen blen SLOTS : Z)
    (matrix : list Z) (i j : Z) : option (list Z) :=
  match fuel with
  | O => None
  | S fuel =>
    an ← load a i;
    bn ← load b j;
    if decide (prod an < prod bn) then
      if decide (i + 1 >= alen) then Some matrix
      else ftk_loop fuel a b alen blen SLOTS matrix (i + 1) j
    else if decide (prod an > prod bn) then
      if decide (j + 1 >= blen) then Some matrix
      else ftk_loop fuel a b alen blen SLOTS matrix i (j + 1)
    else
      r ← ftk_block (S (Z.to_nat blen)) a b alen blen SLOTS matrix i j;
      match r with
      | (matrix, None) => Some matrix
      | (matrix, Some j) => ftk_loop fuel a b alen blen SLOTS matrix i j
      end
  end.

(** [fasttreekernel(a, b, alen, blen, matrix, SLOTS)]: the matrix after the
    call.  Every turn of the outer loop advances [i] or [j]. *)
Definition fasttreekernel (a b : list Node) (alen blen : Z)
    (matrix : list Z) (SLOTS : Z) : option (list Z) :=
  ftk_loop (Z.to_nat alen + Z.to_nat blen) a b alen blen SLOTS matrix 0 0.

(** The reference all-pairs kernel of the spec:
    [M[j][i] = (a[i].prod == b[j].prod)], filled cell by cell. *)
Definition reference_cell (a b : list Node) (SLOTS : Z) (matrix : list Z)
    (ji : Z * Z) : option (list Z) :=
  an ← load a ji.2;
  bn ← load b ji.1;
  if decide (prod an = prod bn) then SETBIT matrix (ji.1 * SLOTS) ji.2
  else Some matrix.

Definition reference_kernel (a b : list Node) (alen blen : Z)
    (matrix : list Z) (SLOTS : Z) : option (list Z) :=
  foldl (λ acc ji, m ← acc; reference_cell a b SLOTS m ji) (Some matrix)
    (j ← seqZ 0 blen; i ← seqZ 0 alen; [(j, i)]).

(** ** Iterating over the set bits of a bitset *)

(** The number of trailing zero bits of a non-zero word
    ([__builtin_ctzll]). *)
Fixpoint ctz_pos (p : positive) : Z :=
  match p with
  | xO p => 1 + ctz_pos p
  | _ => 0
  end.

Definition bit_ctz (w : Z) : Z :=
  match w with
  | Zpos p => ctz_pos p
  | _ => 0
  end.

(** Modelled from the spec: [iteratesetbits] of [discodop.bit] is not part of
    the sources.  The spec describes it as the iterator over the set bits of
    a bitset that yields bit indices in ascending order and carries the
    current word and its offset between calls; the callers initialise
    [cur = bitset[0]], [idx = 0] and read [-1] as the end.  The iterator
    consumes the bits of the cached word [cur] and reloads [cur] from the
    bitset only when it moves to the next word.  The result is the index
    with the new [cur] and [idx]. *)
Fixpoint iteratesetbits (fuel : nat) (vec : list Z) (off slots : Z)
    (cur idx : Z) : option (Z * Z * Z) :=
  if decide (cur = 0) then
    match fuel with
    | O => None
    | S fuel =>
      if decide (idx + 1 >= slots) then Some (-1, cur, idx + 1)
      else
        w ← load vec (off + (idx + 1));
        iteratesetbits fuel vec off slots w (idx + 1)
    end
  else
    let tmp := bit_ctz cur in
    Some (idx * BITSIZE + tmp, Z.lxor cur (Z.shiftl 1 tmp), idx).

(** ** Fragment bitsets *)

(** A bitset wrapped in a bytes object: [SLOTS] words followed by the
    [BitsetTail] with the number of the tree the fragment was extracted from
    and the index of its root. *)
Record Bitset := mkBitset { bits : list Z; tail_id : Z; tail_root : Z }.

Global Instance Bitset_eq_dec : EqDecision Bitset.
Proof. solve_decision. Defined.

Global Instance Bitset_countable : Countable Bitset.
Proof.
  refine (inj_countable' (λ w, (bits w, tail_id w, tail_root w))
            (λ t, mkBitset t.1.1 t.1.2 t.2) _).
  by intros [].
Defined.

(** Conversion of a C [int] to [uint32_t] and to [short]. *)
Definition to_uint32 (z : Z) : Z := z `mod` 2 ^ 32.
Definition to_short (z : Z) : Z := (z + 2 ^ 15) `mod` 2 ^ 16 - 2 ^ 15.

(** [getid(data, SLOTS)] and [getroot(data, SLOTS)] read the tail behind
    [SLOTS] words; on a bitset that was wrapped with another number of words
    they read something else, which is treated as undefined. *)
Definition getid (data : Bitset) (SLOTS : Z) : option Z :=
  if decide (Z.of_nat (length (bits data)) = SLOTS) then Some (tail_id data)
  else None.
Definition getroot (data : Bitset) (SLOTS : Z) : option Z :=
  if decide (Z.of_nat (length (bits data)) = SLOTS) then Some (tail_root data)
  else None.

(** [setrootid(data, root, id, SLOTS)]. *)
Definition setrootid (data : Bitset) (root id : Z) : Bitset :=
  mkBitset (bits data) (to_uint32 id) (to_short root).

(** ** Extraction of maximal connected common subsets *)

(** [extractat(matrix, result, a, b, i, j, SLOTS)]: the number of terminals it
    returns, the matrix and the result bitset after the call.  The recursion
    follows the children of [a[i]]; the fuel is the number of nodes of
    [a]. *)
Fixpoint extractat (fuel : nat) (matrix result : list Z) (a b : list Node)
    (i j SLOTS : Z) : option (Z * list Z * list Z) :=
  match fuel with
  | O => None
  | S fuel =>
    result ← SETBIT result 0 i;
    matrix ← CLEARBIT matrix (j * SLOTS) i;
    ai ← load a i;
    if decide (left ai < 0) then Some (1, matrix, result)
    else
      bj ← load b j;
      t ← TESTBIT matrix (left bj * SLOTS) (left ai);
      '(terms, matrix, result) ←
        (if t : bool
         then extractat fuel matrix result a b (left ai) (left bj) SLOTS
         else Some (0, matrix, result));
      if decide (right ai < 0) then Some (0, matrix, result)
      else
        t ← TESTBIT matrix (right bj * SLOTS) (right ai);
        if t : bool then
          '(terms', matrix, result) ←
            extractat fuel matrix result a b (right ai) (right bj) SLOTS;
          Some (terms + terms', matrix, result)
        else Some (terms, matrix, result)
  end.

(** The state of [extractbitsets] besides its loop variables: the matrix, the
    set of results, the scratch bitset, and a log of the node pairs [(i, j)]
    at which the loop called [extractat].  The log is not in the source; it
    records the calls and nothing reads it. *)
Record ExtractState := mkExtractState {
  st_matrix : list Z;
  st_results : gset Bitset;
  st_scratch : Bitset;
  st_starts : list (Z * Z)
}.

(** The loop [while i != -1: ...] of [extractbitsets] for one node [j] of
    [b]. *)
Fixpoint extractbitsets_row (fuel : nat) (a b : list Node) (j n minterms
    SLOTS : Z) (st : ExtractState) (cur idx i : Z) : option ExtractState :=
  if decide (i = -1) then Some st
  else
    match fuel with
    | O => None
    | S fuel =>
      zeroed ← memset0 (bits (st_scratch st)) 0 SLOTS;
      '(terms, matrix, result) ←
        extractat (length a) (st_matrix st) zeroed a b i j SLOTS;
      let scratch :=
        mkBitset result (tail_id (st_scratch st)) (tail_root (st_scratch st)) in
      let scratch' :=
        if decide (terms >= minterms) then setrootid scratch i n else scratch in
      let results :=
        if decide (terms >= minterms) then st_results st ∪ {[ scratch' ]}
        else st_results st in
      '(i', cur, idx) ←
        iteratesetbits (Z.to_nat SLOTS) matrix (j * SLOTS) SLOTS cur idx;
      extractbitsets_row fuel a b j n minterms SLOTS
        (mkExtractState matrix results scratch' (st_starts st ++ [(i, j)]))
        cur idx i'
    end.

(** [extractbitsets(matrix, a, b, j, n, results, minterms, scratch, SLOTS)]:
    visits the nodes of [b] top-down from [j].  The fuel bounds the depth of
    the recursion over [b]; a row has at most [64 * SLOTS] set bits. *)
Fixpoint extractbitsets (fuel : nat) (a b : list Node) (j n minterms
    SLOTS : Z) (st : ExtractState) : option ExtractState :=
  match fuel with
  | O => None
  | S fuel =>
    cur ← load (st_matrix st) (j * SLOTS);
    '(i, cur, idx) ←
      iteratesetbits (Z.to_nat SLOTS) (st_matrix st) (j * SLOTS) SLOTS cur 0;
    st ← extractbitsets_row (Z.to_nat (BITSIZE * SLOTS)) a b j n minterms SLOTS
           st cur idx i;
    bj ← load b j;
    if decide (left bj >= 0) then
      st ← extractbitsets fuel a b (left bj) n minterms SLOTS st;
      if decide (right bj >= 0) then
        extractbitsets fuel a b (right bj) n minterms SLOTS st
      else Some st
    else Some st
  end.

(** ** The calls of [extractat] *)

(** [extractat] with a log of the node pairs [(i, j)] at which it is
    entered, in the order of the calls, the call itself first.  The log is
    not in the source; it records the calls and nothing reads it. *)
Fixpoint extractat_calls (fuel : nat) (matrix result : list Z)
    (a b : list Node) (i j SLOTS : Z)
    : option (Z * list Z * list Z * list (Z * Z)) :=
  match fuel with
  | O => None
  | S fuel =>
    result ← SETBIT result 0 i;
    matrix ← CLEARBIT matrix (j * SLOTS) i;
    ai ← load a i;
    if decide (left ai < 0) then Some (1, matrix, result, [(i, j)])
    else
      bj ← load b j;
      t ← TESTBIT matrix (left bj * SLOTS) (left ai);
      '(terms, matrix, result, calls) ←
        (if t : bool
         then extractat_calls fuel matrix result a b (left ai) (left bj) SLOTS
         else Some (0, matrix, result, []));
      if decide (right ai < 0) then Some (0, matrix, result, (i, j) :: calls)
      else
        t ← TESTBIT matrix (right bj * SLOTS) (right ai);
        if t : bool then
          '(terms', matrix, result, calls') ←
            extractat_calls fuel matrix result a b (right ai) (right bj) SLOTS;
          Some (terms + terms', matrix, result, (i, j) :: calls ++ calls')
        else Some (terms, matrix, result, (i, j) :: calls)
  end.

(** One extraction of the loop of [extractbitsets]: the node pairs at which
    [extractat] was entered, and the bitset that was added to the results,
    if the extraction had enough terminals. *)
Definition extraction : Type := list (Z * Z) * option Bitset.

(** [extractbitsets_row] with the log of its extractions. *)
Fixpoint extractbitsets_row_calls (fuel : nat) (a b : list Node) (j n minterms
    SLOTS : Z) (st : ExtractState) (cur idx i : Z)
    : option (ExtractState * list extraction) :=
  if decide (i = -1) then Some (st, [])
  else
    match fuel with
    | O => None
    | S fuel =>
      zeroed ← memset0 (bits (st_scratch st)) 0 SLOTS;
      '(terms, matrix, result, calls) ←
        extractat_calls (length a) (st_matrix st) zeroed a b i j SLOTS;
      let scratch :=
        mkBitset result (tail_id (st_scratch st)) (tail_root (st_scratch st)) in
      let scratch' :=
        if decide (terms >= minterms) then setrootid scratch i n else scratch in
      let results :=
        if decide (terms >= minterms) then st_results st ∪ {[ scratch' ]}
        else st_results st in
      '(i', cur, idx) ←
        iteratesetbits (Z.to_nat SLOTS) matrix (j * SLOTS) SLOTS cur idx;
      '(st', log) ←
        extractbitsets_row_calls fuel a b j n minterms SLOTS
          (mkExtractState matrix results scratch' (st_starts st ++ [(i, j)]))
          cur idx i';
      Some (st',
            (calls, if decide (terms >= minterms) then Some scratch' else None)
            :: log)
    end.

(** [extractbitsets] with the log of its extractions. *)
Fixpoint extractbitsets_calls (fuel : nat) (a b : list Node) (j n minterms
    SLOTS : Z) (st : ExtractState)
    : option (ExtractState * list extraction) :=
  match fuel with
  | O => None
  | S fuel =>
    cur ← load (st_matrix st) (j * SLOTS);
    '(i, cur, idx) ←
      iteratesetbits (Z.to_nat SLOTS) (st_matrix st) (j * SLOTS) SLOTS cur 0;
    '(st, log) ←
      extractbitsets_row_calls (Z.to_nat (BITSIZE * SLOTS)) a b j n minterms
        SLOTS st cur idx i;
    bj ← load b j;
    if decide (left bj >= 0) then
      '(st, logl) ← extractbitsets_calls fuel a b (left bj) n minterms SLOTS st;
      if decide (right bj >= 0) then
        '(st, logr) ←
          extractbitsets_calls fuel a b (right bj) n minterms SLOTS st;
        Some (st, log ++ logl ++ logr)
      else Some (st, log ++ logl)
    else Some (st, log)
  end.

(** ** The tree arena *)

(** [NodeArray] of [containers.pxd]: a tree as a slice of the node pool. *)
Record NodeArray := mkNodeArray { na_offset : Z; na_len : Z; na_root : Z }.

(** [Ctrees]: the pool of nodes, the sequence of trees, the counters, and the
    index from productions to the trees that contain them ([None] until
    [indextrees] has run).  The lists [ct_trees] and [ct_nodes] are the
    allocations, up to their capacity; the cells beyond [ct_len] and
    [ct_numnodes] are not part of any tree. *)
Record Ctrees := mkCtrees {
  ct_trees : list NodeArray;
  ct_nodes : list Node;
  ct_len : Z;
  ct_max : Z;
  ct_numnodes : Z;
  ct_maxnodes : Z;
  ct_nodesleft : Z;
  ct_treeswithprod : option (list (gset Z))
}.

(** The nodes [&self.nodes[a.offset]] of a tree, [a.len] of them.  A read
    past the end of the slice is treated as undefined even where the pool
    continues with the next tree. *)
Definition slice (nodes : list Node) (a : NodeArray) : list Node :=
  take (Z.to_nat (na_len a)) (drop (Z.to_nat (na_offset a)) nodes).

(** Memory obtained from [realloc]: the old contents, followed by cells
    whose contents are arbitrary ([junk]). *)
Definition grow {A} (junk : nat → A) (l : list A) (n : Z) : list A :=
  take (Z.to_nat n) l
  ++ (junk <$> seq (length l) (Z.to_nat n - length l)).

(** A Python tree node as [copynodes] sees it: whether it is a [Tree], its
    [prod] and [rootidx] attributes if present, and its children; a child is
    an integer (a terminal index) or an object, with its [idx] attribute if
    it has one. *)
Inductive pychild :=
  | ChildInt (k : Z)
  | ChildObj (idx : option Z).

Inductive pyitem (P : Type) :=
  | NotTree
  | TreeNode (prod : option P) (rootidx : option Z) (children : list pychild).
Global Arguments NotTree {P}.
Global Arguments TreeNode {P} prod rootidx children.

Definition set_prod (x : Z) (n : Node) : Node := mkNode x (left n) (right n).
Definition set_left (x : Z) (n : Node) : Node := mkNode (prod n) x (right n).
Definition set_right (x : Z) (n : Node) : Node := mkNode (prod n) (left n) x.

(** [a[k].field = x] on an array of structs. *)
Definition update {A} (a : list A) (k : Z) (f : A → A) : option (list A) :=
  x ← load a k; store a k (f x).

Section arena.
Context {P : Type} `{Countable P}.
Context (junk_node : nat → Node) (junk_tree : nat → NodeArray).

(** [Ctrees.alloc(numtrees, numnodes)]; allocation is taken to succeed. *)
Definition alloc (self : Ctrees) (numtrees numnodes : Z) : Ctrees :=
  mkCtrees (grow junk_tree [] numtrees) (grow junk_node [] numnodes)
    (ct_len self) numtrees (ct_numnodes self) (ct_maxnodes self) numnodes
    (ct_treeswithprod self).

(** [Ctrees.realloc(numtrees, extranodes)]; allocation is taken to
    succeed. *)
Definition realloc (self : Ctrees) (numtrees extranodes : Z) : Ctrees :=
  let self :=
    if decide (numtrees > ct_max self) then
      let numtrees :=
        numtrees + (Z.shiftr numtrees 3 + (if decide (numtrees < 9) then 3 else 6))
      in
      mkCtrees (grow junk_tree (ct_trees self) numtrees) (ct_nodes self)
        (ct_len self) numtrees (ct_numnodes self) (ct_maxnodes self)
        (ct_nodesleft self) (ct_treeswithprod self)
    else self in
  if decide (extranodes > ct_nodesleft self) then
    let numnodes := ct_numnodes self + extranodes in
    let numnodes :=
      numnodes + (Z.shiftr numnodes 3 + (if decide (numnodes < 9) then 3 else 6))
    in
    mkCtrees (ct_trees self) (grow junk_node (ct_nodes self) numnodes)
      (ct_len self) (ct_max self) (ct_numnodes self) (ct_maxnodes self)
      (numnodes - ct_numnodes self) (ct_treeswithprod self)
  else self.

(** The body of the loop of [copynodes] for item [a] at [result[k]]: the
    outcome and the node array after it. *)
Definition copynode (a : pyitem P) (prods : gmap P Z) (result : list Node)
    (k : Z) : res unit * list Node :=
  match a with
  | NotTree => (Raise (ValueError "Expected Tree node"), result)
  | TreeNode p _ children =>
    if decide (1 ≤ length children ≤ 2)%nat then
      match p with
      | None => (Raise AttributeError, result)
      | Some p =>
        match prods !! p with
        | None => (Raise KeyError, result)
        | Some id =>
          match py_to_int id with
          | Ok id =>
            match update result k (set_prod id) with
            | None => (Undefined, result)
            | Some result =>
              match children with
              | ChildInt t :: _ =>
                match py_to_short (- t - 1) with
                | Ok l =>
                  match update result k (set_left l) with
                  | None => (Undefined, result)
                  | Some result => (Ok (), result)
                  end
                | r => (_ ← r; Ok (), result)
                end
              | ChildObj None :: _ => (Raise AttributeError, result)
              | ChildObj (Some l) :: rest =>
                match py_to_short l with
                | Ok l =>
                  match update result k (set_left l) with
                  | None => (Undefined, result)
                  | Some result =>
                    match rest with
                    | [] =>
                      match update result k (set_right (-1)) with
                      | None => (Undefined, result)
                      | Some result => (Ok (), result)
                      end
                    | ChildObj (Some r) :: _ =>
                      match py_to_short r with
                      | Ok r =>
                        match update result k (set_right r) with
                        | None => (Undefined, result)
                        | Some result => (Ok (), result)
                        end
                      | e => (_ ← e; Ok (), result)
                      end
                    | _ :: _ => (Raise AttributeError, result)
                    end
                  end
                | r => (_ ← r; Ok (), result)
                end
              | [] => (Undefined, result)
              end
            end
          | r => (_ ← r; Ok (), result)
          end
        end
      end
    else (Raise (ValueError "trees must be non-empty and binarized"), result)
  end.

(** [copynodes(tree, prods, &nodes[base])], from item [n] on. *)
Fixpoint copynodes (tree : list (pyitem P)) (prods : gmap P Z)
    (nodes : list Node) (base n : Z) : res unit * list Node :=
  match tree with
  | [] => (Ok (), nodes)
  | a :: tree =>
    match copynode a prods nodes (base + n) with
    | (Ok _, nodes) => copynodes tree prods nodes base (n + 1)
    | r => r
    end
  end.

Definition with_nodes (self : Ctrees) (nodes : list Node) : Ctrees :=
  mkCtrees (ct_trees self) nodes (ct_len self) (ct_max self)
    (ct_numnodes self) (ct_maxnodes self) (ct_nodesleft self)
    (ct_treeswithprod self).

Definition with_trees (self : Ctrees) (trees : list NodeArray) : Ctrees :=
  mkCtrees trees (ct_nodes self) (ct_len self) (ct_max self)
    (ct_numnodes self) (ct_maxnodes self) (ct_nodesleft self)
    (ct_treeswithprod self).

Definition set_na_len (x : Z) (t : NodeArray) : NodeArray :=
  mkNodeArray (na_offset t) x (na_root t).
Definition set_na_offset (x : Z) (t : NodeArray) : NodeArray :=
  mkNodeArray x (na_len t) (na_root t).
Definition set_na_root (x : Z) (t : NodeArray) : NodeArray :=
  mkNodeArray (na_offset t) (na_len t) x.

(** The counters after a tree of [cnt] nodes has been added. *)
Definition commit (self : Ctrees) (cnt : Z) : Ctrees :=
  mkCtrees (ct_trees self) (ct_nodes self) (ct_len self + 1) (ct_max self)
    (ct_numnodes self + cnt) (Z.max (ct_maxnodes self) cnt)
    (ct_nodesleft self - cnt) (ct_treeswithprod self).

(** [Ctrees.add(tree, prods)]: the outcome and the arena after the call,
    also when the call raises. *)
Definition add (self : Ctrees) (tree : list (pyitem P)) (prods : gmap P Z)
    : res unit * Ctrees :=
  if decide (ct_max self = 0) then
    (Raise (ValueError "alloc() has not been called (max=0)."), self)
  else
    let cnt := Z.of_nat (length tree) in
    let self :=
      if decide (ct_len self >= ct_max self ∨ ct_nodesleft self < cnt)
      then realloc self (ct_len self + 1) cnt else self in
    match update (ct_trees self) (ct_len self) (set_na_len (to_short cnt)) with
    | None => (Undefined, self)
    | Some trees =>
      let self := with_trees self trees in
      match update (ct_trees self) (ct_len self)
              (set_na_offset (ct_numnodes self)) with
      | None => (Undefined, self)
      | Some trees =>
        let self := with_trees self trees in
        match copynodes tree prods (ct_nodes self) (ct_numnodes self) 0 with
        | (Ok _, nodes) =>
          let self := with_nodes self nodes in
          match tree with
          | [] => (Raise IndexError, self)
          | TreeNode _ (Some rootidx) _ :: _ =>
            match py_to_short rootidx with
            | Ok rootidx =>
              match update (ct_trees self) (ct_len self) (set_na_root rootidx)
              with
              | None => (Undefined, self)
              | Some trees => (Ok (), commit (with_trees self trees) cnt)
              end
            | r => (_ ← r; Ok (), self)
            end
          | _ :: _ => (Raise AttributeError, self)
          end
        | (r, nodes) => (r, with_nodes self nodes)
        end
      end
    end.

End arena.

(** ** Adding a tree given as an array of nodes *)

(** [sorted(l, key=key)]: Python's sort is stable, and a stable sort has one
    result; here by insertion, an element going before the first element
    whose key is not smaller. *)
Fixpoint insert_by {A} (key : A → Z) (x : A) (l : list A) : list A :=
  match l with
  | [] => [x]
  | y :: l' => if decide (key x ≤ key y) then x :: l else y :: insert_by key x l'
  end.

Definition sorted_by {A} (key : A → Z) (l : list A) : list A :=
  foldr (insert_by key) [] l.

(** [{n: source[n].prod for n in range(cnt)}]. *)
Definition prodsintree (source : list Node) (cnt : Z) : option (gmap Z Z) :=
  foldr (λ n acc, d ← acc; nd ← load source n; Some (<[n := prod nd]> d))
    (Some ∅) (seqZ 0 cnt).

(** [{m: n for n, m in enumerate(sorted(range(cnt), key=prodsintree.get))}];
    [dict.get] of a missing key is [None], which does not occur for the keys
    in [range(cnt)]. *)
Definition sortidx (prods : gmap Z Z) (cnt : Z) : gmap Z Z :=
  list_to_map
    (zip (sorted_by (λ n, default 0 (prods !! n)) (seqZ 0 cnt)) (seqZ 0 cnt)).

(** [d[k]] on a dict of integers. *)
Definition py_getitem (d : gmap Z Z) (k : Z) : res Z :=
  match d !! k with
  | Some v => Ok v
  | None => Raise KeyError
  end.

Section addnodes.
Context (junk_node : nat → Node) (junk_tree : nat → NodeArray).
(** The order in which a dict is iterated. *)
Context (dict_items : gmap Z Z → list (Z * Z)).

(** The body of the loop [for n, m in sortidx.iteritems()] of [addnodes]. *)
Definition addnodes_body (source : list Node) (sidx : gmap Z Z) (base : Z)
    (nodes : list Node) (nm : Z * Z) : res unit * list Node :=
  let '(n, m) := nm in
  match load source n with
  | None => (Undefined, nodes)
  | Some src =>
    match store nodes (base + m) src with
    | None => (Undefined, nodes)
    | Some nodes =>
      if decide (left src >= 0) then
        match l ← py_getitem sidx (left src); py_to_short l with
        | Ok l =>
          match update nodes (base + m) (set_left l) with
          | None => (Undefined, nodes)
          | Some nodes =>
            if decide (right src >= 0) then
              match r ← py_getitem sidx (right src); py_to_short r with
              | Ok r =>
                match update nodes (base + m) (set_right r) with
                | None => (Undefined, nodes)
                | Some nodes => (Ok (), nodes)
                end
              | e => (_ ← e; Ok (), nodes)
              end
            else (Ok (), nodes)
          end
        | e => (_ ← e; Ok (), nodes)
        end
      else (Ok (), nodes)
    end
  end.

Fixpoint addnodes_loop (source : list Node) (sidx : gmap Z Z) (base : Z)
    (nodes : list Node) (items : list (Z * Z)) : res unit * list Node :=
  match items with
  | [] => (Ok (), nodes)
  | nm :: items =>
    match addnodes_body source sidx base nodes nm with
    | (Ok _, nodes) => addnodes_loop source sidx base nodes items
    | r => r
    end
  end.

(** [Ctrees.addnodes(source, cnt, root)]: the outcome and the arena after
    the call. *)
Definition addnodes (self : Ctrees) (source : list Node) (cnt root : Z)
    : res unit * Ctrees :=
  if decide (ct_max self = 0) then
    (Raise (ValueError "alloc() has not been called (max=0)."), self)
  else
    let self :=
      if decide (ct_len self >= ct_max self ∨ ct_nodesleft self < cnt)
      then realloc junk_node junk_tree self (ct_len self + 1) cnt else self in
    match prodsintree source cnt with
    | None => (Undefined, self)
    | Some prods =>
      let sidx := sortidx prods cnt in
      match addnodes_loop source sidx (ct_numnodes self) (ct_nodes self)
              (dict_items sidx) with
      | (Ok _, nodes) =>
        let self := with_nodes self nodes in
        match update (ct_trees self) (ct_len self)
                (set_na_offset (ct_numnodes self)) with
        | None => (Undefined, self)
        | Some trees =>
          let self := with_trees self trees in
          match r ← py_getitem sidx root; py_to_short r with
          | Ok r =>
            match update (ct_trees self) (ct_len self) (set_na_root r) with
            | None => (Undefined, self)
            | Some trees =>
              let self := with_trees self trees in
              match update (ct_trees self) (ct_len self)
                      (set_na_len (to_short cnt)) with
              | None => (Undefined, self)
              | Some trees => (Ok (), commit (with_trees self trees) cnt)
              end
            end
          | e => (_ ← e; Ok (), self)
          end
        end
      | (r, nodes) => (r, with_nodes self nodes)
      end
    end.

End addnodes.

(** ** The index from productions to trees *)

(** [result[p].add(n)] on a list of sets. *)
Definition index_add (result : list (gset Z)) (p n : Z)
    : res (list (gset Z)) :=
  k ← py_slot result p;
  s ← of_option (result !! k);
  Ok (<[k := s ∪ {[ n ]}]> result).

(** The loop [for m in range(a.len)] of [indextrees] for tree [n]. *)
Definition indextree (self : Ctrees) (result : list (gset Z)) (n : Z)
    : res (list (gset Z)) :=
  a ← of_option (load (ct_trees self) n);
  foldl (λ acc m, result ← acc;
           nd ← of_option (load (slice (ct_nodes self) a) m);
           index_add result (prod nd) n)
    (Ok result) (seqZ 0 (na_len a)).

(** [Ctrees.indextrees(prods)], with [numprods = len(prods)]: the value it
    assigns to [self.treeswithprod]. *)
Definition indextrees_result (self : Ctrees) (numprods : nat)
    : res (list (gset Z)) :=
  foldl (λ acc n, result ← acc; indextree self result n)
    (Ok (replicate numprods ∅)) (seqZ 0 (ct_len self)).

Definition indextrees (self : Ctrees) (numprods : nat) : res Ctrees :=
  result ← indextrees_result self numprods;
  Ok (mkCtrees (ct_trees self) (ct_nodes self) (ct_len self) (ct_max self)
        (ct_numnodes self) (ct_maxnodes self) (ct_nodesleft self)
        (Some result)).

(** ** Loops of Python-level functions *)

(** [for x in l: s = body(x, s)], stopping at the first exception. *)
Fixpoint for_each {A St} (l : list A) (s : St) (body : A → St → res St)
    : res St :=
  match l with
  | [] => Ok s
  | x :: l => s ← body x s; for_each l s body
  end.

(** [range(lo, hi)]. *)
Definition range (lo hi : Z) : list Z := seqZ lo (hi - lo).

(** ** Complementary fragments *)

(** Modelled from the spec: [setunioninplace] of [discodop.bit] is not part
    of the sources; the spec lists it as the union in place of two bitsets
    of [SLOTS] words. *)
Definition setunioninplace (dest src : list Z) (SLOTS : Z) : option (list Z) :=
  if decide (0 ≤ SLOTS ≤ Z.of_nat (length dest) ∧
             SLOTS ≤ Z.of_nat (length src)) then
    Some (zip_with Z.lor (take (Z.to_nat SLOTS) dest) (take (Z.to_nat SLOTS) src)
            ++ drop (Z.to_nat SLOTS) dest)
  else None.

Section fragments.
(** The contents of memory obtained from [malloc]: word [k] of the buffer
    allocated for the matrix and for the scratch bitset, and of the buffer
    allocated at node [i] of a tree by [extractcompbitsets]. *)
Context (junk_word : nat → Z) (junk_at : Z → nat → Z).
(** The order in which a Python set is iterated. *)
Context (iter_ints : gset Z → list Z) (iter_bitsets : gset Bitset → list Bitset).
(** Labels and sentences, and the key under which a fragment is stored: the
    string built by [getsubtree], passed through [getsent] together with the
    sentence for discontinuous trees. *)
Context {L Sent K : Type} `{Countable K}.
Context (fragkey : list Node → Bitset → list L → Sent → bool → res K).
(** The two regular expressions on labels of [extractfragments]. *)
Context (contentword lexical : L → bool).

(** [extractcompbitsets(bitset, a, i, n, results, SLOTS, scratch)]: the
    results, and the contents of the buffer the caller passed ([None] for
    [NULL]) after the call. *)
Fixpoint extractcompbitsets (fuel : nat) (bitset : list Z) (a : list Node)
    (i n : Z) (results : gset Bitset) (SLOTS : Z) (scratch : option Bitset)
    : option (gset Bitset * option Bitset) :=
  match fuel with
  | O => None
  | S fuel =>
    t ← TESTBIT bitset 0 i;
    let start := bool_decide (scratch = None) && negb t in
    let mine :=
      if start
      then Some (setrootid (mkBitset (grow (junk_at i) [] SLOTS) 0 0) i n)
      else if t then None else scratch in
    mine ← match mine with
           | Some s =>
             bs ← SETBIT (bits s) 0 i;
             Some (Some (mkBitset bs (tail_id s) (tail_root s)))
           | None => Some None
           end;
    ai ← load a i;
    '(results, mine) ←
      (if decide (left ai >= 0) then
         '(results, mine) ←
           extractcompbitsets fuel bitset a (left ai) n results SLOTS mine;
         if decide (right ai >= 0) then
           extractcompbitsets fuel bitset a (right ai) n results SLOTS mine
         else Some (results, mine)
       else Some (results, mine));
    if start then
      match mine with
      | Some s => Some (results ∪ {[ s ]}, scratch)
      | None => None
      end
    else Some (results, if t then scratch else mine)
  end.

(** ** A pair of trees *)

(** The buffers [extractfragments] allocates once, and the set of bitsets of
    the current tree; [pr_starts] is the log of [extractbitsets] for the
    last pair. *)
Record PairState := mkPairState {
  pr_matrix : list Z;
  pr_scratch : Bitset;
  pr_inter : gset Bitset;
  pr_starts : list (Z * Z)
}.

(** [extractfrompair(a, anodes, trees2, n, m, complement, debug, asent,
    sents, labels, inter, minterms, matrix, scratch, SLOTS)] with
    [debug = False]. *)
Definition extractfrompair (a : NodeArray) (anodes : list Node)
    (trees2 : Ctrees) (n m : Z) (complement : bool) (minterms SLOTS : Z)
    (st : PairState) : res PairState :=
  b ← of_option (load (ct_trees trees2) m);
  let bnodes := slice (ct_nodes trees2) b in
  matrix ← of_option (memset0 (pr_matrix st) 0 (na_len b * SLOTS));
  matrix ← of_option
    (fasttreekernel anodes bnodes (na_len a) (na_len b) matrix SLOTS);
  est ← of_option
    (extractbitsets (length bnodes) anodes bnodes (na_root b) n minterms SLOTS
       (mkExtractState matrix (pr_inter st) (pr_scratch st) []));
  if complement then
    zeroed ← of_option (memset0 (bits (st_scratch est)) 0 SLOTS);
    union ← for_each (iter_bitsets (st_results est)) zeroed
               (λ wrapper u, of_option (setunioninplace u (bits wrapper) SLOTS));
    let scratch :=
      mkBitset union (tail_id (st_scratch est)) (tail_root (st_scratch est)) in
    '(inter, _) ← of_option
      (extractcompbitsets (length anodes) union anodes (na_root a) n
         (st_results est) SLOTS None);
    Ok (mkPairState (st_matrix est) scratch inter (st_starts est))
  else
    Ok (mkPairState (st_matrix est) (st_scratch est) (st_results est)
          (st_starts est)).

(** ** Pairs of trees that share two words *)

(** [trees2.treeswithprod[p]]. *)
Definition treeswithprod_at (trees : Ctrees) (p : Z) : res (gset Z) :=
  match ct_treeswithprod trees with
  | None => Raise TypeError
  | Some index => py_index index p
  end.

(** [twoterminals(a, anodes, trees2, contentwordprods, lexicalprods)]. *)
Definition twoterminals (a : NodeArray) (anodes : list Node) (trees2 : Ctrees)
    (contentwordprods lexicalprods : gset Z) : res (gset Z) :=
  for_each (range 0 (na_len a)) ∅ (λ i candidates,
    ai ← of_option (load anodes i);
    if decide (left ai >= 0 ∨ prod ai ∉ contentwordprods) then Ok candidates
    else
      tmp ← treeswithprod_at trees2 (prod ai);
      for_each (range 0 (na_len a)) candidates (λ j candidates,
        aj ← of_option (load anodes j);
        if decide (i ≠ j ∧ left aj < 0 ∧ prod aj ∈ lexicalprods) then
          other ← treeswithprod_at trees2 (prod aj);
          Ok (candidates ∪ (tmp ∩ other))
        else Ok candidates)).

(** ** Collecting the fragments of a tree *)

(** A value of the dict returned by [extractfragments]: a count when
    [approx] is set, else a bitset. *)
Inductive fragval :=
  | Count (c : Z)
  | Repr (wrapper : Bitset).

(** [collectfragments(fragments, inter, anodes, asent, labels, discontinuous,
    approx, tmp, SLOTS)]: the dict after the call; the caller's [inter] is
    empty afterwards. *)
Definition collectfragments (fragments : gmap K fragval) (inter : gset Bitset)
    (anodes : list Node) (asent : Sent) (labels : list L)
    (discontinuous approx : bool) : res (gmap K fragval) :=
  for_each (iter_bitsets inter) fragments (λ wrapper fragments,
    frag ← fragkey anodes wrapper labels asent discontinuous;
    if approx then
      match fragments !! frag with
      | Some (Count c) => Ok (<[frag := Count (c + 1)]> fragments)
      | Some (Repr _) => Raise TypeError
      | None => Ok (<[frag := Count 1]> fragments)
      end
    else
      match fragments !! frag with
      | Some _ => Ok fragments
      | None => Ok (<[frag := Repr wrapper]> fragments)
      end).

(** ** The driver *)

(** [{n for n, label in enumerate(labels) if match(label)}]. *)
Definition matching_prods (matches : L → bool) (labels : list L) : gset Z :=
  list_to_set (omap (λ '(n, label), if matches label : bool then Some n else None)
                 (zip (seqZ 0 (Z.of_nat (length labels))) labels)).

(** The trees of [trees1] the loop of [extractfragments] works on:
    [range(offset, min(end or trees1.len, trees1.len))]. *)
Definition worklist (offset end_ len : Z) : list Z :=
  range offset (Z.min (if decide (end_ = 0) then len else end_) len).

(** The state of the loop over [n]: the dict, the buffers, and [start]. *)
Record DriverState := mkDriverState {
  dr_fragments : gmap K fragval;
  dr_pair : PairState;
  dr_start : Z
}.

(** The body of the loop [for n in range(...)] of [extractfragments];
    [same] says that [trees2] was not given, [sents2_none] that [sents2]
    was not given. *)
Definition extractfragments_body (trees1 : Ctrees) (sents1 : list Sent)
    (labels : list L) (trees2 : Ctrees) (sents2_none : bool)
    (approx discontinuous complement twoterms adjacent : bool)
    (contentwordprods lexicalprods : gset Z) (minterms SLOTS : Z)
    (n : Z) (st : DriverState) : res DriverState :=
  a ← of_option (load (ct_trees trees1) n);
  asent ← py_index sents1 n;
  let anodes := slice (ct_nodes trees1) a in
  '(pst, start) ←
    (if adjacent then
       let m := n + 1 in
       if decide (m < ct_len trees2) then
         pst ← extractfrompair a anodes trees2 n m complement minterms SLOTS
                  (dr_pair st);
         Ok (pst, dr_start st)
       else Ok (dr_pair st, dr_start st)
     else if twoterms then
       candidates ← twoterminals a anodes trees2 contentwordprods lexicalprods;
       pst ← for_each (iter_ints candidates) (dr_pair st) (λ m pst,
         if decide (sents2_none = true ∧ m <= n) then Ok pst
         else if decide (m < 0 ∨ m >= ct_len trees2) then
           Raise (ValueError "illegal index")
         else extractfrompair a anodes trees2 n m complement minterms SLOTS pst);
       Ok (pst, dr_start st)
     else
       let start := if sents2_none then n + 1 else dr_start st in
       pst ← for_each (range start (ct_len trees2)) (dr_pair st) (λ m pst,
         extractfrompair a anodes trees2 n m complement minterms SLOTS pst);
       Ok (pst, start));
  fragments ← collectfragments (dr_fragments st) (pr_inter pst) anodes asent
                 labels discontinuous approx;
  Ok (mkDriverState fragments
        (mkPairState (pr_matrix pst) (pr_scratch pst) ∅ (pr_starts pst))
        start).

(** [extractfragments(trees1, sents1, offset, end, labels, trees2, sents2,
    approx, debug, discontinuous, complement, twoterms, adjacent)] with
    [debug = False]; allocation is taken to succeed. *)
Definition extractfragments (trees1 : Ctrees) (sents1 : list Sent)
    (offset end_ : Z) (labels : list L) (trees2 : option Ctrees)
    (sents2 : option (list Sent))
    (approx discontinuous complement twoterms adjacent : bool)
    : res (gmap K fragval) :=
  let minterms := if twoterms then 2 else 0 in
  let contentwordprods :=
    if twoterms then matching_prods contentword labels else ∅ in
  let lexicalprods := if twoterms then matching_prods lexical labels else ∅ in
  let sents2_none := bool_decide (sents2 = None) in
  let trees2 := default trees1 trees2 in
  let SLOTS := BITNSLOTS (Z.max (ct_maxnodes trees1) (ct_maxnodes trees2) + 1) in
  let matrix := grow junk_word [] (ct_maxnodes trees2 * SLOTS) in
  let scratch := mkBitset (grow junk_word [] SLOTS) (junk_word 0) (junk_word 1) in
  st ← for_each (worklist offset end_ (ct_len trees1))
         (mkDriverState ∅ (mkPairState matrix scratch ∅ []) 0)
         (extractfragments_body trees1 sents1 labels trees2 sents2_none
            approx discontinuous complement twoterms adjacent
            contentwordprods lexicalprods minterms SLOTS);
  Ok (dr_fragments st).

End fragments.

(** The log of the extractions of
    [extractfrompair(a, anodes, trees2, n, m, ...)]: the steps of
    [extractfrompair] up to the call of [extractbitsets], which is the only
    one to call [extractat]. *)
Definition extractfrompair_calls (a : NodeArray) (anodes : list Node)
    (trees2 : Ctrees) (n m minterms SLOTS : Z) (st : PairState)
    : option (list extraction) :=
  b ← load (ct_trees trees2) m;
  let bnodes := slice (ct_nodes trees2) b in
  matrix ← memset0 (pr_matrix st) 0 (na_len b * SLOTS);
  matrix ← fasttreekernel anodes bnodes (na_len a) (na_len b) matrix SLOTS;
  '(_, log) ←
    extractbitsets_calls (length bnodes) anodes bnodes (na_root b) n minterms
      SLOTS (mkExtractState matrix (pr_inter st) (pr_scratch st) []);
  Some log.

(** ** Exact counts *)

(** [containsbitset(a, b, bitset, i, j)]; the recursion follows the children
    of [a[i]], the fuel is the number of nodes of [a]. *)
Fixpoint containsbitset (fuel : nat) (a b : list Node) (bitset : list Z)
    (i j : Z) : option bool :=
  match fuel with
  | O => None
  | S fuel =>
    ai ← load a i;
    bj ← load b j;
    if decide (prod ai ≠ prod bj) then Some false
    else if decide (left ai < 0) then Some true
    else
      tl ← TESTBIT bitset 0 (left ai);
      l ← (if tl : bool
           then containsbitset fuel a b bitset (left ai) (left bj)
           else Some true);
      if negb l then Some false
      else if decide (right ai < 0) then Some true
      else
        tr ← TESTBIT bitset 0 (right ai);
        if tr : bool
        then containsbitset fuel a b bitset (right ai) (right bj)
        else Some true
  end.

Section exactcounts.
Context (iter_ints : gset Z → list Z).
(** What a match in tree [m] does to the entry of a fragment: [countsp[n] +=
    1] on an array of [uint32_t], or [matches[m] += 1] on a multiset. *)
Context {Acc : Type} (hit : Z → Acc → Acc).

(** The loop [for j in range(b.len)] of [exactcounts], from [j] on. *)
Fixpoint exactcounts_tree (js : list Z) (anodes bnodes : list Node)
    (bitset : list Z) (i m : Z) (acc : Acc) : option Acc :=
  match js with
  | [] => Some acc
  | j :: js =>
    ai ← load anodes i;
    bj ← load bnodes j;
    if decide (prod ai = prod bj) then
      c ← containsbitset (length anodes) anodes bnodes bitset i j;
      exactcounts_tree js anodes bnodes bitset i m (if c : bool then hit m acc else acc)
    else if decide (prod ai < prod bj) then Some acc
    else exactcounts_tree js anodes bnodes bitset i m acc
  end.

(** The loop [while True: i = iteratesetbits(...); if i == -1 or i >= a.len:
    break; candidates &= ...]. *)
Fixpoint exactcounts_candidates (fuel : nat) (trees2 : Ctrees)
    (a : NodeArray) (anodes : list Node) (bitset : list Z) (SLOTS : Z)
    (cur idx : Z) (candidates : gset Z) : res (gset Z) :=
  match fuel with
  | O => Undefined
  | S fuel =>
    '(i, cur, idx) ← of_option
      (iteratesetbits (Z.to_nat SLOTS) bitset 0 SLOTS cur idx);
    if decide (i = -1 ∨ i >= na_len a) then Ok candidates
    else
      ai ← of_option (load anodes i);
      other ← treeswithprod_at trees2 (prod ai);
      exactcounts_candidates fuel trees2 a anodes bitset SLOTS cur idx
        (candidates ∩ other)
  end.

(** The body of the loop [for n, wrapper in enumerate(bitsets)]: the entry
    of the fragment [wrapper], starting from [acc]. *)
Definition exactcounts_one (trees1 trees2 : Ctrees) (SLOTS : Z)
    (wrapper : Bitset) (acc : Acc) : res Acc :=
  let bitset := bits wrapper in
  id ← of_option (getid wrapper SLOTS);
  a ← of_option (load (ct_trees trees1) id);
  let anodes := slice (ct_nodes trees1) a in
  cur ← of_option (load bitset 0);
  '(i, cur, idx) ← of_option
    (iteratesetbits (Z.to_nat SLOTS) bitset 0 SLOTS cur 0);
  if decide (i = -1) then Raise AssertionError
  else
    ai ← of_option (load anodes i);
    first ← treeswithprod_at trees2 (prod ai);
    candidates ← exactcounts_candidates (Z.to_nat (BITSIZE * SLOTS)) trees2 a
                    anodes bitset SLOTS cur idx first;
    i ← of_option (getroot wrapper SLOTS);
    for_each (iter_ints candidates) acc (λ m acc,
      b ← of_option (load (ct_trees trees2) m);
      let bnodes := slice (ct_nodes trees2) b in
      of_option
        (exactcounts_tree (range 0 (na_len b)) anodes bnodes bitset i m acc)).

End exactcounts.

(** [countsp[n] += 1] on an array of [uint32_t]. *)
Definition count_hit (m : Z) (c : Z) : Z := (c + 1) `mod` 2 ^ 32.

(** [matches[m] += 1] on a [Counter]. *)
Definition index_hit (m : Z) (matches : gmap Z Z) : gmap Z Z :=
  <[m := default 0 (matches !! m) + 1]> matches.

(** [exactcounts(trees1, trees2, bitsets, indices=False)]: the array of
    counts. *)
Definition exactcounts (iter_ints : gset Z → list Z) (trees1 trees2 : Ctrees)
    (bitsets : list Bitset) : res (list Z) :=
  let SLOTS := BITNSLOTS (Z.max (ct_maxnodes trees1) (ct_maxnodes trees2) + 1) in
  for_each bitsets [] (λ wrapper counts,
    c ← exactcounts_one iter_ints count_hit trees1 trees2 SLOTS wrapper 0;
    Ok (counts ++ [c])).

(** [exactcounts(trees1, trees2, bitsets, indices=True)]: the list of
    multisets of tree numbers. *)
Definition exactindices (iter_ints : gset Z → list Z) (trees1 trees2 : Ctrees)
    (bitsets : list Bitset) : res (list (gmap Z Z)) :=
  let SLOTS := BITNSLOTS (Z.max (ct_maxnodes trees1) (ct_maxnodes trees2) + 1) in
  for_each bitsets [] (λ wrapper theindices,
    ms ← exactcounts_one iter_ints index_hit trees1 trees2 SLOTS wrapper ∅;
    Ok (theindices ++ [ms])).

(** ** One bitset for each production *)

Section coverbitsets.
Context (junk_word : nat → Z).
Context (iter_ints : gset Z → list Z).
Context {L Sent K : Type} `{Countable K}.
Context (fragkey : list Node → Bitset → list L → Sent → bool → res K).

(** The loop [for i in range(trees.trees[n].len): if nodes[i].prod == p: ...
    break] with its [else] branch: the scratch bitset with the bit and the
    tail set, and [i]. *)
Fixpoint coverbitsets_find (is_ : list Z) (nodes : list Node) (p n : Z)
    (scratch : Bitset) : res (Bitset * Z) :=
  match is_ with
  | [] => Raise (ValueError "production not found. wrong index?")
  | i :: is_ =>
    nd ← of_option (load nodes i);
    if decide (prod nd = p) then
      bs ← of_option (SETBIT (bits scratch) 0 i);
      Ok (setrootid (mkBitset bs (tail_id scratch) (tail_root scratch)) i n, i)
    else coverbitsets_find is_ nodes p n scratch
  end.

(** The body of the loop [for p, treeindices in enumerate(...)]: the result
    dict and the scratch bitset after it. *)
Definition coverbitsets_body (trees : Ctrees) (sents : list Sent)
    (labels : list L) (SLOTS : Z) (discontinuous : bool)
    (ptreeindices : Z * gset Z) (st : gmap K Bitset * Bitset)
    : res (gmap K Bitset * Bitset) :=
  let '(p, treeindices) := ptreeindices in
  let '(result, scratch) := st in
  match iter_ints treeindices with
  | [] => Ok (result, scratch)
  | n :: _ =>
    t ← of_option (load (ct_trees trees) n);
    let nodes := slice (ct_nodes trees) t in
    zeroed ← of_option (memset0 (bits scratch) 0 SLOTS);
    let scratch := mkBitset zeroed (tail_id scratch) (tail_root scratch) in
    '(scratch, i) ← coverbitsets_find (range 0 (na_len t)) nodes p n scratch;
    sent ← py_index sents n;
    frag ← fragkey nodes scratch labels sent discontinuous;
    Ok (<[frag := scratch]> result, scratch)
  end.

(** [coverbitsets(trees, sents, labels, maxnodes, discontinuous)]; allocation
    is taken to succeed. *)
Definition coverbitsets (trees : Ctrees) (sents : list Sent) (labels : list L)
    (maxnodes : Z) (discontinuous : bool) : res (gmap K Bitset) :=
  let SLOTS := BITNSLOTS (maxnodes + 1) in
  let scratch := mkBitset (grow junk_word [] SLOTS) (junk_word 0) (junk_word 1) in
  if decide (SLOTS = 0) then Raise AssertionError
  else
    match ct_treeswithprod trees with
    | None => Raise TypeError
    | Some index =>
      st ← for_each (zip (seqZ 0 (Z.of_nat (length index))) index)
             (∅, scratch)
             (coverbitsets_body trees sents labels SLOTS discontinuous);
      Ok st.1
    end.

End coverbitsets.

(** ** Byte strings and decimal numerals *)

(** A [bytes] object as the list of its bytes. *)
Definition bytes := list ascii.

(** A byte string given by its text. *)
Definition bytes_of_string (s : string) : bytes :=
  String.list_ascii_of_string s.

Definition is_digit (c : ascii) : bool :=
  bool_decide (48 ≤ N_of_ascii c ≤ 57)%N.

(** The class [\w] of a bytes pattern: ASCII letters, digits and the
    underscore. *)
Definition is_word (c : ascii) : bool :=
  let n := N_of_ascii c in
  bool_decide ((48 ≤ n ≤ 57) ∨ (65 ≤ n ≤ 90) ∨ (97 ≤ n ≤ 122) ∨ n = 95)%N.

(** The decimal digits of a numeral. *)
Fixpoint digits (d : Decimal.uint) : bytes :=
  match d with
  | Decimal.Nil => []
  | Decimal.D0 d => "0"%char :: digits d
  | Decimal.D1 d => "1"%char :: digits d
  | Decimal.D2 d => "2"%char :: digits d
  | Decimal.D3 d => "3"%char :: digits d
  | Decimal.D4 d => "4"%char :: digits d
  | Decimal.D5 d => "5"%char :: digits d
  | Decimal.D6 d => "6"%char :: digits d
  | Decimal.D7 d => "7"%char :: digits d
  | Decimal.D8 d => "8"%char :: digits d
  | Decimal.D9 d => "9"%char :: digits d
  end.

(** [('%d' % m).encode('ascii')] for [m >= 0]. *)
Definition dec (m : Z) : bytes := digits (N.to_uint (Z.to_N m)).

(** The numeral that a string of decimal digits denotes. *)
Fixpoint numeral (s : bytes) : option Decimal.uint :=
  match s with
  | [] => Some Decimal.Nil
  | c :: s =>
    d ← numeral s;
    match N_of_ascii c with
    | 48%N => Some (Decimal.D0 d)
    | 49%N => Some (Decimal.D1 d)
    | 50%N => Some (Decimal.D2 d)
    | 51%N => Some (Decimal.D3 d)
    | 52%N => Some (Decimal.D4 d)
    | 53%N => Some (Decimal.D5 d)
    | 54%N => Some (Decimal.D6 d)
    | 55%N => Some (Decimal.D7 d)
    | 56%N => Some (Decimal.D8 d)
    | 57%N => Some (Decimal.D9 d)
    | _ => None
    end
  end.

(** [int(s)] on a non-empty string of decimal digits, which is what the
    groups [([0-9]+)] capture; Python accepts further forms (signs, blanks),
    which are left undefined here. *)
Definition py_int (s : bytes) : res Z :=
  match s with
  | [] => Raise (ValueError "invalid literal for int()")
  | _ => d ← of_option (numeral s); Ok (Z.of_N (N.of_uint d))
  end.

(** ** Regular expressions *)

(** The constructs of Python's [re] that the patterns of the module use: a
    literal byte, a byte of a class, the greedy repetition [+] of a class,
    concatenation, a greedy optional part [(?: ... )?], a capturing group
    [( ... )] and the word boundary [\b]. *)
Inductive regex :=
  | Lit (c : ascii)
  | Rep1 (p : ascii → bool)
  | Cat (r1 r2 : regex)
  | Maybe (r : regex)
  | Group (r : regex)
  | WordBoundary.

(** The greedy [+] on a class: as many bytes as possible, then fewer, until
    the rest of the pattern (the continuation [k]) matches. *)
Fixpoint rep1 {R} (p : ascii → bool) (s : bytes) (caps : list bytes)
    (k : option ascii → bytes → list bytes → option R) : option R :=
  match s with
  | [] => None
  | x :: s' =>
    if p x then
      match rep1 p s' caps k with
      | Some r => Some r
      | None => k (Some x) s' caps
      end
    else None
  end.

Definition word_at (c : option ascii) : bool :=
  match c with Some c => is_word c | None => false end.

(** The backtracking matcher: [prev] is the byte before the current
    position, [s] the input from the current position on, [caps] the groups
    captured so far (in the order of their closing parentheses, which is the
    order of the group numbers in the patterns of this module), [k] the rest
    of the pattern.  The first match in the order of Python's [re] is
    returned. *)
Fixpoint rmatch {R} (r : regex) (prev : option ascii) (s : bytes)
    (caps : list bytes) (k : option ascii → bytes → list bytes → option R)
    : option R :=
  match r with
  | Lit c =>
    match s with
    | x :: s' => if decide (x = c) then k (Some x) s' caps else None
    | [] => None
    end
  | Rep1 p => rep1 p s caps k
  | Cat r1 r2 =>
    rmatch r1 prev s caps (λ prev' s' caps', rmatch r2 prev' s' caps' k)
  | Maybe r =>
    match rmatch r prev s caps k with
    | Some x => Some x
    | None => k prev s caps
    end
  | Group r =>
    rmatch r prev s caps (λ prev' s' caps',
      k prev' s' (caps' ++ [take (length s - length s') s]))
  | WordBoundary =>
    if xorb (word_at prev) (word_at (head s)) then k prev s caps else None
  end.

(** [pattern.match] at a position: the number of bytes matched and the
    groups. *)
Definition match_at (r : regex) (prev : option ascii) (s : bytes)
    : option (nat * list bytes) :=
  rmatch r prev s [] (λ _ s' caps, Some ((length s - length s')%nat, caps)).

(** [pattern.findall(s)], scanning from left to right; [skip] bytes at the
    front belong to the previous match.  A match of the empty string (none
    of the patterns of the module has one) is left undefined. *)
Fixpoint findall (r : regex) (prev : option ascii) (s : bytes) (skip : nat)
    : option (list (list bytes)) :=
  match s with
  | [] =>
    match match_at r prev [] with
    | Some _ => None
    | None => Some []
    end
  | x :: s' =>
    match skip with
    | S skip => findall r (Some x) s' skip
    | O =>
      match match_at r prev s with
      | Some (O, _) => None
      | Some (S n, caps) => (caps ::.) <$> findall r (Some x) s' n
      | None => findall r (Some x) s' O
      end
    end
  end.

(** [pattern.sub(repl, s)] with a function [repl] of the groups. *)
Fixpoint sub (r : regex) (repl : list bytes → res bytes)
    (prev : option ascii) (s : bytes) (skip : nat) : res bytes :=
  match s with
  | [] =>
    match match_at r prev [] with
    | Some _ => Undefined
    | None => Ok []
    end
  | x :: s' =>
    match skip with
    | S skip => sub r repl (Some x) s' skip
    | O =>
      match match_at r prev s with
      | Some (O, _) => Undefined
      | Some (S n, caps) =>
        new ← repl caps;
        rest ← sub r repl (Some x) s' n;
        Ok (new ++ rest)
      | None => rest ← sub r repl (Some x) s' O; Ok (x :: rest)
      end
    end
  end.

(** [FRONTIERORTERMRE = br' ([0-9]+)(?::[0-9]+)?\b']. *)
Definition FRONTIERORTERMRE : regex :=
  Cat (Lit " ") (Cat (Group (Rep1 is_digit))
    (Cat (Maybe (Cat (Lit ":") (Rep1 is_digit))) WordBoundary)).

(** [TERMINDICESRE = br'\([^(]+ ([0-9]+)\)']. *)
Definition TERMINDICESRE : regex :=
  Cat (Lit "(") (Cat (Rep1 (λ c, negb (bool_decide (c = "("%char))))
    (Cat (Lit " ") (Cat (Group (Rep1 is_digit)) (Lit ")")))).

(** [FRONTIERRE = br' ([0-9]+):([0-9]+)\b']. *)
Definition FRONTIERRE : regex :=
  Cat (Lit " ") (Cat (Group (Rep1 is_digit))
    (Cat (Lit ":") (Cat (Group (Rep1 is_digit)) WordBoundary))).

(** ** Renumbering the leaves of a fragment *)

(** The loop [for n in sorted(spans)] of [getsent]: the sentence, the map
    from old to new indices and the counter [m]. *)
Definition getsent_body {W} (sent : list W) (leaves : list Z)
    (spans : gmap Z Z) (maxl : Z) (n : Z)
    (st : list (option W) * gmap Z bytes * Z)
    : res (list (option W) * gmap Z bytes * Z) :=
  let '(newsent, leafmap, m) := st in
  n ← py_to_int n;
  word ← (if decide (n ∈ leaves) then w ← py_index sent n; Ok (Some w)
          else Ok None);
  let newsent := newsent ++ [word] in
  let leafmap := <[n := " "%char :: dec m]> leafmap in
  m ← of_option (if decide (m + 1 < 2 ^ 31) then Some (m + 1) else None);
  stop ← of_option (spans !! n);
  if decide (spans !! stop = None ∧ n ≠ maxl) then
    m ← of_option (if decide (m + 1 < 2 ^ 31) then Some (m + 1) else None);
    Ok (newsent ++ [None], leafmap, m)
  else Ok (newsent, leafmap, m).

(** [max(spans)] of a dict with integer keys. *)
Definition py_max (keys : list Z) : res Z :=
  match keys with
  | [] => Raise (ValueError "max() arg is an empty sequence")
  | k :: keys => Ok (foldr Z.max k keys)
  end.

(** [getsent(frag, sent)]. *)
Definition getsent {W} (frag : bytes) (sent : list W)
    : res (bytes * list (option W)) :=
  frontiers ← of_option (findall FRONTIERRE None frag 0);
  spans ← for_each frontiers (∅ : gmap Z Z) (λ groups spans,
    match groups with
    | [start; end_] =>
      start ← py_int start; end_ ← py_int end_;
      Ok (<[start := end_ + 1]> spans)
    | _ => Undefined
    end);
  terminals ← of_option (findall TERMINDICESRE None frag 0);
  leaves ← for_each terminals [] (λ groups leaves,
    match groups with
    | [k] => k ← py_int k; Ok (leaves ++ [k])
    | _ => Undefined
    end);
  spans ← for_each leaves spans (λ n spans,
    n ← py_to_int n;
    stop ← of_option (if decide (n + 1 < 2 ^ 31) then Some (n + 1) else None);
    Ok (<[n := stop]> spans));
  let keys := sorted_by id (elements (dom spans)) in
  maxl ← py_max keys;
  maxl ← py_to_int maxl;
  '(newsent, leafmap, _) ←
    for_each keys ([], ∅, 0) (getsent_body sent leaves spans maxl);
  frag ← sub FRONTIERORTERMRE (λ groups,
           match groups with
           | [k] =>
             k ← py_int k;
             match leafmap !! k with
             | Some new => Ok new
             | None => Raise KeyError
             end
           | _ => Undefined
           end) None frag 0;
  Ok (frag, newsent).

(** [pygetsent(frag, sent)]: [getsent] with the fragment decoded as ASCII
    (the [print] before an exception is re-raised is not modelled). *)
Definition pygetsent {W} (frag : bytes) (sent : list W)
    : res (string * list (option W)) :=
  '(a, b) ← getsent frag sent;
  if forallb (λ c, bool_decide (N_of_ascii c < 128)%N) a
  then Ok (String.string_of_list_ascii a, b)
  else Raise UnicodeDecodeError.


(** ** Specification vocabulary *)

(** Bit [n] of word [k] of a bit array; [false] outside the array. *)
Definition wbit (m : list Z) (k n : Z) : bool :=
  match load m k with Some w => Z.testbit w n | None => false end.

(** A tree's node array is sorted by production id. *)
Definition prods_sorted (a : list Node) : Prop := Sorted Z.le (prod <$> a).

(** Nodes [a[i]] and [b[j]] exist and carry the same production. *)
Definition same_prod (a b : list Node) (i j : Z) : Prop :=
  ∃ an bn, load a i = Some an ∧ load b j = Some bn ∧ prod an = prod bn.

(** The first [blen * SLOTS] words of [m] hold exactly the cells [(i, j)]
    with equal productions that satisfy [P]: bit [i % 64] of word
    [j * SLOTS + i / 64]. *)
Definition kernel_cells (a b : list Node) (SLOTS : Z) (P : Z → Z → Prop)
    (m : list Z) : Prop :=
  ∀ k n, 0 ≤ k < Z.of_nat (length b) * SLOTS → 0 ≤ n →
    wbit m k n = true ↔
    ∃ i j, k = j * SLOTS + i `div` 64 ∧ n = i `mod` 64 ∧
           same_prod a b i j ∧ P i j.


(** The cells of the rows before [jd], and of row [jd] before column [id]. *)
Definition upto (jd id : Z) (i j : Z) : Prop := j < jd ∨ (j = jd ∧ i < id).

(** Node [i] of [a] is a terminal and its bit is set in [result]. *)
Definition absorbed_terminal (a : list Node) (result : list Z) (i : Z) : bool :=
  match load a i, TESTBIT result 0 i with
  | Some n, Some true => bool_decide (left n < 0)
  | _, _ => false
  end.

(** The number of terminals of [a] among the set bits of [result]: the
    terminals a fragment has absorbed. *)
Definition terminals_in (a : list Node) (result : list Z) : Z :=
  Z.of_nat (length (filter (λ i, Is_true (absorbed_terminal a result i))
                      (seqZ 0 (Z.of_nat (length a))))).

(** Bit [i] of row [j] of a matrix with rows of [SLOTS] words. *)
Definition cell (m : list Z) (SLOTS i j : Z) : bool :=
  wbit m (j * SLOTS + i `div` 64) (i `mod` 64).

(** Every bit set in the first [blen * SLOTS] words of [m] is the cell of a
    pair of nodes with equal productions. *)
Definition cells_sound (a b : list Node) (SLOTS : Z) (m : list Z) : Prop :=
  ∀ k n, 0 ≤ k < Z.of_nat (length b) * SLOTS → 0 ≤ n → wbit m k n = true →
    ∃ i j, k = j * SLOTS + i `div` 64 ∧ n = i `mod` 64 ∧ same_prod a b i j.

(** [m'] is [m] with some bits cleared. *)
Definition only_clears (m m' : list Z) : Prop :=
  length m' = length m ∧
  ∀ k n, 0 ≤ n → wbit m' k n = true → wbit m k n = true.

(** The node array [a] is a tree: child indices are indices of [a], and
    [rank] decreases from a node to its children (no node is its own
    descendant); ranks are below the number of nodes. *)
Definition tree_ranked (a : list Node) (rank : Z → nat) : Prop :=
  ∀ i n, load a i = Some n →
    (rank i < length a)%nat ∧
    (0 ≤ left n →
       (left n < Z.of_nat (length a) ∧ (rank (left n) < rank i)%nat) ∧
       (0 ≤ right n →
          right n < Z.of_nat (length a) ∧ (rank (right n) < rank i)%nat)).

(** Nodes with the same production have the same number of children
    ([right] is only meaningful below a non-terminal). *)
Definition same_arity (a b : list Node) : Prop :=
  ∀ i j an bn, load a i = Some an → load b j = Some bn → prod an = prod bn →
    (left an < 0 ↔ left bn < 0) ∧
    (0 ≤ left an → (right an < 0 ↔ right bn < 0)).

(** A run from matrix [m] to [m'] that started extractions at the pairs
    [tr]: each start found its cell set and left it cleared, and no pair
    occurs twice. *)
Definition starts_once (b : list Node) (SLOTS : Z) (m m' : list Z)
    (tr : list (Z * Z)) : Prop :=
  only_clears m m' ∧ NoDup tr ∧
  ∀ i j, (i, j) ∈ tr →
    0 ≤ i < 64 * SLOTS ∧ 0 ≤ j < Z.of_nat (length b) ∧
    cell m SLOTS i j = true ∧ cell m' SLOTS i j = false.

(** The cells of the nodes of [b] of rank at least [r] are the same in [m]
    and [m']. *)
Definition frame_above (b : list Node) (SLOTS : Z) (rank : Z → nat) (r : nat)
    (m m' : list Z) : Prop :=
  ∀ i' j', 0 ≤ i' < 64 * SLOTS → 0 ≤ j' < Z.of_nat (length b) →
    (r ≤ rank j')%nat → cell m' SLOTS i' j' = cell m SLOTS i' j'.

(** What a call [extractat(matrix, result, a, b, i, j, SLOTS)] does to the
    matrix [m] and the result bitset [r]: it only clears bits of the matrix,
    clears cell [(i, j)], leaves the other cells of [j] and of the nodes that
    are not below [j] as they were, and only adds bits to the result, among
    them bit [i]. *)
Definition extract_post (b : list Node) (SLOTS : Z) (rank : Z → nat)
    (i j : Z) (m r m' r' : list Z) : Prop :=
  only_clears m m' ∧ only_clears r' r ∧
  cell m' SLOTS i j = false ∧
  wbit r' (i `div` 64) (i `mod` 64) = true ∧
  ∀ i' j', 0 ≤ i' < 64 * SLOTS → 0 ≤ j' < Z.of_nat (length b) →
    (rank j ≤ rank j')%nat → (i', j') ≠ (i, j) →
    cell m' SLOTS i' j' = cell m SLOTS i' j'.

(** The cached word [cur] of the iterator over row [j], at word [idx], after
    it yielded [i]: its bits are set in the matrix and lie after [i]. *)
Definition cur_ok (m : list Z) (SLOTS j cur idx i : Z) : Prop :=
  0 ≤ cur ∧
  ∀ n, 0 ≤ n → Z.testbit cur n = true →
    wbit m (j * SLOTS + idx) n = true ∧ i < 64 * idx + n.

(** What the loop of [extractbitsets] needs of its state. *)
Definition extract_inv (a b : list Node) (SLOTS : Z) (st : ExtractState)
    : Prop :=
  cells_sound a b SLOTS (st_matrix st) ∧
  Z.of_nat (length b) * SLOTS ≤ Z.of_nat (length (st_matrix st)) ∧
  SLOTS ≤ Z.of_nat (length (bits (st_scratch st))).

(** The counters of an arena agree with its allocations. *)
Definition arena_wf (self : Ctrees) : Prop :=
  Z.of_nat (length (ct_nodes self)) = ct_numnodes self + ct_nodesleft self ∧
  Z.of_nat (length (ct_trees self)) = ct_max self ∧
  0 ≤ ct_len self ≤ ct_max self ∧
  0 ≤ ct_numnodes self ∧ 0 ≤ ct_nodesleft self.

(** A node with its child indices mapped through [f]; a terminal keeps its
    encoding, a unary node its [right]. *)
Definition rewrite_children (f : Z → Z) (n : Node) : Node :=
  mkNode (prod n)
    (if decide (left n >= 0) then f (left n) else left n)
    (if decide (left n >= 0 ∧ right n >= 0) then f (right n) else right n).

(** The child indices of the first [cnt] nodes of [source] are indices of
    these nodes. *)
Definition children_local (source : list Node) (cnt : Z) : Prop :=
  ∀ n nd, 0 ≤ n < cnt → load source n = Some nd →
    left nd >= 0 → left nd < cnt ∧ (right nd >= 0 → right nd < cnt).

(** Every tree number in the index is the number of a tree of the arena. *)
Definition index_in_range (len : Z) (index : list (gset Z)) : Prop :=
  Forall (λ s : gset Z, ∀ m, m ∈ s → 0 ≤ m < len) index.

(** ** Example data *)

(** Memory contents used in the examples for cells that were never
    written. *)
Definition ex_junk_node : nat → Node := λ _, mkNode 7 7 7.
Definition ex_junk_tree : nat → NodeArray := λ _, mkNodeArray 7 7 7.

(** An arena after [alloc(2, 8)]. *)
Definition ex_empty : Ctrees :=
  alloc ex_junk_node ex_junk_tree (mkCtrees [] [] 0 0 0 0 0 None) 2 8.

(** The tree [(S (NP x) (VP y))] as [readnode] leaves it, in pre-order:
    productions [S -> NP VP] = 2, [NP -> x] = 0, [VP -> y] = 1. *)
Definition ex_source : list Node :=
  [mkNode 2 1 2; mkNode 0 (-1) (-1); mkNode 1 (-2) (-1)].

(** A corpus of two trees, [(S (NP x) (VP y))] and [(S (NP x) (VP z))], with
    productions [NP -> x] = 0, [VP -> y] = 1, [S -> NP VP] = 2, [VP -> z] =
    3, each sorted by production. *)
Definition ex_corpus : Ctrees :=
  mkCtrees [mkNodeArray 0 3 2; mkNodeArray 3 3 1]
    [mkNode 0 (-1) (-1); mkNode 1 (-2) (-1); mkNode 2 0 1;
     mkNode 0 (-1) (-1); mkNode 2 0 2; mkNode 3 (-2) (-1)]
    2 2 6 3 0 None.

(** A Python tree whose third item is not a [Tree]. *)
Definition ex_badtree : list (pyitem Z) :=
  [TreeNode (Some 12) (Some 0) [ChildObj (Some 1); ChildObj (Some 2)];
   TreeNode (Some 10) None [ChildInt 0];
   NotTree].

Definition ex_prods : gmap Z Z := {[ 10 := 0; 11 := 1; 12 := 2 ]}.

(** An arena with room left that holds one tree. *)
Definition ex_one : Ctrees :=
  mkCtrees [mkNodeArray 0 3 2; ex_junk_tree 1]
    [mkNode 0 (-1) (-1); mkNode 1 (-2) (-1); mkNode 2 0 1;
     ex_junk_node 3; ex_junk_node 4; ex_junk_node 5]
    1 2 3 3 3 None.

(** The two trees of [ex_corpus] and ranks for them. *)
Definition ex_a : NodeArray := mkNodeArray 0 3 2.
Definition ex_b : NodeArray := mkNodeArray 3 3 1.
Definition ex_anodes : list Node := slice (ct_nodes ex_corpus) ex_a.
Definition ex_rank_a : Z → nat := λ i, if decide (i = 2) then 1%nat else 0%nat.
Definition ex_rank_b : Z → nat := λ i, if decide (i = 1) then 1%nat else 0%nat.

(** Buffers as [extractfragments] allocates them for [ex_corpus]. *)
Definition ex_pair : PairState :=
  mkPairState [7; 7; 7] (mkBitset [7] 7 7) ∅ [].

(** A treebank with the tree [(X (NP John) (NP John))], whose two leaves
    carry production 0, the production of node 0 of [ex_anodes]. *)
Definition ex_echo : Ctrees :=
  mkCtrees [mkNodeArray 0 3 2]
    [mkNode 0 (-1) (-1); mkNode 0 (-2) (-1); mkNode 4 0 1]
    1 1 3 3 0 None.

Global Instance res_fmap : FMap res := λ A B f m,
  match m with
  | Ok x => Ok (f x)
  | Raise e => Raise e
  | Undefined => Undefined
  end.

(** The bitset [w] is a fragment of one node that carries production [p]:
    its tail names a tree of the arena and a node of that tree with
    production [p], and the bit of that node is the only bit set. *)
Definition selects_prod (trees : Ctrees) (SLOTS : Z) (w : Bitset) (p : Z)
    : Prop :=
  ∃ t nd,
    load (ct_trees trees) (tail_id w) = Some t ∧
    load (slice (ct_nodes trees) t) (tail_root w) = Some nd ∧
    prod nd = p ∧
    ∀ k n, 0 ≤ k < SLOTS → 0 ≤ n →
      wbit (bits w) k n = true ↔
      k = tail_root w `div` 64 ∧ n = tail_root w `mod` 64.

(** The bitset that [coverbitsets] builds for node [i] of tree [n]: [SLOTS]
    zeroed words with bit [i] set, and the tail [(i, n)]. *)
Definition one_node (SLOTS i n : Z) : option Bitset :=
  bs ← SETBIT (replicate (Z.to_nat SLOTS) 0) 0 i;
  Some (setrootid (mkBitset bs 0 0) i n).

(** [w] is the one-node fragment of a node with production [p] of a tree of
    the arena, and [k] is the key built for it with the nodes and the
    sentence of that tree. *)
Definition cover_key {L Sent K : Type}
    (fragkey : list Node → Bitset → list L → Sent → bool → res K)
    (trees : Ctrees) (sents : list Sent) (labels : list L) (SLOTS : Z)
    (discontinuous : bool) (p : Z) (w : Bitset) (k : K) : Prop :=
  ∃ n t i nd sent,
    load (ct_trees trees) n = Some t ∧
    load (slice (ct_nodes trees) t) i = Some nd ∧ prod nd = p ∧
    py_index sents n = Ok sent ∧
    one_node SLOTS i n = Some w ∧
    fragkey (slice (ct_nodes trees) t) w labels sent discontinuous = Ok k.

(** What the loop of [coverbitsets] has built after the entries [done] of
    [treeswithprod]: the scratch bitset has [SLOTS] words; every entry of
    the result is the one-node fragment, under its key, of a production of
    [done] whose set is not empty; every such production has an entry; and
    no two entries select the same production. *)
Definition cover_inv {L Sent} `{Countable K}
    (fragkey : list Node → Bitset → list L → Sent → bool → res K)
    (trees : Ctrees) (sents : list Sent) (labels : list L) (SLOTS : Z)
    (discontinuous : bool) (done : list (Z * gset Z))
    (st : gmap K Bitset * Bitset) : Prop :=
  length (bits st.2) = Z.to_nat SLOTS ∧
  (∀ k w, st.1 !! k = Some w →
     ∃ p s, (p, s) ∈ done ∧ s ≠ ∅ ∧
            cover_key fragkey trees sents labels SLOTS discontinuous p w k) ∧
  (∀ p s, (p, s) ∈ done → s ≠ ∅ →
     ∃ k w, st.1 !! k = Some w ∧
            cover_key fragkey trees sents labels SLOTS discontinuous p w k) ∧
  (∀ k1 k2 w1 w2 p, st.1 !! k1 = Some w1 → st.1 !! k2 = Some w2 →
     selects_prod trees SLOTS w1 p → selects_prod trees SLOTS w2 p → k1 = k2).

(** [ex_corpus] with the index built for four and for five productions (the
    fifth occurs in no tree of this treebank), and a key for the examples:
    the production of the root of the fragment. *)
Definition ex_indexed : Ctrees :=
  mkCtrees (ct_trees ex_corpus) (ct_nodes ex_corpus) 2 2 6 3 0
    (Some [{[0; 1]}; {[0]}; {[0; 1]}; {[1]}]).

Definition ex_indexed5 : Ctrees :=
  mkCtrees (ct_trees ex_corpus) (ct_nodes ex_corpus) 2 2 6 3 0
    (Some [{[0; 1]}; {[0]}; {[0; 1]}; {[1]}; ∅]).

Definition ex_fragkey (nodes : list Node) (w : Bitset) (labels : list unit)
    (sent : unit) (discontinuous : bool) : res Z :=
  match load nodes (tail_root w) with
  | Some nd => Ok (prod nd)
  | None => Undefined
  end.

(** The words of a bitset are 64-bit words. *)
Definition words_ok (bs : list Z) : Prop := Forall (λ w, 0 ≤ w < 2 ^ 64) bs.

(** Bit [g] of a bitset. *)
Definition gbit (bs : list Z) (g : Z) : bool :=
  wbit bs (g `div` 64) (g `mod` 64).

(** The cached word [cur] of the iterator over a bitset that is not changed
    during the iteration, at word [idx], after it yielded [i]: the bits of
    that word after [i]. *)
Definition cur_exact (vec : list Z) (cur idx i : Z) : Prop :=
  0 ≤ cur ∧
  ∀ n, 0 ≤ n →
    Z.testbit cur n = wbit vec idx n && bool_decide (i < 64 * idx + n).

(** A bitset [r'] holds the bits of [r] and possibly more, in as many
    words. *)
Definition grows (r r' : list Z) : Prop :=
  length r' = length r ∧ (words_ok r → words_ok r') ∧
  ∀ g, gbit r g = true → gbit r' g = true.

(** The number of nodes of tree [n] of an arena. *)
Definition tree_len (trees : Ctrees) (n : Z) : nat :=
  match load (ct_trees trees) n with
  | Some t => Z.to_nat (na_len t)
  | None => 0%nat
  end.

(** The invariants of a treebank after ingestion: tree numbers fit
    [uint32_t]; a tree is a non-empty slice of the pool of at most
    [maxnodes] nodes (and less than [2^15], the range of a [short]), sorted
    by production, with local, acyclic child indices; equal productions have
    equal arity across the treebank; and the number of nodes fits
    [uint32_t]. *)
Record corpus_wf (trees : Ctrees) : Prop := mk_corpus_wf {
  cw_len : 0 ≤ ct_len trees < 2 ^ 32;
  cw_maxnodes : 0 ≤ ct_maxnodes trees < 2 ^ 15;
  cw_tree : ∀ n, 0 ≤ n < ct_len trees →
    ∃ t, load (ct_trees trees) n = Some t ∧
         0 ≤ na_offset t ∧
         na_len t = Z.of_nat (length (slice (ct_nodes trees) t)) ∧
         0 < na_len t ≤ ct_maxnodes trees ∧
         prods_sorted (slice (ct_nodes trees) t) ∧
         ∃ rank, tree_ranked (slice (ct_nodes trees) t) rank;
  cw_arity : ∀ n1 n2 t1 t2,
    0 ≤ n1 < ct_len trees → 0 ≤ n2 < ct_len trees →
    load (ct_trees trees) n1 = Some t1 → load (ct_trees trees) n2 = Some t2 →
    same_arity (slice (ct_nodes trees) t1) (slice (ct_nodes trees) t2);
  cw_total :
    Z.of_nat (sum_list_with (tree_len trees) (seqZ 0 (ct_len trees))) < 2 ^ 32
}.

(** Tree [n] is listed under production [p] in the index. *)
Definition index_has (index : list (gset Z)) (p n : Z) : Prop :=
  ∃ s, py_index index p = Ok s ∧ n ∈ s.

(** Every tree is listed under each of its productions. *)
Definition index_complete (trees : Ctrees) (index : list (gset Z)) : Prop :=
  ∀ n t i nd, 0 ≤ n < ct_len trees → load (ct_trees trees) n = Some t →
    load (slice (ct_nodes trees) t) i = Some nd → index_has index (prod nd) n.

(** A fragment bitset of a treebank, of [SLOTS] words: its tail names a tree
    and a node of that tree, whose bit is set. *)
Definition valid_frag (trees : Ctrees) (SLOTS : Z) (w : Bitset) : Prop :=
  ∃ t, 0 ≤ tail_id w < ct_len trees ∧
       load (ct_trees trees) (tail_id w) = Some t ∧
       0 ≤ tail_root w < na_len t ∧
       gbit (bits w) (tail_root w) = true ∧
       Z.of_nat (length (bits w)) = SLOTS ∧
       words_ok (bits w).

(** ** Fragments as strings *)

(** A fragment: a leaf is a terminal with its index or a frontier
    non-terminal with the intervals of its yield; an inner node has one or
    two children. *)
Inductive ftree :=
  | Term (label : bytes) (k : Z)
  | Front (label : bytes) (ivals : list (Z * Z))
  | Unary (label : bytes) (child : ftree)
  | Binary (label : bytes) (lchild rchild : ftree).

(** An index or interval at a leaf: the first and the last position it
    covers, and whether it is the index of a terminal. *)
Record leaf := mkLeaf { lf_start : Z; lf_last : Z; lf_term : bool }.

Global Instance leaf_eq_dec : EqDecision leaf.
Proof. solve_decision. Defined.

(** The leaves of a fragment in the order of the text. *)
Fixpoint leaves_of (t : ftree) : list leaf :=
  match t with
  | Term _ k => [mkLeaf k k true]
  | Front _ ivals => (λ iv, mkLeaf iv.1 iv.2 false) <$> ivals
  | Unary _ c => leaves_of c
  | Binary _ c1 c2 => leaves_of c1 ++ leaves_of c2
  end.

(** The string of a fragment, given the text of a leaf (which includes the
    blank before it). *)
Fixpoint render_with (fleaf : leaf → bytes) (t : ftree) : bytes :=
  match t with
  | Term l k => "("%char :: l ++ fleaf (mkLeaf k k true) ++ [")"%char]
  | Front l ivals =>
    "("%char :: l ++ mjoin ((λ iv, fleaf (mkLeaf iv.1 iv.2 false)) <$> ivals)
      ++ [")"%char]
  | Unary l c => "("%char :: l ++ " "%char :: render_with fleaf c ++ [")"%char]
  | Binary l c1 c2 =>
    "("%char :: l ++ " "%char :: render_with fleaf c1
      ++ " "%char :: render_with fleaf c2 ++ [")"%char]
  end.

(** A leaf as [getsubtree] writes it: [ k] for a terminal, [ k:k'] for an
    interval of a frontier. *)
Definition old_leaf (lf : leaf) : bytes :=
  " "%char :: dec (lf_start lf)
    ++ (if lf_term lf then [] else ":"%char :: dec (lf_last lf)).

(** The well-formed fragment strings. *)
Definition render (t : ftree) : bytes := render_with old_leaf t.

(** A leaf after renumbering. *)
Definition new_leaf (index : gmap Z Z) (lf : leaf) : bytes :=
  " "%char :: dec (default 0 (index !! lf_start lf)).

Definition label_ok (l : bytes) : Prop :=
  l ≠ [] ∧ Forall (λ c, c ≠ " "%char ∧ c ≠ "("%char ∧ c ≠ ")"%char) l.

Fixpoint labels_ok (t : ftree) : Prop :=
  match t with
  | Term l _ | Front l _ => label_ok l
  | Unary l c => label_ok l ∧ labels_ok c
  | Binary l c1 c2 => label_ok l ∧ labels_ok c1 ∧ labels_ok c2
  end.

(** A well-formed fragment: labels are non-empty and free of blanks and
    parentheses; there is a leaf; the leaves cover pairwise disjoint,
    non-empty ranges of positions that fit a C [int]. *)
Record fragment_wf (t : ftree) : Prop := mk_fragment_wf {
  fw_labels : labels_ok t;
  fw_leaves : leaves_of t ≠ [];
  fw_bounds : ∀ x, x ∈ leaves_of t →
    0 ≤ lf_start x ≤ lf_last x ∧ lf_start x < 2 ^ 31 - 1;
  fw_nodup : NoDup (leaves_of t);
  fw_disjoint : ∀ x y, x ∈ leaves_of t → y ∈ leaves_of t → x ≠ y →
    lf_last x < lf_start y ∨ lf_last y < lf_start x;
  fw_count : 2 * Z.of_nat (length (leaves_of t)) < 2 ^ 31
}.

(** There is a gap of width at least 1 between a leaf and the next one. *)
Definition gap_after (x : leaf) (rest : list leaf) : bool :=
  match rest with
  | y :: _ => bool_decide (lf_last x + 1 < lf_start y)
  | [] => false
  end.

(** The dense renumbering of the sorted leaves from [m] on, with one extra
    position for every gap. *)
Fixpoint renumber (l : list leaf) (m : Z) : list (Z * Z) :=
  match l with
  | [] => []
  | x :: rest =>
    (lf_start x, m) :: renumber rest (if gap_after x rest then m + 2 else m + 1)
  end.

(** The sentence that goes with the renumbered leaves: the word of a
    terminal, [None] at a frontier and at the extra position of a gap. *)
Fixpoint newsent_of {W} (sent : list W) (l : list leaf) : list (option W) :=
  match l with
  | [] => []
  | x :: rest =>
    (if lf_term x then sent !! Z.to_nat (lf_start x) else None)
      :: (if gap_after x rest then [None] else []) ++ newsent_of sent rest
  end.

(** The leaves sorted by position, and the new index of each. *)
Definition sorted_leaves (t : ftree) : list leaf :=
  sorted_by lf_start (leaves_of t).

Definition new_index (t : ftree) : gmap Z Z :=
  list_to_map (renumber (sorted_leaves t) 0).

(** The tail of a string matches [ \[0-9\]+\)]: it is where a match of
    [TERMINDICESRE] can end. *)
Definition term_form (s : bytes) : Prop :=
  ∃ d rest, s = " "%char :: d ++ ")"%char :: rest ∧ d ≠ [] ∧
            Forall (λ c, is_digit c = true) d.

(** No suffix of [s] that starts before the first opening parenthesis has
    that form. *)
Fixpoint quiet (s : bytes) : Prop :=
  ¬ term_form s ∧
  match s with
  | [] => True
  | x :: s' => x = "("%char ∨ quiet s'
  end.

(** The examples of the doctest of [pygetsent]. *)
Definition ex_frag : ftree :=
  Binary (bytes_of_string "S") (Term (bytes_of_string "NP") 2)
    (Term (bytes_of_string "VP") 4).

(** The indices of the terminals and the intervals of the frontiers of a
    fragment, in the order of the text. *)
Fixpoint terms_of (t : ftree) : list Z :=
  match t with
  | Term _ k => [k]
  | Front _ _ => []
  | Unary _ c => terms_of c
  | Binary _ c1 c2 => terms_of c1 ++ terms_of c2
  end.

Fixpoint fronts_of (t : ftree) : list (Z * Z) :=
  match t with
  | Term _ _ => []
  | Front _ ivals => ivals
  | Unary _ c => fronts_of c
  | Binary _ c1 c2 => fronts_of c1 ++ fronts_of c2
  end.

(** The text of the intervals of a frontier. *)
Definition ivals_text (fleaf : leaf → bytes) (ivals : list (Z * Z)) : bytes :=
  mjoin ((λ iv, fleaf (mkLeaf iv.1 iv.2 false)) <$> ivals).

(** The dict [spans] of [getsent] for a fragment: the intervals of the
    frontiers, then the terminals. *)
Definition spans_of (t : ftree) : gmap Z Z :=
  foldl (λ m k, <[k := k + 1]> m)
    (foldl (λ m (iv : Z * Z), <[iv.1 := iv.2 + 1]> m) ∅ (fronts_of t))
    (terms_of t).

(** ** Further vocabulary for the arena *)

(** The node that [copynodes] stores for an item of a Python tree: the id
    of its production, the encoding [-k - 1] of a terminal index or the
    [idx] of the first child, and the [idx] of the second child or [-1] at
    a unary node.  The [right] field of a terminal is not written. *)
Definition converted {P} `{Countable P} (prods : gmap P Z) (a : pyitem P)
    (new : Node) : Prop :=
  match a with
  | TreeNode (Some p) _ (ChildInt k :: rest) =>
    (length rest ≤ 1)%nat ∧ prods !! p = Some (prod new) ∧ left new = - k - 1
  | TreeNode (Some p) _ [ChildObj (Some l)] =>
    prods !! p = Some (prod new) ∧ left new = l ∧ right new = -1
  | TreeNode (Some p) _ [ChildObj (Some l); ChildObj (Some r)] =>
    prods !! p = Some (prod new) ∧ left new = l ∧ right new = r
  | _ => False
  end.

(** The [rootidx] attribute of the first item of a Python tree. *)
Definition rootidx_of {P} (tree : list (pyitem P)) : option Z :=
  match tree with
  | TreeNode _ (Some r) _ :: _ => Some r
  | _ => None
  end.

(** [sum(map(len, trees))]. *)
Definition sum_len {A} (trees : list (list A)) : Z :=
  foldr (λ t s, Z.of_nat (length t) + s) 0 trees.

Section init.
Context {P : Type} `{Countable P}.
Context (junk_node : nat → Node) (junk_tree : nat → NodeArray).

(** The loop [for tree in trees: self.add(tree, prods)]: the outcome and
    the arena after it; the first [add] that raises ends it. *)
Fixpoint add_all (self : Ctrees) (trees : list (list (pyitem P)))
    (prods : gmap P Z) : res unit * Ctrees :=
  match trees with
  | [] => (Ok (), self)
  | tree :: trees =>
    match add junk_node junk_tree self tree prods with
    | (Ok _, self) => add_all self trees prods
    | r => r
    end
  end.

(** [Ctrees.__init__(trees, prods)] on the object [__cinit__] leaves, no
    array allocated; an argument that is not given is [None].  The elements
    of [trees] are taken to be lists, and allocation to succeed. *)
Definition init (trees : option (list (list (pyitem P))))
    (prods : option (gmap P Z)) : res unit * Ctrees :=
  let self := mkCtrees [] [] 0 0 0 0 0 None in
  match trees with
  | None => (Ok (), self)
  | Some trees =>
    match prods with
    | None =>
      (Raise (ValueError
         "when initialized with trees, prods argument is required."), self)
    | Some prods =>
      add_all
        (alloc junk_node junk_tree self (Z.of_nat (length trees))
           (sum_len trees))
        trees prods
    end
  end.

End init.

(** The tree [(S (NP x) (VP y))] as a list of Python tree nodes, with the
    productions of [ex_prods]. *)
Definition ex_goodtree : list (pyitem Z) :=
  [TreeNode (Some 12) (Some 0) [ChildObj (Some 1); ChildObj (Some 2)];
   TreeNode (Some 10) None [ChildInt 0];
   TreeNode (Some 11) None [ChildInt 1]].

(** ** Further vocabulary for the index *)

(** The records of the trees of the arena point into its pool of nodes:
    the slice of each tree has the length its record gives. *)
Definition trees_stored (self : Ctrees) : Prop :=
  ∀ n, 0 ≤ n < ct_len self →
    ∃ t, load (ct_trees self) n = Some t ∧ 0 ≤ na_offset t ∧
         na_len t ≤ Z.of_nat (length (slice (ct_nodes self) t)).

(** Tree [n] of the arena has a node with production [p]. *)
Definition has_prod (self : Ctrees) (n p : Z) : Prop :=
  ∃ t i nd, load (ct_trees self) n = Some t ∧
            load (slice (ct_nodes self) t) i = Some nd ∧ prod nd = p.

(** The production id [p] is an index of a list of [numprods] elements,
    counted from the front or, if negative, from the end. *)
Definition id_in_range (numprods : nat) (p : Z) : Prop :=
  - Z.of_nat numprods ≤ p < Z.of_nat numprods.

(** ** Further vocabulary for the dict of fragments *)

(** The outcome [r] of building a key is the key [k]. *)
Definition keyed_as {K} `{EqDecision K} (r : res K) (k : K) : bool :=
  match r with
  | Ok k' => bool_decide (k' = k)
  | _ => false
  end.

(** The count stored under a key, 0 for a key that is absent. *)
Definition count_of {K} `{Countable K} (fragments : gmap K fragval) (k : K)
    : Z :=
  match fragments !! k with
  | Some (Count c) => c
  | _ => 0
  end.

(** The values of a dict of fragments are what the mode [approx] stores:
    counts of at least 1, or bitsets. *)
Definition values_of_mode {K} `{Countable K} (approx : bool)
    (fragments : gmap K fragval) : Prop :=
  ∀ k v, fragments !! k = Some v →
    if approx then ∃ c, v = Count c ∧ 1 ≤ c else ∃ w, v = Repr w.

(** ** Further vocabulary for the candidates *)

(** Tree [m] is listed in the index of [trees2] under the production of the
    terminal [i] of a tree, whose production is in [contentwordprods], and
    under the production of another terminal [j], whose production is in
    [lexicalprods]. *)
Definition shares_terminals (anodes : list Node) (trees2 : Ctrees)
    (contentwordprods lexicalprods : gset Z) (i j m : Z) : Prop :=
  ∃ ai aj tmp other,
    i ≠ j ∧ load anodes i = Some ai ∧ load anodes j = Some aj ∧
    left ai < 0 ∧ prod ai ∈ contentwordprods ∧
    left aj < 0 ∧ prod aj ∈ lexicalprods ∧
    treeswithprod_at trees2 (prod ai) = Ok tmp ∧
    treeswithprod_at trees2 (prod aj) = Ok other ∧
    m ∈ tmp ∧ m ∈ other.

(** ** Further vocabulary for the counts *)

(** Two calls end alike: both return, with results related by [R], or both
    raise the same exception, or both are undefined. *)
Definition agree {A B} (R : A → B → Prop) (r1 : res A) (r2 : res B) : Prop :=
  match r1, r2 with
  | Ok x, Ok y => R x y
  | Raise e, Raise e' => e = e'
  | Undefined, Undefined => True
  | _, _ => False
  end.

(** The number of elements of a multiset of tree numbers, with
    multiplicity. *)
Definition multiset_total (ms : gmap Z Z) : Z :=
  map_fold (λ _ v s, v + s) 0 ms.

(** ** Further vocabulary for the kernel matrix *)

(** [m'] is [m] with some bits set, each new one the cell of a pair of
    nodes with equal productions. *)
Definition adds_same_prod (a b : list Node) (SLOTS : Z) (m m' : list Z)
    : Prop :=
  length m' = length m ∧
  (∀ k n, 0 ≤ n → wbit m k n = true → wbit m' k n = true) ∧
  ∀ k n, 0 ≤ n → wbit m' k n = true →
    wbit m k n = true ∨
    ∃ i j, k = j * SLOTS + i `div` 64 ∧ n = i `mod` 64 ∧ same_prod a b i j.

(** ** Further vocabulary for fragments *)

(** Node [g] is reached from node [i] of the tree [a] along child links, and
    the bit of every node on the way, [i] and [g] included, is set in the
    bitset [r]. *)
Inductive linked (a : list Node) (r : list Z) : Z → Z → Prop :=
  | linked_here i : gbit r i = true → linked a r i i
  | linked_left i ai g :
      gbit r i = true → load a i = Some ai → 0 ≤ left ai →
      linked a r (left ai) g → linked a r i g
  | linked_right i ai g :
      gbit r i = true → load a i = Some ai → 0 ≤ left ai → 0 ≤ right ai →
      linked a r (right ai) g → linked a r i g.

(** ** Numbering the productions *)

Section getlabelsprods.
(** The nodes of the trees, with what reading [st.prod] and evaluating
    [st.label.encode('ascii')] give for a node. *)
Context {Item P B : Type} `{Countable P}.
Context (get_prod : Item → res P) (get_label : Item → res B).

(** The body of the inner loop of [getlabelsprods]: the list of labels, the
    dict of productions and [pnum] after it. *)
Definition getlabelsprods_item (st : Item) (s : list B * gmap P Z * Z)
    : res (list B * gmap P Z * Z) :=
  let '(labels, prods, pnum) := s in
  p ← get_prod st;
  if decide (prods !! p = None) then
    l ← get_label st;
    p ← get_prod st;
    Ok (labels ++ [l], <[p := pnum]> prods, pnum + 1)
  else Ok s.

(** [getlabelsprods(trees, labels, prods)]: the list [labels] and the dict
    [prods] after the call, when it returns. *)
Definition getlabelsprods (trees : list (list Item)) (labels : list B)
    (prods : gmap P Z) : res (list B * gmap P Z) :=
  s ← for_each trees (labels, prods, Z.of_nat (size prods))
         (λ tree s, for_each tree s getlabelsprods_item);
  Ok s.1.

(** The dict [prods] numbers its keys from 0 without gaps or repetitions,
    and [labels] has one entry for each number. *)
Definition numbered (labels : list B) (prods : gmap P Z) : Prop :=
  length labels = size prods ∧
  (∀ p id, prods !! p = Some id → 0 ≤ id < Z.of_nat (size prods)) ∧
  (∀ p q id, prods !! p = Some id → prods !! q = Some id → p = q).

(** What the loops of [getlabelsprods] keep, after the nodes [seen], from
    the list [labels] and the dict [prods] of the call. *)
Definition numbering_inv (labels : list B) (prods : gmap P Z)
    (seen : list Item) (s : list B * gmap P Z * Z) : Prop :=
  s.2 = Z.of_nat (size s.1.2) ∧
  numbered s.1.1 s.1.2 ∧
  (∀ p id, prods !! p = Some id → s.1.2 !! p = Some id) ∧
  (∃ new, s.1.1 = labels ++ new) ∧
  (∀ st, st ∈ seen → ∃ p, get_prod st = Ok p ∧ is_Some (s.1.2 !! p)) ∧
  (∀ p id, s.1.2 !! p = Some id → prods !! p = None →
     ∃ st l, st ∈ seen ∧ get_prod st = Ok p ∧ get_label st = Ok l ∧
             s.1.1 !! Z.to_nat id = Some l).

End getlabelsprods.

(** Reading the attribute [prod] of a node of a Python tree. *)
Definition item_prod {P} (a : pyitem P) : res P :=
  match a with
  | TreeNode (Some p) _ _ => Ok p
  | _ => Raise AttributeError
  end.

(** ** Bitsets of whole trees *)

(** [termidx(x)] on a [short]. *)
Definition termidx (x : Z) : Z := to_short (- x - 1).

Section completebitsets.
Context (junk_word : nat → Z).
Context {L W K : Type} `{Countable K}.
(** The key under which the bitset of a whole tree is stored: the string
    built by [getsubtree], paired with the sentence for discontinuous
    trees. *)
Context (wholekey : list Node → Bitset → list L → list (option W) → bool
                    → res K).

(** The loop [for i in range(trees.trees[n].len)] of [completebitsets]: the
    words of the scratch bitset after it. *)
Definition completebitsets_bits (nodes : list Node) (sent : list (option W))
    (len : Z) (scratch : list Z) : res (list Z) :=
  for_each (range 0 len) scratch (λ i scratch,
    nd ← of_option (load nodes i);
    keep ← (if decide (left nd >= 0) then Ok true
            else w ← py_index sent (termidx (left nd));
                 Ok (bool_decide (is_Some w)));
    if keep : bool then of_option (SETBIT scratch 0 i) else Ok scratch).

(** The body of the loop [for n in range(trees.len)]: the result dict and
    the scratch bitset after it. *)
Definition completebitsets_body (trees : Ctrees)
    (sents : list (list (option W))) (labels : list L) (SLOTS : Z)
    (discontinuous : bool) (n : Z) (st : gmap K Bitset * Bitset)
    : res (gmap K Bitset * Bitset) :=
  let '(result, scratch) := st in
  zeroed ← of_option (memset0 (bits scratch) 0 SLOTS);
  t ← of_option (load (ct_trees trees) n);
  let nodes := slice (ct_nodes trees) t in
  sent ← py_index sents n;
  bs ← completebitsets_bits nodes sent (na_len t) zeroed;
  let scratch :=
    setrootid (mkBitset bs (tail_id scratch) (tail_root scratch))
      (na_root t) n in
  frag ← wholekey nodes scratch labels sent discontinuous;
  Ok (<[frag := scratch]> result, scratch).

(** [completebitsets(trees, sents, labels, maxnodes, discontinuous)];
    allocation is taken to succeed. *)
Definition completebitsets (trees : Ctrees) (sents : list (list (option W)))
    (labels : list L) (maxnodes : Z) (discontinuous : bool)
    : res (gmap K Bitset) :=
  let SLOTS := BITNSLOTS (maxnodes + 1) in
  let scratch := mkBitset (grow junk_word [] SLOTS) (junk_word 0) (junk_word 1) in
  st ← for_each (range 0 (ct_len trees)) (∅, scratch)
         (completebitsets_body trees sents labels SLOTS discontinuous);
  Ok st.1.

(** Node [i] is not a frontier of its tree: it has children, or it is a
    terminal whose word is in the sentence. *)
Definition nonfrontier_at (nodes : list Node) (sent : list (option W))
    (i : Z) : Prop :=
  ∃ nd, load nodes i = Some nd ∧
        (left nd >= 0 ∨
         ∃ w, py_index sent (termidx (left nd)) = Ok (Some w)).

(** The bitset [w], stored under the key [k], stands for the whole of tree
    [n]: its tail names the tree and its root, its bits are those of the
    nodes of the tree that are not frontiers, and [k] is the key built for
    it. *)
Definition whole_tree (trees : Ctrees) (sents : list (list (option W)))
    (labels : list L) (SLOTS : Z) (discontinuous : bool) (n : Z)
    (w : Bitset) (k : K) : Prop :=
  ∃ t sent,
    load (ct_trees trees) n = Some t ∧ py_index sents n = Ok sent ∧
    Z.of_nat (length (bits w)) = SLOTS ∧
    tail_id w = to_uint32 n ∧ tail_root w = to_short (na_root t) ∧
    (∀ g, gbit (bits w) g = true ↔
       0 ≤ g < na_len t ∧ nonfrontier_at (slice (ct_nodes trees) t) sent g) ∧
    wholekey (slice (ct_nodes trees) t) w labels sent discontinuous = Ok k.

End completebitsets.

(** The node pairs at which [extractat] was entered during the extractions
    of a log, in the order of the calls. *)
Definition calls_of (log : list extraction) : list (Z * Z) :=
  mjoin (fst <$> log).

(** The log accounts for the fragments: the results only grow; a bitset
    that an extraction of the log added is in [new], and its bits are the
    nodes [i] of the pairs [(i, j)] at which that extraction entered
    [extractat]; and a bitset of [new] was in [old] or was added by an
    extraction of the log. *)
Definition log_fragments (SLOTS : Z) (old new : gset Bitset)
    (log : list extraction) : Prop :=
  old ⊆ new ∧
  (∀ calls w, (calls, Some w) ∈ log →
     w ∈ new ∧
     ∀ g, 0 ≤ g < 64 * SLOTS →
       gbit (bits w) g = true ↔ ∃ j, (g, j) ∈ calls) ∧
  (∀ w, w ∈ new → w ∈ old ∨ ∃ calls, (calls, Some w) ∈ log).

(** The loop of [extractbitsets] called [extractat] at the pairs [starts]:
    each pair is the first call of its extraction. *)
Definition log_starts (starts : list (Z * Z)) (log : list extraction)
    : Prop :=
  Forall2 (λ s e, head e.1 = Some s) starts log.

(** The bits of the fragment [w] form a connected part of the tree [a]
    below a node that the tail of [w] names as its root. *)
Definition connected_frag (a : list Node) (w : Bitset) : Prop :=
  ∃ i, tail_root w = to_short i ∧
       ∀ g, gbit (bits w) g = true → linked a (bits w) i g.

(** A key for the examples of [completebitsets]: the number of the tree. *)
Definition ex_wholekey (nodes : list Node) (w : Bitset) (labels : list unit)
    (sent : list (option unit)) (discontinuous : bool) : res Z :=
  Ok (tail_id w).

(** Sentences of two words for the trees of [ex_corpus]. *)
Definition ex_sents : list (list (option unit)) :=
  [[Some (); Some ()]; [Some (); Some ()]].

(** Every tree number that the index lists under a production is the number
    of a tree of the arena with a node of that production. *)
Definition index_sound (trees : Ctrees) (index : list (gset Z)) : Prop :=
  ∀ (p : nat) s n, index !! p = Some s → n ∈ s →
    0 ≤ n < ct_len trees ∧ has_prod trees n (Z.of_nat p).

(** The multiset [ms] of tree numbers reported for the fragment [w] counts
    each of its trees at least once, and each of them is listed in the
    index of [trees2] under the production of one node of the tree of
    [trees1] that the fragment comes from. *)
Definition reports_indexed (trees1 trees2 : Ctrees) (w : Bitset)
    (ms : gmap Z Z) : Prop :=
  ∃ a i ai s,
    load (ct_trees trees1) (tail_id w) = Some a ∧
    load (slice (ct_nodes trees1) a) i = Some ai ∧
    treeswithprod_at trees2 (prod ai) = Ok s ∧
    ∀ m c, ms !! m = Some c → 1 ≤ c ∧ m ∈ s.

(** ** The yield of a node *)

(** [getyield(tree, i)]; the recursion follows the children of [tree[i]],
    the fuel is the number of nodes of the tree. *)
Fixpoint getyield (fuel : nat) (tree : list Node) (i : Z)
    : option (list Z) :=
  match fuel with
  | O => None
  | S fuel =>
    nd ← load tree i;
    if decide (left nd < 0) then Some [termidx (left nd)]
    else if decide (right nd < 0) then getyield fuel tree (left nd)
    else
      l ← getyield fuel tree (left nd);
      r ← getyield fuel tree (right nd);
      Some (l ++ r)
  end.

(** Node [g] is node [i] of the tree [a] or is reached from it along child
    links. *)
Inductive below (a : list Node) : Z → Z → Prop :=
  | below_here i : below a i i
  | below_left i ai g :
      load a i = Some ai → 0 ≤ left ai → below a (left ai) g → below a i g
  | below_right i ai g :
      load a i = Some ai → 0 ≤ left ai → 0 ≤ right ai →
      below a (right ai) g → below a i g.

(** ** The string of a fragment *)

(** [str(n).encode('ascii')] for an integer. *)
Definition str_int (n : Z) : bytes :=
  if decide (n < 0) then "-"%char :: dec (- n) else dec n.

Section getsubtree.
Context {W : Type}.
(** [word.encode('utf-8')] for a word of a sentence. *)
Context (encode : W → res bytes).
(** [yieldranges] of [discodop.tree] is not part of the sources: the string
    it gives for the sorted yield of a frontier node, encoded as ASCII. *)
Context (yieldranges : list Z → res bytes).

(** [getsubtree(result, tree, bitset, labels, sent, i)]: the bytearray
    [result] after the call; [sent] is [None] for discontinuous trees.  The
    recursion follows the children of [tree[i]]; the fuel is the number of
    nodes of the tree. *)
Fixpoint getsubtree (fuel : nat) (result : bytes) (tree : list Node)
    (bitset : list Z) (labels : list bytes) (sent : option (list W)) (i : Z)
    : res bytes :=
  match fuel with
  | O => Undefined
  | S fuel =>
    let result := result ++ ["("%char] in
    nd ← of_option (load tree i);
    label ← py_index labels (prod nd);
    let result := result ++ label in
    let result := result ++ [" "%char] in
    t ← of_option (TESTBIT bitset 0 i);
    result ←
      (if t : bool then
         if decide (left nd >= 0) then
           result ← getsubtree fuel result tree bitset labels sent (left nd);
           if decide (right nd >= 0) then
             getsubtree fuel (result ++ [" "%char]) tree bitset labels sent
               (right nd)
           else Ok result
         else
           match sent with
           | None => Ok (result ++ str_int (termidx (left nd)))
           | Some sent =>
             word ← py_index sent (termidx (left nd));
             word ← encode word;
             Ok (result ++ word)
           end
       else
         match sent with
         | None =>
           yield ← of_option (getyield (length tree) tree i);
           ranges ← yieldranges (sorted_by id yield);
           Ok (result ++ ranges)
         | Some _ => Ok result
         end);
    Ok (result ++ [")"%char])
  end.

(** The key under which [coverbitsets] and [collectfragments] store the
    fragment [w] of a tree with the nodes [nodes] and the sentence [sent]:
    the string that [getsubtree] builds from the root named in the tail of
    [w] (where [setrootid] has put the node the caller passes), for
    discontinuous trees passed through [getsent] and paired with the
    sentence of the fragment. *)
Definition subtree_key (nodes : list Node) (w : Bitset) (labels : list bytes)
    (sent : list W) (discontinuous : bool)
    : res (bytes * option (list (option W))) :=
  tmp ← getsubtree (length nodes) [] nodes (bits w) labels
          (if discontinuous then None else Some sent) (tail_root w);
  if discontinuous then
    '(frag, newsent) ← getsent tmp sent;
    Ok (frag, Some newsent)
  else Ok (tmp, None).

End getsubtree.

(** Labels for the five productions of [ex_indexed5], sentences for the two
    trees of [ex_corpus], and the key of a fragment for words that are ASCII
    strings (their UTF-8 encoding is the string itself; [yieldranges] is not
    called for trees that are not discontinuous). *)
Definition ex_labels : list bytes :=
  bytes_of_string <$> ["NP"; "VP"; "S"; "VP"; "PP"]%string.

Definition ex_words : list (list string) :=
  [["John"; "walks"]; ["John"; "talks"]]%string.

Definition ex_key : list Node → Bitset → list bytes → list string → bool
    → res (bytes * option (list (option string))) :=
  subtree_key (λ w, Ok (bytes_of_string w)) (λ _, Undefined).

(** The production that a key of a one-node fragment of [ex_corpus] stands
    for. *)
Definition ex_key_prod (k : bytes * option (list (option string))) : Z :=
  if decide (k.1 = bytes_of_string "(NP John)") then 0
  else if decide (k.1 = bytes_of_string "(VP walks)") then 1
  else if decide (k.1 = bytes_of_string "(S (NP ) (VP ))") then 2
  else 3.

(** A treebank of two trees whose roots carry two productions, 2 and 3,
    with the same label and children with the same labels (two productions
    of a discontinuous treebank that differ in their yield functions), with
    its index, labels and sentences. *)
Definition ex_twins : Ctrees :=
  mkCtrees [mkNodeArray 0 3 2; mkNodeArray 3 3 2]
    [mkNode 0 (-1) (-1); mkNode 1 (-2) (-1); mkNode 2 0 1;
     mkNode 0 (-1) (-1); mkNode 1 (-2) (-1); mkNode 3 0 1]
    2 2 6 3 0 (Some [{[0; 1]}; {[0; 1]}; {[0]}; {[1]}]).

Definition ex_twin_labels : list bytes :=
  bytes_of_string <$> ["NP"; "VP"; "S"; "S"]%string.
(** * Properties *)

Example fasttreekernel_small :
  fasttreekernel
    [mkNode 0 (-1) (-1); mkNode 2 (-2) (-1); mkNode 2 (-3) (-1); mkNode 5 1 2]
    [mkNode 1 (-1) (-1); mkNode 2 (-2) (-1); mkNode 5 0 1; mkNode 5 2 (-1)]
    4 4 [0; 0; 0; 0] 1
  = Some [0; 6; 8; 8].
Proof. reflexivity. Qed.

Example reference_kernel_small :
  reference_kernel
    [mkNode 0 (-1) (-1); mkNode 2 (-2) (-1); mkNode 2 (-3) (-1); mkNode 5 1 2]
    [mkNode 1 (-1) (-1); mkNode 2 (-2) (-1); mkNode 5 0 1; mkNode 5 2 (-1)]
    4 4 [0; 0; 0; 0] 1
  = Some [0; 6; 8; 8].
Proof. reflexivity. Qed.

(** ** Arrays and bits *)

Lemma load_Some {A} (a : list A) i x :
  load a i = Some x ↔ 0 ≤ i ∧ a !! Z.to_nat i = Some x.
Proof. unfold load. case_decide; naive_solver. Qed.

Lemma load_bound {A} (a : list A) i x :
  load a i = Some x → 0 ≤ i < Z.of_nat (length a).
Proof.
  rewrite load_Some. intros [? H%lookup_lt_Some]. lia.
Qed.

Lemma load_is_Some {A} (a : list A) i :
  0 ≤ i < Z.of_nat (length a) → is_Some (load a i).
Proof.
  intros ?. unfold load. rewrite decide_True by lia.
  apply lookup_lt_is_Some. lia.
Qed.

Lemma load_None {A} (a : list A) i :
  load a i = None ↔ ¬ (0 ≤ i < Z.of_nat (length a)).
Proof.
  split.
  - intros H Hi. destruct (load_is_Some a i Hi) as [x Hx]. congruence.
  - intros H. destruct (load a i) eqn:E; [|done].
    apply load_bound in E. lia.
Qed.

Lemma store_Some {A} (a : list A) i x a' :
  store a i x = Some a' ↔
  0 ≤ i < Z.of_nat (length a) ∧ a' = <[Z.to_nat i := x]> a.
Proof. unfold store. case_decide; naive_solver. Qed.

Lemma load_store {A} (a : list A) i x a' k :
  store a i x = Some a' →
  load a' k = if decide (k = i) then Some x else load a k.
Proof.
  rewrite store_Some. intros [Hi ->]. unfold load.
  destruct (decide (k = i)) as [->|Hk].
  - rewrite decide_True by lia.
    apply list_lookup_insert_eq. lia.
  - case_decide; [|done]. apply list_lookup_insert_ne. lia.
Qed.

Lemma store_length {A} (a : list A) i x a' :
  store a i x = Some a' → length a' = length a.
Proof. rewrite store_Some. intros [_ ->]. apply length_insert. Qed.


Lemma BITSLOT_div b : 0 ≤ b → BITSLOT b = b `div` 64.
Proof. intros. unfold BITSLOT, BITSIZE. apply Z.quot_div_nonneg; lia. Qed.

Lemma BITMASK_pow b : 0 ≤ b → BITMASK b = 2 ^ (b `mod` 64).
Proof.
  intros. unfold BITMASK, BITSIZE. rewrite Z.rem_mod_nonneg by lia.
  rewrite Z.shiftl_1_l. done.
Qed.

Lemma BITMASK_testbit b n :
  0 ≤ b → 0 ≤ n → Z.testbit (BITMASK b) n = bool_decide (n = b `mod` 64).
Proof.
  intros. rewrite BITMASK_pow by done.
  rewrite Z.pow2_bits_eqb by (apply Z.mod_pos_bound; lia).
  destruct (Z.eqb_spec (b `mod` 64) n).
  - by rewrite bool_decide_eq_true_2.
  - by rewrite bool_decide_eq_false_2.
Qed.

Lemma TESTBIT_Some m off b t :
  TESTBIT m off b = Some t →
  0 ≤ b ∧ 0 ≤ off + b `div` 64 < Z.of_nat (length m) ∧
  t = wbit m (off + b `div` 64) (b `mod` 64).
Proof.
  unfold TESTBIT. case_decide as Hb; [|done].
  rewrite BITSLOT_div by done.
  destruct (load m _) as [w|] eqn:E; [|done]. simpl. intros [= <-].
  split; [done|]. split; [by eapply load_bound|].
  unfold wbit. rewrite E.
  assert (Hm : 0 ≤ b `mod` 64) by (apply Z.mod_pos_bound; lia).
  rewrite BITMASK_pow by done.
  destruct (Z.testbit w (b `mod` 64)) eqn:Ht.
  - destruct (Z.eqb_spec (Z.land w (2 ^ (b `mod` 64))) 0) as [E0|]; [|done].
    apply (f_equal (λ z, Z.testbit z (b `mod` 64))) in E0.
    rewrite Z.land_spec, Ht, Z.pow2_bits_true, Z.bits_0 in E0 by done.
    done.
  - destruct (Z.eqb_spec (Z.land w (2 ^ (b `mod` 64))) 0) as [|E0]; [done|].
    exfalso. apply E0. apply Z.bits_inj'. intros n Hn.
    rewrite Z.land_spec, Z.bits_0, Z.pow2_bits_eqb by done.
    destruct (Z.eqb_spec (b `mod` 64) n) as [<-|]; [|by rewrite andb_false_r].
    by rewrite Ht.
Qed.

Lemma TESTBIT_is_Some m off b :
  0 ≤ b → 0 ≤ off + b `div` 64 < Z.of_nat (length m) →
  TESTBIT m off b = Some (wbit m (off + b `div` 64) (b `mod` 64)).
Proof.
  intros Hb Hk.
  destruct (TESTBIT m off b) as [t|] eqn:E.
  - apply TESTBIT_Some in E as (_ & _ & ->). done.
  - exfalso. unfold TESTBIT in E. rewrite decide_True in E by done.
    rewrite BITSLOT_div in E by done.
    destruct (load_is_Some m _ Hk) as [w Hw]. rewrite Hw in E. done.
Qed.

Lemma SETBIT_Some m off b m' :
  SETBIT m off b = Some m' →
  0 ≤ b ∧ 0 ≤ off + b `div` 64 < Z.of_nat (length m) ∧
  length m' = length m ∧
  ∀ k n, 0 ≤ n →
    wbit m' k n =
    wbit m k n || bool_decide (k = off + b `div` 64 ∧ n = b `mod` 64).
Proof.
  unfold SETBIT. case_decide as Hb; [|done].
  rewrite BITSLOT_div by done.
  destruct (load m _) as [w|] eqn:E; [|done]. simpl. intros Hst.
  split; [done|]. split; [by eapply load_bound|].
  split; [by eapply store_length|].
  intros k n Hn. unfold wbit. rewrite (load_store _ _ _ _ k Hst).
  case_decide as Hk.
  - subst k. rewrite E, Z.lor_spec, BITMASK_testbit by done.
    f_equal. apply bool_decide_ext. naive_solver.
  - rewrite bool_decide_eq_false_2 by naive_solver.
    by rewrite orb_false_r.
Qed.

Lemma SETBIT_is_Some m off b :
  0 ≤ b → 0 ≤ off + b `div` 64 < Z.of_nat (length m) →
  is_Some (SETBIT m off b).
Proof.
  intros Hb Hk. unfold SETBIT. rewrite decide_True by done.
  rewrite BITSLOT_div by done.
  destruct (load_is_Some m _ Hk) as [w ->]. simpl.
  unfold store. rewrite decide_True by done. eauto.
Qed.

Lemma CLEARBIT_Some m off b m' :
  CLEARBIT m off b = Some m' →
  0 ≤ b ∧ 0 ≤ off + b `div` 64 < Z.of_nat (length m) ∧
  length m' = length m ∧
  ∀ k n, 0 ≤ n →
    wbit m' k n =
    wbit m k n && negb (bool_decide (k = off + b `div` 64 ∧ n = b `mod` 64)).
Proof.
  unfold CLEARBIT. case_decide as Hb; [|done].
  rewrite BITSLOT_div by done.
  destruct (load m _) as [w|] eqn:E; [|done]. simpl. intros Hst.
  split; [done|]. split; [by eapply load_bound|].
  split; [by eapply store_length|].
  intros k n Hn. unfold wbit. rewrite (load_store _ _ _ _ k Hst).
  case_decide as Hk.
  - subst k. rewrite E, Z.land_spec, Z.lnot_spec, BITMASK_testbit by done.
    f_equal. f_equal. apply bool_decide_ext. naive_solver.
  - rewrite bool_decide_eq_false_2 by naive_solver.
    by rewrite andb_true_r.
Qed.

Lemma CLEARBIT_is_Some m off b :
  0 ≤ b → 0 ≤ off + b `div` 64 < Z.of_nat (length m) →
  is_Some (CLEARBIT m off b).
Proof.
  intros Hb Hk. unfold CLEARBIT. rewrite decide_True by done.
  rewrite BITSLOT_div by done.
  destruct (load_is_Some m _ Hk) as [w ->]. simpl.
  unfold store. rewrite decide_True by done. eauto.
Qed.

(** ** The kernel matrix *)


Lemma prods_sorted_le a i1 i2 n1 n2 :
  prods_sorted a → i1 ≤ i2 →
  load a i1 = Some n1 → load a i2 = Some n2 → prod n1 ≤ prod n2.
Proof.
  unfold prods_sorted. intros Hs%Sorted_StronglySorted; [|apply _].
  rewrite !load_Some. intros Hle [H1 E1] [H2 E2].
  assert (Hn : (Z.to_nat i1 ≤ Z.to_nat i2)%nat) by lia.
  clear Hle H1 H2. revert Hn E1 E2.
  generalize (Z.to_nat i1) (Z.to_nat i2). clear i1 i2.
  induction a as [|x a IH]; intros k1 k2 Hk E1 E2; [done|].
  rewrite fmap_cons in Hs. apply StronglySorted_inv in Hs as [Hs Hx].
  destruct k1 as [|k1], k2 as [|k2]; simplify_eq/=; try lia.
  - rewrite Forall_forall in Hx. apply Hx.
    apply list_elem_of_fmap. exists n2. split; [done|].
    by eapply list_elem_of_lookup_2.
  - eapply (IH Hs k1 k2); [lia|done..].
Qed.



Lemma kernel_cells_ext a b SLOTS (P Q : Z → Z → Prop) m :
  (∀ i j, same_prod a b i j → P i j ↔ Q i j) →
  kernel_cells a b SLOTS P m → kernel_cells a b SLOTS Q m.
Proof.
  intros HPQ Hm k n Hk Hn. rewrite (Hm k n Hk Hn).
  split; intros (i & j & ? & ? & Hs & HP); exists i, j;
    (split_and!; [done..|]); by apply (HPQ i j Hs).
Qed.

Lemma same_prod_bounds a b i j :
  same_prod a b i j →
  0 ≤ i < Z.of_nat (length a) ∧ 0 ≤ j < Z.of_nat (length b).
Proof.
  intros (an & bn & Ha%load_bound & Hb%load_bound & _). done.
Qed.

Lemma cell_in_range (SLOTS blen i j : Z) :
  0 ≤ i < 64 * SLOTS → 0 ≤ j < blen →
  0 ≤ j * SLOTS + i `div` 64 < blen * SLOTS.
Proof.
  intros Hi Hj.
  assert (0 ≤ i `div` 64 < SLOTS) by
    (split; [apply Z.div_pos; lia | apply Z.div_lt_upper_bound; lia]).
  nia.
Qed.

Lemma cell_inj (SLOTS i j i' j' : Z) :
  0 ≤ i < 64 * SLOTS → 0 ≤ i' < 64 * SLOTS →
  j * SLOTS + i `div` 64 = j' * SLOTS + i' `div` 64 →
  i `mod` 64 = i' `mod` 64 →
  i = i' ∧ j = j'.
Proof.
  intros Hi Hi' Hk Hn.
  assert (0 ≤ i `div` 64 < SLOTS) by
    (split; [apply Z.div_pos; lia | apply Z.div_lt_upper_bound; lia]).
  assert (0 ≤ i' `div` 64 < SLOTS) by
    (split; [apply Z.div_pos; lia | apply Z.div_lt_upper_bound; lia]).
  assert (j = j') by nia. subst j'.
  assert (i `div` 64 = i' `div` 64) by lia.
  rewrite (Z.div_mod i 64), (Z.div_mod i' 64) by lia. split; [lia|done].
Qed.

(** Setting the bit of one more cell with equal productions. *)
Lemma kernel_cells_SETBIT a b SLOTS (P Q : Z → Z → Prop) m m' i j :
  kernel_cells a b SLOTS P m →
  same_prod a b i j →
  SETBIT m (j * SLOTS) i = Some m' →
  (∀ i' j', same_prod a b i' j' → Q i' j' ↔ P i' j' ∨ (i' = i ∧ j' = j)) →
  kernel_cells a b SLOTS Q m'.
Proof.
  intros Hm Hs (Hi & Hk & Hlen & Hbits)%SETBIT_Some HQ k n Hkr Hn.
  rewrite Hbits by done. rewrite orb_true_iff, (Hm k n Hkr Hn).
  rewrite bool_decide_eq_true. split.
  - intros [(i' & j' & ? & ? & Hs' & HP)|[-> ->]].
    + exists i', j'. split_and!; [done..|]. apply HQ; auto.
    + exists i, j. split_and!; [done..|]. apply HQ; auto.
  - intros (i' & j' & -> & -> & Hs' & [HP|[-> ->]]%HQ); [|auto..].
    left. exists i', j'. auto.
Qed.

(** Reading a cell of the kernel matrix. *)
Lemma kernel_cells_TESTBIT a b SLOTS (P : Z → Z → Prop) m i j :
  kernel_cells a b SLOTS P m →
  Z.of_nat (length a) ≤ 64 * SLOTS →
  Z.of_nat (length b) * SLOTS ≤ Z.of_nat (length m) →
  0 ≤ i < 64 * SLOTS → 0 ≤ j < Z.of_nat (length b) →
  ∃ t, TESTBIT m (j * SLOTS) i = Some t ∧
       (t = true ↔ same_prod a b i j ∧ P i j).
Proof.
  intros Hm Ha Hlen Hi Hj.
  pose proof (cell_in_range SLOTS _ i j Hi Hj) as Hk.
  eexists. split; [apply TESTBIT_is_Some; lia|].
  rewrite (Hm _ _ Hk) by (apply Z.mod_pos_bound; lia). split.
  - intros (i' & j' & Ek & En & Hs & HP).
    destruct (same_prod_bounds _ _ _ _ Hs) as [Hi' _].
    destruct (cell_inj SLOTS i j i' j') as [-> ->]; [lia..|done].
  - intros [Hs HP]. exists i, j. done.
Qed.

(** ** The fast tree kernel computes the all-pairs matrix *)

Section kernel_correct.
Context (a b : list Node) (SLOTS : Z).
Context (Ha : prods_sorted a) (Hb : prods_sorted b).
Context (Hslots : Z.of_nat (length a) ≤ 64 * SLOTS).

Local Abbreviation alen := (Z.of_nat (length a)).
Local Abbreviation blen := (Z.of_nat (length b)).

Lemma ftk_run_spec fuel m j ii :
  kernel_cells a b SLOTS (upto j ii) m →
  0 ≤ ii < alen → 0 ≤ j < blen → alen - ii < Z.of_nat fuel →
  blen * SLOTS ≤ Z.of_nat (length m) →
  (∀ an bn, load a ii = Some an → load b j = Some bn → prod bn ≤ prod an) →
  ∃ m', ftk_run fuel a b alen SLOTS m j ii = Some m' ∧
        length m' = length m ∧
        kernel_cells a b SLOTS (upto (j + 1) 0) m'.
Proof.
  revert m ii. induction fuel as [|fuel IH]; intros m ii Hm Hii Hj Hf Hlen Hge;
    [lia|].
  destruct (load_is_Some a ii Hii) as [an Ean].
  destruct (load_is_Some b j Hj) as [bn Ebn].
  simpl. rewrite Ean, Ebn. simpl.
  destruct (decide (prod an = prod bn)) as [Heq|Hne].
  - assert (Hs : same_prod a b ii j) by (exists an, bn; done).
    pose proof (cell_in_range SLOTS blen ii j) as Hk.
    destruct (SETBIT_is_Some m (j * SLOTS) ii) as [m1 E1]; [lia..|].
    rewrite E1. simpl.
    assert (Hm1 : kernel_cells a b SLOTS (upto j (ii + 1)) m1).
    { eapply kernel_cells_SETBIT; [exact Hm|exact Hs|exact E1|].
      intros i' j' _. unfold upto. lia. }
    assert (Hl1 : length m1 = length m).
    { by apply SETBIT_Some in E1 as (_ & _ & ? & _). }
    destruct (decide (ii + 1 >= alen)) as [Hend|Hmore].
    + exists m1. split_and!; [done..|].
      eapply kernel_cells_ext; [|exact Hm1].
      intros i' j' [? _]%same_prod_bounds. unfold upto. lia.
    + destruct (IH m1 (ii + 1)) as (m' & E' & Hl' & Hm'); [done|lia..| |].
      { intros an' bn' Ean' Ebn'. simplify_eq.
        pose proof (prods_sorted_le a ii (ii + 1) an an' Ha ltac:(lia) Ean Ean'). lia. }
      exists m'. split_and!; [done|congruence|done].
  - exists m. split_and!; [done..|].
    eapply kernel_cells_ext; [|exact Hm].
    intros i' j' (an' & bn' & Ean' & Ebn' & Heq'). unfold upto.
    pose proof (load_bound _ _ _ Ean'). pose proof (load_bound _ _ _ Ebn').
    destruct (decide (j' = j)) as [->|]; [|lia].
    simplify_eq. pose proof (Hge an bn Ean Ebn).
    destruct (decide (i' < ii)); [lia|].
    pose proof (prods_sorted_le a ii i' an an' Ha ltac:(lia) Ean Ean'). lia.
Qed.

Lemma ftk_block_spec fuel m i j :
  kernel_cells a b SLOTS (upto j 0) m →
  0 ≤ i < alen → 0 ≤ j < blen → blen - j < Z.of_nat fuel →
  blen * SLOTS ≤ Z.of_nat (length m) →
  (∀ i' an' bn, i' < i → load a i' = Some an' → load b j = Some bn →
     prod an' < prod bn) →
  ∃ m' r, ftk_block fuel a b alen blen SLOTS m i j = Some (m', r) ∧
    length m' = length m ∧
    match r with
    | None => kernel_cells a b SLOTS (upto blen 0) m'
    | Some j' => kernel_cells a b SLOTS (upto j' 0) m' ∧ j ≤ j' < blen ∧
                 (same_prod a b i j → j < j')
    end.
Proof.
  revert m j. induction fuel as [|fuel IH]; intros m j Hm Hi Hj Hf Hlen Hlt;
    [lia|].
  destruct (load_is_Some a i Hi) as [an Ean].
  destruct (load_is_Some b j Hj) as [bn Ebn].
  cbn -[ftk_run]. rewrite Ean, Ebn. cbn -[ftk_run].
  destruct (decide (prod an = prod bn)) as [Heq|Hne].
  - destruct (ftk_run_spec (S (Z.to_nat alen)) m j i) as (m1 & E1 & Hl1 & Hm1);
      [|done|done|lia|done| |].
    { eapply kernel_cells_ext; [|exact Hm].
      intros i' j' (an' & bn' & Ean' & Ebn' & Heq'). unfold upto.
      pose proof (load_bound _ _ _ Ean'). pose proof (load_bound _ _ _ Ebn').
    pose proof (load_bound _ _ _ Ean'). pose proof (load_bound _ _ _ Ebn').
      destruct (decide (j' = j)) as [->|]; [|lia]. simplify_eq.
      destruct (decide (i' < i)); [|lia].
      pose proof (Hlt i' an' bn ltac:(lia) Ean' Ebn). lia. }
    { intros ?? ??. simplify_eq. lia. }
    rewrite E1. cbn -[ftk_run].
    destruct (decide (j + 1 >= blen)) as [Hend|Hmore].
    + exists m1, None. split_and!; [done..|].
      eapply kernel_cells_ext; [|exact Hm1].
      intros i' j' [_ ?]%same_prod_bounds. unfold upto. lia.
    + destruct (IH m1 (j + 1)) as (m' & r & E' & Hl' & Hr); [done|lia..| |].
      { intros i' an' bn' Hi' Ean' Ebn'.
        pose proof (Hlt i' an' bn Hi' Ean' Ebn).
        pose proof (prods_sorted_le b j (j + 1) bn bn' Hb ltac:(lia) Ebn Ebn'). lia. }
      exists m', r. split_and!; [done|congruence|].
      destruct r as [j'|]; [|done].
      destruct Hr as (? & ? & ?). split_and!; [done|lia..].
  - exists m, (Some j). split_and!; [done..|lia|].
    intros (an' & bn' & ? & ? & ?). simplify_eq.
Qed.

Lemma ftk_loop_spec fuel m i j :
  kernel_cells a b SLOTS (upto j 0) m →
  0 ≤ i < alen → 0 ≤ j < blen → (alen - i) + (blen - j) ≤ Z.of_nat fuel →
  blen * SLOTS ≤ Z.of_nat (length m) →
  (∀ i' an' bn, i' < i → load a i' = Some an' → load b j = Some bn →
     prod an' < prod bn) →
  ∃ m', ftk_loop fuel a b alen blen SLOTS m i j = Some m' ∧
        length m' = length m ∧
        kernel_cells a b SLOTS (λ _ _, True) m'.
Proof.
  revert m i j.
  induction fuel as [|fuel IH]; intros m i j Hm Hi Hj Hf Hlen Hlt; [lia|].
  destruct (load_is_Some a i Hi) as [an Ean].
  destruct (load_is_Some b j Hj) as [bn Ebn].
  cbn -[ftk_block]. rewrite Ean, Ebn. cbn -[ftk_block].
  assert (Hrow : ∀ i' j' an' bn', load a i' = Some an' → load b j' = Some bn' →
            prod an' = prod bn' → j ≤ j' → i ≤ i' ∧ prod bn ≤ prod an').
  { intros i' j' an' bn' Ean' Ebn' Heq' Hj'.
    pose proof (prods_sorted_le b j j' bn bn' Hb Hj' Ebn Ebn').
    split; [|lia]. destruct (decide (i ≤ i')); [done|].
    pose proof (Hlt i' an' bn ltac:(lia) Ean' Ebn). lia. }
  destruct (decide (prod an < prod bn)) as [Hlt1|Hge1].
  - destruct (decide (i + 1 >= alen)) as [Hend|Hmore].
    + exists m. split_and!; [done..|].
      eapply kernel_cells_ext; [|exact Hm].
      intros i' j' (an' & bn' & Ean' & Ebn' & Heq'). unfold upto.
      pose proof (load_bound _ _ _ Ean'). pose proof (load_bound _ _ _ Ebn').
    pose proof (load_bound _ _ _ Ean'). pose proof (load_bound _ _ _ Ebn').
      split; [done|]. intros _. destruct (decide (j' < j)); [lia|].
      exfalso. destruct (Hrow i' j' an' bn') as [? ?]; [done..|lia|].
      apply load_bound in Ean' as ?.
      pose proof (prods_sorted_le a i' i an' an Ha ltac:(lia) Ean' Ean). lia.
    + destruct (IH m (i + 1) j) as (m' & E' & ?); [done|lia..| |by exists m'].
      intros i' an' bn' Hi' Ean' Ebn'. simplify_eq.
      destruct (decide (i' < i)); [by eapply Hlt|].
      assert (i' = i) as -> by lia. simplify_eq. done.
  - destruct (decide (prod an > prod bn)) as [Hgt|Hle].
    + assert (Hm1 : kernel_cells a b SLOTS (upto (j + 1) 0) m).
      { eapply kernel_cells_ext; [|exact Hm].
        intros i' j' (an' & bn' & Ean' & Ebn' & Heq'). unfold upto.
        pose proof (load_bound _ _ _ Ean'). pose proof (load_bound _ _ _ Ebn').
      pose proof (load_bound _ _ _ Ean'). pose proof (load_bound _ _ _ Ebn').
    pose proof (load_bound _ _ _ Ean'). pose proof (load_bound _ _ _ Ebn').
        destruct (decide (j' = j)) as [->|]; [|lia]. exfalso.
        destruct (Hrow i' j an' bn') as [? ?]; [done..|lia|]. simplify_eq.
        pose proof (prods_sorted_le a i i' an an' Ha ltac:(lia) Ean Ean'). lia. }
      destruct (decide (j + 1 >= blen)) as [Hend|Hmore].
      * exists m. split_and!; [done..|].
        eapply kernel_cells_ext; [|exact Hm1].
        intros i' j' [_ ?]%same_prod_bounds. unfold upto. split; [done|lia].
      * destruct (IH m i (j + 1)) as (m' & E' & ?); [done|lia..| |by exists m'].
        intros i' an' bn' Hi' Ean' Ebn'.
        pose proof (Hlt i' an' bn Hi' Ean' Ebn).
        pose proof (prods_sorted_le b j (j + 1) bn bn' Hb ltac:(lia) Ebn Ebn'). lia.
    + destruct (ftk_block_spec (S (Z.to_nat blen)) m i j)
        as (m1 & r & E1 & Hl1 & Hr); [done|done|done|lia|done|done|].
      rewrite E1. cbn -[ftk_block]. destruct r as [j'|].
      * destruct Hr as (Hm1 & Hj' & Hstep).
        assert (j < j') by (apply Hstep; exists an, bn; split_and!; [done..|lia]).
        destruct (IH m1 i j') as (m' & E' & Hl' & ?); [done|lia..| |].
        { intros i' an' bn' Hi' Ean' Ebn'.
          pose proof (Hlt i' an' bn Hi' Ean' Ebn).
          pose proof (prods_sorted_le b j j' bn bn' Hb ltac:(lia) Ebn Ebn'). lia. }
        exists m'. split_and!; [done|congruence|done].
      * exists m1. split_and!; [done..|].
        eapply kernel_cells_ext; [|exact Hr].
        intros i' j' [_ ?]%same_prod_bounds. unfold upto. split; [done|lia].
Qed.

End kernel_correct.

(** On a matrix whose first [blen * SLOTS] words are zero the fast kernel
    returns, and the cells set are those with equal productions. *)
Lemma fasttreekernel_spec (a b : list Node) (SLOTS : Z) (m : list Z) :
  prods_sorted a → prods_sorted b →
  (0 < length a)%nat → (0 < length b)%nat →
  Z.of_nat (length a) ≤ 64 * SLOTS →
  Z.of_nat (length b) * SLOTS ≤ Z.of_nat (length m) →
  (∀ k n, 0 ≤ k < Z.of_nat (length b) * SLOTS → wbit m k n = false) →
  ∃ m', fasttreekernel a b (Z.of_nat (length a)) (Z.of_nat (length b)) m SLOTS
          = Some m' ∧
        length m' = length m ∧
        kernel_cells a b SLOTS (λ _ _, True) m'.
Proof.
  intros Ha Hb Hla Hlb Hslots Hlen Hzero. unfold fasttreekernel.
  apply ftk_loop_spec; [done..| |lia|lia|lia|done|].
  - intros k n Hk Hn. rewrite Hzero by done. split; [done|].
    intros (i & j & _ & _ & [? ?]%same_prod_bounds & Hu).
    unfold upto in Hu. lia.
  - intros i' an' bn Hi' Ean'%load_bound. lia.
Qed.

Lemma wbit_replicate_0 n k j : wbit (replicate n 0) k j = false.
Proof.
  unfold wbit. destruct (load _ k) as [w|] eqn:E; [|done].
  apply load_Some in E as [_ [-> _]%lookup_replicate]. apply Z.bits_0.
Qed.

(** The cell-by-cell reference fills the same cells. *)
Lemma reference_cells_spec (a b : list Node) (SLOTS : Z) cs :
  Z.of_nat (length a) ≤ 64 * SLOTS →
  Forall (λ ji : Z * Z, 0 ≤ ji.1 < Z.of_nat (length b) ∧
                        0 ≤ ji.2 < Z.of_nat (length a)) cs →
  ∀ (P : Z → Z → Prop) m,
  Z.of_nat (length b) * SLOTS ≤ Z.of_nat (length m) →
  kernel_cells a b SLOTS P m →
  ∃ m', foldl (λ acc ji, m ← acc; reference_cell a b SLOTS m ji) (Some m) cs
          = Some m' ∧
        length m' = length m ∧
        kernel_cells a b SLOTS (λ i j, P i j ∨ (j, i) ∈ cs) m'.
Proof.
  intros Hslots. induction 1 as [|[j i] cs [Hj Hi] Hcs IH]; intros P m Hlen Hm.
  - exists m. split_and!; [done..|].
    eapply kernel_cells_ext; [|exact Hm]. intros i j _.
    rewrite elem_of_nil. tauto.
  - simpl in Hj, Hi.
    destruct (load_is_Some a i Hi) as [an Ean].
    destruct (load_is_Some b j Hj) as [bn Ebn].
    assert (∃ m1, reference_cell a b SLOTS m (j, i) = Some m1 ∧
              length m1 = length m ∧
              kernel_cells a b SLOTS (λ i' j', P i' j' ∨ (i' = i ∧ j' = j)) m1)
      as (m1 & E1 & Hl1 & Hm1).
    { unfold reference_cell. simpl. rewrite Ean, Ebn. simpl.
      destruct (decide (prod an = prod bn)) as [Heq|Hne].
      - pose proof (cell_in_range SLOTS (Z.of_nat (length b)) i j).
        destruct (SETBIT_is_Some m (j * SLOTS) i) as [m1 E1]; [lia..|].
        exists m1. split; [done|]. split.
        { by apply SETBIT_Some in E1 as (_ & _ & ? & _). }
        eapply kernel_cells_SETBIT; [exact Hm| |exact E1|done].
        by exists an, bn.
      - exists m. split_and!; [done..|].
        eapply kernel_cells_ext; [|exact Hm].
        intros i' j' (an' & bn' & ? & ? & ?). split; [auto|].
        intros [?|[-> ->]]; [done|]. simplify_eq. }
    simpl. rewrite E1.
    destruct (IH _ m1 ltac:(lia) Hm1) as (m' & E' & Hl' & Hm').
    exists m'. split_and!; [done|congruence|].
    eapply kernel_cells_ext; [|exact Hm']. intros i' j' _.
    rewrite elem_of_cons. split.
    + intros [[?|[-> ->]]|?]; auto.
    + intros [?|[[= -> ->]|?]]; auto.
Qed.

(** Two matrices of [blen * SLOTS] words that hold the same cells are equal. *)
Lemma kernel_cells_unique (a b : list Node) SLOTS P (m1 m2 : list Z) :
  Z.of_nat (length m1) = Z.of_nat (length b) * SLOTS →
  length m2 = length m1 →
  kernel_cells a b SLOTS P m1 → kernel_cells a b SLOTS P m2 → m1 = m2.
Proof.
  intros Hl1 Hl2 H1 H2. apply list_eq_same_length with (length m1); [done..|].
  intros k w1 w2 Hk E1 E2. apply Z.bits_inj'. intros n Hn.
  specialize (H1 (Z.of_nat k) n ltac:(lia) Hn).
  specialize (H2 (Z.of_nat k) n ltac:(lia) Hn).
  unfold wbit, load in H1, H2.
  rewrite decide_True, Nat2Z.id in H1, H2 by lia.
  rewrite E1 in H1. rewrite E2 in H2.
  apply eq_true_iff_eq. by rewrite H1, H2.
Qed.

(** C1.  For two non-empty trees whose node arrays are sorted by production
    id and fit the row width ([alen <= 64 * SLOTS]), [fasttreekernel] run on an
    all-zero matrix of [blen * SLOTS] words returns exactly the matrix built
    by the all-pairs reference, and in it bit [i] of row [j] is set if and
    only if [a[i].prod == b[j].prod]. *)
Theorem fasttreekernel_reference (a b : list Node) (SLOTS : Z) :
  prods_sorted a → prods_sorted b →
  (0 < length a)%nat → (0 < length b)%nat →
  Z.of_nat (length a) ≤ 64 * SLOTS →
  ∃ m,
    fasttreekernel a b (Z.of_nat (length a)) (Z.of_nat (length b))
      (replicate (Z.to_nat (Z.of_nat (length b) * SLOTS)) 0) SLOTS = Some m ∧
    reference_kernel a b (Z.of_nat (length a)) (Z.of_nat (length b))
      (replicate (Z.to_nat (Z.of_nat (length b) * SLOTS)) 0) SLOTS = Some m ∧
    ∀ i j an bn, load a i = Some an → load b j = Some bn →
      TESTBIT m (j * SLOTS) i = Some (bool_decide (prod an = prod bn)).
Proof.
  intros Ha Hb Hla Hlb Hslots.
  set (zero := replicate _ 0).
  assert (Hlz : Z.of_nat (length zero) = Z.of_nat (length b) * SLOTS).
  { unfold zero. rewrite length_replicate. nia. }
  destruct (fasttreekernel_spec a b SLOTS zero) as (m & E & Hl & Hm);
    [done..|lia| |].
  { intros. apply wbit_replicate_0. }
  exists m. split; [done|]. split.
  - destruct (reference_cells_spec a b SLOTS
      (j ← seqZ 0 (Z.of_nat (length b)); i ← seqZ 0 (Z.of_nat (length a));
       [(j, i)]) Hslots) with (P := λ _ _ : Z, False) (m := zero)
      as (m' & E' & Hl' & Hm').
    + apply Forall_forall. intros [j i].
      intros (j' & Hi & Hj%elem_of_seqZ)%list_elem_of_bind.
      apply list_elem_of_bind in Hi as (i' & Hji & Hi%elem_of_seqZ).
      apply list_elem_of_singleton in Hji as [= -> ->]. simpl. lia.
    + lia.
    + intros k n Hk Hn. unfold zero. rewrite wbit_replicate_0.
      split; [done|]. by intros (? & ? & _ & _ & _ & []).
    + unfold reference_kernel. rewrite E'. f_equal.
      eapply (kernel_cells_unique a b SLOTS (λ _ _, True)); [lia|congruence| |done].
      eapply kernel_cells_ext; [|exact Hm'].
      intros i j [Hi Hj]%same_prod_bounds. split; [done|]. intros _. right.
      apply list_elem_of_bind. exists j. split; [|apply elem_of_seqZ; lia].
      apply list_elem_of_bind. exists i. split; [|apply elem_of_seqZ; lia].
      by apply list_elem_of_singleton.
  - intros i j an bn Ean Ebn.
    pose proof (load_bound _ _ _ Ean). pose proof (load_bound _ _ _ Ebn).
    destruct (kernel_cells_TESTBIT a b SLOTS _ m i j Hm) as (t & Et & Ht);
      [lia..|].
    rewrite Et. f_equal. apply eq_true_iff_eq. rewrite Ht.
    rewrite bool_decide_eq_true. split.
    + intros [(? & ? & ? & ? & ?) _]. by simplify_eq.
    + intros ?. split; [by exists an, bn|done].
Qed.

Lemma fasttreekernel_reference_witness :
  ∃ m,
    fasttreekernel
      [mkNode 0 (-1) (-1); mkNode 2 (-2) (-1); mkNode 2 (-3) (-1); mkNode 5 1 2]
      [mkNode 1 (-1) (-1); mkNode 2 (-2) (-1); mkNode 5 0 1; mkNode 5 2 (-1)]
      4 4 (replicate 4%nat 0) 1 = Some m ∧
    reference_kernel
      [mkNode 0 (-1) (-1); mkNode 2 (-2) (-1); mkNode 2 (-3) (-1); mkNode 5 1 2]
      [mkNode 1 (-1) (-1); mkNode 2 (-2) (-1); mkNode 5 0 1; mkNode 5 2 (-1)]
      4 4 (replicate 4%nat 0) 1 = Some m ∧
    ∀ i j an bn,
      load [mkNode 0 (-1) (-1); mkNode 2 (-2) (-1); mkNode 2 (-3) (-1);
           mkNode 5 1 2] i = Some an →
      load [mkNode 1 (-1) (-1); mkNode 2 (-2) (-1); mkNode 5 0 1;
           mkNode 5 2 (-1)] j = Some bn →
      TESTBIT m (j * 1) i = Some (bool_decide (prod an = prod bn)).
Proof.
  apply (fasttreekernel_reference
    [mkNode 0 (-1) (-1); mkNode 2 (-2) (-1); mkNode 2 (-3) (-1); mkNode 5 1 2]
    [mkNode 1 (-1) (-1); mkNode 2 (-2) (-1); mkNode 5 0 1; mkNode 5 2 (-1)] 1).
  - unfold prods_sorted. simpl. repeat constructor; lia.
  - unfold prods_sorted. simpl. repeat constructor; lia.
  - simpl. lia.
  - simpl. lia.
  - simpl. lia.
Defined.

(** ** Extraction at a pair of nodes *)

(** A unary node over a terminal, compared with itself: the kernel matrix,
    and the extraction at the roots. *)
Example extractat_unary_matrix :
  fasttreekernel [mkNode 0 1 (-1); mkNode 1 (-1) (-1)]
    [mkNode 0 1 (-1); mkNode 1 (-1) (-1)] 2 2 [0; 0] 1 = Some [1; 2].
Proof. reflexivity. Qed.

(** C2 (the code departs from the claim).  At a unary node the count of the
    left subtree is dropped: on the tree [(X (Y w))] paired with itself,
    [extractat] at the roots absorbs node 0 and the terminal node 1 into the
    result, one terminal, and returns 0. *)
Theorem extractat_unary_returns_zero :
  let a := [mkNode 0 1 (-1); mkNode 1 (-1) (-1)] in
  same_prod a a 0 0 ∧
  extractat 2 [1; 2] [0] a a 0 0 1 = Some (0, [0; 0], [3]) ∧
  terminals_in a [3] = 1.
Proof.
  split; [|split; reflexivity].
  eexists _, _. split_and!; reflexivity.
Qed.

(** On a binary node the two counts are added. *)
Example extractat_binary :
  let a := [mkNode 0 1 2; mkNode 1 (-1) (-1); mkNode 2 (-2) (-1)] in
  fasttreekernel a a 3 3 [0; 0; 0] 1 = Some [1; 2; 4] ∧
  extractat 3 [1; 2; 4] [0] a a 0 0 1 = Some (2, [0; 0; 0], [7]) ∧
  terminals_in a [7] = 2.
Proof. split_and!; reflexivity. Qed.

(** ** Cells of the matrix *)

Lemma only_clears_refl m : only_clears m m.
Proof. split; auto. Qed.

Lemma only_clears_trans m1 m2 m3 :
  only_clears m1 m2 → only_clears m2 m3 → only_clears m1 m3.
Proof. intros [? ?] [? ?]. split; [congruence|eauto]. Qed.

Lemma only_clears_cell m m' SLOTS i j :
  only_clears m m' → cell m' SLOTS i j = true → cell m SLOTS i j = true.
Proof.
  intros [_ H]. unfold cell. apply H. apply Z.mod_pos_bound. lia.
Qed.

Lemma only_clears_cell_false m m' SLOTS i j :
  only_clears m m' → cell m SLOTS i j = false → cell m' SLOTS i j = false.
Proof.
  intros H Hf. destruct (cell m' SLOTS i j) eqn:E; [|done].
  apply (only_clears_cell _ _ _ _ _ H) in E. congruence.
Qed.

Lemma cells_sound_only_clears a b SLOTS m m' :
  cells_sound a b SLOTS m → only_clears m m' → cells_sound a b SLOTS m'.
Proof. intros Hs [_ Hc] k n Hk Hn Hb. apply Hs; auto. Qed.

Lemma kernel_cells_sound a b SLOTS P m :
  kernel_cells a b SLOTS P m → cells_sound a b SLOTS m.
Proof.
  intros Hm k n Hk Hn Hb. apply (Hm k n Hk Hn) in Hb as (i & j & ? & ? & ? & _).
  by exists i, j.
Qed.

Lemma cells_sound_cell a b SLOTS m i j :
  cells_sound a b SLOTS m →
  Z.of_nat (length a) ≤ 64 * SLOTS →
  0 ≤ i < 64 * SLOTS → 0 ≤ j < Z.of_nat (length b) →
  cell m SLOTS i j = true → same_prod a b i j.
Proof.
  intros Hs Ha Hi Hj Hc.
  pose proof (cell_in_range SLOTS _ i j Hi Hj) as Hk.
  destruct (Hs _ _ Hk (proj1 (Z.mod_pos_bound i 64 ltac:(lia))) Hc)
    as (i' & j' & Ek & En & Hp).
  destruct (same_prod_bounds _ _ _ _ Hp) as [Hi' _].
  destruct (cell_inj SLOTS i j i' j') as [-> ->]; [lia..|done].
Qed.

Lemma CLEARBIT_cell m SLOTS i j m' :
  CLEARBIT m (j * SLOTS) i = Some m' →
  0 ≤ i < 64 * SLOTS →
  only_clears m m' ∧ cell m' SLOTS i j = false ∧
  ∀ i' j', 0 ≤ i' < 64 * SLOTS → (i', j') ≠ (i, j) →
    cell m' SLOTS i' j' = cell m SLOTS i' j'.
Proof.
  intros (Hb & Hk & Hlen & Hbits)%CLEARBIT_Some Hi.
  split_and!.
  - split; [done|]. intros k n Hn. rewrite Hbits by done.
    by intros [? _]%andb_true_iff.
  - unfold cell. rewrite Hbits by (apply Z.mod_pos_bound; lia).
    rewrite bool_decide_eq_true_2 by done. apply andb_false_r.
  - intros i' j' Hi' Hne. unfold cell.
    rewrite Hbits by (apply Z.mod_pos_bound; lia).
    rewrite bool_decide_eq_false_2; [apply andb_true_r|].
    intros [Ek En]. destruct (cell_inj SLOTS i' j' i j) as [-> ->]; done.
Qed.

Lemma SETBIT_row m i m' :
  SETBIT m 0 i = Some m' →
  only_clears m' m ∧ wbit m' (i `div` 64) (i `mod` 64) = true.
Proof.
  intros (Hb & Hk & Hlen & Hbits)%SETBIT_Some. split.
  - split; [done|]. intros k n Hn Hw. rewrite Hbits by done.
    by rewrite Hw.
  - rewrite Hbits by (apply Z.mod_pos_bound; lia).
    rewrite bool_decide_eq_true_2 by done. apply orb_true_r.
Qed.

Lemma TESTBIT_cell m SLOTS i j :
  0 ≤ i →
  0 ≤ j * SLOTS + i `div` 64 < Z.of_nat (length m) →
  TESTBIT m (j * SLOTS) i = Some (cell m SLOTS i j).
Proof. intros. by apply TESTBIT_is_Some. Qed.

Lemma starts_once_nil b SLOTS m : starts_once b SLOTS m m [].
Proof.
  split; [apply only_clears_refl|]. split; [constructor|].
  intros i j []%elem_of_nil.
Qed.

Lemma starts_once_app b SLOTS m1 m2 m3 t1 t2 :
  starts_once b SLOTS m1 m2 t1 → starts_once b SLOTS m2 m3 t2 →
  starts_once b SLOTS m1 m3 (t1 ++ t2).
Proof.
  intros (Hc1 & Hd1 & H1) (Hc2 & Hd2 & H2). split_and!.
  - by eapply only_clears_trans.
  - apply NoDup_app. split_and!; [done| |done].
    intros [i j] Hin1 Hin2.
    destruct (H1 i j Hin1) as (_ & _ & _ & Hf).
    destruct (H2 i j Hin2) as (_ & _ & Ht & _). congruence.
  - intros i j [Hin|Hin]%elem_of_app.
    + destruct (H1 i j Hin) as (? & ? & ? & ?).
      split; [done|]. split; [done|]. split; [done|].
      by eapply only_clears_cell_false.
    + destruct (H2 i j Hin) as (? & ? & ? & ?).
      split; [done|]. split; [done|]. split; [|done].
      by eapply only_clears_cell.
Qed.

(** ** Extraction on well-formed trees *)

Lemma frame_above_trans b SLOTS rank r m1 m2 m3 :
  frame_above b SLOTS rank r m1 m2 → frame_above b SLOTS rank r m2 m3 →
  frame_above b SLOTS rank r m1 m3.
Proof.
  intros H1 H2 i' j' Hi Hj Hr. rewrite H2, H1 by done. done.
Qed.

Lemma frame_above_refl b SLOTS rank r m : frame_above b SLOTS rank r m m.
Proof. by intros i' j' _ _ _. Qed.

Lemma extract_post_frame b SLOTS rank r i j m s m' s' :
  extract_post b SLOTS rank i j m s m' s' → (rank j < r)%nat →
  frame_above b SLOTS rank r m m'.
Proof.
  intros (_ & _ & _ & _ & Hf) Hr i' j' Hi Hj Hr'. apply Hf; [done..|lia|].
  intros [= -> ->]. lia.
Qed.

Section extract.
Context (a b : list Node) (SLOTS : Z) (ra rb : Z → nat).
Context (Hta : tree_ranked a ra) (Htb : tree_ranked b rb).
Context (Har : same_arity a b).
Context (Hslots : Z.of_nat (length a) ≤ 64 * SLOTS).

Local Abbreviation alen := (Z.of_nat (length a)).
Local Abbreviation blen := (Z.of_nat (length b)).

(** The test of a child cell, and the recursive call when it is set. *)
Lemma extractat_child fuel m r ci cj :
  (∀ m r i j, (ra i < fuel)%nat → cells_sound a b SLOTS m →
     blen * SLOTS ≤ Z.of_nat (length m) → SLOTS ≤ Z.of_nat (length r) →
     same_prod a b i j →
     ∃ terms m' r', extractat fuel m r a b i j SLOTS = Some (terms, m', r') ∧
                    extract_post b SLOTS rb i j m r m' r') →
  0 ≤ ci < alen → 0 ≤ cj < blen → (ra ci < fuel)%nat →
  cells_sound a b SLOTS m →
  blen * SLOTS ≤ Z.of_nat (length m) → SLOTS ≤ Z.of_nat (length r) →
  ∃ t, TESTBIT m (cj * SLOTS) ci = Some t ∧
    (t = true →
     ∃ terms m' r', extractat fuel m r a b ci cj SLOTS = Some (terms, m', r') ∧
                    extract_post b SLOTS rb ci cj m r m' r').
Proof.
  intros IH Hci Hcj Hfuel Hs Hlm Hlr.
  pose proof (cell_in_range SLOTS blen ci cj ltac:(lia) Hcj) as Hk.
  exists (cell m SLOTS ci cj). split; [apply TESTBIT_cell; lia|].
  intros Ht. apply IH; [done..|].
  eapply cells_sound_cell; [done|done|lia|done|done].
Qed.

Lemma extractat_spec fuel : ∀ m r i j,
  (ra i < fuel)%nat → cells_sound a b SLOTS m →
  blen * SLOTS ≤ Z.of_nat (length m) → SLOTS ≤ Z.of_nat (length r) →
  same_prod a b i j →
  ∃ terms m' r', extractat fuel m r a b i j SLOTS = Some (terms, m', r') ∧
                 extract_post b SLOTS rb i j m r m' r'.
Proof.
  induction fuel as [|fuel IH]; intros m r i j Hfuel Hs Hlm Hlr Hp; [lia|].
  pose proof Hp as (an & bn & Ean & Ebn & Heq).
  destruct (same_prod_bounds _ _ _ _ Hp) as [Hi Hj].
  pose proof (cell_in_range SLOTS blen i j ltac:(lia) Hj) as Hk.
  assert (Hi64 : 0 ≤ i `div` 64 < SLOTS).
  { split; [apply Z.div_pos; lia|apply Z.div_lt_upper_bound; lia]. }
  destruct (SETBIT_is_Some r 0 i) as [r1 Er1]; [lia..|].
  destruct (CLEARBIT_is_Some m (j * SLOTS) i) as [m1 Em1]; [lia..|].
  destruct (SETBIT_row _ _ _ Er1) as [Hr1 Hbit1].
  destruct (CLEARBIT_cell _ _ _ _ _ Em1 ltac:(lia)) as (Hc1 & Hz1 & Hf1).
  assert (Hs1 : cells_sound a b SLOTS m1) by by eapply cells_sound_only_clears.
  assert (Hlm1 : length m1 = length m) by apply Hc1.
  assert (Hlr1 : length r1 = length r) by (symmetry; apply Hr1).
  cbn [extractat]. rewrite Er1. cbn [mbind option_bind]. rewrite Em1.
  cbn [mbind option_bind]. rewrite Ean. cbn [mbind option_bind].
  destruct (Hta i an Ean) as (_ & Hleft).
  destruct (Htb j bn Ebn) as (_ & Hleftb).
  destruct (Har i j an bn Ean Ebn Heq) as [Harl Harr].
  destruct (decide (left an < 0)) as [Hterm|Hnt].
  { eexists _, _, _. split; [done|]. split_and!; [done..|].
    intros i' j' Hi' Hj' _ Hne. by apply Hf1. }
  rewrite Ebn. cbn [mbind option_bind].
  destruct Hleft as [[Hla Hra] Hright]; [lia|].
  destruct Hleftb as [[Hlb Hrb] Hrightb]; [lia|].
  (* left child *)
  destruct (extractat_child fuel m1 r1 (left an) (left bn) IH)
    as (tl & Etl & Hl); [lia..|done|lia|lia|].
  rewrite Etl. cbn [mbind option_bind].
  assert (∃ terms2 m2 r2,
    (if tl then extractat fuel m1 r1 a b (left an) (left bn) SLOTS
     else Some (0, m1, r1)) = Some (terms2, m2, r2) ∧
    only_clears m1 m2 ∧ only_clears r2 r1 ∧
    frame_above b SLOTS rb (rb j) m1 m2) as (terms2 & m2 & r2 & E2 & Hc2 & Hr2 & Hf2).
  { destruct tl.
    - destruct (Hl eq_refl) as (t' & m' & r' & E' & Hpost).
      exists t', m', r'. split; [done|].
      split; [apply Hpost|]. split; [apply Hpost|].
      by eapply extract_post_frame.
    - exists 0, m1, r1. split; [done|].
      split; [apply only_clears_refl|]. split; [apply only_clears_refl|].
      apply frame_above_refl. }
  rewrite E2. cbn [mbind option_bind].
  assert (Hfin : ∀ m3 r3,
    only_clears m2 m3 → only_clears r3 r2 →
    frame_above b SLOTS rb (rb j) m2 m3 →
    extract_post b SLOTS rb i j m r m3 r3).
  { intros m3 r3 Hc3 Hr3 Hf3. split_and!.
    - eauto using only_clears_trans.
    - eauto using only_clears_trans.
    - eauto using only_clears_cell_false.
    - destruct Hr3 as [_ Hr3], Hr2 as [_ Hr2].
      apply Hr3, Hr2; [apply Z.mod_pos_bound; lia..|done].
    - intros i' j' Hi' Hj' Hrk Hne.
      rewrite Hf3, Hf2 by done. by apply Hf1. }
  destruct (decide (right an < 0)) as [Hun|Hbin].
  { eexists _, _, _. split; [done|].
    apply Hfin; [apply only_clears_refl..|apply frame_above_refl]. }
  destruct Hright as [Hra2 Hrk2]; [lia|].
  destruct Hrightb as [Hrb2 Hrkb2]; [lia|].
  assert (Hs2 : cells_sound a b SLOTS m2) by by eapply cells_sound_only_clears.
  assert (Hlm2 : length m2 = length m1) by apply Hc2.
  assert (Hlr2 : length r2 = length r1) by (symmetry; apply Hr2).
  destruct (extractat_child fuel m2 r2 (right an) (right bn) IH)
    as (tr & Etr & Hr); [lia..|done|lia|lia|].
  rewrite Etr. cbn [mbind option_bind].
  destruct tr.
  - destruct (Hr eq_refl) as (t' & m' & r' & E' & Hpost).
    rewrite E'. cbn [mbind option_bind].
    eexists _, _, _. split; [done|].
    apply Hfin; [apply Hpost..|]. by eapply extract_post_frame.
  - eexists _, _, _. split; [done|].
    apply Hfin; [apply only_clears_refl..|apply frame_above_refl].
Qed.

End extract.

(** ** The iterator over set bits *)

Lemma ctz_pos_spec p :
  0 ≤ ctz_pos p ∧ Z.testbit (Zpos p) (ctz_pos p) = true ∧
  ∀ n, 0 ≤ n < ctz_pos p → Z.testbit (Zpos p) n = false.
Proof.
  induction p as [p IH|p IH|]; simpl.
  - split; [done|]. split; [done|]. lia.
  - destruct IH as (H0 & Ht & Hlow). split; [lia|].
    rewrite Pos2Z.inj_xO. split.
    + replace (1 + ctz_pos p) with (Z.succ (ctz_pos p)) by lia.
      by rewrite Z.double_bits_succ.
    + intros n Hn. destruct (decide (n = 0)) as [->|].
      * apply Z.testbit_even_0.
      * replace n with (Z.succ (n - 1)) by lia.
        rewrite Z.double_bits_succ. apply Hlow. lia.
  - split; [done|]. split; [done|]. lia.
Qed.

Lemma bit_ctz_spec w :
  0 < w →
  0 ≤ bit_ctz w ∧ Z.testbit w (bit_ctz w) = true ∧
  ∀ n, 0 ≤ n < bit_ctz w → Z.testbit w n = false.
Proof. destruct w; [lia| |lia]. intros _. apply ctz_pos_spec. Qed.

Lemma cells_sound_bit_lt64 a b SLOTS m k n :
  cells_sound a b SLOTS m → 0 ≤ k < Z.of_nat (length b) * SLOTS → 0 ≤ n →
  wbit m k n = true → n < 64.
Proof.
  intros Hs Hk Hn Hw. destruct (Hs k n Hk Hn Hw) as (i & j & _ & -> & _).
  apply Z.mod_pos_bound. lia.
Qed.

Lemma cells_sound_word_nonneg a b SLOTS m k w :
  cells_sound a b SLOTS m → 0 ≤ k < Z.of_nat (length b) * SLOTS →
  load m k = Some w → 0 ≤ w.
Proof.
  intros Hs Hk Hw. destruct (decide (0 ≤ w)) as [|Hneg]; [done|].
  exfalso.
  set (n := Z.max 64 (Z.log2 (Z.abs w) + 1)).
  assert (Ht : Z.testbit w n = true).
  { apply Z.bits_iff_neg; lia. }
  assert (n < 64); [|lia].
  eapply cells_sound_bit_lt64; [done|done|lia|].
  unfold wbit. by rewrite Hw.
Qed.

Lemma wbit_cell m SLOTS j idx n :
  0 ≤ n < 64 → wbit m (j * SLOTS + idx) n = cell m SLOTS (64 * idx + n) j.
Proof.
  intros Hn. unfold cell. f_equal.
  - f_equal. symmetry. rewrite Z.mul_comm, Z.div_add_l by lia.
    rewrite Z.div_small by lia. lia.
  - rewrite Z.add_comm, Z.mul_comm, Z.mod_add by lia.
    by rewrite Z.mod_small.
Qed.

Section rows.
Context (a b : list Node) (SLOTS : Z) (ra rb : Z → nat).
Context (Hta : tree_ranked a ra) (Htb : tree_ranked b rb).
Context (Har : same_arity a b).
Context (Hslots : Z.of_nat (length a) ≤ 64 * SLOTS) (Hpos : 0 < SLOTS).

Local Abbreviation alen := (Z.of_nat (length a)).
Local Abbreviation blen := (Z.of_nat (length b)).

Lemma iteratesetbits_spec fuel : ∀ m j cur idx iprev,
  cells_sound a b SLOTS m → 0 ≤ j < blen →
  blen * SLOTS ≤ Z.of_nat (length m) →
  cur_ok m SLOTS j cur idx iprev → 0 ≤ idx < SLOTS →
  iprev < 64 * (idx + 1) → SLOTS - idx ≤ Z.of_nat fuel →
  ∃ i' cur' idx',
    iteratesetbits fuel m (j * SLOTS) SLOTS cur idx = Some (i', cur', idx') ∧
    (i' = -1 ∨
     (iprev < i' ∧ 0 ≤ i' < 64 * SLOTS ∧ cell m SLOTS i' j = true ∧
      cur_ok m SLOTS j cur' idx' i' ∧ 0 ≤ idx' < SLOTS ∧
      i' < 64 * (idx' + 1))).
Proof.
  induction fuel as [|fuel IH]; intros m j cur idx iprev Hs Hj Hlen
    [Hcur Hbits] Hidx Hprev Hfuel; [lia|].
  cbn [iteratesetbits].
  destruct (decide (cur = 0)) as [->|Hnz].
  - destruct (decide (idx + 1 >= SLOTS)) as [|Hmore].
    { eexists _, _, _. split; [done|]. by left. }
    assert (Hk : 0 ≤ j * SLOTS + (idx + 1) < blen * SLOTS) by nia.
    destruct (load_is_Some m (j * SLOTS + (idx + 1)) ltac:(lia)) as [w Ew].
    rewrite Ew. cbn [mbind option_bind].
    apply IH; [done..| |lia|lia|lia].
    split; [by eapply cells_sound_word_nonneg|].
    intros n Hn Ht. split; [|lia]. unfold wbit. by rewrite Ew.
  - destruct (bit_ctz_spec cur ltac:(lia)) as (Htmp & Hset & Hlow).
    destruct (Hbits _ Htmp Hset) as [Hlive Hlt].
    assert (Hk : 0 ≤ j * SLOTS + idx < blen * SLOTS) by nia.
    assert (Hlt64 : bit_ctz cur < 64)
      by by eapply cells_sound_bit_lt64.
    eexists _, _, _. split; [done|]. right. unfold BITSIZE.
    split_and!; try lia.
    + rewrite <- Hlive. symmetry.
      replace (idx * 64 + bit_ctz cur) with (64 * idx + bit_ctz cur) by lia.
      apply wbit_cell. lia.
    + split.
      * apply Z.lxor_nonneg. rewrite Z.shiftl_1_l.
        split; intros _; [apply Z.pow_nonneg; lia|done].
      * intros n Hn. rewrite Z.lxor_spec, Z.shiftl_1_l, Z.pow2_bits_eqb by done.
        destruct (Z.eqb_spec (bit_ctz cur) n) as [<-|Hne].
        { by rewrite Hset. }
        rewrite xorb_false_r. intros Ht.
        destruct (Hbits n Hn Ht) as [? ?]. split; [done|].
        destruct (decide (n < bit_ctz cur)); [|lia].
        rewrite Hlow in Ht by lia. done.
Qed.

Lemma memset0_scratch (r : list Z) :
  0 ≤ SLOTS ≤ Z.of_nat (length r) →
  ∃ z, memset0 r 0 SLOTS = Some z ∧ length z = length r.
Proof.
  intros Hl. unfold memset0. rewrite decide_True by lia.
  eexists. split; [done|].
  rewrite !length_app, length_take, length_replicate, length_drop. lia.
Qed.

Lemma extractbitsets_row_spec fuel : ∀ j n minterms st cur idx i,
  extract_inv a b SLOTS st → 0 ≤ j < blen →
  (i = -1 ∨
   (0 ≤ i < 64 * SLOTS ∧ cell (st_matrix st) SLOTS i j = true ∧
    cur_ok (st_matrix st) SLOTS j cur idx i ∧ 0 ≤ idx < SLOTS ∧
    i < 64 * (idx + 1))) →
  (i ≠ -1 → 64 * SLOTS - i ≤ Z.of_nat fuel) →
  ∃ st', extractbitsets_row fuel a b j n minterms SLOTS st cur idx i = Some st' ∧
    extract_inv a b SLOTS st' ∧
    ∃ tr, st_starts st' = st_starts st ++ tr ∧
          starts_once b SLOTS (st_matrix st) (st_matrix st') tr.
Proof.
  induction fuel as [|fuel IH]; intros j n minterms st cur idx i
    (Hs & Hlm & Hlr) Hj Hi Hfuel.
  - assert (i = -1) as -> by lia. exists st. simpl.
    split; [done|]. split; [done|]. exists []. rewrite app_nil_r.
    split; [done|]. apply starts_once_nil.
  - cbn [extractbitsets_row].
    destruct (decide (i = -1)) as [->|Hne].
    { exists st. split; [done|]. split; [done|]. exists [].
      rewrite app_nil_r. split; [done|]. apply starts_once_nil. }
    destruct Hi as [?|(Hi & Hc & Hcur & Hidx & Hi64)]; [done|].
    destruct (memset0_scratch (bits (st_scratch st))) as (z & Ez & Hlz); [lia|].
    rewrite Ez. cbn [mbind option_bind].
    assert (Hp : same_prod a b i j).
    { eapply cells_sound_cell; [done|done|lia|done|done]. }
    destruct (same_prod_bounds _ _ _ _ Hp) as [Hia _].
    destruct Hp as (an & bn & Ean & Ebn & Heq).
    destruct (extractat_spec a b SLOTS ra rb Hta Htb Har Hslots
                (length a) (st_matrix st) z i j)
      as (terms & m' & r' & E & Hpost); [|done|done|lia| |].
    { apply (Hta i an Ean). }
    { by exists an, bn. }
    rewrite E. cbn [mbind option_bind].
    destruct Hpost as (Hcl & Hrl & Hz & Hroot & Hframe).
    assert (Hs' : cells_sound a b SLOTS m')
      by by eapply cells_sound_only_clears.
    assert (Hlm' : length m' = length (st_matrix st)) by apply Hcl.
    assert (Hcur' : cur_ok m' SLOTS j cur idx i).
    { destruct Hcur as [H0 Hbits]. split; [done|]. intros k Hk Ht.
      destruct (Hbits k Hk Ht) as [Hlive Hlt]. split; [|done].
      assert (k < 64).
      { eapply (cells_sound_bit_lt64 a b SLOTS (st_matrix st));
          [done| |done|done]. nia. }
      rewrite wbit_cell in Hlive |- * by lia.
      rewrite Hframe; [done|lia|done|done|]. intros [= ?]. lia. }
    destruct (iteratesetbits_spec (Z.to_nat SLOTS) m' j cur idx i)
      as (i' & cur' & idx' & Eit & Hi'); [done|done|lia|done|done|done|lia|].
    rewrite Eit. cbn [mbind option_bind].
    set (st1 := mkExtractState m' _ _ _).
    destruct (IH j n minterms st1 cur' idx' i') as (st' & E' & Hinv' & tr & Etr & Htr).
    { split_and!; [done|simpl; lia|].
      subst st1. simpl.
      assert (length r' = length z) by (symmetry; apply Hrl).
      destruct (decide _); simpl; lia. }
    { done. }
    { destruct Hi' as [->|(? & ? & ? & ? & ? & ?)]; [by left|right]. done. }
    { intros Hne'. destruct Hi' as [->|(? & ? & _)]; [done|lia]. }
    exists st'. split; [done|]. split; [done|].
    exists ((i, j) :: tr). split.
    { rewrite Etr. subst st1. simpl. by rewrite <- app_assoc. }
    apply (starts_once_app b SLOTS _ m' _ [(i, j)] tr); [|done].
    split; [done|]. split; [apply NoDup_singleton|].
    intros i0 j0 [= -> ->]%list_elem_of_singleton.
    split; [lia|]. split; [done|]. done.
Qed.

Lemma extractbitsets_spec fuel : ∀ j n minterms st,
  (rb j < fuel)%nat → extract_inv a b SLOTS st → 0 ≤ j < blen →
  ∃ st', extractbitsets fuel a b j n minterms SLOTS st = Some st' ∧
    extract_inv a b SLOTS st' ∧
    ∃ tr, st_starts st' = st_starts st ++ tr ∧
          starts_once b SLOTS (st_matrix st) (st_matrix st') tr.
Proof.
  induction fuel as [|fuel IH]; intros j n minterms st Hfuel Hinv Hj; [lia|].
  pose proof Hinv as (Hs & Hlm & Hlr).
  cbn [extractbitsets].
  assert (Hk : 0 ≤ j * SLOTS < blen * SLOTS) by nia.
  destruct (load_is_Some (st_matrix st) (j * SLOTS) ltac:(lia)) as [cur0 Ecur].
  rewrite Ecur. cbn [mbind option_bind].
  destruct (iteratesetbits_spec (Z.to_nat SLOTS) (st_matrix st) j cur0 0 (-1))
    as (i & cur & idx & Eit & Hi); [done|done|done| |lia|lia|lia|].
  { split; [by eapply cells_sound_word_nonneg|].
    intros k Hk0 Ht. split; [|lia]. unfold wbit.
    replace (j * SLOTS + 0) with (j * SLOTS) by lia. by rewrite Ecur. }
  rewrite Eit. cbn [mbind option_bind].
  destruct (extractbitsets_row_spec (Z.to_nat (BITSIZE * SLOTS))
              j n minterms st cur idx i)
    as (st1 & E1 & Hinv1 & tr1 & Etr1 & Htr1); [done|done| | |].
  { destruct Hi as [->|(? & ? & ? & ? & ? & ?)]; [by left|right]. done. }
  { intros Hne. destruct Hi as [->|(? & ? & _)]; [done|unfold BITSIZE; lia]. }
  rewrite E1. cbn [mbind option_bind].
  destruct (load_is_Some b j Hj) as [bj Ebj].
  rewrite Ebj. cbn [mbind option_bind].
  destruct (Htb j bj Ebj) as (_ & Hleft).
  destruct (decide (left bj >= 0)) as [Hl|Hl].
  - destruct Hleft as [[Hlb Hrl] Hright]; [lia|].
    destruct (IH (left bj) n minterms st1)
      as (st2 & E2 & Hinv2 & tr2 & Etr2 & Htr2); [lia|done|lia|].
    rewrite E2. cbn [mbind option_bind].
    destruct (decide (right bj >= 0)) as [Hr|Hr].
    + destruct Hright as [Hrb Hrr]; [lia|].
      destruct (IH (right bj) n minterms st2)
        as (st3 & E3 & Hinv3 & tr3 & Etr3 & Htr3); [lia|done|lia|].
      exists st3. split; [done|]. split; [done|].
      exists (tr1 ++ tr2 ++ tr3). split.
      { rewrite Etr3, Etr2, Etr1. by rewrite <- !app_assoc. }
      eauto using starts_once_app.
    + exists st2. split; [done|]. split; [done|].
      exists (tr1 ++ tr2). split.
      { rewrite Etr2, Etr1. by rewrite <- !app_assoc. }
      eauto using starts_once_app.
  - exists st1. split; [done|]. split; [done|]. by exists tr1.
Qed.

End rows.

(** ** Stable sorting by a key *)

Lemma insert_by_perm {A} (key : A → Z) x l : insert_by key x l ≡ₚ x :: l.
Proof.
  induction l as [|y l IH]; simpl; [done|].
  case_decide; [done|]. rewrite IH. apply Permutation_swap.
Qed.

Lemma sorted_by_perm {A} (key : A → Z) l : sorted_by key l ≡ₚ l.
Proof.
  induction l as [|x l IH]; simpl; [done|].
  rewrite insert_by_perm. by f_equiv.
Qed.

Lemma insert_by_sorted {A} (key : A → Z) x l :
  Sorted (λ x y, key x ≤ key y) l →
  Sorted (λ x y, key x ≤ key y) (insert_by key x l).
Proof.
  induction 1 as [|y l Hs IH Hhd]; simpl.
  - repeat constructor.
  - case_decide.
    + constructor; [by constructor|]. by constructor.
    + constructor; [done|].
      destruct Hhd as [|z l' Hz]; simpl.
      * constructor. lia.
      * case_decide; constructor; lia.
Qed.

Lemma sorted_by_sorted {A} (key : A → Z) l :
  Sorted (λ x y, key x ≤ key y) (sorted_by key l).
Proof.
  induction l as [|x l IH]; simpl; [constructor|].
  by apply insert_by_sorted.
Qed.

(** ** The sort index of [addnodes] *)

Lemma sortidx_lookup prods cnt m n :
  sortidx prods cnt !! m = Some n ↔
  0 ≤ n < cnt ∧
  sorted_by (λ n, default 0 (prods !! n)) (seqZ 0 cnt) !! Z.to_nat n = Some m.
Proof.
  unfold sortidx. set (L := sorted_by _ _).
  assert (HL : L ≡ₚ seqZ 0 cnt) by apply sorted_by_perm.
  assert (Hlen : length L = length (seqZ 0 cnt)) by by rewrite HL.
  rewrite <- elem_of_list_to_map.
  - rewrite elem_of_lookup_zip_with. split.
    + intros (i & x & y & [= -> ->] & Hx & Hy).
      apply lookup_seqZ in Hy as [-> ?]. rewrite Z.add_0_l, Nat2Z.id.
      split; [lia|done].
    + intros [Hn Hm]. exists (Z.to_nat n), m, n. split; [done|].
      split; [done|]. apply lookup_seqZ. lia.
  - rewrite fst_zip by lia. rewrite HL. apply NoDup_seqZ.
Qed.

Lemma sortidx_total prods cnt m :
  0 ≤ m < cnt → ∃ n, sortidx prods cnt !! m = Some n.
Proof.
  intros Hm.
  assert (Hin : m ∈ sorted_by (λ n, default 0 (prods !! n)) (seqZ 0 cnt)).
  { rewrite sorted_by_perm. apply elem_of_seqZ. lia. }
  apply list_elem_of_lookup in Hin as [i Hi].
  exists (Z.of_nat i). apply sortidx_lookup. rewrite Nat2Z.id.
  split; [|done]. apply lookup_lt_Some in Hi.
  rewrite (Permutation_length (sorted_by_perm _ _)), length_seqZ in Hi. lia.
Qed.

Lemma sortidx_inj prods cnt m1 m2 n :
  sortidx prods cnt !! m1 = Some n → sortidx prods cnt !! m2 = Some n →
  m1 = m2.
Proof. rewrite !sortidx_lookup. intros [_ H1] [_ H2]. congruence. Qed.

Lemma sortidx_dom prods cnt m n :
  sortidx prods cnt !! m = Some n → 0 ≤ m < cnt.
Proof.
  intros [_ Hm]%sortidx_lookup. apply list_elem_of_lookup_2 in Hm.
  rewrite sorted_by_perm in Hm. apply elem_of_seqZ in Hm. lia.
Qed.

(** ** Growing the arena *)

Lemma grow_length {A} (junk : nat → A) l n :
  length (grow junk l n) = Z.to_nat n.
Proof.
  unfold grow. rewrite length_app, length_take, length_fmap, length_seq. lia.
Qed.

Lemma grow_load {A} (junk : nat → A) l n k x :
  Z.of_nat (length l) ≤ n → load l k = Some x → load (grow junk l n) k = Some x.
Proof.
  intros Hn. rewrite !load_Some. intros [Hk Hx]. split; [done|].
  unfold grow. rewrite take_ge by lia. by apply lookup_app_l_Some.
Qed.

Section realloc.
Context (junk_node : nat → Node) (junk_tree : nat → NodeArray).

(** After the check at the head of [add] and [addnodes], and the
    reallocation it may trigger, there is room for one more tree of [cnt]
    nodes; the trees already stored are as before. *)
Lemma realloc_room self cnt :
  arena_wf self → 0 ≤ cnt →
  let self' :=
    if decide (ct_len self >= ct_max self ∨ ct_nodesleft self < cnt)
    then realloc junk_node junk_tree self (ct_len self + 1) cnt else self in
  arena_wf self' ∧ ct_len self' < ct_max self' ∧ cnt ≤ ct_nodesleft self' ∧
  ct_len self' = ct_len self ∧ ct_numnodes self' = ct_numnodes self ∧
  ct_maxnodes self' = ct_maxnodes self ∧
  ct_treeswithprod self' = ct_treeswithprod self ∧
  (∀ k x, load (ct_nodes self) k = Some x → load (ct_nodes self') k = Some x) ∧
  (∀ k x, load (ct_trees self) k = Some x → load (ct_trees self') k = Some x).
Proof.
  intros (Hn & Ht & Hl & Hnn & Hnl) Hcnt.
  assert (Hsh : ∀ z, 0 ≤ z → 0 ≤ Z.shiftr z 3)
    by (intros; by apply Z.shiftr_nonneg).
  assert (Hex : ∀ z, 0 ≤ if decide (z < 9) then 3 else 6)
    by (intros; destruct (decide _); lia).
  destruct (decide _) as [Hre|Hok]; simpl.
  2:{ unfold arena_wf. split_and!; auto; lia. }
  unfold realloc.
  destruct (decide (ct_len self + 1 > ct_max self)) as [Hgt|Hle]; simpl.
  - pose proof (Hsh (ct_len self + 1) ltac:(lia)).
    pose proof (Hex (ct_len self + 1)).
    destruct (decide (cnt > ct_nodesleft self)) as [Hgt2|Hle2]; simpl.
    + pose proof (Hsh (ct_numnodes self + cnt) ltac:(lia)).
      pose proof (Hex (ct_numnodes self + cnt)).
      unfold arena_wf. simpl. rewrite !grow_length.
      split_and!; try lia; auto.
      * intros k x. apply grow_load. lia.
      * intros k x. apply grow_load. lia.
    + unfold arena_wf. simpl. rewrite !grow_length.
      split_and!; try lia; auto.
      intros k x. apply grow_load. lia.
  - destruct (decide (cnt > ct_nodesleft self)) as [Hgt2|Hle2]; simpl.
    + pose proof (Hsh (ct_numnodes self + cnt) ltac:(lia)).
      pose proof (Hex (ct_numnodes self + cnt)).
      unfold arena_wf. simpl. rewrite !grow_length.
      split_and!; try lia; auto.
      intros k x. apply grow_load. lia.
    + lia.
Qed.

End realloc.

(** ** Stores into arrays *)

Lemma store_is_Some {A} (a : list A) i x :
  0 ≤ i < Z.of_nat (length a) → is_Some (store a i x).
Proof. intros. unfold store. rewrite decide_True by done. eauto. Qed.

Lemma store_store {A} (a a1 : list A) i x y :
  store a i x = Some a1 → store a1 i y = store a i y.
Proof.
  rewrite store_Some. intros [Hi ->]. unfold store.
  rewrite length_insert, !decide_True by lia.
  by rewrite list_insert_insert_eq.
Qed.

Lemma update_store {A} (a a1 : list A) i x (f : A → A) :
  store a i x = Some a1 → update a1 i f = store a i (f x).
Proof.
  intros Hst. unfold update. rewrite (load_store _ _ _ _ i Hst).
  rewrite decide_True by done. simpl. by eapply store_store.
Qed.

Lemma update_is_Some {A} (a : list A) i (f : A → A) x :
  load a i = Some x → update a i f = store a i (f x) ∧ is_Some (store a i (f x)).
Proof.
  intros Hx. unfold update. rewrite Hx. simpl. split; [done|].
  apply store_is_Some. by eapply load_bound.
Qed.

Lemma load_slice nodes t k :
  0 ≤ na_offset t → 0 ≤ k < na_len t →
  load (slice nodes t) k = load nodes (na_offset t + k).
Proof.
  intros Ho Hk. unfold slice, load. rewrite !decide_True by lia.
  rewrite lookup_take_lt by lia. rewrite lookup_drop. f_equal. lia.
Qed.

Lemma slice_length nodes t :
  0 ≤ na_offset t → 0 ≤ na_len t →
  na_offset t + na_len t ≤ Z.of_nat (length nodes) →
  Z.of_nat (length (slice nodes t)) = na_len t.
Proof.
  intros. unfold slice. rewrite length_take, length_drop. lia.
Qed.

(** ** [addnodes] stores the nodes sorted by production *)

Lemma prodsintree_spec source l :
  (∀ n, n ∈ l → is_Some (load source n)) →
  ∃ d : gmap Z Z,
    foldr (λ n acc, d ← acc; nd ← load source n; Some (<[n := prod nd]> d))
      (Some ∅) l = Some d ∧
       ∀ n nd, n ∈ l → load source n = Some nd → d !! n = Some (prod nd).
Proof.
  induction l as [|x l IH]; intros Hl; simpl.
  - exists ∅. split; [done|]. by intros n nd ?%elem_of_nil.
  - destruct IH as (d & -> & Hd).
    { intros n Hn. apply Hl. by right. }
    destruct (Hl x) as [nx Ex]; [by left|].
    simpl. rewrite Ex. simpl. eexists. split; [done|].
    intros n nd Hn En. destruct (decide (n = x)) as [->|Hne].
    + rewrite lookup_insert_eq. congruence.
    + rewrite lookup_insert_ne by done. apply Hd; [|done].
      apply elem_of_cons in Hn as [?|?]; done.
Qed.

Section addnodes_correct.
Context (source : list Node) (cnt base : Z) (prods : gmap Z Z).
Context (Hcnt : 0 ≤ cnt < 2 ^ 15) (Hbase : 0 ≤ base).
Context (Hsrc : ∀ n, 0 ≤ n < cnt → is_Some (load source n)).
Context (Hloc : children_local source cnt).

Local Abbreviation sidx := (sortidx prods cnt).
Local Abbreviation sigma := (λ k : Z, default 0 (sortidx prods cnt !! k)).

Lemma sigma_lookup n : 0 ≤ n < cnt → sidx !! n = Some (sigma n).
Proof.
  intros Hn. destruct (sortidx_total prods cnt n Hn) as [m Hm].
  simpl. by rewrite Hm.
Qed.

Lemma sigma_range n : 0 ≤ n < cnt → 0 ≤ sigma n < cnt.
Proof.
  intros Hn. pose proof (sigma_lookup n Hn) as Hm.
  by apply sortidx_lookup in Hm as [? _].
Qed.

Lemma sigma_short n : 0 ≤ n < cnt →
  (l ← py_getitem sidx n; py_to_short l) = Ok (sigma n).
Proof.
  intros Hn. unfold py_getitem. rewrite (sigma_lookup n Hn).
  pose proof (sigma_range n Hn). simpl. unfold py_to_short.
  rewrite decide_True; [done|]. lia.
Qed.

Lemma addnodes_body_spec nodes n m :
  sidx !! n = Some m →
  base + cnt ≤ Z.of_nat (length nodes) →
  ∃ src nodes',
    load source n = Some src ∧
    addnodes_body source sidx base nodes (n, m) = (Ok (), nodes') ∧
    store nodes (base + m) (rewrite_children sigma src) = Some nodes'.
Proof.
  intros Hnm Hlen.
  pose proof (sortidx_dom _ _ _ _ Hnm) as Hn.
  apply sortidx_lookup in Hnm as Hm. destruct Hm as [Hm _].
  destruct (Hsrc n Hn) as [src Esrc]. exists src.
  unfold addnodes_body. rewrite Esrc.
  destruct (store_is_Some nodes (base + m) src ltac:(lia)) as [n1 E1].
  rewrite E1.
  destruct (decide (left src >= 0)) as [Hl|Hl].
  2:{ exists n1. split; [done|]. split; [done|].
      rewrite <- E1. f_equal. unfold rewrite_children.
      rewrite !decide_False by lia. by destruct src. }
  destruct (Hloc n src Hn Esrc Hl) as [Hll Hr].
  rewrite (sigma_short (left src)) by lia.
  rewrite (update_store _ _ _ _ _ E1).
  destruct (store_is_Some nodes (base + m) (set_left (sigma (left src)) src)
              ltac:(lia)) as [n2 E2].
  rewrite E2.
  destruct (decide (right src >= 0)) as [Hrr|Hrr].
  2:{ exists n2. split; [done|]. split; [done|].
      rewrite <- E2. f_equal. unfold rewrite_children, set_left.
      rewrite decide_True by lia. rewrite decide_False by lia. done. }
  rewrite (sigma_short (right src)) by lia.
  rewrite (update_store _ _ _ _ _ E2).
  destruct (store_is_Some nodes (base + m)
              (set_right (sigma (right src)) (set_left (sigma (left src)) src))
              ltac:(lia)) as [n3 E3].
  rewrite E3. exists n3. split; [done|]. split; [done|].
  rewrite <- E3. f_equal. unfold rewrite_children, set_left, set_right. simpl.
  rewrite !decide_True by lia. done.
Qed.

Lemma addnodes_loop_spec items : ∀ nodes,
  (∀ n m, (n, m) ∈ items → sidx !! n = Some m) →
  base + cnt ≤ Z.of_nat (length nodes) →
  ∃ nodes',
    addnodes_loop source sidx base nodes items = (Ok (), nodes') ∧
    length nodes' = length nodes ∧
    (∀ n m src, (n, m) ∈ items → load source n = Some src →
       load nodes' (base + m) = Some (rewrite_children sigma src)) ∧
    (∀ k, (∀ n m, (n, m) ∈ items → k ≠ base + m) →
       load nodes' k = load nodes k).
Proof.
  induction items as [|[n m] items IH]; intros nodes Hitems Hlen.
  - exists nodes. split; [done|]. split; [done|].
    split; [by intros ??? ?%elem_of_nil|done].
  - destruct (addnodes_body_spec nodes n m) as (src & n1 & Esrc & E1 & Est);
      [apply Hitems; by left|done|].
    cbn [addnodes_loop]. rewrite E1.
    pose proof (store_length _ _ _ _ Est) as Hl1.
    destruct (IH n1) as (nodes' & E' & Hl' & Hin & Hout).
    { intros ???. apply Hitems. by right. }
    { lia. }
    exists nodes'. split; [done|]. split; [congruence|]. split.
    + intros n' m' src' Hel Esrc'.
      destruct (decide ((n', m') ∈ items)) as [?|Hnot]; [by eapply Hin|].
      apply elem_of_cons in Hel as [[= -> ->]|?]; [|done].
      simplify_eq.
      destruct (decide (m ∈ items.*2)) as [Hm|Hm].
      * apply list_elem_of_fmap in Hm as ([n2 m2] & -> & Hel2). simpl.
        assert (n2 = n); [|subst; by eapply Hin].
        eapply sortidx_inj; apply Hitems; [by right|by left].
      * rewrite Hout.
        { rewrite (load_store _ _ _ _ _ Est). by rewrite decide_True. }
        intros n2 m2 Hel2 Heq. apply Hm.
        apply list_elem_of_fmap. exists (n2, m2). split; [simpl; lia|done].
    + intros k Hk. rewrite Hout.
      * rewrite (load_store _ _ _ _ _ Est). rewrite decide_False; [done|].
        apply (Hk n m). by left.
      * intros n2 m2 Hel2. apply (Hk n2 m2). by right.
Qed.

End addnodes_correct.

Lemma to_short_small z : - 2 ^ 15 ≤ z < 2 ^ 15 → to_short z = z.
Proof. intros. unfold to_short. rewrite Z.mod_small; lia. Qed.

(** C7.  On an allocated arena, for a source array of [cnt] nodes
    ([0 < cnt < 2^15]) whose child indices and root are indices of the array,
    [addnodes(source, cnt, root)] returns and appends one tree whose slice
    holds, at position [sigma n], source node [n] with its child indices
    mapped through [sigma]; [sigma] is a bijection on [0, cnt), the
    productions along the slice are non-decreasing, terminal encodings are
    unchanged, and the stored root is [sigma root]. *)
Theorem addnodes_sorted_permutation
    (junk_node : nat → Node) (junk_tree : nat → NodeArray)
    (dict_items : gmap Z Z → list (Z * Z))
    (self : Ctrees) (source : list Node) (cnt root : Z) :
  (∀ d, dict_items d ≡ₚ map_to_list d) →
  arena_wf self → ct_max self ≠ 0 →
  0 ≤ cnt < 2 ^ 15 → 0 ≤ root < cnt →
  (∀ n, 0 ≤ n < cnt → is_Some (load source n)) →
  children_local source cnt →
  ∃ self' (sigma : Z → Z),
    addnodes junk_node junk_tree dict_items self source cnt root
      = (Ok (), self') ∧
    ct_len self' = ct_len self + 1 ∧
    load (ct_trees self') (ct_len self)
      = Some (mkNodeArray (ct_numnodes self) cnt (sigma root)) ∧
    Z.of_nat (length (slice (ct_nodes self')
                        (mkNodeArray (ct_numnodes self) cnt (sigma root))))
      = cnt ∧
    prods_sorted (slice (ct_nodes self')
                    (mkNodeArray (ct_numnodes self) cnt (sigma root))) ∧
    (∀ n, 0 ≤ n < cnt → 0 ≤ sigma n < cnt) ∧
    (∀ n1 n2, 0 ≤ n1 < cnt → 0 ≤ n2 < cnt → sigma n1 = sigma n2 → n1 = n2) ∧
    (∀ n src, 0 ≤ n < cnt → load source n = Some src →
       load (slice (ct_nodes self')
               (mkNodeArray (ct_numnodes self) cnt (sigma root))) (sigma n)
       = Some (rewrite_children sigma src)).
Proof.
  intros Hitems Hwf Hmax Hcnt Hroot Hsrc Hloc.
  unfold addnodes. rewrite decide_False by done.
  destruct (realloc_room junk_node junk_tree self cnt Hwf ltac:(lia))
    as (Hwf1 & Hroom & Hleft & Hlen1 & Hnum1 & Hmn1 & _ & _ & _).
  set (self1 := if decide _ then _ else self) in *.
  destruct (prodsintree_spec source (seqZ 0 cnt)) as (d & Ed & Hd).
  { intros n Hn%elem_of_seqZ. apply Hsrc. lia. }
  unfold prodsintree. rewrite Ed.
  set (sigma := λ k : Z, default 0 (sortidx d cnt !! k)).
  destruct Hwf1 as (Hn1 & Ht1 & Hl1 & Hnn1 & Hnl1).
  destruct (addnodes_loop_spec source cnt (ct_numnodes self1) d
              Hcnt Hnn1 Hsrc Hloc (dict_items (sortidx d cnt)) (ct_nodes self1))
    as (nodes' & Eloop & Hlen' & Hin & _).
  { intros n m Hel. rewrite Hitems in Hel.
    by apply elem_of_map_to_list in Hel. }
  { lia. }
  rewrite Eloop. cbn [with_nodes with_trees ct_trees ct_len ct_numnodes].
  destruct (load_is_Some (ct_trees self1) (ct_len self1) ltac:(lia)) as [t0 Et0].
  destruct (update_is_Some _ _ (set_na_offset (ct_numnodes self1)) _ Et0)
    as [-> [tr1 E1]].
  rewrite E1. cbn [with_nodes with_trees ct_trees ct_len ct_numnodes].
  rewrite (sigma_short cnt d Hcnt root Hroot).
  rewrite (update_store _ _ _ _ _ E1).
  destruct (store_is_Some (ct_trees self1) (ct_len self1)
    (set_na_root (sigma root) (set_na_offset (ct_numnodes self1) t0))
    ltac:(lia)) as [tr2 E2].
  change (default 0 (sortidx d cnt !! root)) with (sigma root). rewrite E2.
  rewrite (update_store _ _ _ _ _ E2).
  destruct (store_is_Some (ct_trees self1) (ct_len self1)
    (set_na_len (to_short cnt)
       (set_na_root (sigma root) (set_na_offset (ct_numnodes self1) t0)))
    ltac:(lia)) as [tr3 E3].
  rewrite E3.
  eexists _, sigma. split; [done|].
  cbn [commit with_nodes with_trees ct_trees ct_len ct_numnodes ct_nodes].
  split; [lia|].
  assert (Hslice : ∀ k, 0 ≤ k < cnt →
    load (slice nodes' (mkNodeArray (ct_numnodes self) cnt (sigma root))) k
    = load nodes' (ct_numnodes self1 + k)).
  { intros k Hk. rewrite load_slice by (simpl; lia). simpl. by rewrite Hnum1. }
  assert (Hsl : Z.of_nat (length (slice nodes'
            (mkNodeArray (ct_numnodes self) cnt (sigma root)))) = cnt).
  { apply slice_length; simpl; lia. }
  assert (Hstored : ∀ n src, 0 ≤ n < cnt → load source n = Some src →
    load (slice nodes' (mkNodeArray (ct_numnodes self) cnt (sigma root)))
      (sigma n) = Some (rewrite_children sigma src)).
  { intros n src Hn Esrc.
    rewrite Hslice by (apply (sigma_range cnt d); lia).
    eapply Hin; [|done]. rewrite Hitems. apply elem_of_map_to_list.
    by apply sigma_lookup. }
  split_and!.
  - rewrite <- Hlen1. rewrite (load_store _ _ _ _ _ E3).
    rewrite decide_True by done. f_equal.
    rewrite to_short_small by lia. simpl. by rewrite Hnum1.
  - done.
  - unfold prods_sorted.
    set (key := λ n : Z, default 0 (d !! n)).
    set (L := sorted_by key (seqZ 0 cnt)).
    assert (HL : L ≡ₚ seqZ 0 cnt) by apply sorted_by_perm.
    replace (prod <$> slice nodes' _) with (key <$> L).
    { apply Sorted_fmap with (R1 := λ x y, key x ≤ key y); [done|].
      apply sorted_by_sorted. }
    apply list_eq_same_length with (Z.to_nat cnt).
    { rewrite length_fmap. lia. }
    { rewrite length_fmap, HL, length_seqZ. done. }
    intros i x y Hi. rewrite !list_lookup_fmap.
    intros Hx Hy.
    destruct (L !! i) as [n|] eqn:ELi; [|done].
    assert (Hn : 0 ≤ n < cnt).
    { apply list_elem_of_lookup_2 in ELi. rewrite HL in ELi.
      apply elem_of_seqZ in ELi. lia. }
    assert (Hsig : sortidx d cnt !! n = Some (Z.of_nat i)).
    { apply sortidx_lookup. rewrite Nat2Z.id. split; [lia|done]. }
    destruct (Hsrc n Hn) as [src Esrc].
    pose proof (Hstored n src Hn Esrc) as Hst.
    unfold sigma in Hst at 2. rewrite Hsig in Hst. simpl in Hst.
    apply load_Some in Hst as [_ Hst]. rewrite Nat2Z.id in Hst.
    rewrite Hst in Hy. simpl in Hx, Hy. simplify_eq.
    unfold key. rewrite (Hd n src); [done| |done].
    apply elem_of_seqZ. lia.
  - intros n Hn. by apply (sigma_range cnt d).
  - intros n1 n2 H1 H2 Heq.
    eapply (sortidx_inj d cnt n1 n2 (sigma n1)).
    + by apply sigma_lookup.
    + rewrite Heq. by apply sigma_lookup.
  - done.
Qed.

(** ** A failed [add] leaves the stored trees alone *)

Lemma update_other {A} (a a' : list A) k (f : A → A) k' :
  update a k f = Some a' → k' ≠ k → load a' k' = load a k'.
Proof.
  unfold update. destruct (load a k) as [x|]; [|done]. simpl.
  intros Hst Hne. rewrite (load_store _ _ _ _ k' Hst).
  by rewrite decide_False.
Qed.

Ltac frame_updates :=
  repeat match goal with
  | H : update ?a ?k _ = Some ?b |- context [load ?b ?k'] =>
      rewrite (update_other a b k _ k' H) by done
  end.

Section add_frame.
Context {P : Type} `{Countable P}.
Context (junk_node : nat → Node) (junk_tree : nat → NodeArray).

Lemma copynode_frame (a : pyitem P) prods result k r result' k' :
  copynode a prods result k = (r, result') → k' ≠ k →
  load result' k' = load result k'.
Proof.
  unfold copynode. intros Hc Hne.
  repeat (case_match; simplify_eq/=); try done; by frame_updates.
Qed.

Lemma copynodes_frame (tree : list (pyitem P)) prods : ∀ nodes base n r nodes' k',
  copynodes tree prods nodes base n = (r, nodes') → 0 ≤ n → k' < base →
  load nodes' k' = load nodes k'.
Proof.
  induction tree as [|a tree IH]; intros nodes base n r nodes' k' Hc Hn Hk;
    simpl in Hc.
  - by simplify_eq.
  - destruct (copynode a prods nodes (base + n)) as [r1 nodes1] eqn:E1.
    pose proof (copynode_frame _ _ _ _ _ _ k' E1 ltac:(lia)) as Hf.
    destruct r1; simplify_eq; try done.
    rewrite <- Hf. eapply IH; [done|lia|done].
Qed.

(** C8.  If [add(tree, prods)] raises, the number of trees, the number of
    nodes and [maxnodes] are as before, the production index is as before,
    and every committed node and every [NodeArray] of a tree added earlier
    is as before, so the slice of every such tree is as before; what the
    call wrote lies beyond [numnodes] and [len]. *)
Theorem add_raise_preserves (self self' : Ctrees) (tree : list (pyitem P))
    (prods : gmap P Z) (e : exn) :
  arena_wf self →
  add junk_node junk_tree self tree prods = (Raise e, self') →
  ct_len self' = ct_len self ∧
  ct_numnodes self' = ct_numnodes self ∧
  ct_maxnodes self' = ct_maxnodes self ∧
  ct_treeswithprod self' = ct_treeswithprod self ∧
  (∀ k, 0 ≤ k < ct_numnodes self →
     load (ct_nodes self') k = load (ct_nodes self) k) ∧
  (∀ k, 0 ≤ k < ct_len self →
     load (ct_trees self') k = load (ct_trees self) k) ∧
  (∀ t, 0 ≤ na_offset t → 0 ≤ na_len t →
     na_offset t + na_len t ≤ ct_numnodes self →
     slice (ct_nodes self') t = slice (ct_nodes self) t).
Proof.
  intros Hwf Hadd.
  assert (Hmain :
    ct_len self' = ct_len self ∧
    ct_numnodes self' = ct_numnodes self ∧
    ct_maxnodes self' = ct_maxnodes self ∧
    ct_treeswithprod self' = ct_treeswithprod self ∧
    (∀ k, 0 ≤ k < ct_numnodes self →
       load (ct_nodes self') k = load (ct_nodes self) k) ∧
    (∀ k, 0 ≤ k < ct_len self →
       load (ct_trees self') k = load (ct_trees self) k)).
  { unfold add in Hadd.
    destruct (decide (ct_max self = 0)) as [|Hmax]; [by simplify_eq|].
    destruct (realloc_room junk_node junk_tree self (Z.of_nat (length tree))
                Hwf ltac:(lia))
      as (Hwf1 & Hroom & Hleft & Hlen1 & Hnum1 & Hmn1 & Hidx1 & Hnodes1 & Htrees1).
    set (self1 := if decide _ then _ else self) in *.
    assert (Hn1 : ∀ k, 0 ≤ k < ct_numnodes self →
              load (ct_nodes self1) k = load (ct_nodes self) k).
    { intros k Hk. destruct Hwf as (Hl & _ & _ & _ & ?).
      destruct (load_is_Some (ct_nodes self) k ltac:(lia)) as [x Hx].
      rewrite Hx. by apply Hnodes1. }
    assert (Ht1 : ∀ k, 0 ≤ k < ct_len self →
              load (ct_trees self1) k = load (ct_trees self) k).
    { intros k Hk. destruct Hwf as (_ & Hl & ? & _).
      destruct (load_is_Some (ct_trees self) k ltac:(lia)) as [x Hx].
      rewrite Hx. by apply Htrees1. }
    clearbody self1.
    destruct (update (ct_trees self1) _ (set_na_len _)) as [tr1|] eqn:E1;
      [|done].
    cbn [with_trees with_nodes ct_trees ct_len ct_numnodes ct_nodes] in Hadd.
    destruct (update tr1 _ (set_na_offset _)) as [tr2|] eqn:E2; [|done].
    cbn [with_trees with_nodes ct_trees ct_len ct_numnodes ct_nodes] in Hadd.
    destruct (copynodes tree prods _ _ 0) as [r nodes'] eqn:Ec.
    assert (Hn' : ∀ k, 0 ≤ k < ct_numnodes self →
              load nodes' k = load (ct_nodes self) k).
    { intros k Hk. rewrite <- Hn1 by done.
      eapply copynodes_frame; [done|lia|lia]. }
    assert (Ht2 : ∀ k, 0 ≤ k < ct_len self →
              load tr2 k = load (ct_trees self) k).
    { intros k Hk. rewrite <- Ht1 by done.
      rewrite (update_other _ _ _ _ k E2) by lia.
      by rewrite (update_other _ _ _ _ k E1) by lia. }
    destruct r as [[]|e'|]; [|by simplify_eq/=|done].
    cbn [with_trees with_nodes ct_trees ct_len ct_numnodes ct_nodes] in Hadd.
    repeat (case_match; simplify_eq/=); done. }
  destruct Hmain as (? & ? & ? & ? & Hn & ?). split_and!; [done..|].
  intros t Ho Hl Hin. unfold slice.
  apply list_eq. intros i.
  destruct (decide (i < Z.to_nat (na_len t))%nat) as [Hi|Hi].
  - rewrite !lookup_take_lt, !lookup_drop by done.
    specialize (Hn (Z.of_nat (Z.to_nat (na_offset t) + i)) ltac:(lia)).
    unfold load in Hn. rewrite !decide_True, Nat2Z.id in Hn by lia. done.
  - by rewrite !lookup_take_ge by lia.
Qed.

End add_frame.

(** ** The trees the driver works on *)

Lemma elem_of_range lo hi n : n ∈ range lo hi ↔ lo ≤ n < hi.
Proof. unfold range. rewrite elem_of_seqZ. lia. Qed.



(** ** The production index *)

Lemma for_each_ind {A St} (I : St → Prop) (l : list A) (body : A → St → res St)
    s s' :
  (∀ x t t', x ∈ l → I t → body x t = Ok t' → I t') →
  I s → for_each l s body = Ok s' → I s'.
Proof.
  revert s. induction l as [|x l IH]; intros s Hbody Hs Hfor; simpl in Hfor.
  - by simplify_eq.
  - destruct (body x s) as [t| |] eqn:E; simplify_eq/=.
    eapply (IH t); [|by eapply (Hbody x s); [left|..]|done].
    intros y u u' Hy. apply Hbody. by right.
Qed.

Lemma foldl_res_ind {A St} (I : St → Prop) (l : list A)
    (body : St → A → res St) s s' :
  (∀ x t t', x ∈ l → I t → body t x = Ok t' → I t') →
  I s → foldl (λ acc x, t ← acc; body t x) (Ok s) l = Ok s' → I s'.
Proof.
  assert (Hfail : ∀ (l : list A) (r : res St), (∀ s, r ≠ Ok s) →
            ∀ s', foldl (λ acc x, t ← acc; body t x) r l ≠ Ok s').
  { clear. induction l as [|x l IH]; intros r Hr s'; simpl; [done|].
    apply IH. intros s. destruct r; [by destruct (Hr x0)|done..]. }
  revert s. induction l as [|x l IH]; intros s Hbody Hs Hfold; simpl in Hfold.
  - by simplify_eq.
  - destruct (body s x) as [t| |] eqn:E.
    + eapply (IH t); [|by eapply (Hbody x s); [left|..]|done].
      intros y u u' Hy. apply Hbody. by right.
    + by apply Hfail in Hfold.
    + by apply Hfail in Hfold.
Qed.

Lemma py_index_elem {A} (l : list A) i x : py_index l i = Ok x → x ∈ l.
Proof.
  unfold py_index. destruct (py_slot l i) as [k| |]; [|done..]. simpl.
  destruct (l !! k) eqn:E; [|done]. intros [= <-].
  by eapply list_elem_of_lookup_2.
Qed.

Lemma index_add_in_range len result p n result' :
  index_in_range len result → 0 ≤ n < len →
  index_add result p n = Ok result' → index_in_range len result'.
Proof.
  unfold index_add. intros Hr Hn Hadd.
  destruct (py_slot result p) as [k| |]; simplify_eq/=.
  destruct (result !! k) as [s|] eqn:E; simplify_eq/=.
  apply list_elem_of_lookup_2 in E.
  apply Forall_insert; [done|]. intros m [?|Hm]%elem_of_union.
  - by eapply (proj1 (Forall_forall _ _) Hr s).
  - by apply elem_of_singleton in Hm as ->.
Qed.

Lemma indextrees_in_range self numprods index :
  indextrees_result self numprods = Ok index →
  index_in_range (ct_len self) index.
Proof.
  unfold indextrees_result.
  apply (foldl_res_ind (index_in_range (ct_len self))).
  - intros n result result' [Hn0 Hn1]%elem_of_seqZ Hr. unfold indextree.
    destruct (load (ct_trees self) n) as [a|]; [|done]. simpl.
    apply (foldl_res_ind (index_in_range (ct_len self))); [|done].
    intros m t t' _ Ht.
    destruct (load _ m) as [nd|]; [|done]. simpl.
    apply index_add_in_range; [done|lia].
  - apply Forall_replicate. intros m Hm. set_solver.
Qed.

Section twoterminals.
Context (trees2 : Ctrees) (index : list (gset Z)).
Context (Hindex : ct_treeswithprod trees2 = Some index).
Context (Hrange : index_in_range (ct_len trees2) index).

Lemma treeswithprod_at_in_range p s m :
  treeswithprod_at trees2 p = Ok s → m ∈ s → 0 ≤ m < ct_len trees2.
Proof.
  unfold treeswithprod_at. rewrite Hindex. intros Hs%py_index_elem.
  by apply (proj1 (Forall_forall _ _) Hrange s).
Qed.

Lemma twoterminals_in_range a anodes cw lex candidates :
  twoterminals a anodes trees2 cw lex = Ok candidates →
  ∀ m, m ∈ candidates → 0 ≤ m < ct_len trees2.
Proof.
  unfold twoterminals.
  apply (for_each_ind (λ c : gset Z, ∀ m, m ∈ c → 0 ≤ m < ct_len trees2));
    [|set_solver].
  intros i c c' _ Hc.
  destruct (load anodes i) as [ai|]; [|done]. simpl.
  case_decide; [by intros [= <-]|].
  destruct (treeswithprod_at trees2 (prod ai)) as [tmp| |] eqn:Etmp; [|done..].
  simpl.
  apply (for_each_ind (λ c : gset Z, ∀ m, m ∈ c → 0 ≤ m < ct_len trees2));
    [|done].
  intros j d d' _ Hd.
  destruct (load anodes j) as [aj|]; [|done]. simpl.
  case_decide; [|by intros [= <-]].
  destruct (treeswithprod_at trees2 (prod aj)) as [other| |] eqn:Eo; [|done..].
  simpl. intros [= <-] m [?|[Hm _]%elem_of_intersection]%elem_of_union; [auto|].
  by eapply (treeswithprod_at_in_range (prod ai)).
Qed.

End twoterminals.

(** C9.  When [treeswithprod] of [trees2] is the index built by
    [indextrees] over [trees2], every tree number returned by
    [twoterminals] lies in [0, trees2.len): the test [m < 0 or m >=
    trees2.len] that guards the [ValueError] of [extractfragments] is false
    for each of them. *)
Theorem twoterminals_indexed_in_range (trees trees2 : Ctrees) (numprods : nat)
    (a : NodeArray) (anodes : list Node) (contentwordprods lexicalprods
    candidates : gset Z) :
  indextrees trees numprods = Ok trees2 →
  twoterminals a anodes trees2 contentwordprods lexicalprods = Ok candidates →
  ∀ m, m ∈ candidates →
    0 ≤ m < ct_len trees2 ∧ ¬ (m < 0 ∨ m >= ct_len trees2).
Proof.
  unfold indextrees. intros Hidx Htwo m Hm.
  destruct (indextrees_result trees numprods) as [index| |] eqn:E;
    simplify_eq/=.
  apply indextrees_in_range in E.
  epose proof (twoterminals_in_range _ index _ _ _ _ _ _ _ Htwo m Hm) as Hb.
  simpl in Hb. lia.
  Unshelve. all: done.
Qed.

(** ** Instances *)

Lemma addnodes_sorted_permutation_witness :
  ∃ self' (sigma : Z → Z),
    addnodes ex_junk_node ex_junk_tree map_to_list ex_empty ex_source 3 0
      = (Ok (), self') ∧
    ct_len self' = ct_len ex_empty + 1 ∧
    load (ct_trees self') (ct_len ex_empty)
      = Some (mkNodeArray (ct_numnodes ex_empty) 3 (sigma 0)) ∧
    Z.of_nat (length (slice (ct_nodes self')
                        (mkNodeArray (ct_numnodes ex_empty) 3 (sigma 0))))
      = 3 ∧
    prods_sorted (slice (ct_nodes self')
                    (mkNodeArray (ct_numnodes ex_empty) 3 (sigma 0))) ∧
    (∀ n, 0 ≤ n < 3 → 0 ≤ sigma n < 3) ∧
    (∀ n1 n2, 0 ≤ n1 < 3 → 0 ≤ n2 < 3 → sigma n1 = sigma n2 → n1 = n2) ∧
    (∀ n src, 0 ≤ n < 3 → load ex_source n = Some src →
       load (slice (ct_nodes self')
               (mkNodeArray (ct_numnodes ex_empty) 3 (sigma 0))) (sigma n)
       = Some (rewrite_children sigma src)).
Proof.
  apply (addnodes_sorted_permutation ex_junk_node ex_junk_tree map_to_list
           ex_empty ex_source 3 0).
  - done.
  - unfold arena_wf. simpl. lia.
  - simpl. lia.
  - lia.
  - lia.
  - intros n Hn. assert (n = 0 ∨ n = 1 ∨ n = 2) as Hcase by lia.
    destruct Hcase as [Hc|[Hc|Hc]]; subst n; by eexists.
  - intros n nd Hn Hld Hl. assert (n = 0 ∨ n = 1 ∨ n = 2) as Hcase by lia.
    destruct Hcase as [Hc|[Hc|Hc]]; subst n;
      vm_compute in Hld; injection Hld as <-; simpl in *; lia.
Defined.

Example addnodes_example :
  (addnodes ex_junk_node ex_junk_tree map_to_list ex_empty ex_source 3 0).1
    = Ok () ∧
  take 3 (ct_nodes
    (addnodes ex_junk_node ex_junk_tree map_to_list ex_empty ex_source 3 0).2)
    = [mkNode 0 (-1) (-1); mkNode 1 (-2) (-1); mkNode 2 0 1] ∧
  take 1 (ct_trees
    (addnodes ex_junk_node ex_junk_tree map_to_list ex_empty ex_source 3 0).2)
    = [mkNodeArray 0 3 2].
Proof. split_and!; vm_compute; reflexivity. Qed.

Lemma add_raise_preserves_witness :
  let self' := (add ex_junk_node ex_junk_tree ex_one ex_badtree ex_prods).2 in
  ct_len self' = ct_len ex_one ∧
  ct_numnodes self' = ct_numnodes ex_one ∧
  ct_maxnodes self' = ct_maxnodes ex_one ∧
  ct_treeswithprod self' = ct_treeswithprod ex_one ∧
  (∀ k, 0 ≤ k < ct_numnodes ex_one →
     load (ct_nodes self') k = load (ct_nodes ex_one) k) ∧
  (∀ k, 0 ≤ k < ct_len ex_one →
     load (ct_trees self') k = load (ct_trees ex_one) k) ∧
  (∀ t, 0 ≤ na_offset t → 0 ≤ na_len t →
     na_offset t + na_len t ≤ ct_numnodes ex_one →
     slice (ct_nodes self') t = slice (ct_nodes ex_one) t).
Proof.
  apply (add_raise_preserves ex_junk_node ex_junk_tree ex_one
           (add ex_junk_node ex_junk_tree ex_one ex_badtree ex_prods).2
           ex_badtree ex_prods (ValueError "Expected Tree node")).
  - unfold arena_wf. simpl. lia.
  - vm_compute. reflexivity.
Defined.

(** The failed call of the instance wrote two nodes and the head of a
    [NodeArray] beyond the stored tree. *)
Example add_raise_partial_writes :
  add ex_junk_node ex_junk_tree ex_one ex_badtree ex_prods
  = (Raise (ValueError "Expected Tree node"),
     mkCtrees [mkNodeArray 0 3 2; mkNodeArray 3 3 7]
       [mkNode 0 (-1) (-1); mkNode 1 (-2) (-1); mkNode 2 0 1;
        mkNode 2 1 2; mkNode 0 (-1) 7; ex_junk_node 5]
       1 2 3 3 3 None).
Proof. vm_compute. reflexivity. Qed.

Lemma twoterminals_indexed_in_range_witness :
  0 ≤ 0 < ct_len (mkCtrees (ct_trees ex_corpus) (ct_nodes ex_corpus) 2 2 6 3 0
                    (Some [{[0; 1]}; {[0]}; {[0; 1]}; {[1]}])) ∧
  ¬ (0 < 0 ∨ 0 >= ct_len (mkCtrees (ct_trees ex_corpus) (ct_nodes ex_corpus)
                            2 2 6 3 0
                            (Some [{[0; 1]}; {[0]}; {[0; 1]}; {[1]}]))).
Proof.
  apply (twoterminals_indexed_in_range ex_corpus
           (mkCtrees (ct_trees ex_corpus) (ct_nodes ex_corpus) 2 2 6 3 0
              (Some [{[0; 1]}; {[0]}; {[0; 1]}; {[1]}]))
           4 (mkNodeArray 0 3 2) (slice (ct_nodes ex_corpus) (mkNodeArray 0 3 2))
           {[0]} {[0; 1; 3]} {[0]}).
  - vm_compute. reflexivity.
  - vm_compute. reflexivity.
  - set_solver.
Defined.

(** ** Extraction from a pair of trees *)

Lemma memset0_spec m n m' :
  memset0 m 0 n = Some m' →
  length m' = length m ∧ ∀ k j, 0 ≤ k < n → wbit m' k j = false.
Proof.
  unfold memset0. case_decide as Hn; [|done]. intros [= <-].
  rewrite Z.add_0_l. simpl. split.
  - rewrite length_app, length_replicate, length_drop. lia.
  - intros k j Hk. unfold wbit, load. rewrite decide_True by lia.
    rewrite lookup_app_l by (rewrite length_replicate; lia).
    rewrite lookup_replicate_2 by lia. apply Z.bits_0.
Qed.

Lemma memset0_is_Some m n :
  0 ≤ n ≤ Z.of_nat (length m) → is_Some (memset0 m 0 n).
Proof. intros. unfold memset0. rewrite decide_True by lia. eauto. Qed.

Lemma load_nil_inv {A} (i : Z) (x : A) : load [] i = Some x → False.
Proof. by intros [_ ?]%load_Some. Qed.

Lemma load_cons_inv {A} (y : A) l i x :
  load (y :: l) i = Some x →
  (i = 0 ∧ x = y) ∨ ∃ i', i = i' + 1 ∧ load l i' = Some x.
Proof.
  rewrite load_Some. intros [Hi Hl].
  destruct (decide (i = 0)) as [->|Hne]; [left; by simplify_eq/=|right].
  exists (i - 1). split; [lia|]. apply load_Some. split; [lia|].
  replace (Z.to_nat i) with (S (Z.to_nat (i - 1))) in Hl by lia.
  done.
Qed.

(** Case analysis on a successful read from a list given by its elements. *)
Ltac load_cases H :=
  repeat (first
    [ apply load_nil_inv in H; destruct H
    | let i' := fresh "i" in
      let Hi := fresh "Hi" in
      apply load_cons_inv in H; destruct H as [[Hi ->]|(i' & Hi & H)];
      try subst ]).

Lemma ex_anodes_eq :
  ex_anodes = [mkNode 0 (-1) (-1); mkNode 1 (-2) (-1); mkNode 2 0 1].
Proof. reflexivity. Qed.

Lemma ex_bnodes_eq :
  slice (ct_nodes ex_corpus) ex_b
  = [mkNode 0 (-1) (-1); mkNode 2 0 2; mkNode 3 (-2) (-1)].
Proof. reflexivity. Qed.

Lemma ex_ranked_a : tree_ranked ex_anodes ex_rank_a.
Proof.
  rewrite ex_anodes_eq. intros i n Hl.
  load_cases Hl; vm_compute; repeat split; intros; try lia; try done.
Qed.

Lemma ex_ranked_b : tree_ranked (slice (ct_nodes ex_corpus) ex_b) ex_rank_b.
Proof.
  rewrite ex_bnodes_eq. intros i n Hl.
  load_cases Hl; vm_compute; repeat split; intros; try lia; try done.
Qed.

Lemma ex_arity_ab : same_arity ex_anodes (slice (ct_nodes ex_corpus) ex_b).
Proof.
  rewrite ex_anodes_eq, ex_bnodes_eq. intros i j an bn Ha Hb.
  load_cases Ha; load_cases Hb; simpl; intros; lia.
Qed.

(** The run of the instance: extraction starts at the pair of the roots
    [(2, 1)], which absorbs the [NP] nodes, and nowhere else. *)
Example extractfrompair_example :
  pr_starts <$> extractfrompair (λ _ _, 7) elements ex_a ex_anodes ex_corpus
                  0 1 false 0 1 ex_pair
  = Ok [(2, 1)] ∧
  elements <$> (pr_inter <$> extractfrompair (λ _ _, 7) elements ex_a ex_anodes
                  ex_corpus 0 1 false 0 1 ex_pair)
  = Ok [mkBitset [5] 0 2].
Proof. split; vm_compute; reflexivity. Qed.

(** ** One fragment for each production that occurs *)

Lemma selects_prod_fun trees SLOTS w p1 p2 :
  selects_prod trees SLOTS w p1 → selects_prod trees SLOTS w p2 → p1 = p2.
Proof.
  intros (t1 & n1 & Ht1 & Hn1 & <- & _) (t2 & n2 & Ht2 & Hn2 & <- & _).
  by simplify_eq.
Qed.

Lemma to_uint32_small z : 0 ≤ z < 2 ^ 32 → to_uint32 z = z.
Proof. intros. unfold to_uint32. by rewrite Z.mod_small. Qed.

Lemma memset0_all (l z : list Z) (n : Z) :
  length l = Z.to_nat n →
  memset0 l 0 n = Some z → z = replicate (Z.to_nat n) 0.
Proof.
  intros Hl. unfold memset0. case_decide; [|done]. intros [= <-].
  rewrite Z.add_0_l. simpl.
  rewrite drop_ge by lia. by rewrite app_nil_r.
Qed.

Lemma slice_length_le nodes t :
  Z.of_nat (length (slice nodes t)) ≤ Z.max 0 (na_len t).
Proof. unfold slice. rewrite length_take. lia. Qed.

Section cover.
Context (junk_word : nat → Z) (iter_ints : gset Z → list Z).
Context {L Sent K : Type} `{Countable K}.
Context (fragkey : list Node → Bitset → list L → Sent → bool → res K).
Context (trees : Ctrees) (sents : list Sent) (labels : list L).
Context (SLOTS : Z) (discontinuous : bool).
Context (Hiter : ∀ s, iter_ints s ≡ₚ elements s).
Context (Hlen : Z.of_nat (length (ct_trees trees)) ≤ 2 ^ 32).
Context (Hshort : ∀ n t, load (ct_trees trees) n = Some t → na_len t ≤ 2 ^ 15).

Local Abbreviation key_of :=
  (cover_key fragkey trees sents labels SLOTS discontinuous).

Lemma coverbitsets_find_spec is_ nodes p n scratch scratch' i :
  coverbitsets_find is_ nodes p n scratch = Ok (scratch', i) →
  ∃ nd bs, i ∈ is_ ∧ load nodes i = Some nd ∧ prod nd = p ∧
           SETBIT (bits scratch) 0 i = Some bs ∧
           scratch' = mkBitset bs (to_uint32 n) (to_short i).
Proof.
  induction is_ as [|i0 is_ IH]; simpl; [done|].
  destruct (load nodes i0) as [nd|] eqn:End; [|done]. simpl.
  case_decide as Hp.
  - destruct (SETBIT _ 0 i0) as [bs|] eqn:Ebs; [|done]. simpl.
    intros [= <- <-]. exists nd, bs. split_and!; [by left|done..].
  - intros (nd' & bs & ? & ? & ? & ? & ?)%IH.
    exists nd', bs. split_and!; [by right|done..].
Qed.

(** A one-node fragment of the arena selects the production of its node. *)
Lemma cover_key_selects p w k :
  key_of p w k → selects_prod trees SLOTS w p.
Proof.
  intros (n & t & i & nd & sent & Et & End & Hp & _ & Hw & _).
  unfold one_node in Hw.
  destruct (SETBIT _ 0 i) as [bs|] eqn:Ebs; [|done].
  simpl in Hw. injection Hw as <-.
  pose proof (load_bound _ _ _ Et) as Hn.
  pose proof (load_bound _ _ _ End) as Hi.
  pose proof (Hshort n t Et) as Ht.
  pose proof (slice_length_le (ct_nodes trees) t) as Hsl.
  assert (Hroot : to_short i = i) by (apply to_short_small; lia).
  assert (Hid : to_uint32 n = n) by (apply to_uint32_small; lia).
  exists t, nd. unfold setrootid. simpl. rewrite Hid, Hroot.
  split_and!; [done..|].
  apply SETBIT_Some in Ebs as (_ & _ & _ & Hbits).
  intros k' n' Hk' Hn'. rewrite Hbits by done.
  assert (wbit (replicate (Z.to_nat SLOTS) 0) k' n' = false) as ->.
  { unfold wbit, load. rewrite decide_True by lia.
    rewrite lookup_replicate_2 by lia. apply Z.bits_0. }
  simpl. by rewrite bool_decide_eq_true.
Qed.

Context (Hinj : ∀ p1 p2 w1 w2 k, key_of p1 w1 k → key_of p2 w2 k → p1 = p2).

Lemma coverbitsets_body_inv done p s st st' :
  cover_inv fragkey trees sents labels SLOTS discontinuous done st →
  p ∉ done.*1 →
  coverbitsets_body iter_ints fragkey trees sents labels SLOTS discontinuous
    (p, s) st = Ok st' →
  cover_inv fragkey trees sents labels SLOTS discontinuous
    (done ++ [(p, s)]) st'.
Proof.
  intros (H0 & H1 & H2 & H3) Hp. destruct st as [result scratch].
  simpl in H0, H1, H2, H3.
  unfold coverbitsets_body.
  destruct (iter_ints s) as [|n ns] eqn:Eit.
  { intros [= <-]. split_and!; simpl.
    - done.
    - intros k w Hk. destruct (H1 k w Hk) as (p' & s' & ? & ? & ?).
      exists p', s'. split; [|done]. apply elem_of_app. by left.
    - intros p' s' [Hin|Hin%list_elem_of_singleton]%elem_of_app Hne; [eauto|].
      simplify_eq. exfalso. apply Hne.
      apply leibniz_equiv, elements_empty_inv.
      apply Permutation_nil_r. by rewrite <- Hiter, Eit.
    - done. }
  assert (Hs : s ≠ ∅).
  { intros ->. specialize (Hiter ∅). rewrite Eit, elements_empty in Hiter.
    by apply Permutation_nil_r in Hiter. }
  destruct (load (ct_trees trees) n) as [t|] eqn:Et; [|done]. simpl.
  destruct (memset0 (bits scratch) 0 SLOTS) as [zeroed|] eqn:Ez; [|done].
  apply (memset0_all _ _ _ H0) in Ez as ->. simpl.
  destruct (coverbitsets_find _ _ p n _) as [[scratch1 i]| |] eqn:Ef; [|done..].
  simpl.
  destruct (py_index sents n) as [sent| |] eqn:Esent; [|done..]. simpl.
  destruct (fragkey _ scratch1 labels sent discontinuous) as [k| |] eqn:Ek;
    [|done..].
  simpl. intros [= <-].
  apply coverbitsets_find_spec in Ef
    as (nd & bs & Hi%elem_of_range & End & Hnd & Ebs & ->).
  simpl in Ebs.
  assert (Hkey : key_of p (mkBitset bs (to_uint32 n) (to_short i)) k).
  { exists n, t, i, nd, sent. split_and!; [done..| |done].
    unfold one_node. by rewrite Ebs. }
  pose proof (cover_key_selects _ _ _ Hkey) as Hsel.
  assert (Hold : ∀ k' w', result !! k' = Some w' →
            ¬ selects_prod trees SLOTS w' p).
  { intros k' w' Hw' Hsel'. destruct (H1 k' w' Hw') as (p' & s' & Hin & _ & Hk').
    apply cover_key_selects in Hk'.
    rewrite (selects_prod_fun _ _ _ _ _ Hsel' Hk') in Hp.
    apply Hp. apply list_elem_of_fmap. by exists (p', s'). }
  split_and!; simpl.
  - apply SETBIT_Some in Ebs as (_ & _ & -> & _).
    by rewrite length_replicate.
  - intros k' w. rewrite lookup_insert. case_decide as Hk.
    + intros [= <-]. subst k'. exists p, s. split; [|done].
      apply elem_of_app. right. by left.
    + intros Hw. destruct (H1 k' w Hw) as (p' & s' & ? & ? & ?).
      exists p', s'. split; [|done]. apply elem_of_app. by left.
  - intros p' s' [Hin|Hin%list_elem_of_singleton]%elem_of_app Hne.
    + destruct (H2 p' s' Hin Hne) as (k' & w & Hw & Hk').
      exists k', w. split; [|done]. rewrite lookup_insert_ne; [done|].
      intros <-. apply Hp. rewrite (Hinj _ _ _ _ _ Hkey Hk').
      apply list_elem_of_fmap. by exists (p', s').
    + simplify_eq. eexists k, _. by rewrite lookup_insert_eq.
  - intros k1 k2 w1 w2 p'. rewrite !lookup_insert.
    repeat case_decide; subst; try done.
    + intros [= <-] Hw2 Hs1 Hs2.
      rewrite <- (selects_prod_fun _ _ _ _ _ Hsel Hs1) in Hs2.
      by destruct (Hold _ _ Hw2).
    + intros Hw1 [= <-] Hs1 Hs2.
      rewrite <- (selects_prod_fun _ _ _ _ _ Hsel Hs2) in Hs1.
      by destruct (Hold _ _ Hw1).
    + apply H3.
Qed.

Lemma coverbitsets_loop_inv l : ∀ done st st',
  cover_inv fragkey trees sents labels SLOTS discontinuous done st →
  NoDup (done.*1 ++ l.*1) →
  for_each l st
    (coverbitsets_body iter_ints fragkey trees sents labels SLOTS discontinuous)
    = Ok st' →
  cover_inv fragkey trees sents labels SLOTS discontinuous (done ++ l) st'.
Proof.
  induction l as [|[p s] l IH]; intros done st st' Hinv Hnd Hrun;
    cbn [for_each] in Hrun.
  - simplify_eq. by rewrite app_nil_r.
  - destruct (coverbitsets_body iter_ints fragkey trees sents labels SLOTS
                discontinuous (p, s) st) as [st1| |] eqn:E1; [|done..].
    cbn [mbind res_bind] in Hrun.
    rewrite fmap_cons in Hnd. simpl in Hnd.
    apply NoDup_app in Hnd as (Hd & Hdis & Hl).
    replace (done ++ (p, s) :: l) with ((done ++ [(p, s)]) ++ l)
      by by rewrite <- app_assoc.
    apply (IH _ st1); [|by rewrite fmap_app, <- app_assoc; apply NoDup_app|done].
    eapply coverbitsets_body_inv; [done| |done].
    intros Hin. apply (Hdis p Hin). by left.
Qed.

End cover.

Lemma ex_selects_cases (trees : Ctrees) w p :
  ct_trees trees = ct_trees ex_corpus → ct_nodes trees = ct_nodes ex_corpus →
  selects_prod trees 1 w p → p ∈ [0; 1; 2; 3].
Proof.
  intros Ht Hn (t & nd & Et & End & <- & _).
  rewrite Ht in Et. rewrite Hn in End. simpl in Et. load_cases Et.
  - change (slice _ _) with
      [mkNode 0 (-1) (-1); mkNode 1 (-2) (-1); mkNode 2 0 1] in End.
    load_cases End; set_solver.
  - change (slice _ _) with
      [mkNode 0 (-1) (-1); mkNode 2 0 2; mkNode 3 (-2) (-1)] in End.
    load_cases End; set_solver.
Qed.



Lemma ex_cover_key_prod (index : option (list (gset Z))) p w k :
  cover_key ex_key
    (mkCtrees (ct_trees ex_corpus) (ct_nodes ex_corpus) 2 2 6 3 0 index)
    ex_words ex_labels 1 false p w k →
  ex_key_prod k = p.
Proof.
  intros (n & t & i & nd & sent & Et & End & <- & Hsent & Hw & Hk).
  simpl in Et, End. load_cases Et.
  - change (slice _ _) with
      [mkNode 0 (-1) (-1); mkNode 1 (-2) (-1); mkNode 2 0 1] in End, Hk.
    load_cases End; vm_compute in Hsent; injection Hsent as <-;
      vm_compute in Hw; injection Hw as <-;
      vm_compute in Hk; injection Hk as <-;
      vm_compute; reflexivity.
  - change (slice _ _) with
      [mkNode 0 (-1) (-1); mkNode 2 0 2; mkNode 3 (-2) (-1)] in End, Hk.
    load_cases End; vm_compute in Hsent; injection Hsent as <-;
      vm_compute in Hw; injection Hw as <-;
      vm_compute in Hk; injection Hk as <-;
      vm_compute; reflexivity.
Qed.


(** ** The iterator on a bitset that does not change *)

Lemma words_ok_bit_lt64 vec k n :
  words_ok vec → 0 ≤ n → wbit vec k n = true → n < 64.
Proof.
  intros Hok Hn. unfold wbit. destruct (load vec k) as [w|] eqn:E; [|done].
  apply load_Some in E as [_ E]. apply list_elem_of_lookup_2 in E.
  pose proof (proj1 (Forall_forall _ _) Hok w E) as Hw. simpl in Hw.
  intros Ht. destruct (decide (n < 64)); [done|].
  rewrite Z.bits_above_log2 in Ht; [done|lia|].
  destruct (decide (w = 0)) as [->|]; [simpl; lia|].
  assert (Z.log2 w < 64); [|lia]. apply Z.log2_lt_pow2; lia.
Qed.

Lemma gbit_word vec idx n :
  0 ≤ n < 64 → gbit vec (64 * idx + n) = wbit vec idx n.
Proof.
  intros Hn. unfold gbit. f_equal.
  - rewrite Z.mul_comm, Z.div_add_l by lia. rewrite Z.div_small by lia. lia.
  - rewrite Z.add_comm, Z.mul_comm, Z.mod_add by lia. by rewrite Z.mod_small.
Qed.

Lemma iteratesetbits_exact fuel : ∀ vec SLOTS cur idx iprev,
  words_ok vec → Z.of_nat (length vec) = SLOTS →
  cur_exact vec cur idx iprev → 0 ≤ idx < SLOTS →
  iprev < 64 * (idx + 1) → SLOTS - idx ≤ Z.of_nat fuel →
  ∃ i' cur' idx',
    iteratesetbits fuel vec 0 SLOTS cur idx = Some (i', cur', idx') ∧
    (∀ g, iprev < g → 64 * idx ≤ g < 64 * SLOTS → (i' = -1 ∨ g < i') →
       gbit vec g = false) ∧
    (i' = -1 ∨
     (iprev < i' ∧ 0 ≤ i' < 64 * SLOTS ∧ gbit vec i' = true ∧
      cur_exact vec cur' idx' i' ∧ 0 ≤ idx' < SLOTS ∧ i' < 64 * (idx' + 1) ∧
      64 * idx' ≤ i')).
Proof.
  induction fuel as [|fuel IH]; intros vec SLOTS cur idx iprev Hok Hlen
    [Hcur Hbits] Hidx Hprev Hfuel; [lia|].
  cbn [iteratesetbits].
  assert (Hthis : cur = 0 → ∀ g, iprev < g → 64 * idx ≤ g < 64 * (idx + 1) →
            gbit vec g = false).
  { intros Hc g Hg Hrange. subst cur.
    replace g with (64 * idx + (g - 64 * idx)) by lia.
    rewrite gbit_word by lia.
    specialize (Hbits (g - 64 * idx) ltac:(lia)). rewrite Z.bits_0 in Hbits.
    symmetry in Hbits. apply andb_false_iff in Hbits as [?|Hb]; [done|].
    apply bool_decide_eq_false in Hb. lia. }
  destruct (decide (cur = 0)) as [Hz|Hnz].
  - destruct (decide (idx + 1 >= SLOTS)) as [Hlast|Hmore].
    { eexists _, _, _. split; [done|]. split; [|by left].
      intros g Hg Hrange _. apply Hthis; [done..|lia]. }
    destruct (load_is_Some vec (0 + (idx + 1)) ltac:(lia)) as [w Ew].
    rewrite Ew. cbn [mbind option_bind].
    assert (Hw : 0 ≤ w < 2 ^ 64).
    { apply load_Some in Ew as [_ Ew]. apply list_elem_of_lookup_2 in Ew.
      apply (proj1 (Forall_forall _ _) Hok w Ew). }
    destruct (IH vec SLOTS w (idx + 1) iprev) as (i' & cur' & idx' & E & Hgap & Hi');
      [done|done| |lia|lia|lia|].
    { split; [lia|]. intros n Hn. unfold wbit.
      replace (0 + (idx + 1)) with (idx + 1) in Ew by lia. rewrite Ew.
      rewrite bool_decide_eq_true_2 by lia. by rewrite andb_true_r. }
    exists i', cur', idx'. split; [done|]. split; [|done].
    intros g Hg Hrange Hlt.
    destruct (decide (g < 64 * (idx + 1))); [apply Hthis; [done..|lia]|].
    apply Hgap; [done|lia|done].
  - destruct (bit_ctz_spec cur ltac:(lia)) as (Htmp & Hset & Hlow).
    pose proof (Hbits _ Htmp) as Hb. rewrite Hset in Hb. symmetry in Hb.
    apply andb_true_iff in Hb as [Hlive Hlt]. apply bool_decide_eq_true in Hlt.
    pose proof (words_ok_bit_lt64 _ _ _ Hok Htmp Hlive) as Hlt64.
    eexists _, _, _. split; [done|]. unfold BITSIZE. split.
    + intros g Hg Hrange [?|Hgi]; [lia|].
      replace g with (64 * idx + (g - 64 * idx)) by lia.
      rewrite gbit_word by lia.
      specialize (Hbits (g - 64 * idx) ltac:(lia)).
      rewrite Hlow in Hbits by lia. symmetry in Hbits.
      apply andb_false_iff in Hbits as [?|Hb]; [done|].
      apply bool_decide_eq_false in Hb. lia.
    + right. split_and!; try lia.
      * replace (idx * 64 + bit_ctz cur) with (64 * idx + bit_ctz cur) by lia.
        by rewrite gbit_word by lia.
      * split.
        { apply Z.lxor_nonneg. rewrite Z.shiftl_1_l.
          split; intros _; [apply Z.pow_nonneg; lia|done]. }
        intros n Hn. rewrite Z.lxor_spec, Z.shiftl_1_l, Z.pow2_bits_eqb by done.
        rewrite Hbits by done.
        destruct (Z.eqb_spec (bit_ctz cur) n) as [<-|Hne].
        { rewrite Hlive. rewrite bool_decide_eq_true_2 by lia.
          rewrite bool_decide_eq_false_2 by lia. done. }
        rewrite xorb_false_r.
        destruct (wbit vec idx n) eqn:Ew; [|done]. simpl.
        apply bool_decide_ext. split; [|lia]. intros Hin.
        destruct (decide (n < bit_ctz cur)); [|lia].
        specialize (Hbits n Hn). rewrite Hlow, Ew in Hbits by lia.
        simpl in Hbits. symmetry in Hbits.
        apply bool_decide_eq_false in Hbits. lia.
Qed.

(** ** Occurrences of a fragment in a tree *)

Section occurrences.
Context (a b : list Node) (bitset : list Z) (SLOTS : Z) (ra rb : Z → nat).
Context (Hta : tree_ranked a ra) (Htb : tree_ranked b rb).
Context (Har : same_arity a b).
Context (Hslots : Z.of_nat (length a) ≤ 64 * SLOTS).
Context (Hbs : SLOTS ≤ Z.of_nat (length bitset)).

Lemma TESTBIT_bitset_is_Some i :
  0 ≤ i < Z.of_nat (length a) → is_Some (TESTBIT bitset 0 i).
Proof.
  intros Hi. rewrite TESTBIT_is_Some; [eauto|lia|].
  assert (0 ≤ i `div` 64 < SLOTS); [|lia].
  split; [apply Z.div_pos; lia|apply Z.div_lt_upper_bound; lia].
Qed.

Lemma containsbitset_total fuel : ∀ i j,
  (ra i < fuel)%nat → is_Some (load a i) → is_Some (load b j) →
  is_Some (containsbitset fuel a b bitset i j).
Proof.
  induction fuel as [|fuel IH]; intros i j Hfuel [ai Eai] [bj Ebj]; [lia|].
  cbn [containsbitset]. rewrite Eai, Ebj. cbn [mbind option_bind].
  destruct (decide (prod ai ≠ prod bj)) as [|Heq%dec_stable]; [eauto|].
  destruct (decide (left ai < 0)) as [|Hl]; [eauto|].
  destruct (Hta i ai Eai) as (_ & Hla).
  destruct (Htb j bj Ebj) as (_ & Hlb).
  destruct (Har i j ai bj Eai Ebj Heq) as [Harl Harr].
  destruct Hla as [[Hla Hra] Hright]; [lia|].
  destruct Hlb as [[Hlb Hrb] Hrightb]; [lia|].
  destruct (TESTBIT_bitset_is_Some (left ai) ltac:(lia)) as [tl ->].
  cbn [mbind option_bind].
  assert (is_Some (if tl then containsbitset fuel a b bitset (left ai) (left bj)
                   else Some true)) as [l ->].
  { destruct tl; [|eauto].
    apply IH; [lia|apply load_is_Some; lia..]. }
  cbn [mbind option_bind].
  destruct l; simpl; [|eauto].
  destruct (decide (right ai < 0)) as [|Hr]; [eauto|].
  destruct Hright as [Hra2 Hrk2]; [lia|].
  destruct Hrightb as [Hrb2 Hrkb2]; [lia|].
  destruct (TESTBIT_bitset_is_Some (right ai) ltac:(lia)) as [tr ->].
  cbn [mbind option_bind].
  destruct tr; [|eauto].
  apply IH; [lia|apply load_is_Some; lia..].
Qed.

End occurrences.

Section self_occurrence.
Context (a : list Node) (bitset : list Z) (SLOTS : Z) (ra : Z → nat).
Context (Hta : tree_ranked a ra).
Context (Hslots : Z.of_nat (length a) ≤ 64 * SLOTS).
Context (Hbs : SLOTS ≤ Z.of_nat (length bitset)).

(** A fragment occurs at its own root. *)
Lemma containsbitset_self fuel : ∀ i,
  (ra i < fuel)%nat → is_Some (load a i) →
  containsbitset fuel a a bitset i i = Some true.
Proof.
  induction fuel as [|fuel IH]; intros i Hfuel [ai Eai]; [lia|].
  cbn [containsbitset]. rewrite Eai. cbn [mbind option_bind].
  rewrite decide_False by (intros ?; done).
  destruct (decide (left ai < 0)) as [|Hl]; [done|].
  destruct (Hta i ai Eai) as (_ & Hla).
  destruct Hla as [[Hla Hra] Hright]; [lia|].
  destruct (TESTBIT_bitset_is_Some a bitset SLOTS Hslots Hbs (left ai)
              ltac:(lia)) as [tl ->].
  cbn [mbind option_bind].
  assert ((if tl then containsbitset fuel a a bitset (left ai) (left ai)
           else Some true) = Some true) as ->.
  { destruct tl; [|done]. apply IH; [lia|apply load_is_Some; lia]. }
  cbn [mbind option_bind negb].
  destruct (decide (right ai < 0)) as [|Hr]; [done|].
  destruct Hright as [Hra2 Hrk2]; [lia|].
  destruct (TESTBIT_bitset_is_Some a bitset SLOTS Hslots Hbs (right ai)
              ltac:(lia)) as [tr ->].
  cbn [mbind option_bind].
  destruct tr; [|done]. apply IH; [lia|apply load_is_Some; lia].
Qed.

End self_occurrence.

Section exactcounts_tree.
Context {Acc : Type} (hit : Z → Acc → Acc).
Context (a b : list Node) (bitset : list Z) (SLOTS : Z) (ra rb : Z → nat).
Context (Hta : tree_ranked a ra) (Htb : tree_ranked b rb).
Context (Har : same_arity a b).
Context (Hslots : Z.of_nat (length a) ≤ 64 * SLOTS).
Context (Hbs : SLOTS ≤ Z.of_nat (length bitset)).

(** The loop over the nodes of a tree returns, after at most one hit for
    each node. *)
Lemma exactcounts_tree_total js : ∀ i m acc,
  is_Some (load a i) → (∀ j, j ∈ js → is_Some (load b j)) →
  ∃ h, exactcounts_tree hit js a b bitset i m acc
         = Some (Nat.iter h (hit m) acc) ∧ (h ≤ length js)%nat.
Proof.
  induction js as [|j js IH]; intros i m acc [ai Eai] Hjs; simpl.
  - by exists 0%nat.
  - rewrite Eai. destruct (Hjs j) as [bj Ebj]; [by left|].
    rewrite Ebj. simpl.
    assert (Hrest : ∀ acc', ∃ h,
      exactcounts_tree hit js a b bitset i m acc'
        = Some (Nat.iter h (hit m) acc') ∧ (h ≤ length js)%nat).
    { intros acc'. apply IH; [by eexists|]. intros j' Hj'. apply Hjs. by right. }
    destruct (decide (prod ai = prod bj)) as [Heq|Hne].
    + destruct (containsbitset_total a b bitset SLOTS ra rb Hta Htb Har Hslots Hbs
                  (length a) i j) as [c ->]; [apply (Hta i ai Eai)|by eexists..|].
      simpl. destruct c.
      * destruct (Hrest (hit m acc)) as (h & -> & Hh).
        exists (S h). split; [by rewrite Nat.iter_succ_r|lia].
      * destruct (Hrest acc) as (h & -> & Hh). exists h. split; [done|lia].
    + destruct (decide (prod ai < prod bj)).
      * exists 0%nat. split; [done|lia].
      * destruct (Hrest acc) as (h & -> & Hh). exists h. split; [done|lia].
Qed.

End exactcounts_tree.

Section exactcounts_self.
Context {Acc : Type} (hit : Z → Acc → Acc).
Context (a : list Node) (bitset : list Z) (SLOTS : Z) (ra : Z → nat).
Context (Hta : tree_ranked a ra) (Hsorted : prods_sorted a).
Context (Har : same_arity a a).
Context (Hslots : Z.of_nat (length a) ≤ 64 * SLOTS).
Context (Hbs : SLOTS ≤ Z.of_nat (length bitset)).

(** In the tree the fragment was taken from, the loop reaches the root of
    the fragment and counts it. *)
Lemma exactcounts_tree_self (k : nat) : ∀ lo i m acc,
  lo ≤ i < lo + Z.of_nat k → 0 ≤ lo → lo + Z.of_nat k ≤ Z.of_nat (length a) →
  ∃ h, exactcounts_tree hit (seqZ lo (Z.of_nat k)) a a bitset i m acc
         = Some (Nat.iter h (hit m) acc) ∧ (1 ≤ h ≤ k)%nat.
Proof.
  induction k as [|k IH]; intros lo i m acc Hi Hlo Hhi; [lia|].
  rewrite seqZ_cons by lia. cbn [exactcounts_tree].
  destruct (load_is_Some a i ltac:(lia)) as [ai Eai].
  destruct (load_is_Some a lo ltac:(lia)) as [al Eal].
  rewrite Eai, Eal. cbn [mbind option_bind].
  replace (Z.pred (Z.of_nat (S k))) with (Z.of_nat k) by lia.
  assert (Hrest : ∀ acc', ∃ h,
    exactcounts_tree hit (seqZ (Z.succ lo) (Z.of_nat k)) a a bitset i m acc'
      = Some (Nat.iter h (hit m) acc') ∧ (h ≤ k)%nat).
  { intros acc'.
    destruct (exactcounts_tree_total hit a a bitset SLOTS ra ra Hta Hta Har
                Hslots Hbs (seqZ (Z.succ lo) (Z.of_nat k)) i m acc')
      as (h & E & Hh); [by eexists| |].
    - intros j Hj%elem_of_seqZ. apply load_is_Some. lia.
    - exists h. split; [done|]. rewrite length_seqZ in Hh. lia. }
  destruct (decide (i = lo)) as [->|Hne].
  - simplify_eq. rewrite decide_True by done.
    rewrite (containsbitset_self a bitset SLOTS ra Hta Hslots Hbs);
      [|apply (Hta lo ai Eai)|by eexists].
    cbn [mbind option_bind].
    destruct (Hrest (hit m acc)) as (h & -> & Hh).
    exists (S h). split; [by rewrite Nat.iter_succ_r|lia].
  - pose proof (prods_sorted_le a lo i al ai Hsorted ltac:(lia) Eal Eai).
    assert (Hnext : ∀ acc', ∃ h,
      exactcounts_tree hit (seqZ (Z.succ lo) (Z.of_nat k)) a a bitset i m acc'
        = Some (Nat.iter h (hit m) acc') ∧ (1 ≤ h ≤ k)%nat).
    { intros acc'. apply IH; lia. }
    destruct (decide (prod ai = prod al)) as [Heq|Hneq].
    + destruct (containsbitset_total a a bitset SLOTS ra ra Hta Hta Har Hslots
                  Hbs (length a) i lo) as [c ->];
        [apply (Hta i ai Eai)|by eexists..|].
      cbn [mbind option_bind]. destruct c.
      * destruct (Hnext (hit m acc)) as (h & -> & Hh).
        exists (S h). split; [by rewrite Nat.iter_succ_r|lia].
      * destruct (Hnext acc) as (h & -> & Hh). exists h. split; [done|lia].
    + rewrite decide_False by lia.
      destruct (Hnext acc) as (h & -> & Hh). exists h. split; [done|lia].
Qed.

End exactcounts_self.

(** ** The index lists every tree under its productions *)

Lemma py_slot_insert {A} (l : list A) k x i :
  py_slot (<[k := x]> l) i = py_slot l i.
Proof. unfold py_slot. by rewrite length_insert. Qed.

Lemma py_slot_lt {A} (l : list A) i k :
  py_slot l i = Ok k → (k < length l)%nat.
Proof. unfold py_slot. repeat case_decide; intros; simplify_eq; lia. Qed.

Lemma index_add_has result p n result' :
  index_add result p n = Ok result' →
  index_has result' p n ∧
  ∀ p' n', index_has result p' n' → index_has result' p' n'.
Proof.
  unfold index_add. destruct (py_slot result p) as [k| |] eqn:Ek; [|done..].
  simpl. destruct (result !! k) as [s|] eqn:Es; [|done]. simpl.
  intros [= <-]. pose proof (py_slot_lt _ _ _ Ek) as Hk. split.
  - exists (s ∪ {[n]}). unfold py_index. rewrite py_slot_insert, Ek. simpl.
    rewrite list_lookup_insert_eq by done. split; [done|set_solver].
  - intros p' n' (s' & Hs' & Hn'). unfold index_has, py_index in *.
    rewrite py_slot_insert.
    destruct (py_slot result p') as [k'| |]; [|done..]. simpl in *.
    destruct (decide (k' = k)) as [->|Hne].
    + rewrite list_lookup_insert_eq by done. rewrite Es in Hs'.
      simplify_eq/=. exists (s' ∪ {[n]}). split; [done|set_solver].
    + rewrite list_lookup_insert_ne by done. by exists s'.
Qed.

Lemma foldl_res_prefix {A St} (I : list A → St → Prop) (l : list A)
    (body : St → A → res St) s s' :
  (∀ pre x t t', x ∈ l → I pre t → body t x = Ok t' → I (pre ++ [x]) t') →
  I [] s → foldl (λ acc x, t ← acc; body t x) (Ok s) l = Ok s' → I l s'.
Proof.
  intros Hbody Hs Hfold.
  assert (Hgen : ∀ post pre t, post ⊆ l → I pre t →
    foldl (λ acc x, t ← acc; body t x) (Ok t) post = Ok s' → I (pre ++ post) s').
  { induction post as [|x post IH]; intros pre t Hsub Ht Hf; simpl in Hf.
    - rewrite app_nil_r. by simplify_eq.
    - destruct (body t x) as [u| |] eqn:E.
      + rewrite (assoc_L (++) pre [x] post : pre ++ x :: post = _).
        apply (IH _ u); [set_solver| |done].
        apply (Hbody pre x t); [set_solver|done..].
      + exfalso. revert Hf. clear. induction post; simpl; [done|]. done.
      + exfalso. revert Hf. clear. induction post; simpl; [done|]. done. }
  by apply (Hgen l [] s).
Qed.

Lemma indextrees_complete self numprods index :
  indextrees_result self numprods = Ok index →
  index_complete self index.
Proof.
  unfold indextrees_result. intros Hfold.
  pose (I := λ (pre : list Z) (result : list (gset Z)),
    ∀ n t i nd, n ∈ pre → load (ct_trees self) n = Some t →
      load (slice (ct_nodes self) t) i = Some nd →
      index_has result (prod nd) n).
  assert (HI : I (seqZ 0 (ct_len self)) index).
  { revert Hfold. apply (foldl_res_prefix I).
    - intros pre n result result' _ Hpre. unfold indextree.
      destruct (load (ct_trees self) n) as [a|] eqn:Ea; [|done]. simpl.
      intros Hin.
      pose (J := λ (ms : list Z) (r : list (gset Z)),
        (∀ p' n', index_has result p' n' → index_has r p' n') ∧
        ∀ m nd, m ∈ ms → load (slice (ct_nodes self) a) m = Some nd →
          index_has r (prod nd) n).
      assert (HJ : J (seqZ 0 (na_len a)) result').
      { revert Hin. apply (foldl_res_prefix J).
        - intros ms m r r' _ [Hkeep Hms].
          destruct (load _ m) as [nd|] eqn:End; [|done]. simpl.
          intros [Hnew Hold]%index_add_has. split; [by eauto|].
          intros m' nd' [Hm'| ->%list_elem_of_singleton]%elem_of_app End'.
          + by eauto.
          + by simplify_eq.
        - split; [done|]. intros m nd Hm. by apply elem_of_nil in Hm. }
      destruct HJ as [Hkeep Hms].
      intros n' t i nd [Hn'| ->%list_elem_of_singleton]%elem_of_app Et End.
      + by eauto.
      + simplify_eq. apply (Hms i); [|done]. apply elem_of_seqZ.
        pose proof (load_bound _ _ _ End) as Hb. unfold slice in Hb.
        rewrite length_take in Hb. lia.
    - intros n t i nd Hn. by apply elem_of_nil in Hn. }
  intros n t i nd Hn. apply HI. apply elem_of_seqZ. lia.
Qed.

(** ** The counts of fragments in their own treebank *)

Lemma BITNSLOTS_room m : 0 ≤ m → 0 < BITNSLOTS (m + 1) ∧ m < 64 * BITNSLOTS (m + 1).
Proof.
  intros Hm. unfold BITNSLOTS, BITSIZE. rewrite Z.quot_div_nonneg by lia.
  replace (m + 1 + 64 - 1) with (m + 1 * 64) by lia.
  rewrite Z.div_add by lia. pose proof (Z.div_pos m 64 Hm ltac:(lia)).
  pose proof (Z.mul_succ_div_gt m 64 ltac:(lia)). lia.
Qed.

Lemma count_hit_iter m h :
  Nat.iter h (count_hit m) 0 = Z.of_nat h `mod` 2 ^ 32.
Proof.
  induction h as [|h IH]; [done|].
  rewrite Nat.iter_succ, IH. unfold count_hit.
  rewrite Zplus_mod_idemp_l. f_equal. lia.
Qed.

Lemma sum_list_with_submseteq {A} (f : A → nat) (l k : list A) :
  l ⊆+ k → (sum_list_with f l ≤ sum_list_with f k)%nat.
Proof.
  induction 1 as [|x l k _ IH|x y l|x l k _ IH|l k1 k2 _ IH1 _ IH2]; simpl; lia.
Qed.

Section exactcounts_correct.
Context (iter_ints : gset Z → list Z).
Context (Hiter : ∀ s, iter_ints s ≡ₚ elements s).
Context (trees : Ctrees) (index : list (gset Z)).
Context (Hwf : corpus_wf trees).
Context (Hidx : ct_treeswithprod trees = Some index).
Context (Hcomplete : index_complete trees index).
Context (Hrange : index_in_range (ct_len trees) index).
Context (SLOTS : Z) (HSLOTS : SLOTS = BITNSLOTS (ct_maxnodes trees + 1)).

Lemma exactcounts_candidates_spec (w : Bitset) (a : NodeArray) fuel :
  ∀ cur idx iprev candidates,
  0 ≤ tail_id w < ct_len trees →
  load (ct_trees trees) (tail_id w) = Some a →
  words_ok (bits w) → Z.of_nat (length (bits w)) = SLOTS →
  cur_exact (bits w) cur idx iprev → 0 ≤ idx < SLOTS →
  iprev < 64 * (idx + 1) → 64 * SLOTS - iprev ≤ Z.of_nat fuel →
  tail_id w ∈ candidates →
  ∃ c', exactcounts_candidates fuel trees a (slice (ct_nodes trees) a)
          (bits w) SLOTS cur idx candidates = Ok c' ∧
        tail_id w ∈ c' ∧ c' ⊆ candidates.
Proof.
  induction fuel as [|fuel IH];
    intros cur idx iprev candidates Hid Ea Hok Hlen Hcur Hidx' Hprev Hfuel Hin;
    [lia|].
  cbn [exactcounts_candidates].
  destruct (iteratesetbits_exact (Z.to_nat SLOTS) (bits w) SLOTS cur idx iprev)
    as (i' & cur' & idx' & -> & _ & Hi'); [done..|lia|].
  cbn [of_option mbind res_bind].
  destruct (decide (i' = -1 ∨ i' >= na_len a)) as [|Hgo].
  { exists candidates. by split_and!. }
  destruct Hi' as [?|(Hlt & Hi' & Hbit & Hcur' & Hidx'' & Hnext & Hfloor)]; [lia|].
  destruct (cw_tree _ Hwf _ Hid) as (t & Et & Hoff & Hlen' & Hpos & _).
  assert (t = a) as -> by congruence.
  destruct (load_is_Some (slice (ct_nodes trees) a) i' ltac:(lia)) as [ai Eai].
  rewrite Eai. cbn [of_option mbind res_bind].
  destruct (Hcomplete _ _ _ _ Hid Et Eai) as (s & Es & Hs).
  unfold treeswithprod_at. rewrite Hidx, Es. cbn [mbind res_bind].
  destruct (IH cur' idx' i' (candidates ∩ s)) as (c' & -> & Hc' & Hsub);
    [done..|lia|set_solver|].
  exists c'. split_and!; [done|done|set_solver].
Qed.

Lemma count_loop (w : Bitset) (a : NodeArray) (ra : Z → nat) (l : list Z) :
  ∀ h0 : nat,
  0 ≤ tail_id w < ct_len trees →
  load (ct_trees trees) (tail_id w) = Some a →
  0 ≤ tail_root w < na_len a →
  Z.of_nat (length (bits w)) = SLOTS →
  (∀ m, m ∈ l → 0 ≤ m < ct_len trees) →
  ∃ h : nat,
    for_each l (Nat.iter h0 (count_hit 0) 0) (λ m acc,
      b ← of_option (load (ct_trees trees) m);
      of_option
        (exactcounts_tree count_hit (range 0 (na_len b))
           (slice (ct_nodes trees) a) (slice (ct_nodes trees) b) (bits w)
           (tail_root w) m acc))
      = Ok (Nat.iter (h0 + h) (count_hit 0) 0) ∧
    (h ≤ sum_list_with (tree_len trees) l)%nat ∧
    (tail_id w ∈ l → (1 ≤ h)%nat).
Proof.
  intros h0 Hid Ea Hroot Hlen. revert h0.
  destruct (cw_tree _ Hwf _ Hid) as (t & Et & Hoff & Hlena & Hposa & Hsa & ra' & Hra).
  assert (t = a) as -> by congruence.
  destruct (BITNSLOTS_room (ct_maxnodes trees)) as [Hs0 Hs1];
    [apply (cw_maxnodes _ Hwf)|]. rewrite <- HSLOTS in Hs0, Hs1.
  induction l as [|m l IH]; intros h0 Hl.
  { exists 0%nat. rewrite Nat.add_0_r. split_and!; [done|done|].
    intros Hin. by apply elem_of_nil in Hin. }
  assert (Hm : 0 ≤ m < ct_len trees) by (apply Hl; left).
  destruct (cw_tree _ Hwf _ Hm) as (b & Eb & Hoffb & Hlenb & Hposb & Hsb & rb & Hrb).
  cbn [for_each]. rewrite Eb. cbn [of_option mbind res_bind].
  assert (Hstep : ∃ h : nat,
    exactcounts_tree count_hit (range 0 (na_len b)) (slice (ct_nodes trees) a)
      (slice (ct_nodes trees) b) (bits w) (tail_root w) m
      (Nat.iter h0 (count_hit 0) 0)
    = Some (Nat.iter (h0 + h) (count_hit 0) 0) ∧
    (h ≤ tree_len trees m)%nat ∧ (m = tail_id w → (1 ≤ h)%nat)).
  { assert (Htl : tree_len trees m = Z.to_nat (na_len b)).
    { unfold tree_len. by rewrite Eb. }
    destruct (decide (m = tail_id w)) as [->|Hne].
    - assert (b = a) as -> by congruence.
      destruct (exactcounts_tree_self count_hit (slice (ct_nodes trees) a)
                  (bits w) SLOTS ra' Hra Hsa
                  (cw_arity _ Hwf _ _ _ _ Hid Hid Ea Ea) ltac:(lia) ltac:(lia)
                  (Z.to_nat (na_len a)) 0 (tail_root w) (tail_id w)
                  (Nat.iter h0 (count_hit 0) 0)) as (h & E & Hh); [lia..|].
      exists h. unfold range. rewrite Z.sub_0_r.
      rewrite Z2Nat.id in E by lia. rewrite E.
      split_and!; [|lia|lia]. f_equal.
      rewrite Nat.add_comm. by rewrite Nat.iter_add.
    - destruct (exactcounts_tree_total count_hit (slice (ct_nodes trees) a)
                  (slice (ct_nodes trees) b) (bits w) SLOTS ra' rb Hra Hrb
                  (cw_arity _ Hwf _ _ _ _ Hid Hm Ea Eb) ltac:(lia) ltac:(lia)
                  (range 0 (na_len b)) (tail_root w) m
                  (Nat.iter h0 (count_hit 0) 0)) as (h & E & Hh).
      + apply load_is_Some. lia.
      + intros j Hj%elem_of_range. apply load_is_Some. lia.
      + exists h. rewrite E. unfold range in Hh. rewrite length_seqZ in Hh.
        split_and!; [|lia|done]. f_equal.
        rewrite Nat.add_comm. by rewrite Nat.iter_add. }
  destruct Hstep as (h & -> & Hh & Hself). cbn [of_option mbind res_bind].
  destruct (IH (h0 + h)%nat) as (h' & -> & Hh' & Hself').
  { intros m' Hm'. apply Hl. by right. }
  exists (h + h')%nat. rewrite Nat.add_assoc. split_and!; [done|simpl; lia|].
  intros [Heq|Hin]%elem_of_cons; [specialize (Hself (eq_sym Heq))|
    specialize (Hself' Hin)]; lia.
Qed.

(** A fragment of the treebank is counted at least once in the treebank. *)
Lemma exactcounts_one_count (w : Bitset) :
  valid_frag trees SLOTS w →
  ∃ c, exactcounts_one iter_ints count_hit trees trees SLOTS w 0 = Ok c ∧
       1 ≤ c < 2 ^ 32.
Proof.
  intros (a & Hid & Ea & Hroot & Hbit & Hlen & Hok).
  destruct (cw_tree _ Hwf _ Hid) as (t & Et & Hoff & Hlena & Hposa & Hsa & ra & Hra).
  assert (t = a) as -> by congruence.
  destruct (BITNSLOTS_room (ct_maxnodes trees)) as [Hs0 Hs1];
    [apply (cw_maxnodes _ Hwf)|]. rewrite <- HSLOTS in Hs0, Hs1.
  unfold exactcounts_one, getid, getroot. rewrite !decide_True by done.
  cbn [of_option mbind res_bind]. rewrite Ea. cbn [of_option mbind res_bind].
  destruct (load_is_Some (bits w) 0 ltac:(lia)) as [cur0 Ecur].
  rewrite Ecur. cbn [of_option mbind res_bind].
  assert (Hcur0 : cur_exact (bits w) cur0 0 (-1)).
  { split.
    - apply load_Some in Ecur as [_ Ecur]. apply list_elem_of_lookup_2 in Ecur.
      apply (proj1 (Forall_forall _ _) Hok cur0 Ecur).
    - intros n Hn. unfold wbit. rewrite Ecur.
      rewrite bool_decide_eq_true_2 by lia. by rewrite andb_true_r. }
  destruct (iteratesetbits_exact (Z.to_nat SLOTS) (bits w) SLOTS cur0 0 (-1))
    as (i & cur & idx & -> & Hgap & Hi); [done..|lia|lia|lia|].
  cbn [of_option mbind res_bind].
  assert (Hfirst : i ≠ -1 ∧ i ≤ tail_root w).
  { destruct (decide (i = -1 ∨ tail_root w < i)) as [Hno|]; [|lia].
    rewrite (Hgap (tail_root w)) in Hbit; [done|lia|lia|done]. }
  destruct Hi as [?|(Hlt & Hi & Hibit & Hcur & Hidx' & Hnext & Hfloor)]; [lia|].
  rewrite decide_False by lia.
  destruct (load_is_Some (slice (ct_nodes trees) a) i ltac:(lia)) as [ai Eai].
  rewrite Eai. cbn [of_option mbind res_bind].
  destruct (Hcomplete _ _ _ _ Hid Ea Eai) as (s & Es & Hs).
  unfold treeswithprod_at at 1. rewrite Hidx, Es. cbn [mbind res_bind].
  destruct (exactcounts_candidates_spec w a (Z.to_nat (BITSIZE * SLOTS))
              cur idx i s) as (c' & -> & Hc' & Hsub); [done..| |done|].
  { unfold BITSIZE. lia. }
  cbn [of_option mbind res_bind].
  destruct (count_loop w a ra (iter_ints c') 0) as (h & E & Hh & Hself);
    [done..| |].
  { intros m Hm. rewrite Hiter in Hm. apply elem_of_elements in Hm.
    apply py_index_elem in Es.
    apply (proj1 (Forall_forall _ _) Hrange s Es). set_solver. }
  change (Nat.iter 0 (count_hit 0) 0) with 0 in E. rewrite E.
  eexists. split; [done|]. rewrite Nat.add_0_l, count_hit_iter.
  assert (Hsum : (sum_list_with (tree_len trees) (iter_ints c')
                  ≤ sum_list_with (tree_len trees) (seqZ 0 (ct_len trees)))%nat).
  { apply sum_list_with_submseteq. apply NoDup_submseteq.
    - rewrite Hiter. apply NoDup_elements.
    - intros m Hm. rewrite Hiter in Hm. apply elem_of_elements in Hm.
      apply py_index_elem in Es.
      pose proof (proj1 (Forall_forall _ _) Hrange s Es m ltac:(set_solver)).
      apply elem_of_seqZ. lia. }
  pose proof (cw_total _ Hwf).
  assert (1 ≤ h)%nat.
  { apply Hself. rewrite Hiter. by apply elem_of_elements. }
  rewrite Z.mod_small; lia.
Qed.

Lemma exactcounts_at_least_one (bitsets : list Bitset) :
  Forall (valid_frag trees SLOTS) bitsets →
  ∃ counts, exactcounts iter_ints trees trees bitsets = Ok counts ∧
            length counts = length bitsets ∧
            Forall (λ c, 1 ≤ c < 2 ^ 32) counts.
Proof.
  unfold exactcounts. rewrite Z.max_id, <- HSLOTS. intros Hvalid.
  assert (Hgen : ∀ counts0, Forall (λ c, 1 ≤ c < 2 ^ 32) counts0 →
    ∃ counts,
      for_each bitsets counts0 (λ wrapper counts,
        c ← exactcounts_one iter_ints count_hit trees trees SLOTS wrapper 0;
        Ok (counts ++ [c])) = Ok counts ∧
      length counts = (length counts0 + length bitsets)%nat ∧
      Forall (λ c, 1 ≤ c < 2 ^ 32) counts).
  { induction Hvalid as [|w ws Hw _ IH]; intros counts0 H0; cbn [for_each].
    - exists counts0. split_and!; [done|simpl; lia|done].
    - destruct (exactcounts_one_count w Hw) as (c & -> & Hc).
      cbn [mbind res_bind].
      destruct (IH (counts0 ++ [c])) as (counts & -> & Hlen & Hall).
      { apply Forall_app. split; [done|]. by apply Forall_singleton. }
      exists counts. split_and!; [done| |done].
      rewrite Hlen, length_app. simpl. lia. }
  destruct (Hgen []) as (counts & E & Hlen & Hall); [done|].
  by exists counts.
Qed.

End exactcounts_correct.

(** ** The bitsets that the extraction stores *)

Lemma lor_word (x y : Z) :
  0 ≤ x < 2 ^ 64 → 0 ≤ y < 2 ^ 64 → 0 ≤ Z.lor x y < 2 ^ 64.
Proof.
  intros Hx Hy. split; [apply Z.lor_nonneg; lia|].
  destruct (decide (Z.lor x y = 0)) as [->|Hnz]; [lia|].
  assert (0 ≤ Z.lor x y) by (apply Z.lor_nonneg; lia).
  apply Z.log2_lt_pow2; [lia|]. rewrite Z.log2_lor by lia.
  destruct (decide (x = 0)) as [->|]; destruct (decide (y = 0)) as [->|];
    try (simpl; lia).
  - rewrite Z.max_r by (simpl; apply Z.log2_nonneg).
    apply Z.log2_lt_pow2; lia.
  - rewrite Z.max_l by (simpl; apply Z.log2_nonneg).
    apply Z.log2_lt_pow2; lia.
  - apply Z.max_lub_lt; apply Z.log2_lt_pow2; lia.
Qed.

Lemma grows_refl r : grows r r.
Proof. by split_and!. Qed.

Lemma grows_trans r1 r2 r3 : grows r1 r2 → grows r2 r3 → grows r1 r3.
Proof.
  intros (L1 & W1 & G1) (L2 & W2 & G2). split_and!; [congruence|eauto|eauto].
Qed.

Lemma SETBIT_grows r i r' :
  SETBIT r 0 i = Some r' → grows r r' ∧ gbit r' i = true ∧ 0 ≤ i.
Proof.
  intros Hset. pose proof (SETBIT_Some _ _ _ _ Hset) as (Hi & Hk & Hlen & Hbits).
  assert (Hm : ∀ g, 0 ≤ g `mod` 64) by (intros g; apply Z.mod_pos_bound; lia).
  split_and!; [split_and!| |done].
  - done.
  - unfold SETBIT in Hset. rewrite decide_True in Hset by done.
    destruct (load r _) as [w|] eqn:Ew; [|done]. simpl in Hset.
    unfold store in Hset. case_decide; [|done]. simplify_eq.
    intros Hok. apply Forall_insert; [done|].
    apply load_Some in Ew as [_ Ew]. apply list_elem_of_lookup_2 in Ew.
    pose proof (proj1 (Forall_forall _ _) Hok w Ew) as Hw. simpl in Hw.
    apply lor_word; [done|]. rewrite BITMASK_pow by done.
    pose proof (Z.mod_pos_bound i 64 ltac:(lia)).
    split; [apply Z.pow_nonneg; lia|apply Z.pow_lt_mono_r; lia].
  - intros g Hg. unfold gbit. rewrite Hbits by done. unfold gbit in Hg.
    by rewrite Hg.
  - unfold gbit. rewrite Hbits by done.
    rewrite bool_decide_eq_true_2 by done. by rewrite orb_true_r.
Qed.

Lemma extractat_grows fuel :
  ∀ m r a b i j SLOTS t m' r',
  extractat fuel m r a b i j SLOTS = Some (t, m', r') →
  grows r r' ∧ gbit r' i = true ∧ 0 ≤ i < Z.of_nat (length a).
Proof.
  induction fuel as [|fuel IH]; intros m r a b i j SLOTS t m' r' Hx; [done|].
  cbn [extractat] in Hx.
  destruct (SETBIT r 0 i) as [r1|] eqn:Eset; [|done].
  apply SETBIT_grows in Eset as (Hg1 & Hbit & Hi).
  cbn [mbind option_bind] in Hx.
  destruct (CLEARBIT m _ i) as [m1|]; [|done]. cbn [mbind option_bind] in Hx.
  destruct (load a i) as [ai|] eqn:Eai; [|done]. cbn [mbind option_bind] in Hx.
  pose proof (load_bound _ _ _ Eai) as Hia.
  destruct (decide (left ai < 0)); [by simplify_eq|].
  destruct (load b j) as [bj|]; [|done]. cbn [mbind option_bind] in Hx.
  destruct (TESTBIT m1 _ (left ai)) as [tl|]; [|done].
  cbn [mbind option_bind] in Hx.
  assert (Hl : ∀ t2 m2 r2,
    (if tl then extractat fuel m1 r1 a b (left ai) (left bj) SLOTS
     else Some (0, m1, r1)) = Some (t2, m2, r2) → grows r1 r2).
  { intros t2 m2 r2. destruct tl; [|intros; simplify_eq; apply grows_refl].
    intros Hl. by apply IH in Hl as (? & _). }
  destruct (if tl then _ else _) as [[[t2 m2] r2]|] eqn:El; [|done].
  specialize (Hl _ _ _ eq_refl). cbn [mbind option_bind] in Hx.
  assert (Hg2 : grows r r2) by (by eapply grows_trans).
  assert (Hbit2 : gbit r2 i = true) by (by apply Hl).
  destruct (decide (right ai < 0)); [by simplify_eq|].
  destruct (TESTBIT m2 _ (right ai)) as [tr|]; [|done].
  cbn [mbind option_bind] in Hx.
  destruct tr; [|by simplify_eq].
  destruct (extractat fuel m2 r2 a b (right ai) (right bj) SLOTS)
    as [[[t3 m3] r3]|] eqn:Er; [|done].
  apply IH in Er as (Hg3 & _). cbn [mbind option_bind] in Hx. simplify_eq.
  split_and!; [by eapply grows_trans|by apply Hg3|lia..].
Qed.

Lemma memset0_words r SLOTS z :
  memset0 r 0 SLOTS = Some z → Z.of_nat (length r) = SLOTS →
  words_ok z ∧ Z.of_nat (length z) = SLOTS.
Proof.
  unfold memset0. case_decide as Hn; [|done]. intros [= <-] Hlen.
  split.
  - apply Forall_app. split; [apply Forall_replicate; simpl; lia|].
    rewrite drop_ge by lia. done.
  - rewrite !length_app, length_replicate, length_drop. lia.
Qed.

Section extracted_valid.
Context (trees : Ctrees) (SLOTS n : Z) (a : NodeArray).
Context (Hwf : corpus_wf trees).
Context (Hn : 0 ≤ n < ct_len trees).
Context (Ea : load (ct_trees trees) n = Some a).

Local Abbreviation anodes := (slice (ct_nodes trees) a).

Lemma stored_valid (r : list Z) (tid troot i : Z) :
  Z.of_nat (length r) = SLOTS → words_ok r → gbit r i = true →
  0 ≤ i < Z.of_nat (length anodes) →
  valid_frag trees SLOTS (setrootid (mkBitset r tid troot) i n).
Proof.
  intros Hlen Hok Hbit Hi.
  destruct (cw_tree _ Hwf _ Hn) as (t & Et & Hoff & Hlena & Hposa & _).
  assert (t = a) as -> by congruence.
  pose proof (cw_len _ Hwf). pose proof (cw_maxnodes _ Hwf).
  exists a. unfold setrootid. simpl.
  rewrite to_uint32_small, to_short_small by lia. by split_and!; try lia.
Qed.

Lemma extractbitsets_row_valid fuel :
  ∀ b j minterms st cur idx i st',
  extractbitsets_row fuel anodes b j n minterms SLOTS st cur idx i = Some st' →
  Z.of_nat (length (bits (st_scratch st))) = SLOTS →
  (∀ w, w ∈ st_results st → valid_frag trees SLOTS w) →
  Z.of_nat (length (bits (st_scratch st'))) = SLOTS ∧
  ∀ w, w ∈ st_results st' → valid_frag trees SLOTS w.
Proof.
  induction fuel as [|fuel IH]; intros b j minterms st cur idx i st' Hrow Hlen Hres;
    cbn [extractbitsets_row] in Hrow;
    (destruct (decide (i = -1)); [by simplify_eq|]); [done|].
  destruct (memset0 _ 0 SLOTS) as [zeroed|] eqn:Ez; [|done].
  apply memset0_words in Ez as [Hzok Hzlen]; [|done].
  cbn [mbind option_bind] in Hrow.
  destruct (extractat _ _ zeroed _ _ _ _ _) as [[[terms m1] r1]|] eqn:Ex;
    [|done].
  apply extractat_grows in Ex as ((Hl1 & Hok1 & _) & Hbit & Hi).
  cbn [mbind option_bind] in Hrow.
  destruct (iteratesetbits _ _ _ _ _ _) as [[[i' cur'] idx']|]; [|done].
  cbn [mbind option_bind] in Hrow.
  apply IH in Hrow; [done| |].
  - simpl. case_decide; simpl; lia.
  - simpl. intros w Hw. case_decide; [|by apply Hres].
    apply elem_of_union in Hw as [Hw|Hw%elem_of_singleton]; [by apply Hres|].
    subst w. apply stored_valid; [lia|by apply Hok1|done..].
Qed.

Lemma extractbitsets_valid fuel :
  ∀ b j minterms st st',
  extractbitsets fuel anodes b j n minterms SLOTS st = Some st' →
  Z.of_nat (length (bits (st_scratch st))) = SLOTS →
  (∀ w, w ∈ st_results st → valid_frag trees SLOTS w) →
  Z.of_nat (length (bits (st_scratch st'))) = SLOTS ∧
  ∀ w, w ∈ st_results st' → valid_frag trees SLOTS w.
Proof.
  induction fuel as [|fuel IH]; intros b j minterms st st' Hx Hlen Hres; [done|].
  cbn [extractbitsets] in Hx.
  destruct (load (st_matrix st) _) as [cur|]; [|done].
  cbn [mbind option_bind] in Hx.
  destruct (iteratesetbits _ _ _ _ _ _) as [[[i cur'] idx]|]; [|done].
  cbn [mbind option_bind] in Hx.
  destruct (extractbitsets_row _ _ _ _ _ _ _ _ _ _ _) as [st1|] eqn:Erow;
    [|done].
  apply extractbitsets_row_valid in Erow as [Hlen1 Hres1]; [|done..].
  cbn [mbind option_bind] in Hx.
  destruct (load b j) as [bj|]; [|done]. cbn [mbind option_bind] in Hx.
  destruct (decide (left bj >= 0)); [|by simplify_eq].
  destruct (extractbitsets fuel _ _ (left bj) _ _ _ _) as [st2|] eqn:El; [|done].
  apply IH in El as [Hlen2 Hres2]; [|done..].
  cbn [mbind option_bind] in Hx.
  destruct (decide (right bj >= 0)); [|injection Hx as <-; by split].
  by apply IH in Hx.
Qed.

Lemma valid_frag_grows (s : Bitset) (bs : list Z) :
  valid_frag trees SLOTS s → grows (bits s) bs →
  valid_frag trees SLOTS (mkBitset bs (tail_id s) (tail_root s)).
Proof.
  intros (t & Hid & Et & Hroot & Hbit & Hlen & Hok) (Hl & Hw & Hg).
  exists t. simpl. split_and!; [lia|lia|done|lia|lia|by apply Hg|lia|by apply Hw].
Qed.

Section complement.
Context (junk_at : Z → nat → Z).
Context (Hjunk : ∀ i k, 0 ≤ junk_at i k < 2 ^ 64).
Context (HSLOTS : 0 ≤ SLOTS).

Lemma extractcompbitsets_valid fuel :
  ∀ bitset i results scratch results' scratch',
  extractcompbitsets junk_at fuel bitset anodes i n results SLOTS scratch
    = Some (results', scratch') →
  (∀ w, w ∈ results → valid_frag trees SLOTS w) →
  (∀ s, scratch = Some s → valid_frag trees SLOTS s) →
  (∀ w, w ∈ results' → valid_frag trees SLOTS w) ∧
  (∀ s, scratch' = Some s → valid_frag trees SLOTS s).
Proof.
  induction fuel as [|fuel IH];
    intros bitset i results scratch results' scratch' Hx Hres Hscr; [done|].
  cbn [extractcompbitsets] in Hx.
  destruct (TESTBIT bitset 0 i) as [t|]; [|done].
  cbn [mbind option_bind] in Hx.
  assert (Hkids : ∀ (ai : Node) mine res mine',
    (if decide (left ai >= 0) then
       '(results, mine) ←
         extractcompbitsets junk_at fuel bitset anodes (left ai) n results
           SLOTS mine;
       if decide (right ai >= 0) then
         extractcompbitsets junk_at fuel bitset anodes (right ai) n results
           SLOTS mine
       else Some (results, mine)
     else Some (results, mine)) = Some (res, mine') →
    (∀ s, mine = Some s → valid_frag trees SLOTS s) →
    (∀ w, w ∈ res → valid_frag trees SLOTS w) ∧
    (∀ s, mine' = Some s → valid_frag trees SLOTS s)).
  { intros ai mine res mine' Hk Hmine.
    destruct (decide (left ai >= 0)); [|injection Hk as <- <-; by split].
    destruct (extractcompbitsets _ fuel _ _ (left ai) _ _ _ _)
      as [[res1 mine1]|] eqn:El; [|done].
    apply IH in El as [Hres1 Hmine1]; [|done..].
    cbn [mbind option_bind] in Hk.
    destruct (decide (right ai >= 0)); [|injection Hk as <- <-; by split].
    by apply IH in Hk. }
  destruct scratch as [s0|]; destruct t; simpl in Hx.
  - destruct (load anodes i) as [ai|]; [|done]. simpl in Hx.
    destruct (if decide (left ai >= 0) then _ else _) as [[res mine']|] eqn:Ek;
      [|done].
    apply Hkids in Ek as [Hres' _]; [|done]. simpl in Hx.
    injection Hx as <- <-. by split.
  - destruct (SETBIT (bits s0) 0 i) as [bs|] eqn:Eset; [|done].
    apply SETBIT_grows in Eset as (Hgrow & _). simpl in Hx.
    destruct (load anodes i) as [ai|]; [|done]. simpl in Hx.
    destruct (if decide (left ai >= 0) then _ else _) as [[res mine']|] eqn:Ek;
      [|done].
    apply Hkids in Ek as [Hres' Hmine'].
    + simpl in Hx. injection Hx as <- <-. by split.
    + intros s [= <-]. apply valid_frag_grows; [by apply Hscr|done].
  - destruct (load anodes i) as [ai|]; [|done]. simpl in Hx.
    destruct (if decide (left ai >= 0) then _ else _) as [[res mine']|] eqn:Ek;
      [|done].
    apply Hkids in Ek as [Hres' _]; [|done]. simpl in Hx.
    injection Hx as <- <-. by split.
  - destruct (SETBIT _ 0 i) as [bs|] eqn:Eset; [|done].
    apply SETBIT_grows in Eset as ((Hl & Hw & _) & Hbit & _). simpl in Hx.
    destruct (load anodes i) as [ai|] eqn:Eai; [|done]. simpl in Hx.
    pose proof (load_bound _ _ _ Eai) as Hi.
    destruct (if decide (left ai >= 0) then _ else _) as [[res mine']|] eqn:Ek;
      [|done].
    apply Hkids in Ek as [Hres' Hmine'].
    + simpl in Hx. destruct mine' as [s|]; [|done]. injection Hx as <- <-.
      split; [|done].
      intros w [Hw'|Hw'%elem_of_singleton]%elem_of_union; [by apply Hres'|].
      subst w. by apply Hmine'.
    + intros s [= <-]. apply (stored_valid bs 0 0 i); [|apply Hw|done|done].
      * rewrite Hl, grow_length. lia.
      * apply Forall_forall. intros x Hx'. unfold grow in Hx'.
        rewrite take_nil, app_nil_l in Hx'.
        apply list_elem_of_fmap in Hx' as (k & -> & _). apply Hjunk.
Qed.

Lemma setunioninplace_length dest src dest' :
  setunioninplace dest src SLOTS = Some dest' → length dest' = length dest.
Proof.
  unfold setunioninplace. case_decide as Hl; [|done]. intros [= <-].
  rewrite length_app, length_zip_with, !length_take, length_drop. lia.
Qed.

Lemma extractfrompair_valid (iter_bitsets : gset Bitset → list Bitset)
    (trees2 : Ctrees) (m : Z) (complement : bool) (minterms : Z)
    (pst pst' : PairState) :
  extractfrompair junk_at iter_bitsets a anodes trees2 n m complement minterms
    SLOTS pst = Ok pst' →
  Z.of_nat (length (bits (pr_scratch pst))) = SLOTS →
  (∀ w, w ∈ pr_inter pst → valid_frag trees SLOTS w) →
  Z.of_nat (length (bits (pr_scratch pst'))) = SLOTS ∧
  ∀ w, w ∈ pr_inter pst' → valid_frag trees SLOTS w.
Proof.
  unfold extractfrompair. intros Hx Hlen Hres.
  destruct (load (ct_trees trees2) m) as [b|]; [|done].
  cbn [of_option mbind res_bind] in Hx.
  destruct (memset0 (pr_matrix pst) _ _) as [m0|]; [|done].
  cbn [of_option mbind res_bind] in Hx.
  destruct (fasttreekernel _ _ _ _ _ _) as [m1|]; [|done].
  cbn [of_option mbind res_bind] in Hx.
  destruct (extractbitsets _ _ _ _ _ _ _ _) as [est|] eqn:Eb; [|done].
  apply extractbitsets_valid in Eb as [Hlen1 Hres1]; [|done..].
  cbn [of_option mbind res_bind] in Hx.
  destruct complement; [|injection Hx as <-; by split].
  destruct (memset0 (bits (st_scratch est)) 0 SLOTS) as [zeroed|] eqn:Ez;
    [|done].
  apply memset0_words in Ez as [_ Hzlen]; [|done].
  cbn [of_option mbind res_bind] in Hx.
  destruct (for_each _ zeroed _) as [union| |] eqn:Eu; [|done..].
  assert (Hulen : Z.of_nat (length union) = SLOTS).
  { revert Eu. apply (for_each_ind (λ u, Z.of_nat (length u) = SLOTS));
      [|done].
    intros w u u' _ Hu Hset.
    destruct (setunioninplace u (bits w) SLOTS) as [u''|] eqn:Eset; [|done].
    apply setunioninplace_length in Eset. injection Hset as <-. lia. }
  cbn [of_option mbind res_bind] in Hx.
  destruct (extractcompbitsets _ _ _ _ _ _ _ _ _) as [[inter o]|] eqn:Ec;
    [|done].
  apply extractcompbitsets_valid in Ec as [Hres2 _]; [|done..].
  cbn [of_option mbind res_bind] in Hx. injection Hx as <-. by split.
Qed.

End complement.

End extracted_valid.

Section driver_valid.
Context (junk_at : Z → nat → Z) (Hjunk : ∀ i k, 0 ≤ junk_at i k < 2 ^ 64).
Context (iter_ints : gset Z → list Z) (iter_bitsets : gset Bitset → list Bitset).
Context (Hbitsets : ∀ s, iter_bitsets s ≡ₚ elements s).
Context {L Sent K : Type} `{Countable K}.
Context (fragkey : list Node → Bitset → list L → Sent → bool → res K).
Context (trees : Ctrees) (Hwf : corpus_wf trees).
Context (SLOTS : Z) (HSLOTS : 0 ≤ SLOTS).

Local Abbreviation reprs_valid := (λ fragments : gmap K fragval,
  ∀ k w, fragments !! k = Some (Repr w) → valid_frag trees SLOTS w).

Local Abbreviation pair_valid := (λ pst : PairState,
  Z.of_nat (length (bits (pr_scratch pst))) = SLOTS ∧
  ∀ w, w ∈ pr_inter pst → valid_frag trees SLOTS w).

Lemma collectfragments_valid fragments inter anodes asent labels
    discontinuous approx fragments' :
  collectfragments iter_bitsets fragkey fragments inter anodes asent labels
    discontinuous approx = Ok fragments' →
  reprs_valid fragments → (∀ w, w ∈ inter → valid_frag trees SLOTS w) →
  reprs_valid fragments'.
Proof.
  unfold collectfragments. intros Hc Hfr Hinter. revert Hc.
  apply (for_each_ind (λ f : gmap K fragval, reprs_valid f)); [|done].
  intros w f f' Hw Hf Hbody.
  assert (Hv : valid_frag trees SLOTS w).
  { apply Hinter. rewrite Hbitsets in Hw. by apply elem_of_elements in Hw. }
  destruct (fragkey _ _ _ _ _) as [frag| |]; [|done..].
  cbn [mbind res_bind] in Hbody. destruct approx.
  - destruct (f !! frag) as [[c|w']|] eqn:Ef; [|done|]; injection Hbody as <-;
      intros k v Hk; (destruct (decide (k = frag)) as [->|Hne];
        [by rewrite lookup_insert_eq in Hk
        |rewrite lookup_insert_ne in Hk by done; by eapply Hf]).
  - destruct (f !! frag) as [v|] eqn:Ef; injection Hbody as <-; [done|].
    intros k v Hk. destruct (decide (k = frag)) as [->|Hne].
    + rewrite lookup_insert_eq in Hk. by simplify_eq.
    + rewrite lookup_insert_ne in Hk by done. by eapply Hf.
Qed.

Lemma extractfragments_body_valid sents1 labels sents2_none approx
    discontinuous complement twoterms adjacent cw lex minterms n st st' :
  extractfragments_body junk_at iter_ints iter_bitsets fragkey trees sents1
    labels trees sents2_none approx discontinuous complement twoterms adjacent
    cw lex minterms SLOTS n st = Ok st' →
  n < ct_len trees →
  reprs_valid (dr_fragments st) → pair_valid (dr_pair st) →
  reprs_valid (dr_fragments st') ∧ pair_valid (dr_pair st').
Proof.
  unfold extractfragments_body. intros Hb Hn Hfr Hpair.
  destruct (load (ct_trees trees) n) as [a|] eqn:Ea; [|done].
  assert (Hn' : 0 ≤ n < ct_len trees).
  { split; [|done]. by apply load_Some in Ea as [? _]. }
  cbn [of_option mbind res_bind] in Hb.
  destruct (py_index sents1 n) as [asent| |]; [|done..].
  cbn [mbind res_bind] in Hb.
  assert (Hstep : ∀ m pst pst',
    extractfrompair junk_at iter_bitsets a (slice (ct_nodes trees) a) trees n m
      complement minterms SLOTS pst = Ok pst' →
    pair_valid pst → pair_valid pst').
  { intros m pst pst' Hx [Hl Hr].
    by eapply (extractfrompair_valid trees SLOTS n a Hwf Hn' Ea junk_at Hjunk
                 HSLOTS). }
  match type of Hb with
  | (?pairs ≫= _) = _ =>
    assert (Hpairs : ∀ pst start, pairs = Ok (pst, start) → pair_valid pst)
  end.
  { intros pst start Hp. destruct adjacent; [|destruct twoterms].
    - case_decide; [|by simplify_eq].
      destruct (extractfrompair _ _ _ _ _ _ _ _ _ _ _) as [pst1| |] eqn:Ex;
        [|done..].
      cbn [mbind res_bind] in Hp. injection Hp as <- <-. by eapply Hstep.
    - destruct (twoterminals _ _ _ _ _) as [cands| |]; [|done..].
      cbn [mbind res_bind] in Hp.
      destruct (for_each _ _ _) as [pst1| |] eqn:Ef; [|done..].
      cbn [mbind res_bind] in Hp. injection Hp as <- <-.
      revert Ef. apply (for_each_ind (λ p : PairState, pair_valid p)); [|done].
      intros m t t' _ Ht Hm. case_decide; [by simplify_eq|].
      case_decide; [done|]. by eapply Hstep.
    - destruct (for_each _ _ _) as [pst1| |] eqn:Ef; [|done..].
      cbn [mbind res_bind] in Hp. injection Hp as <- <-.
      revert Ef. apply (for_each_ind (λ p : PairState, pair_valid p)); [|done].
      intros m t t' _ Ht Hm. by eapply Hstep. }
  match type of Hb with
  | (?pairs ≫= _) = _ => destruct pairs as [[pst start]| |]; [|done..]
  end.
  destruct (Hpairs pst start eq_refl) as [Hl Hr].
  cbn [mbind res_bind] in Hb.
  destruct (collectfragments _ _ _ _ _ _ _ _ _) as [fragments| |] eqn:Ec;
    [|done..].
  cbn [mbind res_bind] in Hb. injection Hb as <-. simpl.
  split_and!; [|done|set_solver].
  by eapply collectfragments_valid.
Qed.

Lemma extractfragments_valid (junk_word : nat → Z)
    (contentword lexical : L → bool) sents1 offset end_ labels sents2
    approx discontinuous complement twoterms adjacent fragments :
  SLOTS = BITNSLOTS (ct_maxnodes trees + 1) →
  extractfragments junk_word junk_at iter_ints iter_bitsets fragkey contentword
    lexical trees sents1 offset end_ labels None sents2 approx discontinuous
    complement twoterms adjacent = Ok fragments →
  reprs_valid fragments.
Proof.
  unfold extractfragments. cbn [default]. rewrite Z.max_id. intros <- Hx.
  destruct (for_each _ _ _) as [st| |] eqn:Ef; [|done..].
  cbn [mbind res_bind] in Hx. injection Hx as <-.
  revert Ef.
  apply (for_each_ind (λ st : DriverState,
           reprs_valid (dr_fragments st) ∧ pair_valid (dr_pair st))).
  - intros n t t' Hn [Hfr Hpair] Hbody.
    eapply extractfragments_body_valid; [done| |done..].
    unfold worklist in Hn. apply elem_of_range in Hn. lia.
  - simpl. split_and!; [done| |set_solver].
    rewrite grow_length. lia.
Qed.

End driver_valid.

(** C4.  On a treebank that satisfies the invariants of ingestion
    ([corpus_wf]) and carries the production index built by [indextrees],
    every bitset that [extractfragments] (with the second treebank left out,
    so that [trees2 = trees1], and [approx] off, so that the dict holds
    bitsets) stores in the dict it returns is counted at least once by
    [exactcounts] over the same treebank: [exactcounts] returns, with one
    count for each bitset, and every count is at least 1. *)
Theorem exactcounts_extracted_at_least_one
    (junk_word : nat → Z) (junk_at : Z → nat → Z)
    (iter_ints : gset Z → list Z) (iter_bitsets : gset Bitset → list Bitset)
    {L Sent K : Type} `{Countable K}
    (fragkey : list Node → Bitset → list L → Sent → bool → res K)
    (contentword lexical : L → bool)
    (trees0 trees : Ctrees) (numprods : nat) (sents1 : list Sent)
    (offset end_ : Z) (labels : list L) (sents2 : option (list Sent))
    (approx discontinuous complement twoterms adjacent : bool)
    (fragments : gmap K fragval) (bitsets : list Bitset) :
  indextrees trees0 numprods = Ok trees →
  corpus_wf trees →
  (∀ i k, 0 ≤ junk_at i k < 2 ^ 64) →
  (∀ s, iter_ints s ≡ₚ elements s) →
  (∀ s, iter_bitsets s ≡ₚ elements s) →
  extractfragments junk_word junk_at iter_ints iter_bitsets fragkey contentword
    lexical trees sents1 offset end_ labels None sents2 approx discontinuous
    complement twoterms adjacent = Ok fragments →
  Forall (λ w, ∃ k, fragments !! k = Some (Repr w)) bitsets →
  ∃ counts, exactcounts iter_ints trees trees bitsets = Ok counts ∧
            length counts = length bitsets ∧
            Forall (λ c, 1 ≤ c) counts.
Proof.
  intros Hindex Hwf Hjunk Hints Hbitsets Hx Hemitted.
  unfold indextrees in Hindex.
  destruct (indextrees_result trees0 numprods) as [index| |] eqn:Ei;
    [|done..].
  cbn [mbind res_bind] in Hindex. injection Hindex as <-.
  pose proof (indextrees_in_range _ _ _ Ei) as Hrange.
  pose proof (indextrees_complete _ _ _ Ei) as Hcomplete.
  set (trees := mkCtrees _ _ _ _ _ _ _ _) in *.
  set (SLOTS := BITNSLOTS (ct_maxnodes trees + 1)).
  destruct (BITNSLOTS_room (ct_maxnodes trees)) as [Hs0 _];
    [apply (cw_maxnodes _ Hwf)|].
  destruct (exactcounts_at_least_one iter_ints Hints trees index Hwf eq_refl
              Hcomplete Hrange SLOTS eq_refl bitsets) as (counts & E & Hl & Hc).
  - eapply Forall_impl; [exact Hemitted|]. intros w [k Hk]. simpl in Hk.
    eapply (extractfragments_valid junk_at Hjunk iter_ints iter_bitsets
              Hbitsets fragkey trees Hwf SLOTS ltac:(fold SLOTS; lia));
      [done|exact Hx|exact Hk].
  - exists counts. split_and!; [done..|].
    eapply Forall_impl; [exact Hc|]. simpl. lia.
Qed.

Lemma ex_indexed_wf : corpus_wf ex_indexed.
Proof.
  assert (Hload : ∀ n t, 0 ≤ n < 2 → load (ct_trees ex_indexed) n = Some t →
            slice (ct_nodes ex_indexed) t = ex_anodes ∨
            slice (ct_nodes ex_indexed) t = slice (ct_nodes ex_corpus) ex_b).
  { intros n t Hn Et.
    assert (n = 0 ∨ n = 1) as [-> | ->] by lia; injection Et as <-;
      [by left|by right]. }
  split.
  - simpl. lia.
  - simpl. lia.
  - intros n Hn. assert (n = 0 ∨ n = 1) as [-> | ->] by (simpl in Hn; lia).
    + exists ex_a. split_and!; [done|simpl; lia|done|simpl; lia..| |].
      * repeat constructor; simpl; lia.
      * exists ex_rank_a. apply ex_ranked_a.
    + exists ex_b. split_and!; [done|simpl; lia|done|simpl; lia..| |].
      * repeat constructor; simpl; lia.
      * exists ex_rank_b. apply ex_ranked_b.
  - intros n1 n2 t1 t2 Hn1 Hn2 E1 E2.
    destruct (Hload n1 t1 Hn1 E1) as [-> | ->];
      destruct (Hload n2 t2 Hn2 E2) as [-> | ->];
      rewrite ?ex_anodes_eq, ?ex_bnodes_eq; intros i j an bn Ha Hb;
      load_cases Ha; load_cases Hb; simpl; intros; lia.
  - vm_compute. reflexivity.
Qed.

Lemma exactcounts_extracted_at_least_one_witness :
  ∃ counts,
    exactcounts elements ex_indexed ex_indexed [mkBitset [5] 0 2] = Ok counts ∧
    length counts = 1%nat ∧ Forall (λ c, 1 ≤ c) counts.
Proof.
  apply (exactcounts_extracted_at_least_one (λ _, 7) (λ _ _, 7) elements
           elements ex_fragkey (λ _, true) (λ _, true) ex_corpus ex_indexed 4
           [(); ()] 0 0 [] None false false false false false
           {[2 := Repr (mkBitset [5] 0 2)]} [mkBitset [5] 0 2]).
  - vm_compute. reflexivity.
  - apply ex_indexed_wf.
  - intros. lia.
  - done.
  - done.
  - vm_compute. reflexivity.
  - constructor; [|constructor]. exists 2. reflexivity.
Defined.

Example exactcounts_example :
  exactcounts elements ex_indexed ex_indexed [mkBitset [5] 0 2] = Ok [2].
Proof. vm_compute. reflexivity. Qed.

(** * Renumbering the leaves of a fragment *)

(** ** Decimal numerals *)

Lemma digits_all d : Forall (λ c, is_digit c = true) (digits d).
Proof. induction d; simpl; constructor; done. Qed.

Lemma dec_digits m : Forall (λ c, is_digit c = true) (dec m).
Proof. apply digits_all. Qed.

Lemma dec_nonempty m : dec m ≠ [].
Proof.
  unfold dec. destruct (Z.to_N m) as [|p] eqn:E; [done|].
  pose proof (Unsigned.of_to (N.pos p)) as Hof.
  destruct (N.to_uint (N.pos p)); done.
Qed.

Lemma numeral_digits d : numeral (digits d) = Some d.
Proof. induction d; simpl; [done|by rewrite IHd..]. Qed.

Lemma py_int_dec m : 0 ≤ m → py_int (dec m) = Ok m.
Proof.
  intros Hm. unfold py_int. pose proof (dec_nonempty m) as Hne.
  destruct (dec m) eqn:E; [done|]. rewrite <- E. unfold dec.
  rewrite numeral_digits. simpl. rewrite Unsigned.of_to. f_equal. lia.
Qed.

Lemma is_digit_word c : is_digit c = true → is_word c = true.
Proof.
  unfold is_digit, is_word. intros H%bool_decide_eq_true.
  apply bool_decide_eq_true. by left.
Qed.

Lemma is_digit_not c : is_digit c = true →
  c ≠ " "%char ∧ c ≠ "("%char ∧ c ≠ ")"%char ∧ c ≠ ":"%char.
Proof. intros H. by split_and!; intros ->. Qed.

Lemma last_digit_word d :
  d ≠ [] → Forall (λ c, is_digit c = true) d → word_at (last d) = true.
Proof.
  intros Hne Hd. destruct (last d) as [c|] eqn:E.
  - simpl. apply is_digit_word.
    apply (proj1 (Forall_forall _ _) Hd). apply last_Some in E as [l' ->].
    set_solver.
  - by apply last_None in E.
Qed.

(** The first byte that is not in a class ends the run of bytes of the
    class. *)
Lemma run_split (P : ascii → Prop) (v w d s : bytes) (y : ascii) :
  Forall P v → Forall P d → ¬ P y → v ++ w = d ++ y :: s →
  ∃ d', d = v ++ d' ∧ w = d' ++ y :: s.
Proof.
  revert d. induction v as [|x v IH]; intros d Hv Hd Hy E; simpl in E.
  - by exists d.
  - apply Forall_cons in Hv as [Hx Hv]. destruct d as [|x' d]; simpl in E.
    + simplify_eq. done.
    + apply Forall_cons in Hd as [_ Hd]. simplify_eq.
      destruct (IH d Hv Hd Hy H0) as (d' & -> & ->). by exists d'.
Qed.

(** ** The matcher *)

Section matcher.
Context {R : Type}.
Implicit Types (k : option ascii → bytes → list bytes → option R).

Lemma rep1_sound p s caps k r :
  rep1 p s caps k = Some r →
  ∃ v w, s = v ++ w ∧ v ≠ [] ∧ Forall (λ c, p c = true) v ∧
         k (last v) w caps = Some r.
Proof.
  induction s as [|x s IH]; simpl; [done|].
  destruct (p x) eqn:Hx; [|done].
  destruct (rep1 p s caps k) as [r'|] eqn:E.
  - intros [= ->]. destruct (IH eq_refl) as (v & w & -> & Hne & Hv & Hk).
    exists (x :: v), w. split_and!; [done|done|by constructor|].
    destruct v; [done|]. done.
  - intros Hk. exists [x], s. split_and!; [done|done|by constructor; [|constructor]|done].
Qed.

Lemma rep1_app p u w caps k r :
  u ≠ [] → Forall (λ c, p c = true) u →
  rep1 p w caps k = None → k (last u) w caps = Some r →
  rep1 p (u ++ w) caps k = Some r.
Proof.
  intros Hne Hu Hw Hk. induction u as [|x u IH]; [done|].
  apply Forall_cons in Hu as [Hx Hu]. simpl. rewrite Hx.
  destruct u as [|y u].
  - simpl. by rewrite Hw.
  - rewrite IH; [done..|]. done.
Qed.

Lemma rep1_stop p s caps k :
  match s with x :: _ => p x = false | [] => True end →
  rep1 p s caps k = None.
Proof. destruct s as [|x s]; simpl; [done|]. by intros ->. Qed.

End matcher.

(** ** Scanning for matches *)

(** A pattern that starts with a literal byte does not look at the byte
    before the match. *)
Lemma match_at_prev c r prev prev' s :
  match_at (Cat (Lit c) r) prev s = match_at (Cat (Lit c) r) prev' s.
Proof. by destruct s. Qed.

Lemma match_at_other c r prev x s :
  x ≠ c → match_at (Cat (Lit c) r) prev (x :: s) = None.
Proof. intros Hx. unfold match_at. simpl. by rewrite decide_False. Qed.

Lemma match_at_nil c r prev : match_at (Cat (Lit c) r) prev [] = None.
Proof. done. Qed.

Section scan.
Context (c0 : ascii) (r0 : regex).
Local Abbreviation r := (Cat (Lit c0) r0).

Lemma findall_prev prev prev' s skip :
  findall r prev s skip = findall r prev' s skip.
Proof.
  destruct s as [|x s]; [done|]. destruct skip; [|done]. simpl.
  by rewrite (match_at_prev c0 r0 prev prev').
Qed.

Lemma findall_skip m : ∀ prev prev' rest,
  findall r prev (m ++ rest) (length m) = findall r prev' rest 0.
Proof.
  induction m as [|x m IH]; intros prev prev' rest; simpl.
  - apply findall_prev.
  - apply IH.
Qed.

Lemma findall_match prev prev' m rest caps :
  m ≠ [] → match_at r prev (m ++ rest) = Some (length m, caps) →
  findall r prev (m ++ rest) 0 = (caps ::.) <$> findall r prev' rest 0.
Proof.
  intros Hne Hm. destruct m as [|x m]; [done|].
  cbn [findall app]. cbn [app] in Hm. rewrite Hm. cbn [length].
  by rewrite (findall_skip m (Some x) prev').
Qed.

Lemma findall_miss prev prev' x s :
  match_at r prev (x :: s) = None →
  findall r prev (x :: s) 0 = findall r prev' s 0.
Proof. intros Hm. cbn [findall]. rewrite Hm. apply findall_prev. Qed.

Lemma findall_others prev prev' u s :
  Forall (λ x, x ≠ c0) u →
  findall r prev (u ++ s) 0 = findall r prev' s 0.
Proof.
  intros Hu. revert prev. induction u as [|x u IH]; intros prev; simpl.
  - apply findall_prev.
  - apply Forall_cons in Hu as [Hx Hu].
    rewrite match_at_other by done. by apply IH.
Qed.

Lemma findall_nil prev : findall r prev [] 0 = Some [].
Proof. done. Qed.

Context (repl : list bytes → res bytes).

Lemma sub_prev prev prev' s skip :
  sub r repl prev s skip = sub r repl prev' s skip.
Proof.
  destruct s as [|x s]; [done|]. destruct skip; [|done]. simpl.
  by rewrite (match_at_prev c0 r0 prev prev').
Qed.

Lemma sub_skip m : ∀ prev prev' rest,
  sub r repl prev (m ++ rest) (length m) = sub r repl prev' rest 0.
Proof.
  induction m as [|x m IH]; intros prev prev' rest; simpl.
  - apply sub_prev.
  - apply IH.
Qed.

Lemma sub_match prev prev' m rest caps :
  m ≠ [] → match_at r prev (m ++ rest) = Some (length m, caps) →
  sub r repl prev (m ++ rest) 0
  = (new ← repl caps; out ← sub r repl prev' rest 0; Ok (new ++ out)).
Proof.
  intros Hne Hm. destruct m as [|x m]; [done|].
  cbn [sub app]. cbn [app] in Hm. rewrite Hm. cbn [length].
  by rewrite (sub_skip m (Some x) prev').
Qed.

Lemma sub_miss prev prev' x s :
  match_at r prev (x :: s) = None →
  sub r repl prev (x :: s) 0
  = (out ← sub r repl prev' s 0; Ok (x :: out)).
Proof. intros Hm. cbn [sub]. rewrite Hm. by rewrite (sub_prev _ prev'). Qed.

Lemma sub_others prev prev' u s :
  Forall (λ x, x ≠ c0) u →
  sub r repl prev (u ++ s) 0
  = (out ← sub r repl prev' s 0; Ok (u ++ out)).
Proof.
  intros Hu. revert prev. induction u as [|x u IH]; intros prev; simpl.
  - rewrite (sub_prev _ prev'). by destruct (sub _ _ _ _ _).
  - apply Forall_cons in Hu as [Hx Hu].
    rewrite match_at_other by done. rewrite (IH Hu).
    by destruct (sub _ _ _ _ _).
Qed.

End scan.

(** ** Where [TERMINDICESRE] matches *)

Lemma quiet_split s : ∀ v w,
  quiet s → s = v ++ w → Forall (λ c, c ≠ "("%char) v → ¬ term_form w.
Proof.
  induction s as [|x s IH]; intros v w [Hnot Hq] E Hv.
  - symmetry in E. apply app_eq_nil in E as [-> ->]. done.
  - destruct v as [|y v]; simpl in E; [by subst w|].
    simplify_eq. apply Forall_cons in Hv as [Hy Hv].
    destruct Hq as [?|Hq]; [done|]. by eapply IH.
Qed.

Lemma term_form_head x s : term_form (x :: s) → x = " "%char.
Proof. intros (d & rest & E & _). by simplify_eq. Qed.

Lemma quiet_nil : quiet [].
Proof. split; [|done]. intros (d & rest & E & _). done. Qed.

Lemma quiet_cons x s :
  x ≠ " "%char → (x = "("%char ∨ quiet s) → quiet (x :: s).
Proof. intros Hx Hs. split; [|done]. by intros ?%term_form_head. Qed.

Lemma quiet_app u s :
  Forall (λ c, c ≠ " "%char) u → quiet s → quiet (u ++ s).
Proof.
  induction 1 as [|x u Hx Hu IH]; intros Hs; [done|].
  simpl. apply quiet_cons; [done|]. right. by apply IH.
Qed.

Lemma quiet_space_paren s : quiet (" "%char :: "("%char :: s).
Proof.
  split.
  - intros (d & rest & E & Hne & Hd). destruct d as [|c d]; [done|].
    apply Forall_cons in Hd as [Hc _]. simpl in E. injection E as <- _.
    by vm_compute in Hc.
  - right. apply quiet_cons; [done|by left].
Qed.

Lemma quiet_interval a s :
  quiet s → quiet (" "%char :: dec a ++ ":"%char :: s).
Proof.
  intros Hs. split.
  - intros (d & rest & E & Hne & Hd). simplify_eq.
    destruct (run_split (λ c, is_digit c = true) d (")"%char :: rest) (dec a)
                s ":"%char) as (d' & Ed & Er); [done|apply dec_digits|done|done|].
    destruct d' as [|c d']; [by simplify_eq|].
    simpl in Er. injection Er as <- _.
    pose proof (dec_digits a) as Ha. rewrite Ed in Ha.
    apply Forall_app in Ha as [_ Ha]. apply Forall_cons in Ha as [Hc _].
    by vm_compute in Hc.
  - right. apply quiet_app.
    + eapply Forall_impl; [apply dec_digits|]. intros c Hc.
      by apply is_digit_not in Hc as (? & _).
    + apply quiet_cons; [done|by right].
Qed.

Lemma digits_not (P : ascii → Prop) m :
  (∀ c, is_digit c = true → P c) → Forall P (dec m).
Proof. intros HP. eapply Forall_impl; [apply dec_digits|done]. Qed.

Lemma term_tail_sound {R} prev w caps
    (k : option ascii → bytes → list bytes → option R) r :
  rmatch (Cat (Lit " ") (Cat (Group (Rep1 is_digit)) (Lit ")"))) prev w caps k
    = Some r → term_form w.
Proof.
  destruct w as [|x w]; [done|]. cbn [rmatch]. case_decide as Hx; [|done].
  subst x. intros (v & w' & -> & Hne & Hv & Hk)%rep1_sound.
  destruct w' as [|y w']; [done|]. case_decide as Hy; [|done]. subst y.
  by exists v, w'.
Qed.

Lemma TERMINDICESRE_unfold prev s :
  match_at TERMINDICESRE prev ("("%char :: s)
  = rep1 (λ c, negb (bool_decide (c = "("%char))) s []
      (λ prev' s' caps',
         rmatch (Cat (Lit " ") (Cat (Group (Rep1 is_digit)) (Lit ")")))
           prev' s' caps'
           (λ _ s'' caps,
              Some ((length ("("%char :: s) - length s'')%nat, caps))).
Proof. reflexivity. Qed.

Lemma not_paren_class (v : bytes) :
  Forall (λ c, negb (bool_decide (c = "("%char)) = true) v ↔
  Forall (λ c, c ≠ "("%char) v.
Proof.
  apply Forall_iff. intros c.
  by rewrite negb_true_iff, bool_decide_eq_false.
Qed.

Lemma TERMINDICESRE_quiet prev s :
  quiet s → match_at TERMINDICESRE prev ("("%char :: s) = None.
Proof.
  intros Hq. rewrite TERMINDICESRE_unfold.
  match goal with |- ?m = None => destruct m as [r|] eqn:E; [|done] end.
  exfalso. apply rep1_sound in E as (v & w & -> & Hne & Hv & Hk).
  apply term_tail_sound in Hk. revert Hk. eapply quiet_split; [done..|].
  by apply not_paren_class.
Qed.

Lemma TERMINDICESRE_terminal prev l k rest :
  label_ok l → quiet rest →
  match_at TERMINDICESRE prev
    (("("%char :: l ++ " "%char :: dec k ++ [")"%char]) ++ rest)
  = Some (length ("("%char :: l ++ " "%char :: dec k ++ [")"%char]), [dec k]).
Proof.
  intros [Hne Hl] Hq. cbn [app]. rewrite TERMINDICESRE_unfold.
  repeat (rewrite <- app_assoc; cbn [app]).
  assert (Hrest : quiet (dec k ++ ")"%char :: rest)).
  { apply quiet_app; [|apply quiet_cons; [done|by right]].
    apply digits_not. intros c Hc. by apply is_digit_not in Hc as (? & _). }
  apply rep1_app; [done| | |].
  - apply not_paren_class. eapply Forall_impl; [exact Hl|].
    by intros c (_ & Hc & _).
  - match goal with |- ?m = None => destruct m as [r|] eqn:E; [|done] end.
    exfalso. apply rep1_sound in E as (v & w & E & Hv0 & Hv & Hk).
    apply term_tail_sound in Hk. destruct v as [|x v]; [done|].
    simpl in E. injection E as <- E. apply Forall_cons in Hv as [_ Hv].
    revert Hk. eapply quiet_split; [exact Hrest|done|].
    by apply not_paren_class.
  - cbn [rmatch]. rewrite decide_True by done.
    apply rep1_app; [apply dec_nonempty|apply dec_digits|done|].
    rewrite decide_True by done. f_equal. f_equal.
    + cbn [length]. rewrite !length_app. cbn [length].
      rewrite !length_app. cbn [length]. lia.
    + cbn [app]. f_equal.
      replace (length (dec k ++ ")"%char :: rest) - length (")"%char :: rest))%nat
        with (length (dec k)) by (rewrite length_app; simpl; lia).
      by rewrite take_app_length.
Qed.

Lemma render_with_head fleaf t : ∃ s, render_with fleaf t = "("%char :: s.
Proof. destruct t; simpl; eauto. Qed.

Lemma ivals_quiet ivals s :
  quiet s → quiet (ivals_text old_leaf ivals ++ s).
Proof.
  intros Hs. induction ivals as [|[a b'] ivals IH]; [done|].
  unfold ivals_text. cbn. repeat (rewrite <- app_assoc; cbn [app]).
  apply quiet_interval. apply quiet_app; [|exact IH].
  apply digits_not. intros c Hc. by apply is_digit_not in Hc as (? & _).
Qed.

Lemma ivals_chars (P : ascii → Prop) ivals :
  P " "%char → P ":"%char → (∀ c, is_digit c = true → P c) →
  Forall P (ivals_text old_leaf ivals).
Proof.
  intros Hsp Hcol Hd. induction ivals as [|[a b'] ivals IH]; [done|].
  unfold ivals_text. cbn. constructor; [done|].
  rewrite <- app_assoc. apply Forall_app. split; [by apply digits_not|].
  cbn. constructor; [done|]. apply Forall_app. split; [by apply digits_not|done].
Qed.

Lemma fmap_app_compose {A} (a b' : list A) (x : option (list A)) :
  (a ++.) <$> ((b' ++.) <$> x) = ((a ++ b') ++.) <$> x.
Proof. destruct x; simpl; [|done]. by rewrite app_assoc. Qed.

Lemma label_chars (P : ascii → Prop) l :
  label_ok l →
  (∀ c, c ≠ " "%char → c ≠ "("%char → c ≠ ")"%char → P c) → Forall P l.
Proof.
  intros [_ Hl] HP. eapply Forall_impl; [exact Hl|].
  intros c (? & ? & ?). by apply HP.
Qed.

Lemma render_Term l k rest :
  render_with old_leaf (Term l k) ++ rest
  = ("("%char :: l ++ " "%char :: dec k ++ [")"%char]) ++ rest.
Proof. simpl. unfold old_leaf. simpl. by rewrite app_nil_r. Qed.

Lemma render_Term_with fleaf l k rest :
  render_with fleaf (Term l k) ++ rest
  = "("%char :: l ++ fleaf (mkLeaf k k true) ++ ")"%char :: rest.
Proof. simpl. by rewrite <- !app_assoc. Qed.

Lemma render_Front fleaf l ivals rest :
  render_with fleaf (Front l ivals) ++ rest
  = "("%char :: l ++ ivals_text fleaf ivals ++ ")"%char :: rest.
Proof.
  simpl. fold (ivals_text fleaf ivals). by rewrite <- !app_assoc.
Qed.

Lemma render_Unary fleaf l c rest :
  render_with fleaf (Unary l c) ++ rest
  = "("%char :: l ++ " "%char :: render_with fleaf c ++ ")"%char :: rest.
Proof. simpl. rewrite <- !app_assoc. simpl. by rewrite <- !app_assoc. Qed.

Lemma render_Binary fleaf l c1 c2 rest :
  render_with fleaf (Binary l c1 c2) ++ rest
  = "("%char :: l ++ " "%char :: render_with fleaf c1
      ++ " "%char :: render_with fleaf c2 ++ ")"%char :: rest.
Proof.
  simpl. rewrite <- !app_assoc. simpl. rewrite <- !app_assoc. simpl.
  by rewrite <- !app_assoc.
Qed.

(** [TERMINDICESRE.findall] returns the indices of the terminals. *)
Lemma findall_terminals t : ∀ prev prev' rest,
  labels_ok t → quiet rest →
  findall TERMINDICESRE prev (render_with old_leaf t ++ rest) 0
  = (((λ k, [dec k]) <$> terms_of t) ++.)
      <$> findall TERMINDICESRE prev' rest 0.
Proof.
  unfold TERMINDICESRE.
  induction t as [l k|l ivals|l c IH|l c1 IH1 c2 IH2];
    intros prev prev' rest Hlab Hq; cbn [terms_of labels_ok] in *.
  - rewrite render_Term.
    etrans; [apply (findall_match _ _ prev prev'
                      ("("%char :: l ++ " "%char :: dec k ++ [")"%char]) rest
                      [dec k]); [done|]|].
    + by apply TERMINDICESRE_terminal.
    + done.
  - rewrite render_Front.
    etrans; [apply (findall_miss _ _ prev prev)|].
    { apply TERMINDICESRE_quiet. apply quiet_app; [by apply label_chars|].
      apply ivals_quiet. apply quiet_cons; [done|by right]. }
    etrans; [apply (findall_others _ _ prev prev); by apply label_chars|].
    etrans; [apply (findall_others _ _ prev prev);
             apply ivals_chars; [done|done|]|].
    { intros c' Hc. by apply is_digit_not in Hc as (_ & ? & _). }
    etrans; [apply (findall_miss _ _ prev prev'); by apply match_at_other|].
    by destruct (findall _ _ _ _).
  - destruct Hlab as [Hl Hc]. rewrite render_Unary.
    etrans; [apply (findall_miss _ _ prev prev)|].
    { apply TERMINDICESRE_quiet. apply quiet_app; [by apply label_chars|].
      destruct (render_with_head old_leaf c) as [s ->].
      apply quiet_space_paren. }
    etrans; [apply (findall_others _ _ prev prev); by apply label_chars|].
    etrans; [apply (findall_miss _ _ prev prev); by apply match_at_other|].
    etrans; [apply (IH prev prev (")"%char :: rest) Hc)|].
    { apply quiet_cons; [done|by right]. }
    f_equal. apply (findall_miss _ _ prev prev'). by apply match_at_other.
  - destruct Hlab as (Hl & Hc1 & Hc2). rewrite render_Binary.
    etrans; [apply (findall_miss _ _ prev prev)|].
    { apply TERMINDICESRE_quiet. apply quiet_app; [by apply label_chars|].
      destruct (render_with_head old_leaf c1) as [s ->].
      apply quiet_space_paren. }
    etrans; [apply (findall_others _ _ prev prev); by apply label_chars|].
    etrans; [apply (findall_miss _ _ prev prev); by apply match_at_other|].
    etrans; [apply (IH1 prev prev
                      (" "%char :: render_with old_leaf c2 ++ ")"%char :: rest)
                      Hc1)|].
    { destruct (render_with_head old_leaf c2) as [s ->].
      apply quiet_space_paren. }
    rewrite fmap_app, <- fmap_app_compose. f_equal.
    etrans; [apply (findall_miss _ _ prev prev); by apply match_at_other|].
    etrans; [apply (IH2 prev prev (")"%char :: rest) Hc2)|].
    { apply quiet_cons; [done|by right]. }
    f_equal. apply (findall_miss _ _ prev prev'). by apply match_at_other.
Qed.

(** ** Where [FRONTIERRE] matches *)

Lemma lit_sound {R} c r prev w caps
    (k : option ascii → bytes → list bytes → option R) x :
  rmatch (Cat (Lit c) r) prev w caps k = Some x → ∃ w', w = c :: w'.
Proof.
  destruct w as [|y w]; [done|]. cbn [rmatch]. case_decide; [|done].
  subst. eauto.
Qed.

Lemma is_word_digit c : is_word c = false → is_digit c = false.
Proof.
  intros Hw. destruct (is_digit c) eqn:Hd; [|done].
  apply is_digit_word in Hd. congruence.
Qed.

Lemma FRONTIERRE_unfold prev s :
  match_at FRONTIERRE prev (" "%char :: s)
  = rep1 is_digit s []
      (λ prev' s' caps',
         rmatch (Cat (Lit ":") (Cat (Group (Rep1 is_digit)) WordBoundary))
           prev' s' (caps' ++ [take (length s - length s') s])
           (λ _ s'' caps,
              Some ((length (" "%char :: s) - length s'')%nat, caps))).
Proof. reflexivity. Qed.

Lemma FRONTIERRE_paren prev s :
  match_at FRONTIERRE prev (" "%char :: "("%char :: s) = None.
Proof. rewrite FRONTIERRE_unfold. by apply rep1_stop. Qed.

(** After the digits of a number that is followed by a closing parenthesis
    there is no colon. *)
Lemma digits_then_colon {R} k rest r0 caps
    (K : option ascii → bytes → list bytes → option R) :
  rep1 is_digit (dec k ++ ")"%char :: rest) caps
    (λ prev' s' caps', rmatch (Cat (Lit ":") r0) prev' s' (caps' ++ [take
       (length (dec k ++ ")"%char :: rest) - length s')
       (dec k ++ ")"%char :: rest)]) K) = None.
Proof.
  match goal with |- ?m = None => destruct m as [r|] eqn:E; [|done] end.
  exfalso. apply rep1_sound in E as (v & w & E & Hne & Hv & Hk).
  apply lit_sound in Hk as [w' ->].
  destruct (run_split (λ c, is_digit c = true) v (":"%char :: w') (dec k)
              rest ")"%char) as (d' & Ed & Er); [done|apply dec_digits|done|done|].
  destruct d' as [|c d']; [by simplify_eq|].
  simpl in Er. injection Er as <- _.
  pose proof (dec_digits k) as Ha. rewrite Ed in Ha.
  apply Forall_app in Ha as [_ Ha]. apply Forall_cons in Ha as [Hc _].
  by vm_compute in Hc.
Qed.

Lemma FRONTIERRE_terminal prev k rest :
  match_at FRONTIERRE prev (" "%char :: dec k ++ ")"%char :: rest) = None.
Proof. rewrite FRONTIERRE_unfold. apply digits_then_colon. Qed.

Lemma take_digits (d : bytes) (s : bytes) :
  take (length (d ++ s) - length s) (d ++ s) = d.
Proof.
  replace (length (d ++ s) - length s)%nat with (length d)
    by (rewrite length_app; lia).
  by rewrite take_app_length.
Qed.

Lemma FRONTIERRE_interval prev a b' c rest :
  is_word c = false →
  match_at FRONTIERRE prev
    ((" "%char :: dec a ++ ":"%char :: dec b') ++ c :: rest)
  = Some (length (" "%char :: dec a ++ ":"%char :: dec b'), [dec a; dec b']).
Proof.
  intros Hc. cbn [app]. rewrite FRONTIERRE_unfold.
  repeat (rewrite <- app_assoc; cbn [app]).
  apply rep1_app; [apply dec_nonempty|apply dec_digits|done|].
  cbn [rmatch]. rewrite decide_True by done.
  apply rep1_app; [apply dec_nonempty|apply dec_digits| |].
  { apply rep1_stop. by apply is_word_digit. }
  cbn [head]. rewrite last_digit_word by (apply dec_nonempty || apply dec_digits).
  cbn [word_at]. rewrite Hc. cbn [xorb]. f_equal. f_equal.
  - cbn [length]. rewrite !length_app. cbn [length].
    rewrite !length_app. cbn [length]. lia.
  - rewrite (take_digits (dec a)), (take_digits (dec b')). done.
Qed.

Lemma ivals_text_cons fleaf a b' ivals :
  ivals_text fleaf ((a, b') :: ivals)
  = fleaf (mkLeaf a b' false) ++ ivals_text fleaf ivals.
Proof. done. Qed.

Lemma ivals_text_head ivals rest :
  ∃ c s, ivals_text old_leaf ivals ++ ")"%char :: rest = c :: s ∧
         is_word c = false.
Proof.
  destruct ivals as [|[a b'] ivals].
  - by exists ")"%char, rest.
  - eexists " "%char, _. split; [|done]. rewrite ivals_text_cons.
    unfold old_leaf. cbn. done.
Qed.

Lemma findall_intervals ivals : ∀ prev prev' rest,
  findall FRONTIERRE prev (ivals_text old_leaf ivals ++ ")"%char :: rest) 0
  = (((λ iv, [dec iv.1; dec iv.2]) <$> ivals) ++.)
      <$> findall FRONTIERRE prev' (")"%char :: rest) 0.
Proof.
  unfold FRONTIERRE.
  induction ivals as [|[a b'] ivals IH]; intros prev prev' rest.
  - cbn [ivals_text fmap list_fmap mjoin list_join app].
    rewrite (findall_prev _ _ prev prev').
    by destruct (findall _ _ _ _).
  - rewrite ivals_text_cons. unfold old_leaf at 1. cbn [lf_start lf_last lf_term].
    destruct (ivals_text_head ivals rest) as (c & s & Es & Hc).
    rewrite <- app_assoc. rewrite Es.
    etrans; [apply (findall_match _ _ prev prev
                      (" "%char :: dec a ++ ":"%char :: dec b') (c :: s)
                      [dec a; dec b']); [done|]|].
    { by apply FRONTIERRE_interval. }
    rewrite <- Es, (IH prev prev'). rewrite fmap_cons.
    by destruct (findall _ _ _ _).
Qed.

Lemma render_Term_flat l k rest :
  render_with old_leaf (Term l k) ++ rest
  = "("%char :: l ++ " "%char :: dec k ++ ")"%char :: rest.
Proof.
  rewrite render_Term. cbn [app]. by repeat (rewrite <- app_assoc; cbn [app]).
Qed.

Lemma digit_chars (P : ascii → Prop) m :
  P "0"%char → P "1"%char → P "2"%char → P "3"%char → P "4"%char →
  P "5"%char → P "6"%char → P "7"%char → P "8"%char → P "9"%char →
  Forall P (dec m).
Proof.
  intros. unfold dec. induction (N.to_uint (Z.to_N m)); simpl;
    constructor; done.
Qed.

(** [FRONTIERRE.findall] returns the intervals of the frontiers. *)
Lemma findall_frontiers t : ∀ prev prev' rest,
  labels_ok t →
  findall FRONTIERRE prev (render_with old_leaf t ++ rest) 0
  = (((λ iv, [dec iv.1; dec iv.2]) <$> fronts_of t) ++.)
      <$> findall FRONTIERRE prev' rest 0.
Proof.
  induction t as [l k|l ivals|l c IH|l c1 IH1 c2 IH2];
    intros prev prev' rest Hlab; cbn [fronts_of labels_ok] in *.
  - rewrite render_Term_flat. unfold FRONTIERRE.
    etrans; [apply (findall_miss _ _ prev prev); by apply match_at_other|].
    etrans; [apply (findall_others _ _ prev prev); by apply label_chars|].
    etrans; [apply (findall_miss _ _ prev prev); apply FRONTIERRE_terminal|].
    etrans; [apply (findall_others _ _ prev prev); by apply digit_chars|].
    etrans; [apply (findall_miss _ _ prev prev'); by apply match_at_other|].
    by destruct (findall _ _ _ _).
  - rewrite render_Front. unfold FRONTIERRE.
    etrans; [apply (findall_miss _ _ prev prev); by apply match_at_other|].
    etrans; [apply (findall_others _ _ prev prev); by apply label_chars|].
    etrans; [apply (findall_intervals ivals prev prev)|].
    f_equal. apply (findall_miss _ _ prev prev'). by apply match_at_other.
  - destruct Hlab as [Hl Hc]. rewrite render_Unary. unfold FRONTIERRE.
    etrans; [apply (findall_miss _ _ prev prev); by apply match_at_other|].
    etrans; [apply (findall_others _ _ prev prev); by apply label_chars|].
    etrans; [apply (findall_miss _ _ prev prev)|].
    { destruct (render_with_head old_leaf c) as [s ->].
      apply FRONTIERRE_paren. }
    etrans; [apply (IH prev prev (")"%char :: rest) Hc)|].
    f_equal. apply (findall_miss _ _ prev prev'). by apply match_at_other.
  - destruct Hlab as (Hl & Hc1 & Hc2). rewrite render_Binary. unfold FRONTIERRE.
    etrans; [apply (findall_miss _ _ prev prev); by apply match_at_other|].
    etrans; [apply (findall_others _ _ prev prev); by apply label_chars|].
    etrans; [apply (findall_miss _ _ prev prev)|].
    { destruct (render_with_head old_leaf c1) as [s ->].
      apply FRONTIERRE_paren. }
    etrans; [apply (IH1 prev prev
                      (" "%char :: render_with old_leaf c2 ++ ")"%char :: rest)
                      Hc1)|].
    rewrite fmap_app, <- fmap_app_compose. f_equal.
    etrans; [apply (findall_miss _ _ prev prev)|].
    { destruct (render_with_head old_leaf c2) as [s ->].
      apply FRONTIERRE_paren. }
    etrans; [apply (IH2 prev prev (")"%char :: rest) Hc2)|].
    f_equal. apply (findall_miss _ _ prev prev'). by apply match_at_other.
Qed.

(** ** Where [FRONTIERORTERMRE] matches *)

Lemma FRONTIERORTERMRE_unfold prev s :
  match_at FRONTIERORTERMRE prev (" "%char :: s)
  = rep1 is_digit s []
      (λ prev' s' caps',
         rmatch (Cat (Maybe (Cat (Lit ":") (Rep1 is_digit))) WordBoundary)
           prev' s' (caps' ++ [take (length s - length s') s])
           (λ _ s'' caps,
              Some ((length (" "%char :: s) - length s'')%nat, caps))).
Proof. reflexivity. Qed.

Lemma FRONTIERORTERMRE_paren prev s :
  match_at FRONTIERORTERMRE prev (" "%char :: "("%char :: s) = None.
Proof. rewrite FRONTIERORTERMRE_unfold. by apply rep1_stop. Qed.

Lemma FRONTIERORTERMRE_terminal prev k rest :
  match_at FRONTIERORTERMRE prev ((" "%char :: dec k) ++ ")"%char :: rest)
  = Some (length (" "%char :: dec k), [dec k]).
Proof.
  cbn [app]. rewrite FRONTIERORTERMRE_unfold.
  apply rep1_app; [apply dec_nonempty|apply dec_digits|done|].
  cbn [rmatch]. rewrite decide_False by done.
  cbn [head]. rewrite last_digit_word by (apply dec_nonempty || apply dec_digits).
  cbn. f_equal. f_equal.
  - rewrite !length_app. cbn [length]. lia.
  - by rewrite (take_digits (dec k)).
Qed.

Lemma FRONTIERORTERMRE_interval prev a b' c rest :
  is_word c = false →
  match_at FRONTIERORTERMRE prev
    ((" "%char :: dec a ++ ":"%char :: dec b') ++ c :: rest)
  = Some (length (" "%char :: dec a ++ ":"%char :: dec b'), [dec a]).
Proof.
  intros Hc. cbn [app]. rewrite FRONTIERORTERMRE_unfold.
  repeat (rewrite <- app_assoc; cbn [app]).
  apply rep1_app; [apply dec_nonempty|apply dec_digits|done|].
  cbn [rmatch]. rewrite decide_True by done.
  erewrite rep1_app; [reflexivity|apply dec_nonempty|apply dec_digits| |].
  { apply rep1_stop. by apply is_word_digit. }
  cbn [head]. rewrite last_digit_word by (apply dec_nonempty || apply dec_digits).
  cbn [word_at]. rewrite Hc. cbn [xorb]. f_equal. f_equal.
  - cbn [length]. rewrite !length_app. cbn [length].
    rewrite !length_app. cbn [length]. lia.
  - by rewrite (take_digits (dec a)).
Qed.

Section substitution.
Context (repl : list bytes → res bytes) (fnew : leaf → bytes).

Lemma sub_intervals ivals : ∀ prev prev' rest,
  (∀ iv, iv ∈ ivals → repl [dec iv.1] = Ok (fnew (mkLeaf iv.1 iv.2 false))) →
  sub FRONTIERORTERMRE repl prev
    (ivals_text old_leaf ivals ++ ")"%char :: rest) 0
  = (out ← sub FRONTIERORTERMRE repl prev' (")"%char :: rest) 0;
     Ok (ivals_text fnew ivals ++ out)).
Proof.
  unfold FRONTIERORTERMRE.
  induction ivals as [|[a b'] ivals IH]; intros prev prev' rest Hrepl.
  - cbn [ivals_text fmap list_fmap mjoin list_join app].
    rewrite (sub_prev _ _ _ prev prev').
    by destruct (sub _ _ _ _ _).
  - rewrite !ivals_text_cons. unfold old_leaf at 1.
    cbn [lf_start lf_last lf_term].
    destruct (ivals_text_head ivals rest) as (c & s & Es & Hc).
    rewrite <- app_assoc. rewrite Es.
    etrans; [apply (sub_match _ _ _ prev prev
                      (" "%char :: dec a ++ ":"%char :: dec b') (c :: s)
                      [dec a]); [done|]|].
    { by apply FRONTIERORTERMRE_interval. }
    pose proof (Hrepl (a, b') ltac:(by left)) as Hr. cbn [fst snd] in Hr.
    rewrite Hr. cbn [mbind res_bind].
    rewrite <- Es, (IH prev prev') by (intros iv Hiv; apply Hrepl; by right).
    destruct (sub _ _ _ _ _); cbn [mbind res_bind]; [|done..].
    by rewrite <- app_assoc.
Qed.

Lemma sub_step prev prev' x s :
  match_at FRONTIERORTERMRE prev (x :: s) = None →
  sub FRONTIERORTERMRE repl prev (x :: s) 0
  = (out ← sub FRONTIERORTERMRE repl prev' s 0; Ok (x :: out)).
Proof. apply sub_miss. Qed.

Lemma sub_stretch prev prev' u s :
  Forall (λ x, x ≠ " "%char) u →
  sub FRONTIERORTERMRE repl prev (u ++ s) 0
  = (out ← sub FRONTIERORTERMRE repl prev' s 0; Ok (u ++ out)).
Proof. apply sub_others. Qed.

Lemma sub_terminal prev prev' k rest :
  sub FRONTIERORTERMRE repl prev (" "%char :: dec k ++ ")"%char :: rest) 0
  = (new ← repl [dec k];
     out ← sub FRONTIERORTERMRE repl prev' (")"%char :: rest) 0;
     Ok (new ++ out)).
Proof.
  apply (sub_match _ _ repl prev prev' (" "%char :: dec k) (")"%char :: rest)
           [dec k]); [done|apply FRONTIERORTERMRE_terminal].
Qed.

(** [FRONTIERORTERMRE.sub] replaces the text of every leaf. *)
Lemma sub_leaves t : ∀ prev prev' rest,
  labels_ok t →
  (∀ x, x ∈ leaves_of t → repl [dec (lf_start x)] = Ok (fnew x)) →
  sub FRONTIERORTERMRE repl prev (render_with old_leaf t ++ rest) 0
  = (out ← sub FRONTIERORTERMRE repl prev' rest 0;
     Ok (render_with fnew t ++ out)).
Proof.
  induction t as [l k|l ivals|l c IH|l c1 IH1 c2 IH2];
    intros prev prev' rest Hlab Hrepl; cbn [leaves_of labels_ok] in *.
  - rewrite render_Term_flat.
    rewrite (sub_step prev prev) by (by apply match_at_other).
    rewrite (sub_stretch prev prev) by (by apply label_chars).
    rewrite (sub_terminal prev prev).
    pose proof (Hrepl (mkLeaf k k true) ltac:(by left)) as Hr.
    cbn [lf_start] in Hr. rewrite Hr. cbn [mbind res_bind].
    rewrite (sub_step prev prev') by (by apply match_at_other).
    destruct (sub _ _ _ _ _); cbn [mbind res_bind]; [|done..].
    by rewrite render_Term_with.
  - rewrite render_Front.
    rewrite (sub_step prev prev) by (by apply match_at_other).
    rewrite (sub_stretch prev prev) by (by apply label_chars).
    rewrite (sub_intervals ivals prev prev).
    2:{ intros iv Hiv. apply (Hrepl (mkLeaf iv.1 iv.2 false)).
        apply list_elem_of_fmap. by exists iv. }
    rewrite (sub_step prev prev') by (by apply match_at_other).
    destruct (sub _ _ _ _ _); cbn [mbind res_bind]; [|done..].
    by rewrite render_Front.
  - destruct Hlab as [Hl Hc]. rewrite render_Unary.
    rewrite (sub_step prev prev) by (by apply match_at_other).
    rewrite (sub_stretch prev prev) by (by apply label_chars).
    rewrite (sub_step prev prev).
    2:{ destruct (render_with_head old_leaf c) as [s ->].
        apply FRONTIERORTERMRE_paren. }
    rewrite (IH prev prev) by done.
    rewrite (sub_step prev prev') by (by apply match_at_other).
    destruct (sub _ _ _ _ _); cbn [mbind res_bind]; [|done..].
    by rewrite render_Unary.
  - destruct Hlab as (Hl & Hc1 & Hc2). rewrite render_Binary.
    rewrite (sub_step prev prev) by (by apply match_at_other).
    rewrite (sub_stretch prev prev) by (by apply label_chars).
    rewrite (sub_step prev prev).
    2:{ destruct (render_with_head old_leaf c1) as [s ->].
        apply FRONTIERORTERMRE_paren. }
    rewrite (IH1 prev prev); [|done|intros x Hx; apply Hrepl; set_solver].
    rewrite (sub_step prev prev).
    2:{ destruct (render_with_head old_leaf c2) as [s ->].
        apply FRONTIERORTERMRE_paren. }
    rewrite (IH2 prev prev); [|done|intros x Hx; apply Hrepl; set_solver].
    rewrite (sub_step prev prev') by (by apply match_at_other).
    destruct (sub _ _ _ _ _); cbn [mbind res_bind]; [|done..].
    by rewrite render_Binary.
Qed.

End substitution.

(** ** The dictionary of spans *)

Lemma for_each_fmap {A B St} (f : A → B) (l : list A) (s : St)
    (body : B → St → res St) :
  for_each (f <$> l) s body = for_each l s (λ a, body (f a)).
Proof.
  revert s. induction l as [|a l IH]; intros s; simpl; [done|].
  destruct (body (f a) s); simpl; [apply IH|done..].
Qed.

Lemma for_each_ext {A St} (l : list A) (s : St)
    (body1 body2 : A → St → res St) :
  (∀ a s, a ∈ l → body1 a s = body2 a s) →
  for_each l s body1 = for_each l s body2.
Proof.
  revert s. induction l as [|a l IH]; intros s Hext; simpl; [done|].
  rewrite Hext by (by left). destruct (body2 a s); simpl; [|done..].
  apply IH. intros a' s' Ha'. apply Hext. by right.
Qed.

Lemma for_each_foldl {A St} (g : St → A → St) (l : list A) (s : St) :
  for_each l s (λ a s, Ok (g s a)) = Ok (foldl g s l).
Proof. revert s. induction l as [|a l IH]; intros s; simpl; [done|apply IH]. Qed.

Lemma foldl_insert_lookup {A} (key val : A → Z) (l : list A) :
  ∀ (m0 : gmap Z Z) n v,
  (∀ a a', a ∈ l → a' ∈ l → key a = key a' → val a = val a') →
  foldl (λ m a, <[key a := val a]> m) m0 l !! n = Some v ↔
  (∃ a, a ∈ l ∧ key a = n ∧ val a = v) ∨
  (m0 !! n = Some v ∧ ∀ a, a ∈ l → key a ≠ n).
Proof.
  induction l as [|a l IH]; intros m0 n v Huniq; simpl.
  - split; [intros ?; right; split; [done|]|].
    + intros a Ha. by apply elem_of_nil in Ha.
    + intros [(a & Ha & _)|[? _]]; [by apply elem_of_nil in Ha|done].
  - rewrite IH by (intros a1 a2 H1 H2; apply Huniq; by right).
    split.
    + intros [(a' & Ha' & Hk & Hv)|[Hm Hl]].
      * left. exists a'. split; [by right|done].
      * destruct (decide (key a = n)) as [<-|Hne].
        -- rewrite lookup_insert_eq in Hm. left. exists a.
           split; [by left|]. split; [done|congruence].
        -- rewrite lookup_insert_ne in Hm by done. right. split; [done|].
           intros a' [->|Ha']%elem_of_cons; [done|by apply Hl].
    + intros [(a' & Ha' & Hk & Hv)|[Hm Hl]].
      * apply elem_of_cons in Ha' as [->|Ha'].
        -- destruct (decide (n ∈ key <$> l))
             as [(a'' & H2 & H1)%list_elem_of_fmap|Hno].
           ++ symmetry in H2. left. exists a''. split; [done|]. split; [done|].
              rewrite <- Hv. apply Huniq; [by right|by left|congruence].
           ++ right. subst n v. rewrite lookup_insert_eq. split; [done|].
              intros a'' Ha'' Hk. apply Hno. apply list_elem_of_fmap.
              by exists a''.
        -- left. by exists a'.
      * right. rewrite lookup_insert_ne by (apply Hl; by left).
        split; [done|]. intros a' Ha'. apply Hl. by right.
Qed.

Lemma elem_of_leaves t x :
  x ∈ leaves_of t ↔
  (lf_term x = true ∧ lf_last x = lf_start x ∧ lf_start x ∈ terms_of t) ∨
  (lf_term x = false ∧ (lf_start x, lf_last x) ∈ fronts_of t).
Proof.
  induction t as [l k|l ivals|l c IH|l c1 IH1 c2 IH2]; simpl.
  - rewrite list_elem_of_singleton. destruct x as [s e b]; simpl. split.
    + intros [= -> -> ->]. left. split_and!; [done..|]. by left.
    + intros [(-> & -> & ->%list_elem_of_singleton)|[_ H]]; [done|].
      by apply elem_of_nil in H.
  - rewrite list_elem_of_fmap. destruct x as [s e b]; simpl. split.
    + intros ([a b'] & [= -> -> ->] & Hin). by right.
    + intros [(_ & _ & H)|[-> H]]; [by apply elem_of_nil in H|].
      by exists (s, e).
  - done.
  - rewrite !elem_of_app, IH1, IH2. naive_solver.
Qed.

Section spans.
Context (t : ftree) (Hwf : fragment_wf t).

Lemma start_inj x y :
  x ∈ leaves_of t → y ∈ leaves_of t → lf_start x = lf_start y → x = y.
Proof.
  intros Hx Hy Heq. destruct (decide (x = y)) as [|Hne]; [done|].
  pose proof (fw_bounds _ Hwf x Hx). pose proof (fw_bounds _ Hwf y Hy).
  destruct (fw_disjoint _ Hwf x y Hx Hy Hne); lia.
Qed.

Lemma terms_iff x :
  x ∈ leaves_of t → lf_start x ∈ terms_of t ↔ lf_term x = true.
Proof.
  intros Hx. split.
  - intros Hin.
    assert (Hy : mkLeaf (lf_start x) (lf_start x) true ∈ leaves_of t).
    { apply elem_of_leaves. left. by split_and!. }
    by rewrite <- (start_inj _ _ Hy Hx eq_refl).
  - intros Ht. apply elem_of_leaves in Hx as [(_ & _ & ?)|[? _]];
      [done|congruence].
Qed.

Lemma spans_lookup n v :
  spans_of t !! n = Some v ↔
  ∃ x, x ∈ leaves_of t ∧ lf_start x = n ∧ lf_last x + 1 = v.
Proof.
  unfold spans_of.
  rewrite (foldl_insert_lookup (λ k, k) (λ k, k + 1)) by (intros; lia).
  rewrite (foldl_insert_lookup (λ iv : Z * Z, iv.1) (λ iv, iv.2 + 1)).
  2:{ intros [a1 b1] [a2 b2] H1 H2 Heq. simpl in *.
      assert (mkLeaf a1 b1 false = mkLeaf a2 b2 false) as [= _ ->]; [|done].
      apply start_inj; [apply elem_of_leaves; by right..|done]. }
  rewrite lookup_empty. split.
  - intros [(k & Hk & <- & <-)|[[([a b'] & Hiv & <- & <-)|[? _]] _]]; [| |done].
    + exists (mkLeaf k k true). split; [|done].
      apply elem_of_leaves. left. by split_and!.
    + exists (mkLeaf a b' false). split; [|done].
      apply elem_of_leaves. by right.
  - intros (x & Hx & <- & <-).
    destruct (elem_of_leaves t x) as [Hdir _].
    destruct (Hdir Hx) as [(Ht & Hl & Hin)|[Ht Hin]].
    + left. exists (lf_start x). split; [done|]. split; [done|lia].
    + right. split.
      * left. by exists (lf_start x, lf_last x).
      * intros k Hk Heq. subst k. apply (terms_iff x Hx) in Hk. congruence.
Qed.

Lemma sorted_leaves_elem x : x ∈ sorted_leaves t ↔ x ∈ leaves_of t.
Proof. unfold sorted_leaves. by rewrite sorted_by_perm. Qed.

Lemma sorted_leaves_strong :
  StronglySorted (λ x y, lf_last x < lf_start y) (sorted_leaves t).
Proof.
  assert (Hs : StronglySorted (λ x y, lf_start x ≤ lf_start y)
                 (sorted_leaves t)).
  { apply Sorted_StronglySorted; [|apply sorted_by_sorted].
    intros x y z. lia. }
  assert (Hnd : NoDup (sorted_leaves t)).
  { unfold sorted_leaves. rewrite sorted_by_perm. apply (fw_nodup _ Hwf). }
  assert (Hin : ∀ x, x ∈ sorted_leaves t → x ∈ leaves_of t).
  { intros x. by rewrite sorted_leaves_elem. }
  induction Hs as [|x l Hs IH Hx]; [constructor|].
  apply NoDup_cons in Hnd as [Hxl Hnd].
  constructor.
  - apply IH; [done|]. intros y Hy. apply Hin. by right.
  - apply Forall_forall. intros y Hy.
    pose proof (proj1 (Forall_forall _ _) Hx y Hy) as Hle. simpl in Hle.
    assert (Hxin : x ∈ leaves_of t) by (apply Hin; by left).
    assert (Hyin : y ∈ leaves_of t) by (apply Hin; by right).
    pose proof (fw_bounds _ Hwf x Hxin). pose proof (fw_bounds _ Hwf y Hyin).
    destruct (fw_disjoint _ Hwf x y Hxin Hyin); [|lia..].
    intros ->. done.
Qed.

Lemma spans_keys :
  sorted_by id (elements (dom (spans_of t))) = lf_start <$> sorted_leaves t.
Proof.
  apply (Sorted_unique Z.le).
  - apply (sorted_by_sorted id).
  - apply (Sorted_fmap _ (λ x y, lf_start x ≤ lf_start y)); [done|].
    apply sorted_by_sorted.
  - rewrite sorted_by_perm. unfold sorted_leaves. rewrite sorted_by_perm.
    apply NoDup_Permutation.
    + apply NoDup_elements.
    + apply (NoDup_fmap_2_strong lf_start); [|apply (fw_nodup _ Hwf)].
      intros x y Hx Hy. by apply start_inj.
    + intros n. rewrite elem_of_elements, elem_of_dom, list_elem_of_fmap.
      split.
      * intros [v (x & Hx & <- & _)%spans_lookup]. by exists x.
      * intros (x & -> & Hx). exists (lf_last x + 1).
        apply spans_lookup. by exists x.
Qed.

Lemma renumber_keys l : ∀ m, (renumber l m).*1 = lf_start <$> l.
Proof. induction l as [|x l IH]; intros m; simpl; [done|]. by rewrite IH. Qed.

Section loop.
Context {W : Type} (sent : list W) (maxl : Z).
Context (Hsent : ∀ x, x ∈ leaves_of t → lf_term x = true →
           lf_start x < Z.of_nat (length sent)).
Context (Hmax : ∀ z, last (sorted_leaves t) = Some z → maxl = lf_start z).

Lemma gap_decision pre x rest :
  sorted_leaves t = pre ++ x :: rest →
  spans_of t !! (lf_last x + 1) = None ∧ lf_start x ≠ maxl ↔
  gap_after x rest = true.
Proof.
  intros Hsl. pose proof sorted_leaves_strong as Hss. rewrite Hsl in Hss.
  apply StronglySorted_app in Hss as (Hpre & _ & Hss).
  apply StronglySorted_cons in Hss as [Hx Hss].
  assert (Hin : ∀ y, y ∈ pre ++ x :: rest → 0 ≤ lf_start y ≤ lf_last y).
  { intros y Hy. rewrite <- Hsl in Hy. apply sorted_leaves_elem in Hy.
    apply (fw_bounds _ Hwf y Hy). }
  pose proof (Hin x ltac:(set_solver)) as Hbx.
  destruct rest as [|y rest]; simpl.
  - split; [|done]. intros [_ Hne]. destruct Hne. symmetry. apply Hmax.
    rewrite Hsl. apply last_snoc.
  - apply Forall_cons in Hx as [Hxy Hx].
    apply StronglySorted_cons in Hss as [Hy Hss].
    pose proof (Hin y ltac:(set_solver)) as Hby.
    rewrite bool_decide_eq_true. split.
    + intros [Hnone _]. destruct (decide (lf_last x + 1 < lf_start y)); [done|].
      assert (Hsome : spans_of t !! (lf_last x + 1) = Some (lf_last y + 1)).
      { apply spans_lookup. exists y. split; [|lia].
        apply sorted_leaves_elem. rewrite Hsl. set_solver. }
      congruence.
    + intros Hgap. split.
      * destruct (spans_of t !! (lf_last x + 1)) as [v|] eqn:E; [|done].
        apply spans_lookup in E as (w & Hw & Hs & _).
        apply sorted_leaves_elem in Hw. rewrite Hsl in Hw.
        pose proof (Hin w Hw) as Hbw.
        apply elem_of_app in Hw as [Hw|Hw].
        { pose proof (Hpre w x Hw ltac:(by left)). simpl in *. lia. }
        apply elem_of_cons in Hw as [->|Hw]; [lia|].
        apply elem_of_cons in Hw as [->|Hw]; [lia|].
        pose proof (proj1 (Forall_forall _ _) Hy w Hw). simpl in *. lia.
      * destruct (last (y :: rest)) as [z|] eqn:Ez.
        2:{ by apply last_None in Ez. }
        assert (Hz : z ∈ y :: rest) by (by apply last_Some_elem_of).
        rewrite (Hmax z).
        2:{ rewrite Hsl, last_app_cons, last_cons_cons. done. }
        apply elem_of_cons in Hz as [->|Hz]; [lia|].
        pose proof (proj1 (Forall_forall _ _) Hx z Hz). simpl in *. lia.
Qed.

Lemma getsent_loop suf : ∀ pre newsent leafmap m,
  sorted_leaves t = pre ++ suf → 0 ≤ m →
  m + 2 * Z.of_nat (length suf) < 2 ^ 31 →
  ∃ leafmap' m',
    for_each (lf_start <$> suf) (newsent, leafmap, m)
      (getsent_body sent (terms_of t) (spans_of t) maxl)
    = Ok (newsent ++ newsent_of sent suf, leafmap', m') ∧
    ∀ n, leafmap' !! n =
      match (list_to_map (renumber suf m) : gmap Z Z) !! n with
      | Some i => Some (" "%char :: dec i)
      | None => leafmap !! n
      end.
Proof.
  induction suf as [|x rest IH]; intros pre newsent leafmap m Hsl Hm Hfit.
  { exists leafmap, m. simpl. rewrite app_nil_r. split; [done|].
    intros n. by rewrite lookup_empty. }
  assert (Hx : x ∈ leaves_of t).
  { apply sorted_leaves_elem. rewrite Hsl. set_solver. }
  pose proof (fw_bounds _ Hwf x Hx) as Hbx.
  assert (Hfresh : (list_to_map (renumber rest
            (if gap_after x rest then m + 2 else m + 1)) : gmap Z Z)
            !! lf_start x = None).
  { apply not_elem_of_list_to_map. rewrite renumber_keys.
    intros (y & Hy & Hin)%list_elem_of_fmap.
    pose proof sorted_leaves_strong as Hss. rewrite Hsl in Hss.
    apply StronglySorted_app in Hss as (_ & _ & Hss).
    apply StronglySorted_cons in Hss as [Hall _].
    pose proof (proj1 (Forall_forall _ _) Hall y Hin). simpl in *. lia. }
  cbn [length] in Hfit.
  assert (Hbody :
    getsent_body sent (terms_of t) (spans_of t) maxl (lf_start x)
      (newsent, leafmap, m)
    = Ok (newsent ++ (if lf_term x then sent !! Z.to_nat (lf_start x)
                      else None)
            :: (if gap_after x rest then [None] else []),
          <[lf_start x := " "%char :: dec m]> leafmap,
          if gap_after x rest then m + 2 else m + 1)).
  { unfold getsent_body, py_to_int.
    rewrite (decide_True (P := - 2 ^ 31 ≤ lf_start x < 2 ^ 31)) by lia.
    cbn [mbind res_bind].
    assert (Hword :
      (if decide (lf_start x ∈ terms_of t)
       then w ← py_index sent (lf_start x); Ok (Some w)
       else Ok None)
      = Ok (if lf_term x then sent !! Z.to_nat (lf_start x) else None)).
    { destruct (lf_term x) eqn:Ht.
      - rewrite decide_True by (by apply terms_iff).
        pose proof (Hsent x Hx Ht) as Hlt.
        unfold py_index, py_slot. rewrite decide_True by lia.
        cbn [mbind res_bind].
        destruct (lookup_lt_is_Some_2 sent (Z.to_nat (lf_start x)) ltac:(lia))
          as [w ->]. done.
      - rewrite decide_False; [done|]. rewrite terms_iff by done. congruence. }
    rewrite Hword. cbn [mbind res_bind].
    rewrite (decide_True (P := m + 1 < 2 ^ 31)) by lia.
    cbn [of_option mbind res_bind].
    assert (Hstop : spans_of t !! lf_start x = Some (lf_last x + 1)).
    { apply spans_lookup. by exists x. }
    rewrite Hstop. cbn [of_option mbind res_bind].
    pose proof (gap_decision pre x rest Hsl) as Hgap.
    destruct (gap_after x rest) eqn:Eg.
    - rewrite decide_True by (by apply Hgap).
      rewrite decide_True by lia. cbn [of_option mbind res_bind].
      f_equal. f_equal; [|lia]. f_equal. by rewrite <- app_assoc.
    - rewrite decide_False by (rewrite Hgap; congruence). done. }
  cbn [fmap list_fmap for_each]. rewrite Hbody. cbn [mbind res_bind].
  destruct (IH (pre ++ [x])
              (newsent ++ (if lf_term x then sent !! Z.to_nat (lf_start x)
                           else None)
                 :: (if gap_after x rest then [None] else []))
              (<[lf_start x := " "%char :: dec m]> leafmap)
              (if gap_after x rest then m + 2 else m + 1))
    as (leafmap' & m' & -> & Hlook).
  { by rewrite <- app_assoc. }
  { destruct (gap_after x rest); lia. }
  { destruct (gap_after x rest); lia. }
  exists leafmap', m'. split.
  - f_equal. f_equal. f_equal. cbn [newsent_of].
    rewrite <- !app_assoc. done.
  - intros n. rewrite Hlook. cbn [renumber list_to_map foldr uncurry].
    destruct (decide (n = lf_start x)) as [->|Hne].
    + by rewrite Hfresh, !lookup_insert_eq.
    + by rewrite !lookup_insert_ne by done.
Qed.

End loop.

End spans.

Lemma foldl_snoc {A} (l : list A) : ∀ acc,
  foldl (λ acc k, acc ++ [k]) acc l = acc ++ l.
Proof.
  induction l as [|x l IH]; intros acc; simpl; [by rewrite app_nil_r|].
  rewrite IH. by rewrite <- app_assoc.
Qed.

Lemma foldr_max_sorted k l :
  StronglySorted Z.le (k :: l) → foldr Z.max k l = default k (last l).
Proof.
  induction l as [|x l IH]; intros Hs; [done|].
  apply StronglySorted_cons in Hs as [Hk Hs].
  apply Forall_cons in Hk as [Hkx Hk].
  apply StronglySorted_cons in Hs as [Hx Hs].
  cbn [foldr]. rewrite IH by (by constructor).
  rewrite last_cons. destruct (last l) as [y|] eqn:Ey; simpl; [|lia].
  apply last_Some_elem_of in Ey.
  pose proof (proj1 (Forall_forall _ _) Hx y Ey). lia.
Qed.

Lemma findall_frontiers_all t :
  labels_ok t →
  findall FRONTIERRE None (render t) 0
  = Some ((λ iv, [dec iv.1; dec iv.2]) <$> fronts_of t).
Proof.
  intros Hl. unfold render.
  rewrite <- (app_nil_r (render_with old_leaf t)).
  rewrite (findall_frontiers t None None [] Hl). simpl.
  by rewrite app_nil_r.
Qed.

Lemma findall_terminals_all t :
  labels_ok t →
  findall TERMINDICESRE None (render t) 0
  = Some ((λ k, [dec k]) <$> terms_of t).
Proof.
  intros Hl. unfold render.
  rewrite <- (app_nil_r (render_with old_leaf t)).
  rewrite (findall_terminals t None None [] Hl quiet_nil). simpl.
  by rewrite app_nil_r.
Qed.

Lemma sub_leaves_all repl fnew t :
  labels_ok t →
  (∀ x, x ∈ leaves_of t → repl [dec (lf_start x)] = Ok (fnew x)) →
  sub FRONTIERORTERMRE repl None (render t) 0 = Ok (render_with fnew t).
Proof.
  intros Hl Hrepl. unfold render.
  rewrite <- (app_nil_r (render_with old_leaf t)).
  rewrite (sub_leaves repl fnew t None None [] Hl Hrepl). simpl.
  by rewrite app_nil_r.
Qed.

(** C5.  For a well-formed fragment (labels without blanks and parentheses,
    leaves that are terminal indices or frontier intervals covering pairwise
    disjoint ranges) and a sentence that has a word for every terminal
    index, [getsent] returns the fragment with every leaf replaced by its
    new index together with the new sentence: the leaves sorted by position
    are numbered densely from 0 with one extra position for every gap, and
    the sentence holds the word of [sent] at the position of a terminal and
    [None] at the position of a frontier and at the extra position of a
    gap. *)
Theorem getsent_renumbers {W} (t : ftree) (sent : list W) :
  fragment_wf t →
  (∀ x, x ∈ leaves_of t → lf_term x = true →
     lf_start x < Z.of_nat (length sent)) →
  getsent (render t) sent
  = Ok (render_with (new_leaf (new_index t)) t,
        newsent_of sent (sorted_leaves t)).
Proof.
  intros Hwf Hsent. pose proof (fw_labels _ Hwf) as Hlab.
  assert (Hb : ∀ x, x ∈ leaves_of t →
            0 ≤ lf_start x ≤ lf_last x ∧ lf_start x < 2 ^ 31 - 1)
    by apply (fw_bounds _ Hwf).
  unfold getsent.
  rewrite (findall_frontiers_all t Hlab). cbn [of_option mbind res_bind].
  rewrite for_each_fmap.
  rewrite (for_each_ext _ _ _
             (λ (iv : Z * Z) spans, Ok (<[iv.1 := iv.2 + 1]> spans))).
  2:{ intros [a b'] s Hiv. cbn [fst snd].
      assert (Hx : mkLeaf a b' false ∈ leaves_of t).
      { apply elem_of_leaves. by right. }
      pose proof (Hb _ Hx) as Hbx. cbn in Hbx.
      rewrite !py_int_dec by lia. done. }
  rewrite (for_each_foldl (λ s (iv : Z * Z), <[iv.1 := iv.2 + 1]> s)).
  cbn [mbind res_bind].
  rewrite (findall_terminals_all t Hlab). cbn [of_option mbind res_bind].
  rewrite for_each_fmap.
  assert (Hterm : ∀ k, k ∈ terms_of t → 0 ≤ k < 2 ^ 31 - 1).
  { intros k Hk.
    assert (Hx : mkLeaf k k true ∈ leaves_of t).
    { apply elem_of_leaves. left. by split_and!. }
    pose proof (Hb _ Hx) as Hbx. cbn in Hbx. lia. }
  rewrite (for_each_ext _ _ _ (λ k leaves, Ok (leaves ++ [k]))).
  2:{ intros k s Hk. rewrite py_int_dec by (apply Hterm, Hk). done. }
  rewrite (for_each_foldl (λ leaves k, leaves ++ [k])), foldl_snoc.
  cbn [mbind res_bind app].
  rewrite (for_each_ext _ _ _ (λ n spans, Ok (<[n := n + 1]> spans))).
  2:{ intros k s Hk. pose proof (Hterm k Hk). unfold py_to_int.
      rewrite decide_True by lia. cbn [mbind res_bind].
      rewrite decide_True by lia. done. }
  rewrite (for_each_foldl (λ s n, <[n := n + 1]> s)).
  cbn [mbind res_bind]. fold (spans_of t).
  rewrite (spans_keys t Hwf).
  assert (Hperm : sorted_leaves t ≡ₚ leaves_of t) by apply sorted_by_perm.
  destruct (sorted_leaves t) as [|x0 rest0] eqn:Esl.
  { apply Permutation_nil in Hperm. by destruct (fw_leaves _ Hwf). }
  cbn [fmap list_fmap py_max mbind res_bind].
  set (maxl := foldr Z.max (lf_start x0) (lf_start <$> rest0)).
  assert (Hmax : ∀ z, last (sorted_leaves t) = Some z → maxl = lf_start z).
  { intros z Hz. unfold maxl. rewrite foldr_max_sorted.
    - rewrite Esl, last_cons in Hz. rewrite fmap_last.
      destruct (last rest0); simpl in *; congruence.
    - apply Sorted_StronglySorted; [intros x1 x2 x3; lia|].
      apply (Sorted_fmap lf_start (λ x y, lf_start x ≤ lf_start y) Z.le
               (x0 :: rest0)); [done|].
      rewrite <- Esl. apply sorted_by_sorted. }
  assert (Hx0 : x0 ∈ leaves_of t).
  { rewrite <- Hperm. by left. }
  assert (Hmaxl : - 2 ^ 31 ≤ maxl < 2 ^ 31).
  { destruct (last (sorted_leaves t)) as [z|] eqn:Ez.
    - rewrite (Hmax z eq_refl). apply last_Some_elem_of in Ez.
      rewrite Esl, Hperm in Ez. pose proof (Hb z Ez). lia.
    - apply last_None in Ez. congruence. }
  unfold py_to_int at 1. rewrite decide_True by done.
  cbn [mbind res_bind].
  destruct (getsent_loop t Hwf sent maxl Hsent Hmax (x0 :: rest0) [] [] ∅ 0)
    as (leafmap & m' & Hloop & Hlook).
  { by rewrite Esl. }
  { done. }
  { rewrite Hperm. pose proof (fw_count _ Hwf). lia. }
  cbn [fmap list_fmap] in Hloop. rewrite Hloop. cbn [mbind res_bind app].
  rewrite (sub_leaves_all _ (new_leaf (new_index t)) t Hlab); [done|].
  intros x Hx. pose proof (Hb x Hx) as Hbx.
  rewrite py_int_dec by lia. cbn [mbind res_bind].
  rewrite Hlook, lookup_empty. unfold new_leaf, new_index. rewrite Esl.
  destruct (list_to_map (renumber (x0 :: rest0) 0) !! lf_start x) as [i|] eqn:Ei;
    [done|].
  apply not_elem_of_list_to_map in Ei. destruct Ei.
  rewrite renumber_keys, <- Esl. apply list_elem_of_fmap. exists x.
  split; [done|]. by apply sorted_leaves_elem.
Qed.

Lemma ex_frag_wf : fragment_wf ex_frag.
Proof.
  split.
  - repeat split; try done; repeat constructor; done.
  - done.
  - intros x Hx. simpl in Hx.
    apply elem_of_cons in Hx as [->|Hx%list_elem_of_singleton]; [|subst x];
      simpl; lia.
  - simpl. apply NoDup_cons. split; [|apply NoDup_singleton].
    by intros [=]%list_elem_of_singleton.
  - intros x y Hx Hy Hne. simpl in Hx, Hy.
    apply elem_of_cons in Hx as [->|Hx%list_elem_of_singleton]; [|subst x];
      (apply elem_of_cons in Hy as [->|Hy%list_elem_of_singleton]; [|subst y]);
      simpl; try done; lia.
  - simpl. lia.
Qed.

Lemma getsent_renumbers_witness :
  getsent (bytes_of_string "(S (NP 2) (VP 4))")
    ["The"; "tall"; "man"; "there"; "walks"]
  = Ok (bytes_of_string "(S (NP 0) (VP 2))", [Some "man"; None; Some "walks"]).
Proof.
  apply (getsent_renumbers ex_frag ["The"; "tall"; "man"; "there"; "walks"]).
  - apply ex_frag_wf.
  - intros x Hx _. simpl in Hx.
    apply elem_of_cons in Hx as [->|Hx%list_elem_of_singleton]; [|subst x];
      simpl; lia.
Defined.

(** The doctests of [pygetsent]. *)
Example pygetsent_doctest_1 :
  pygetsent (bytes_of_string "(S (NP 2) (VP 4))")
    ["The"; "tall"; "man"; "there"; "walks"]
  = Ok ("(S (NP 0) (VP 2))", [Some "man"; None; Some "walks"]).
Proof. vm_compute. reflexivity. Qed.

Example pygetsent_doctest_2 :
  pygetsent (bytes_of_string "(VP (VB 0) (PRT 3))")
    ["Wake"; "your"; "friend"; "up"]
  = Ok ("(VP (VB 0) (PRT 2))", [Some "Wake"; None; Some "up"]).
Proof. vm_compute. reflexivity. Qed.

Example pygetsent_doctest_3 :
  pygetsent (bytes_of_string "(S (NP 2:2 4:4) (VP 1:1 3:3))")
    ["Walks"; "the"; "quickly"; "man"]
  = Ok ("(S (NP 1 3) (VP 0 2))", [None; None; None; None]).
Proof. vm_compute. reflexivity. Qed.

Example pygetsent_doctest_4 :
  pygetsent (bytes_of_string "(ROOT (S 0:2) ($. 3))")
    ["Foo"; "bar"; "zed"; "."]
  = Ok ("(ROOT (S 0) ($. 1))", [None; Some "."]).
Proof. vm_compute. reflexivity. Qed.

Example pygetsent_doctest_5 :
  pygetsent (bytes_of_string "(ROOT (S 0) ($. 3))")
    ["Foo"; "bar"; "zed"; "."]
  = Ok ("(ROOT (S 0) ($. 2))", [Some "Foo"; None; Some "."]).
Proof. vm_compute. reflexivity. Qed.

Example pygetsent_doctest_6 :
  pygetsent (bytes_of_string "(S|<VP>_2 (VP_3 0:1 3:3 16:16) (VAFIN 2))")
    ["In"; "Japan"; "wird"; "offenbar"; "die"; "Fusion"; "der";
     "Geldkonzerne"; "Daiwa"; "und"; "Sumitomo"; "zur"; "groessten"; "Bank";
     "der"; "Welt"; "vorbereitet"; "."]
  = Ok ("(S|<VP>_2 (VP_3 0 2 4) (VAFIN 1))",
        [None; Some "wird"; None; None; None]).
Proof. vm_compute. reflexivity. Qed.

(** * Further properties of the arena *)

Section arena_more.
Context {P : Type} `{Countable P}.
Context (junk_node : nat → Node) (junk_tree : nat → NodeArray).

(** X1.  [realloc(numtrees, extranodes)] on an arena whose counters agree
    with its allocations never shrinks it: afterwards there are at least
    [numtrees] tree slots and at least [extranodes] free nodes, the counters
    of stored trees and nodes are as before, and every stored tree record
    and node is where it was. *)
Theorem realloc_keeps_contents (self : Ctrees) (numtrees extranodes : Z) :
  arena_wf self →
  let self' := realloc junk_node junk_tree self numtrees extranodes in
  arena_wf self' ∧
  numtrees ≤ ct_max self' ∧ ct_max self ≤ ct_max self' ∧
  extranodes ≤ ct_nodesleft self' ∧ ct_nodesleft self ≤ ct_nodesleft self' ∧
  ct_len self' = ct_len self ∧ ct_numnodes self' = ct_numnodes self ∧
  ct_maxnodes self' = ct_maxnodes self ∧
  ct_treeswithprod self' = ct_treeswithprod self ∧
  (∀ k x, load (ct_nodes self) k = Some x → load (ct_nodes self') k = Some x) ∧
  (∀ k x, load (ct_trees self) k = Some x → load (ct_trees self') k = Some x).
Proof.
  intros (Hn & Ht & Hl & Hnn & Hnl).
  assert (Hsh : ∀ z, 0 ≤ z → 0 ≤ Z.shiftr z 3)
    by (intros; by apply Z.shiftr_nonneg).
  assert (Hex : ∀ z, 0 ≤ if decide (z < 9) then 3 else 6)
    by (intros; destruct (decide _); lia).
  unfold realloc.
  destruct (decide (numtrees > ct_max self)) as [Hgt|Hle]; simpl.
  - pose proof (Hsh numtrees ltac:(lia)). pose proof (Hex numtrees).
    destruct (decide (extranodes > ct_nodesleft self)) as [Hgt2|Hle2]; simpl.
    + pose proof (Hsh (ct_numnodes self + extranodes) ltac:(lia)).
      pose proof (Hex (ct_numnodes self + extranodes)).
      unfold arena_wf. simpl. rewrite !grow_length.
      split_and!; try lia; auto.
      * intros k x. apply grow_load. lia.
      * intros k x. apply grow_load. lia.
    + unfold arena_wf. simpl. rewrite !grow_length.
      split_and!; try lia; auto.
      intros k x. apply grow_load. lia.
  - destruct (decide (extranodes > ct_nodesleft self)) as [Hgt2|Hle2]; simpl.
    + pose proof (Hsh (ct_numnodes self + extranodes) ltac:(lia)).
      pose proof (Hex (ct_numnodes self + extranodes)).
      unfold arena_wf. simpl. rewrite !grow_length.
      split_and!; try lia; auto.
      intros k x. apply grow_load. lia.
    + unfold arena_wf. split_and!; auto; lia.
Qed.

Lemma update_Some {A} (a a' : list A) k (f : A → A) :
  update a k f = Some a' →
  ∃ x, load a k = Some x ∧ load a' k = Some (f x) ∧ length a' = length a.
Proof.
  unfold update. destruct (load a k) as [x|] eqn:E; [|done]. simpl.
  intros Hst. exists x. split; [done|].
  rewrite (load_store _ _ _ _ k Hst), decide_True by done.
  split; [done|]. by eapply store_length.
Qed.

Lemma copynode_ok (a : pyitem P) prods result k result' :
  copynode a prods result k = (Ok (), result') →
  length result' = length result ∧
  ∃ new, load result' k = Some new ∧ converted prods a new.
Proof.
  unfold copynode, py_to_int, py_to_short. intros Hc.
  repeat (case_match; simplify_eq/=); try done;
    repeat match goal with
    | Hu : update _ _ _ = Some _ |- _ =>
        apply update_Some in Hu as (? & ? & ? & ?)
    end; simplify_eq/=;
    (split; [congruence|]); eexists; (split; [done|]); simpl;
    split_and?; try done; try lia.
Qed.

Lemma copynodes_before (tree : list (pyitem P)) prods :
  ∀ nodes base n r nodes' k',
  copynodes tree prods nodes base n = (r, nodes') → k' < base + n →
  load nodes' k' = load nodes k'.
Proof.
  induction tree as [|a tree IH]; intros nodes base n r nodes' k' Hc Hk;
    simpl in Hc.
  - by simplify_eq.
  - destruct (copynode a prods nodes (base + n)) as [r1 nodes1] eqn:E1.
    pose proof (copynode_frame _ _ _ _ _ _ k' E1 ltac:(lia)) as Hf.
    destruct r1; simplify_eq; try done.
    rewrite <- Hf. eapply IH; [done|lia].
Qed.

Lemma copynodes_ok (tree : list (pyitem P)) prods :
  ∀ nodes base n nodes',
  copynodes tree prods nodes base n = (Ok (), nodes') →
  length nodes' = length nodes ∧
  ∀ k a, tree !! k = Some a →
    ∃ new, load nodes' (base + n + Z.of_nat k) = Some new ∧
           converted prods a new.
Proof.
  induction tree as [|a tree IH]; intros nodes base n nodes' Hc;
    simpl in Hc.
  - simplify_eq. split; [done|]. intros k a Hk. done.
  - destruct (copynode a prods nodes (base + n)) as [r1 nodes1] eqn:E1.
    destruct r1 as [[]| |]; [|by simplify_eq..].
    apply copynode_ok in E1 as (Hl1 & new & Enew & Hconv).
    pose proof (IH _ _ _ _ Hc) as [Hl2 Hrest].
    split; [congruence|]. intros [|k] a' Hk; simpl in Hk.
    + simplify_eq. exists new. split; [|done].
      replace (base + n + Z.of_nat 0) with (base + n) by lia.
      rewrite <- Enew. eapply copynodes_before; [done|lia].
    + destruct (Hrest k a' Hk) as (new' & E' & Hc').
      exists new'. split; [|done]. rewrite <- E'. f_equal. lia.
Qed.

(** What a successful [add] leaves behind, whatever the length of the
    tree. *)
Lemma add_ok (self self' : Ctrees) (tree : list (pyitem P))
    (prods : gmap P Z) :
  arena_wf self →
  add junk_node junk_tree self tree prods = (Ok (), self') →
  let cnt := Z.of_nat (length tree) in
  arena_wf self' ∧ ct_max self ≠ 0 ∧ 0 < cnt ∧
  ct_len self' = ct_len self + 1 ∧
  ct_numnodes self' = ct_numnodes self + cnt ∧
  ct_maxnodes self' = Z.max (ct_maxnodes self) cnt ∧
  ct_treeswithprod self' = ct_treeswithprod self ∧
  (∃ r, rootidx_of tree = Some r ∧
     load (ct_trees self') (ct_len self)
     = Some (mkNodeArray (ct_numnodes self) (to_short cnt) r)) ∧
  (∀ k a, tree !! k = Some a →
     ∃ new, load (ct_nodes self') (ct_numnodes self + Z.of_nat k) = Some new ∧
            converted prods a new) ∧
  (∀ k, 0 ≤ k < ct_numnodes self →
     load (ct_nodes self') k = load (ct_nodes self) k) ∧
  (∀ k, 0 ≤ k < ct_len self →
     load (ct_trees self') k = load (ct_trees self) k) ∧
  ((ct_len self < ct_max self ∧ cnt ≤ ct_nodesleft self) →
     ct_max self' = ct_max self ∧
     ct_nodesleft self' = ct_nodesleft self - cnt).
Proof.
  intros Hwf Hadd cnt. unfold add in Hadd.
  destruct (decide (ct_max self = 0)) as [|Hmax]; [by simplify_eq|].
  destruct (realloc_room junk_node junk_tree self (Z.of_nat (length tree))
              Hwf ltac:(lia))
    as (Hwf1 & Hroom & Hleft & Hlen1 & Hnum1 & Hmn1 & Hidx1 & Hnodes1 & Htrees1).
  assert (Hsame : (ct_len self < ct_max self ∧ cnt ≤ ct_nodesleft self) →
    (if decide (ct_len self >= ct_max self ∨ ct_nodesleft self < cnt)
     then realloc junk_node junk_tree self (ct_len self + 1) cnt else self)
    = self).
  { intros ?. rewrite decide_False; [done|lia]. }
  fold cnt in Hadd, Hwf1, Hroom, Hleft, Hlen1, Hnum1, Hmn1, Hidx1, Hnodes1,
    Htrees1.
  remember (if decide (ct_len self >= ct_max self ∨ ct_nodesleft self < cnt)
            then realloc junk_node junk_tree self (ct_len self + 1) cnt
            else self) as self1 eqn:Hself1.
  assert (Hn1 : ∀ k, 0 ≤ k < ct_numnodes self →
            load (ct_nodes self1) k = load (ct_nodes self) k).
  { intros k Hk. destruct Hwf as (Hl & _ & _ & _ & ?).
    destruct (load_is_Some (ct_nodes self) k ltac:(lia)) as [x Hx].
    rewrite Hx. by apply Hnodes1. }
  assert (Ht1 : ∀ k, 0 ≤ k < ct_len self →
            load (ct_trees self1) k = load (ct_trees self) k).
  { intros k Hk. destruct Hwf as (_ & Hl & ? & _).
    destruct (load_is_Some (ct_trees self) k ltac:(lia)) as [x Hx].
    rewrite Hx. by apply Htrees1. }
  destruct (update (ct_trees self1) _ (set_na_len _)) as [tr1|] eqn:E1;
    [|done].
  cbn [with_trees with_nodes ct_trees ct_len ct_numnodes ct_nodes] in Hadd.
  destruct (update tr1 _ (set_na_offset _)) as [tr2|] eqn:E2; [|done].
  cbn [with_trees with_nodes ct_trees ct_len ct_numnodes ct_nodes] in Hadd.
  destruct (copynodes tree prods _ _ 0) as [r nodes'] eqn:Ec.
  destruct r as [[]|e'|]; [|by simplify_eq/=|done].
  cbn [with_trees with_nodes ct_trees ct_len ct_numnodes ct_nodes] in Hadd.
  assert (0 < cnt).
  { subst cnt. destruct tree; [done|]. simpl. lia. }
  clearbody cnt.
  destruct tree as [|[|p [rt|] ch] tree']; [done..| |done].
  destruct (py_to_short rt) as [rt'| |] eqn:Ert; [|done..].
  destruct (update tr2 _ (set_na_root _)) as [tr3|] eqn:E3; [|done].
  injection Hadd as <-.
  assert (rt' = rt) as ->.
  { unfold py_to_short in Ert. by repeat (case_match; simplify_eq/=). }
  pose proof (λ k', copynodes_before _ _ _ _ _ _ _ k' Ec) as Hbefore.
  apply copynodes_ok in Ec as [Hlen' Hnew].
  assert (Ht3 : ∀ k, k ≠ ct_len self1 →
            load tr3 k = load (ct_trees self1) k).
  { intros k Hk. rewrite (update_other _ _ _ _ k E3) by done.
    rewrite (update_other _ _ _ _ k E2) by done.
    by rewrite (update_other _ _ _ _ k E1) by done. }
  apply update_Some in E1 as (x1 & Ex1 & Ey1 & Hl1).
  apply update_Some in E2 as (x2 & Ex2 & Ey2 & Hl2).
  apply update_Some in E3 as (x3 & Ex3 & Ey3 & Hl3).
  destruct Hwf1 as (Hw1 & Hw2 & Hw3 & Hw4 & Hw5).
  split_and!; simpl; try lia; try done.
  - unfold arena_wf. simpl. split_and!; lia.
  - exists rt. split; [done|]. rewrite <- Hlen1, <- Hnum1, Ey3. f_equal.
    simplify_eq/=. by destruct x1.
  - intros k a Hk. destruct (Hnew k a Hk) as (new & En & Hc).
    exists new. split; [|done]. rewrite <- En. f_equal. lia.
  - intros k Hk. rewrite <- Hn1 by done. apply Hbefore. lia.
  - intros k Hk. rewrite <- Ht1 by done. apply Ht3. lia.
  - intros Hfit. rewrite (Hsame Hfit). lia.
Qed.

(** X2.  When [add(tree, prods)] returns, for a tree of fewer than 2^15
    items: the arena holds one tree more; its record has the old number of
    nodes as offset, the number of items as length and the [rootidx] of the
    first item as root; item [k] of the tree is stored at [offset + k] as
    the production id, the child indices, [-k - 1] for a terminal and [-1]
    for a missing second child; the trees and nodes stored before are as
    they were; and the counters still agree with the allocations. *)
Theorem add_stores_tree (self self' : Ctrees) (tree : list (pyitem P))
    (prods : gmap P Z) :
  arena_wf self →
  Z.of_nat (length tree) < 2 ^ 15 →
  add junk_node junk_tree self tree prods = (Ok (), self') →
  arena_wf self' ∧
  ct_len self' = ct_len self + 1 ∧
  ct_numnodes self' = ct_numnodes self + Z.of_nat (length tree) ∧
  ct_maxnodes self' = Z.max (ct_maxnodes self) (Z.of_nat (length tree)) ∧
  (∃ r, rootidx_of tree = Some r ∧
     load (ct_trees self') (ct_len self)
     = Some (mkNodeArray (ct_numnodes self) (Z.of_nat (length tree)) r)) ∧
  (∀ k a, tree !! k = Some a →
     ∃ new, load (ct_nodes self') (ct_numnodes self + Z.of_nat k) = Some new ∧
            converted prods a new) ∧
  (∀ k, 0 ≤ k < ct_numnodes self →
     load (ct_nodes self') k = load (ct_nodes self) k) ∧
  (∀ k, 0 ≤ k < ct_len self →
     load (ct_trees self') k = load (ct_trees self) k).
Proof.
  intros Hwf Hshort Hadd.
  destruct (add_ok _ _ _ _ Hwf Hadd)
    as (? & ? & ? & ? & ? & ? & ? & (r & ? & Hrec) & ? & ? & ? & _).
  rewrite to_short_small in Hrec by lia.
  split_and!; try done. by exists r.
Qed.

(** The loop of [__init__] in an arena with room for all the trees. *)
Lemma add_all_ok (prods : gmap P Z) (trees : list (list (pyitem P))) :
  ∀ self self',
  arena_wf self →
  ct_len self + Z.of_nat (length trees) ≤ ct_max self →
  sum_len trees ≤ ct_nodesleft self →
  add_all junk_node junk_tree self trees prods = (Ok (), self') →
  arena_wf self' ∧ ct_max self' = ct_max self ∧
  ct_len self' = ct_len self + Z.of_nat (length trees) ∧
  ct_numnodes self' = ct_numnodes self + sum_len trees ∧
  ct_nodesleft self' = ct_nodesleft self - sum_len trees ∧
  (∀ k, 0 ≤ k < ct_numnodes self →
     load (ct_nodes self') k = load (ct_nodes self) k) ∧
  (∀ k, 0 ≤ k < ct_len self →
     load (ct_trees self') k = load (ct_trees self) k) ∧
  ∀ n tree, trees !! n = Some tree →
    ∃ r, rootidx_of tree = Some r ∧
      load (ct_trees self') (ct_len self + Z.of_nat n)
      = Some (mkNodeArray (ct_numnodes self + sum_len (take n trees))
                (to_short (Z.of_nat (length tree))) r) ∧
      ∀ k a, tree !! k = Some a →
        ∃ new,
          load (ct_nodes self')
            (ct_numnodes self + sum_len (take n trees) + Z.of_nat k)
          = Some new ∧
          converted prods a new.
Proof.
  induction trees as [|tree trees IH]; intros self self' Hwf Hroom Hleft Hall;
    simpl in Hall.
  - simplify_eq. simpl. split_and!; try done; try lia.
  - destruct (add junk_node junk_tree self tree prods) as [r1 self1] eqn:Eadd.
    destruct r1 as [[]| |]; [|by simplify_eq..].
    simpl in Hroom, Hleft.
    assert (0 ≤ sum_len trees).
    { clear. induction trees; simpl; lia. }
    destruct (add_ok _ _ _ _ Hwf Eadd)
      as (Hwf1 & Hmax & Hcnt & Hlen1 & Hnum1 & _ & _ & (r & Hr & Hrec)
          & Hnew & Hnodes1 & Htrees1 & Hfit).
    destruct (Hfit ltac:(lia)) as [Hmax1 Hleft1].
    destruct (IH self1 self' Hwf1 ltac:(lia) ltac:(lia) Hall)
      as (Hwf' & Hmax' & Hlen' & Hnum' & Hleft' & Hnodes' & Htrees' & Hrest).
    destruct Hwf as (Hw1 & Hw2 & Hw3 & Hw4 & Hw5).
    simpl. split_and!; try done; try lia.
    + intros k Hk. rewrite Hnodes' by lia. by apply Hnodes1.
    + intros k Hk. rewrite Htrees' by lia. by apply Htrees1.
    + intros [|n] tree' Hn; simpl in Hn.
      * simplify_eq. exists r. simpl. split; [done|].
        rewrite !Z.add_0_r. split.
        -- rewrite Htrees' by lia. done.
        -- intros k a Hk. destruct (Hnew k a Hk) as (new & Enew & Hconv).
           exists new. split; [|done].
           rewrite Hnodes'; [done|].
           apply lookup_lt_Some in Hk. lia.
      * destruct (Hrest n tree' Hn) as (r' & Hr' & Hrec' & Hnew').
        exists r'. split; [done|]. simpl.
        replace (ct_len self + Z.of_nat (S n))
          with (ct_len self1 + Z.of_nat n) by lia.
        replace (ct_numnodes self
                 + (Z.of_nat (length tree) + sum_len (take n trees)))
          with (ct_numnodes self1 + sum_len (take n trees)) by lia.
        done.
Qed.

(** The layout of the arena that the constructor leaves. *)
Lemma init_layout (trees : list (list (pyitem P))) (prods : gmap P Z)
    (self : Ctrees) :
  Forall (λ tree, Z.of_nat (length tree) < 2 ^ 15) trees →
  init junk_node junk_tree (Some trees) (Some prods) = (Ok (), self) →
  ct_len self = Z.of_nat (length trees) ∧
  ct_max self = Z.of_nat (length trees) ∧
  ct_numnodes self = sum_len trees ∧
  ct_nodesleft self = 0 ∧
  Z.of_nat (length (ct_nodes self)) = sum_len trees ∧
  Z.of_nat (length (ct_trees self)) = Z.of_nat (length trees) ∧
  ∀ n tree, trees !! n = Some tree →
    ∃ r, rootidx_of tree = Some r ∧
      load (ct_trees self) (Z.of_nat n)
      = Some (mkNodeArray (sum_len (take n trees))
                (Z.of_nat (length tree)) r) ∧
      ∀ k a, tree !! k = Some a →
        ∃ new,
          load (ct_nodes self) (sum_len (take n trees) + Z.of_nat k)
          = Some new ∧
          converted prods a new.
Proof.
  intros Hshort Hinit. unfold init in Hinit.
  assert (0 ≤ sum_len trees).
  { clear. induction trees; simpl; lia. }
  set (self0 := alloc _ _ _ _ _) in Hinit.
  assert (Hwf0 : arena_wf self0).
  { unfold arena_wf, self0, alloc. simpl. rewrite !grow_length. lia. }
  destruct (add_all_ok prods trees self0 self Hwf0
              ltac:(simpl; lia) ltac:(simpl; lia) Hinit)
    as (Hwf & Hmax & Hlen & Hnum & Hleft & _ & _ & Hrest).
  simpl in Hmax, Hlen, Hnum, Hleft.
  destruct Hwf as (Hw1 & Hw2 & _).
  split_and!; try lia.
  intros n tree Hn. destruct (Hrest n tree Hn) as (r & Hr & Hrec & Hnew).
  simpl in Hrec, Hnew. exists r. split; [done|].
  rewrite to_short_small in Hrec.
  2:{ rewrite Forall_lookup in Hshort. specialize (Hshort n tree Hn).
      simpl in Hshort. lia. }
  split; [done|]. intros k a Hk.
  destruct (Hnew k a Hk) as (new & ? & ?). by exists new.
Qed.

(** X3.  [Ctrees(trees, prods)] allocates exactly what it needs: when the
    constructor returns, for trees of fewer than 2^15 items, no slot for a
    tree or a node is left over, tree [n] of the list is tree [n] of the
    arena, its nodes start where those of the trees before it end, and each
    item is stored converted, in the order of the list. *)
Theorem init_exact_fit (trees : list (list (pyitem P))) (prods : gmap P Z)
    (self : Ctrees) :
  Forall (λ tree, Z.of_nat (length tree) < 2 ^ 15) trees →
  init junk_node junk_tree (Some trees) (Some prods) = (Ok (), self) →
  ct_len self = Z.of_nat (length trees) ∧
  ct_max self = Z.of_nat (length trees) ∧
  ct_numnodes self = sum_len trees ∧
  ct_nodesleft self = 0 ∧
  Z.of_nat (length (ct_nodes self)) = sum_len trees ∧
  Z.of_nat (length (ct_trees self)) = Z.of_nat (length trees) ∧
  ∀ n tree, trees !! n = Some tree →
    ∃ r, rootidx_of tree = Some r ∧
      load (ct_trees self) (Z.of_nat n)
      = Some (mkNodeArray (sum_len (take n trees))
                (Z.of_nat (length tree)) r) ∧
      ∀ k a, tree !! k = Some a →
        ∃ new,
          load (ct_nodes self) (sum_len (take n trees) + Z.of_nat k)
          = Some new ∧
          converted prods a new.
Proof. apply init_layout. Qed.

End arena_more.

(** * Further properties of the index *)

Lemma foldl_res_total {A St} (I : list A → St → Prop) (l : list A)
    (body : St → A → res St) s :
  (∀ pre x t, x ∈ l → I pre t → ∃ t', body t x = Ok t' ∧ I (pre ++ [x]) t') →
  I [] s →
  ∃ s', foldl (λ acc x, t ← acc; body t x) (Ok s) l = Ok s' ∧ I l s'.
Proof.
  intros Hbody Hs.
  assert (Hgen : ∀ post pre t, post ⊆ l → I pre t →
    ∃ s', foldl (λ acc x, t ← acc; body t x) (Ok t) post = Ok s'
          ∧ I (pre ++ post) s').
  { induction post as [|x post IH]; intros pre t Hsub Ht; simpl.
    - rewrite app_nil_r. by exists t.
    - destruct (Hbody pre x t ltac:(set_solver) Ht) as (u & -> & Hu).
      rewrite (assoc_L (++) pre [x] post : pre ++ x :: post = _).
      apply IH; [set_solver|done]. }
  by apply (Hgen l [] s).
Qed.

(** A loop that does not return stopped at its first step that does not. *)
Lemma foldl_res_cases {A St} (l : list A) (body : St → A → res St) s :
  (∃ s', foldl (λ acc x, t ← acc; body t x) (Ok s) l = Ok s') ∨
  (∃ pre x post t,
     l = pre ++ x :: post ∧
     foldl (λ acc x, t ← acc; body t x) (Ok s) pre = Ok t ∧
     (∀ u, body t x ≠ Ok u) ∧
     foldl (λ acc x, t ← acc; body t x) (Ok s) l = body t x).
Proof.
  induction l as [|x l IH] using rev_ind; [left; by exists s|].
  rewrite foldl_app. simpl.
  destruct IH as [[s' Hs']|(pre & y & post & t & -> & Hpre & Hbad & Hall)].
  - rewrite Hs'. simpl. destruct (body s' x) as [u| |] eqn:E.
    + left. by exists u.
    + right. exists l, x, [], s'. rewrite E. by split_and!.
    + right. exists l, x, [], s'. rewrite E. by split_and!.
  - right. exists pre, y, (post ++ [x]), t.
    split_and!; try done; [by rewrite <- app_assoc|].
    rewrite Hall.
    destruct (body t y) as [u| |]; [by destruct (Hbad u)|done..].
Qed.

Lemma index_add_spec (result : list (gset Z)) p n :
  - Z.of_nat (length result) ≤ p < Z.of_nat (length result) →
  ∃ result', index_add result p n = Ok result' ∧
    length result' = length result ∧
    ∀ (q : nat) s, result !! q = Some s →
      result' !! q
      = Some (if decide (p = Z.of_nat q ∨
                         p = Z.of_nat q - Z.of_nat (length result))
              then s ∪ {[ n ]} else s).
Proof.
  intros Hp. unfold index_add, py_slot.
  destruct (decide (0 ≤ p < _)) as [Hnn|Hneg]; simpl.
  - destruct (lookup_lt_is_Some_2 result (Z.to_nat p) ltac:(lia)) as [s0 E0].
    rewrite E0. simpl. eexists. split; [done|].
    split; [by rewrite length_insert|]. intros q s Hq.
    pose proof (lookup_lt_Some _ _ _ Hq).
    destruct (decide (q = Z.to_nat p)) as [->|Hne].
    + rewrite list_lookup_insert_eq by lia. rewrite decide_True by lia.
      congruence.
    + rewrite list_lookup_insert_ne by done. rewrite decide_False by lia. done.
  - rewrite decide_True by lia. simpl.
    destruct (lookup_lt_is_Some_2 result
                (Z.to_nat (Z.of_nat (length result) + p)) ltac:(lia))
      as [s0 E0].
    rewrite E0. simpl. eexists. split; [done|].
    split; [by rewrite length_insert|]. intros q s Hq.
    pose proof (lookup_lt_Some _ _ _ Hq).
    destruct (decide (q = Z.to_nat (Z.of_nat (length result) + p)))
      as [->|Hne].
    + rewrite list_lookup_insert_eq by lia. rewrite decide_True by lia.
      congruence.
    + rewrite list_lookup_insert_ne by done. rewrite decide_False by lia. done.
Qed.

Lemma index_add_outcome (result : list (gset Z)) p n :
  (- Z.of_nat (length result) ≤ p < Z.of_nat (length result) ∧
   ∃ result', index_add result p n = Ok result' ∧
              length result' = length result) ∨
  (¬ (- Z.of_nat (length result) ≤ p < Z.of_nat (length result)) ∧
   index_add result p n = Raise IndexError).
Proof.
  destruct (decide (- Z.of_nat (length result) ≤ p < Z.of_nat (length result)))
    as [Hin|Hout].
  - left. split; [done|].
    destruct (index_add_spec result p n Hin) as (r' & ? & ? & _). by exists r'.
  - right. split; [done|]. unfold index_add, py_slot.
    rewrite !decide_False by lia. done.
Qed.

Lemma slice_load_range nodes t m nd :
  load (slice nodes t) m = Some nd → 0 ≤ m < na_len t.
Proof.
  intros Hb%load_bound. unfold slice in Hb. rewrite length_take in Hb. lia.
Qed.

Section index_more.
Context (self : Ctrees) (numprods : nat).
Context (Hstored : trees_stored self).

Lemma indextree_spec (result : list (gset Z)) n a :
  length result = numprods →
  load (ct_trees self) n = Some a →
  na_len a ≤ Z.of_nat (length (slice (ct_nodes self) a)) →
  (∀ m nd, load (slice (ct_nodes self) a) m = Some nd → id_in_range numprods (prod nd)) →
  ∃ result', indextree self result n = Ok result' ∧
    length result' = numprods ∧
    ∀ (q : nat) s, result !! q = Some s →
      ∃ s', result' !! q = Some s' ∧
        ∀ n', n' ∈ s' ↔
          n' ∈ s ∨
          (n' = n ∧ ∃ m nd, load (slice (ct_nodes self) a) m = Some nd ∧
             (prod nd = Z.of_nat q ∨
              prod nd = Z.of_nat q - Z.of_nat numprods)).
Proof.
  intros Hlen Ea Hb Hin. unfold indextree. rewrite Ea. simpl.
  pose (J := λ (ms : list Z) (r : list (gset Z)),
    length r = numprods ∧
    ∀ (q : nat) s, result !! q = Some s →
      ∃ s', r !! q = Some s' ∧
        ∀ n', n' ∈ s' ↔
          n' ∈ s ∨
          (n' = n ∧ ∃ m nd, m ∈ ms ∧
             load (slice (ct_nodes self) a) m = Some nd ∧
             (prod nd = Z.of_nat q ∨
              prod nd = Z.of_nat q - Z.of_nat numprods))).
  destruct (foldl_res_total J (seqZ 0 (na_len a))
    (λ result m, nd ← of_option (load (slice (ct_nodes self) a) m);
                 index_add result (prod nd) n) result)
    as (result' & Hfold & Hlen' & HJ).
  - intros pre m r Hm%elem_of_seqZ [Hr HJ].
    destruct (load_is_Some (slice (ct_nodes self) a) m ltac:(lia)) as [nd End].
    rewrite End. simpl.
    destruct (index_add_spec r (prod nd) n) as (r' & -> & Hl' & Hr').
    { rewrite Hr. by eapply Hin. }
    exists r'. split; [done|]. split; [congruence|].
    intros q s Hq. destruct (HJ q s Hq) as (s1 & Es1 & Hs1).
    rewrite (Hr' q s1 Es1). eexists. split; [done|]. intros n'.
    rewrite Hr. destruct (decide _) as [Hhit|Hmiss].
    + rewrite elem_of_union, elem_of_singleton, Hs1. split.
      * intros [[?|(-> & m' & nd' & ? & ? & ?)]| ->]; [by left|right..].
        -- split; [done|]. exists m', nd'. set_solver.
        -- split; [done|]. exists m, nd. set_solver.
      * intros [?|(-> & m' & nd' & [?| ->%list_elem_of_singleton]%elem_of_app
                   & ? & ?)]; [by left; left| |by right].
        left. right. split; [done|]. by exists m', nd'.
    + rewrite Hs1. split.
      * intros [?|(-> & m' & nd' & ? & ? & ?)]; [by left|right].
        split; [done|]. exists m', nd'. set_solver.
      * intros [?|(-> & m' & nd' & [?| ->%list_elem_of_singleton]%elem_of_app
                   & End' & ?)]; [by left| |].
        -- right. split; [done|]. by exists m', nd'.
        -- simplify_eq. lia.
  - split; [done|]. intros q s Hq. exists s. split; [done|]. intros n'.
    split; [by left|]. intros [?|(_ & m & nd & Hm & _)]; [done|].
    by apply elem_of_nil in Hm.
  - exists result'. split; [done|]. split; [done|].
    intros q s Hq. destruct (HJ q s Hq) as (s' & Es' & Hs').
    exists s'. split; [done|]. intros n'. rewrite Hs'. split.
    + intros [?|(-> & m & nd & _ & ? & ?)]; [by left|right].
      split; [done|]. by exists m, nd.
    + intros [?|(-> & m & nd & End & ?)]; [by left|right].
      split; [done|]. exists m, nd. split; [|done].
      apply elem_of_seqZ. apply slice_load_range in End. lia.
Qed.

(** The index that [indextrees] builds. *)
Lemma indextrees_index :
  (∀ n p, 0 ≤ n < ct_len self → has_prod self n p → id_in_range numprods p) →
  ∃ index, indextrees_result self numprods = Ok index ∧
    length index = numprods ∧
    ∀ q : nat, (q < numprods)%nat →
      ∃ s, index !! q = Some s ∧
        ∀ n, n ∈ s ↔
          0 ≤ n < ct_len self ∧
          (has_prod self n (Z.of_nat q) ∨
           has_prod self n (Z.of_nat q - Z.of_nat numprods)).
Proof.
  intros Hin. unfold indextrees_result.
  pose (I := λ (pre : list Z) (r : list (gset Z)),
    length r = numprods ∧
    ∀ q : nat, (q < numprods)%nat →
      ∃ s, r !! q = Some s ∧
        ∀ n, n ∈ s ↔
          n ∈ pre ∧
          (has_prod self n (Z.of_nat q) ∨
           has_prod self n (Z.of_nat q - Z.of_nat numprods))).
  destruct (foldl_res_total I (seqZ 0 (ct_len self))
    (λ result n, indextree self result n) (replicate numprods ∅))
    as (index & Hfold & Hlen & HI).
  - intros pre n r Hn%elem_of_seqZ [Hr HI].
    destruct (Hstored n ltac:(lia)) as (a & Ea & Ho & Hb).
    destruct (indextree_spec r n a Hr Ea Hb) as (r' & -> & Hl' & Hr').
    { intros m nd End. apply (Hin n); [lia|]. by exists a, m, nd. }
    exists r'. split; [done|]. split; [done|]. intros q Hq.
    destruct (HI q Hq) as (s & Es & Hs).
    destruct (Hr' q s Es) as (s' & Es' & Hs').
    exists s'. split; [done|]. intros n'. rewrite Hs', Hs, elem_of_app.
    rewrite list_elem_of_singleton. split.
    + intros [[? ?]|(-> & m & nd & End & [?|?])].
      * split; [by left|done].
      * split; [by right|]. left. by exists a, m, nd.
      * split; [by right|]. right. by exists a, m, nd.
    + intros [[?| ->] Hhas]; [by left|right]. split; [done|].
      destruct Hhas as [(t & m & nd & Et & End & ?)|(t & m & nd & Et & End & ?)];
        simplify_eq; exists m, nd; split; auto.
  - split; [by rewrite length_replicate|]. intros q Hq. exists ∅.
    split; [by apply lookup_replicate_2|]. intros n. split; [set_solver|].
    intros [Hn _]. by apply elem_of_nil in Hn.
  - exists index. split; [done|]. split; [done|]. intros q Hq.
    destruct (HI q Hq) as (s & Es & Hs). exists s. split; [done|].
    intros n. rewrite Hs, elem_of_seqZ. split; intros [? ?]; (split; [lia|done]).
Qed.

(** X4.  On an arena whose tree records point into its pool, if every
    stored production id lies in [-numprods, numprods) then
    [indextrees] returns an index with one set per production, and the set
    at position [q] holds exactly the numbers of the trees with a node of
    production [q], or of production [q - numprods]: a negative id counts
    from the end of the list. *)
Theorem indextrees_exact :
  (∀ n p, 0 ≤ n < ct_len self → has_prod self n p → id_in_range numprods p) →
  ∃ index, indextrees_result self numprods = Ok index ∧
    length index = numprods ∧
    ∀ q : nat, (q < numprods)%nat →
      ∃ s, index !! q = Some s ∧
        ∀ n, n ∈ s ↔
          0 ≤ n < ct_len self ∧
          (has_prod self n (Z.of_nat q) ∨
           has_prod self n (Z.of_nat q - Z.of_nat numprods)).
Proof. apply indextrees_index. Qed.

Lemma indextree_outcome (result : list (gset Z)) n a :
  length result = numprods →
  load (ct_trees self) n = Some a →
  na_len a ≤ Z.of_nat (length (slice (ct_nodes self) a)) →
  (∃ result', indextree self result n = Ok result' ∧
     length result' = numprods ∧
     ∀ m nd, load (slice (ct_nodes self) a) m = Some nd → id_in_range numprods (prod nd)) ∨
  (indextree self result n = Raise IndexError ∧
   ∃ m nd, load (slice (ct_nodes self) a) m = Some nd ∧ ¬ id_in_range numprods (prod nd)).
Proof.
  intros Hlen Ea Hb. unfold indextree. rewrite Ea. simpl.
  set (body := λ (result : list (gset Z)) m,
    nd ← of_option (load (slice (ct_nodes self) a) m);
    index_add result (prod nd) n).
  change (foldl _ (Ok result) (seqZ 0 (na_len a)))
    with (foldl (λ acc x, t ← acc; body t x) (Ok result) (seqZ 0 (na_len a))).
  pose (J := λ (ms : list Z) (r : list (gset Z)),
    length r = numprods ∧
    ∀ m nd, m ∈ ms → load (slice (ct_nodes self) a) m = Some nd →
      id_in_range numprods (prod nd)).
  assert (Hstep : ∀ pre m r r', J pre r → body r m = Ok r' →
            J (pre ++ [m]) r').
  { intros pre m r r' [Hr HJ] Hbody. unfold body in Hbody.
    destruct (load _ m) as [nd|] eqn:End; [|done]. simpl in Hbody.
    destruct (index_add_outcome r (prod nd) n)
      as [(Hp & r2 & E2 & Hl2)|(_ & E2)]; [|congruence].
    rewrite E2 in Hbody. simplify_eq. split; [congruence|].
    intros m' nd' [?| ->%list_elem_of_singleton]%elem_of_app End'; [by eauto|].
    simplify_eq. unfold id_in_range. by rewrite <- Hr. }
  assert (HJ0 : J [] result).
  { split; [done|]. intros m nd Hm. by apply elem_of_nil in Hm. }
  destruct (foldl_res_cases (seqZ 0 (na_len a)) body result)
    as [[r' Hok]|(pre & m & post & t & Hsplit & Hpre & Hbad & Hall)].
  - left. exists r'. split; [done|].
    pose proof (foldl_res_prefix J _ body result r'
                  (λ pre x t t' _, Hstep pre x t t') HJ0 Hok) as [Hl' Hall].
    split; [done|]. intros m nd End. apply (Hall m nd); [|done].
    apply elem_of_seqZ. apply slice_load_range in End. lia.
  - right. rewrite Hall.
    pose proof (foldl_res_prefix J pre body result t
                  (λ pre x t t' _, Hstep pre x t t') HJ0 Hpre) as [Hlt _].
    assert (Hm : m ∈ seqZ 0 (na_len a)) by (rewrite Hsplit; set_solver).
    apply elem_of_seqZ in Hm.
    destruct (load_is_Some (slice (ct_nodes self) a) m ltac:(lia)) as [nd End].
    unfold body in *. rewrite End in *. simpl in *.
    destruct (index_add_outcome t (prod nd) n)
      as [(_ & r2 & E2 & _)|(Hp & E2)]; [by destruct (Hbad r2)|].
    split; [done|]. exists m, nd. split; [done|].
    unfold id_in_range. by rewrite <- Hlt.
Qed.

(** X5.  On an arena whose tree records point into its pool, [indextrees]
    either returns or raises [IndexError], and it raises exactly when some
    tree has a node whose production id lies outside
    [-numprods, numprods). *)
Theorem indextrees_raises :
  ((∃ index, indextrees_result self numprods = Ok index) ∨
   indextrees_result self numprods = Raise IndexError) ∧
  (indextrees_result self numprods = Raise IndexError ↔
   ∃ n p, 0 ≤ n < ct_len self ∧ has_prod self n p ∧ ¬ id_in_range numprods p).
Proof.
  assert (Hmain :
    (∃ index, indextrees_result self numprods = Ok index ∧
       ∀ n p, 0 ≤ n < ct_len self → has_prod self n p → id_in_range numprods p) ∨
    (indextrees_result self numprods = Raise IndexError ∧
     ∃ n p, 0 ≤ n < ct_len self ∧ has_prod self n p ∧ ¬ id_in_range numprods p)).
  { unfold indextrees_result.
    set (body := λ (result : list (gset Z)) n, indextree self result n).
    change (foldl _ (Ok (replicate numprods ∅)) (seqZ 0 (ct_len self)))
      with (foldl (λ acc x, t ← acc; body t x) (Ok (replicate numprods ∅))
              (seqZ 0 (ct_len self))).
    pose (I := λ (pre : list Z) (r : list (gset Z)),
      length r = numprods ∧
      ∀ n p, n ∈ pre → has_prod self n p → id_in_range numprods p).
    assert (Hstep : ∀ pre n r r', n ∈ seqZ 0 (ct_len self) → I pre r →
              body r n = Ok r' → I (pre ++ [n]) r').
    { intros pre n r r' Hn%elem_of_seqZ [Hr HI] Hbody.
      destruct (Hstored n ltac:(lia)) as (a & Ea & Ho & Hb).
      destruct (indextree_outcome r n a Hr Ea Hb)
        as [(r2 & E2 & Hl2 & Hin)|(E2 & _)]; unfold body in Hbody;
        [|congruence].
      rewrite E2 in Hbody. simplify_eq. split; [done|].
      intros n' p [?| ->%list_elem_of_singleton]%elem_of_app Hhas;
        [by eauto|].
      destruct Hhas as (t & m & nd & Et & End & <-). simplify_eq. by eauto. }
    assert (HI0 : I [] (replicate numprods ∅)).
    { split; [by rewrite length_replicate|]. intros n p Hn.
      by apply elem_of_nil in Hn. }
    destruct (foldl_res_cases (seqZ 0 (ct_len self)) body
                (replicate numprods ∅))
      as [[r' Hok]|(pre & n & post & t & Hsplit & Hpre & Hbad & Hall)].
    - left. exists r'. split; [done|].
      pose proof (foldl_res_prefix I _ body _ r' Hstep HI0 Hok) as [_ Hall].
      intros n p Hn. apply Hall. apply elem_of_seqZ. lia.
    - right. rewrite Hall.
      assert (Hpre' : I pre t).
      { revert Hpre. apply (foldl_res_prefix I); [|done].
        intros pre' x u u' Hx. apply Hstep. rewrite Hsplit. set_solver. }
      destruct Hpre' as [Hlt _].
      assert (Hn : n ∈ seqZ 0 (ct_len self)) by (rewrite Hsplit; set_solver).
      apply elem_of_seqZ in Hn.
      destruct (Hstored n ltac:(lia)) as (a & Ea & Ho & Hb).
      unfold body in *.
      destruct (indextree_outcome t n a Hlt Ea Hb)
        as [(r2 & E2 & _)|(E2 & m & nd & End & Hout)];
        [by destruct (Hbad r2)|].
      split; [done|]. exists n, (prod nd). split; [lia|].
      split; [|done]. by exists a, m, nd. }
  split.
  - destruct Hmain as [(index & ? & _)|[? _]]; [left; by exists index|by right].
  - split.
    + intros Hraise. destruct Hmain as [(index & Hok & _)|[_ ?]]; [|done].
      congruence.
    + intros (n & p & Hn & Hhas & Hout).
      destruct Hmain as [(index & _ & Hall)|[? _]]; [|done].
      destruct Hout. by apply (Hall n).
Qed.

End index_more.

(** * Further properties of [addnodes] *)

Lemma store_other {A} (a a' : list A) k x k' :
  store a k x = Some a' → k' ≠ k → load a' k' = load a k'.
Proof.
  intros Hst Hne. rewrite (load_store _ _ _ _ k' Hst). by rewrite decide_False.
Qed.

Lemma addnodes_body_frame source sidx base nodes nm r nodes' k' :
  addnodes_body source sidx base nodes nm = (r, nodes') →
  k' ≠ base + nm.2 →
  load nodes' k' = load nodes k'.
Proof.
  destruct nm as [n m]. unfold addnodes_body. simpl. intros Hb Hne.
  repeat (case_match; simplify_eq/=); try done;
    frame_updates;
    try match goal with
    | Hs : store _ _ _ = Some _ |- _ => by rewrite (store_other _ _ _ _ k' Hs)
    end.
Qed.

Lemma addnodes_loop_frame source sidx base items :
  ∀ nodes r nodes' k',
  (∀ n m, (n, m) ∈ items → 0 ≤ m) →
  addnodes_loop source sidx base nodes items = (r, nodes') →
  k' < base →
  load nodes' k' = load nodes k'.
Proof.
  induction items as [|[n m] items IH]; intros nodes r nodes' k' Hpos Hl Hk;
    cbn [addnodes_loop] in Hl.
  - by simplify_eq.
  - destruct (addnodes_body source sidx base nodes (n, m)) as [r1 nodes1] eqn:E1.
    pose proof (Hpos n m ltac:(left)) as Hm.
    pose proof (addnodes_body_frame _ _ _ _ _ _ _ k' E1 ltac:(simpl; lia)) as Hf.
    destruct r1; simplify_eq; try done.
    rewrite <- Hf. eapply IH; [|done..].
    intros n' m' Hin. apply (Hpos n'). by right.
Qed.

Lemma sortidx_values prods cnt n m :
  sortidx prods cnt !! n = Some m → 0 ≤ m < cnt.
Proof.
  unfold sortidx. intros Hl%elem_of_list_to_map_2.
  apply elem_of_zip_r in Hl. apply elem_of_seqZ in Hl. lia.
Qed.

(** X6.  Whatever [addnodes(source, cnt, root)] does, return or raise, the
    nodes and the records of the trees stored before are as they were and
    the production index is untouched; and unless it returns, the numbers
    of trees and of nodes and [maxnodes] are unchanged, so that what the
    call wrote is not part of the treebank. *)
Theorem addnodes_keeps_earlier
    (junk_node : nat → Node) (junk_tree : nat → NodeArray)
    (dict_items : gmap Z Z → list (Z * Z))
    (self self' : Ctrees) (source : list Node) (cnt root : Z)
    (r : res unit) :
  (∀ d, dict_items d ≡ₚ map_to_list d) →
  arena_wf self → 0 ≤ cnt →
  addnodes junk_node junk_tree dict_items self source cnt root = (r, self') →
  (∀ k, 0 ≤ k < ct_numnodes self →
     load (ct_nodes self') k = load (ct_nodes self) k) ∧
  (∀ k, 0 ≤ k < ct_len self →
     load (ct_trees self') k = load (ct_trees self) k) ∧
  ct_treeswithprod self' = ct_treeswithprod self ∧
  (r ≠ Ok () →
     ct_len self' = ct_len self ∧ ct_numnodes self' = ct_numnodes self ∧
     ct_maxnodes self' = ct_maxnodes self).
Proof.
  intros Hitems Hwf Hcnt Hadd. unfold addnodes in Hadd.
  destruct (decide (ct_max self = 0)) as [|Hmax]; [by simplify_eq|].
  destruct (realloc_room junk_node junk_tree self cnt Hwf Hcnt)
    as (Hwf1 & Hroom & Hleft & Hlen1 & Hnum1 & Hmn1 & Hidx1 & Hnodes1 & Htrees1).
  remember (if decide (ct_len self >= ct_max self ∨ ct_nodesleft self < cnt)
            then realloc junk_node junk_tree self (ct_len self + 1) cnt
            else self) as self1 eqn:Hself1.
  assert (Hn1 : ∀ k, 0 ≤ k < ct_numnodes self →
            load (ct_nodes self1) k = load (ct_nodes self) k).
  { intros k Hk. destruct Hwf as (Hl & _ & _ & _ & ?).
    destruct (load_is_Some (ct_nodes self) k ltac:(lia)) as [x Hx].
    rewrite Hx. by apply Hnodes1. }
  assert (Ht1 : ∀ k, 0 ≤ k < ct_len self →
            load (ct_trees self1) k = load (ct_trees self) k).
  { intros k Hk. destruct Hwf as (_ & Hl & ? & _).
    destruct (load_is_Some (ct_trees self) k ltac:(lia)) as [x Hx].
    rewrite Hx. by apply Htrees1. }
  clear Hself1.
  destruct (prodsintree source cnt) as [prods|]; [|by simplify_eq].
  destruct (addnodes_loop _ _ _ _ _) as [r1 nodes'] eqn:Eloop.
  assert (Hn' : ∀ k, 0 ≤ k < ct_numnodes self →
            load nodes' k = load (ct_nodes self) k).
  { intros k Hk. rewrite <- Hn1 by done.
    eapply addnodes_loop_frame; [|done|lia].
    intros n m Hin. rewrite Hitems in Hin.
    apply elem_of_map_to_list in Hin. apply sortidx_values in Hin. lia. }
  destruct r1 as [[]|e'|]; [|by simplify_eq/=..].
  cbn [with_trees with_nodes ct_trees ct_len ct_numnodes ct_nodes] in Hadd.
  destruct (update (ct_trees self1) _ (set_na_offset _)) as [tr1|] eqn:E1;
    [|by simplify_eq/=].
  cbn [with_trees with_nodes ct_trees ct_len ct_numnodes ct_nodes] in Hadd.
  assert (Ht2 : ∀ k, 0 ≤ k < ct_len self →
            load tr1 k = load (ct_trees self) k).
  { intros k Hk. rewrite <- Ht1 by done.
    by rewrite (update_other _ _ _ _ k E1) by lia. }
  destruct (_ ← py_getitem _ root; _) as [rt|e'|] eqn:Ert;
    [|by simplify_eq/=..].
  destruct (update tr1 _ (set_na_root _)) as [tr2|] eqn:E2;
    [|by simplify_eq/=].
  cbn [with_trees with_nodes ct_trees ct_len ct_numnodes ct_nodes] in Hadd.
  destruct (update tr2 _ (set_na_len _)) as [tr3|] eqn:E3;
    [|simplify_eq/=; split_and!; try done; intros k Hk; rewrite <- Ht2 by done;
      by rewrite (update_other _ _ _ _ k E2) by lia].
  simplify_eq/=. split_and!; try done.
  intros k Hk. rewrite <- Ht2 by done.
  rewrite (update_other _ _ _ _ k E3) by lia.
  by rewrite (update_other _ _ _ _ k E2) by lia.
Qed.

(** * Further properties of the dict of fragments *)

Lemma for_each_total {A St} (I : list A → St → Prop) (l : list A)
    (body : A → St → res St) s :
  (∀ pre x t, x ∈ l → I pre t → ∃ t', body x t = Ok t' ∧ I (pre ++ [x]) t') →
  I [] s →
  ∃ s', for_each l s body = Ok s' ∧ I l s'.
Proof.
  intros Hbody Hs.
  assert (Hgen : ∀ post pre t, post ⊆ l → I pre t →
    ∃ s', for_each post t body = Ok s' ∧ I (pre ++ post) s').
  { induction post as [|x post IH]; intros pre t Hsub Ht; simpl.
    - rewrite app_nil_r. by exists t.
    - destruct (Hbody pre x t ltac:(set_solver) Ht) as (u & -> & Hu). simpl.
      rewrite (assoc_L (++) pre [x] post : pre ++ x :: post = _).
      apply IH; [set_solver|done]. }
  by apply (Hgen l [] s).
Qed.

Lemma for_each_prefix {A St} (I : list A → St → Prop) (l : list A)
    (body : A → St → res St) s s' :
  (∀ pre x t t', x ∈ l → I pre t → body x t = Ok t' → I (pre ++ [x]) t') →
  I [] s → for_each l s body = Ok s' → I l s'.
Proof.
  intros Hbody Hs.
  assert (Hgen : ∀ post pre t, post ⊆ l → I pre t →
    for_each post t body = Ok s' → I (pre ++ post) s').
  { induction post as [|x post IH]; intros pre t Hsub Ht Hf; simpl in Hf.
    - rewrite app_nil_r. by simplify_eq.
    - destruct (body x t) as [u| |] eqn:E; [|done..]. simpl in Hf.
      rewrite (assoc_L (++) pre [x] post : pre ++ x :: post = _).
      apply (IH _ u); [set_solver| |done].
      apply (Hbody pre x t); [set_solver|done..]. }
  by apply (Hgen l [] s).
Qed.

Section dict_more.
Context (junk_word : nat → Z) (junk_at : Z → nat → Z).
Context (iter_ints : gset Z → list Z) (iter_bitsets : gset Bitset → list Bitset).
Context {L Sent K : Type} `{Countable K}.
Context (fragkey : list Node → Bitset → list L → Sent → bool → res K).
Context (contentword lexical : L → bool).

(** X7.  In the mode [approx], on a dict that holds counts, when a key can
    be built for every bitset of [inter]: [collectfragments] returns a
    dict that holds counts, and the count of every key has grown by the
    number of bitsets of [inter] with that key. *)
Theorem collectfragments_counts (fragments : gmap K fragval)
    (inter : gset Bitset) (anodes : list Node) (asent : Sent)
    (labels : list L) (discontinuous : bool) :
  (∀ s, iter_bitsets s ≡ₚ elements s) →
  (∀ k v, fragments !! k = Some v → ∃ c, v = Count c) →
  (∀ w, w ∈ inter →
     ∃ k, fragkey anodes w labels asent discontinuous = Ok k) →
  ∃ result,
    collectfragments iter_bitsets fragkey fragments inter anodes asent labels
      discontinuous true = Ok result ∧
    (∀ k v, result !! k = Some v → ∃ c, v = Count c) ∧
    ∀ k, count_of result k
         = count_of fragments k
           + Z.of_nat (length (filter
               (λ w, keyed_as (fragkey anodes w labels asent discontinuous) k
                     = true)
               (elements inter))).
Proof.
  intros Hiter Hcounts Hkeys. unfold collectfragments.
  pose (I := λ (pre : list Bitset) (f : gmap K fragval),
    (∀ k v, f !! k = Some v → ∃ c, v = Count c) ∧
    ∀ k, count_of f k
         = count_of fragments k
           + Z.of_nat (length (filter
               (λ w, keyed_as (fragkey anodes w labels asent discontinuous) k
                     = true) pre))).
  destruct (for_each_total I (iter_bitsets inter)
    (λ wrapper fragments,
       frag ← fragkey anodes wrapper labels asent discontinuous;
       match fragments !! frag with
       | Some (Count c) => Ok (<[frag := Count (c + 1)]> fragments)
       | Some (Repr _) => Raise TypeError
       | None => Ok (<[frag := Count 1]> fragments)
       end) fragments) as (result & Hfor & Hall & Hcnt).
  - intros pre w f Hw [Hf Hc]. rewrite Hiter in Hw.
    apply elem_of_elements in Hw. destruct (Hkeys w Hw) as [frag Efrag].
    rewrite Efrag. cbn [mbind res_bind].
    assert (Hstep : ∀ c', count_of f frag + 1 = c' →
      I (pre ++ [w]) (<[frag := Count c']> f)).
    { intros c' Hc'. split.
      - intros k v Hk. destruct (decide (k = frag)) as [->|Hne].
        + rewrite lookup_insert_eq in Hk. simplify_eq. by eexists.
        + rewrite lookup_insert_ne in Hk by done. by eapply Hf.
      - intros k. rewrite filter_app, length_app, filter_cons, filter_nil.
        unfold count_of at 1. destruct (decide (k = frag)) as [->|Hne].
        + rewrite lookup_insert_eq. rewrite decide_True.
          2:{ rewrite Efrag. simpl. by apply bool_decide_eq_true. }
          simpl. rewrite <- Hc', Hc. lia.
        + rewrite lookup_insert_ne by done. rewrite decide_False.
          2:{ rewrite Efrag. simpl. rewrite bool_decide_eq_true. congruence. }
          simpl. fold (count_of f k). rewrite Hc. lia. }
    destruct (f !! frag) as [[c|w']|] eqn:Ef.
    + eexists. split; [done|]. apply Hstep. unfold count_of. by rewrite Ef.
    + destruct (Hf frag _ Ef) as [c ?]. done.
    + eexists. split; [done|]. apply Hstep. unfold count_of. by rewrite Ef.
  - split; [done|]. intros k. rewrite filter_nil. simpl. lia.
  - exists result. split; [done|]. split; [done|]. intros k.
    rewrite Hcnt. do 2 f_equal. apply Permutation_length.
    by rewrite Hiter.
Qed.

(** X8.  Without [approx], [collectfragments] never replaces an entry:
    when it returns, the entries the dict had are as they were, every new
    entry holds a bitset of [inter] under the key built for it, and the key
    of every bitset of [inter] is in the dict. *)
Theorem collectfragments_keeps_first (fragments result : gmap K fragval)
    (inter : gset Bitset) (anodes : list Node) (asent : Sent)
    (labels : list L) (discontinuous : bool) :
  (∀ s, iter_bitsets s ≡ₚ elements s) →
  collectfragments iter_bitsets fragkey fragments inter anodes asent labels
    discontinuous false = Ok result →
  (∀ k v, fragments !! k = Some v → result !! k = Some v) ∧
  (∀ k v, result !! k = Some v → fragments !! k = None →
     ∃ w, v = Repr w ∧ w ∈ inter ∧
          fragkey anodes w labels asent discontinuous = Ok k) ∧
  (∀ w, w ∈ inter →
     ∃ k, fragkey anodes w labels asent discontinuous = Ok k ∧
          is_Some (result !! k)).
Proof.
  intros Hiter. unfold collectfragments.
  pose (I := λ (pre : list Bitset) (f : gmap K fragval),
    (∀ k v, fragments !! k = Some v → f !! k = Some v) ∧
    (∀ k v, f !! k = Some v → fragments !! k = None →
       ∃ w, v = Repr w ∧ w ∈ pre ∧
            fragkey anodes w labels asent discontinuous = Ok k) ∧
    (∀ w, w ∈ pre →
       ∃ k, fragkey anodes w labels asent discontinuous = Ok k ∧
            is_Some (f !! k))).
  intros Hfor. apply (for_each_prefix I) in Hfor.
  - destruct Hfor as (Hkeep & Hnew & Hall). split; [done|]. split.
    + intros k v Hk Hnone. destruct (Hnew k v Hk Hnone) as (w & ? & Hw & ?).
      exists w. split_and!; [done| |done].
      rewrite Hiter in Hw. by apply elem_of_elements in Hw.
    + intros w Hw. apply Hall. rewrite Hiter. by apply elem_of_elements.
  - intros pre w f f' _ (Hkeep & Hnew & Hall) Hbody.
    destruct (fragkey anodes w labels asent discontinuous) as [frag| |] eqn:Ek;
      [|done..].
    cbn [mbind res_bind] in Hbody.
    destruct (f !! frag) as [v0|] eqn:Ef; injection Hbody as <-.
    + split_and!; [done| |].
      * intros k v Hk Hnone. destruct (Hnew k v Hk Hnone) as (w' & ? & ? & ?).
        exists w'. split_and!; [done|set_solver|done].
      * intros w' [?| ->%list_elem_of_singleton]%elem_of_app; [by eauto|].
        exists frag. by rewrite Ef.
    + split_and!.
      * intros k v Hk. rewrite lookup_insert_ne; [by apply Hkeep|].
        intros ->. specialize (Hkeep _ _ Hk). congruence.
      * intros k v Hk Hnone. destruct (decide (k = frag)) as [->|Hne].
        -- rewrite lookup_insert_eq in Hk. simplify_eq.
           exists w. split_and!; [done|set_solver|done].
        -- rewrite lookup_insert_ne in Hk by done.
           destruct (Hnew k v Hk Hnone) as (w' & ? & ? & ?).
           exists w'. split_and!; [done|set_solver|done].
      * intros w' [Hw'| ->%list_elem_of_singleton]%elem_of_app.
        -- destruct (Hall w' Hw') as (k & ? & Hs). exists k. split; [done|].
           destruct (decide (k = frag)) as [->|Hne].
           ++ by rewrite lookup_insert_eq.
           ++ by rewrite lookup_insert_ne.
        -- exists frag. by rewrite lookup_insert_eq.
  - split_and!; [done| |].
    + intros k v Hk Hnone. congruence.
    + intros w Hw. by apply elem_of_nil in Hw.
Qed.

Lemma collectfragments_mode fragments inter anodes asent labels discontinuous
    approx result :
  collectfragments iter_bitsets fragkey fragments inter anodes asent labels
    discontinuous approx = Ok result →
  values_of_mode approx fragments → values_of_mode approx result.
Proof.
  unfold collectfragments. intros Hc Hfr. revert Hc.
  apply (for_each_ind (values_of_mode approx)); [|done].
  intros w f f' _ Hf Hbody.
  destruct (fragkey _ _ _ _ _) as [frag| |]; [|done..].
  cbn [mbind res_bind] in Hbody. destruct approx.
  - destruct (f !! frag) as [[c|w']|] eqn:Ef; [|done|]; injection Hbody as <-;
      intros k v Hk; (destruct (decide (k = frag)) as [->|Hne];
        [rewrite lookup_insert_eq in Hk; simplify_eq
        |rewrite lookup_insert_ne in Hk by done; by eapply (Hf k)]).
    + destruct (Hf _ _ Ef) as (c' & ? & ?). simplify_eq.
      eexists. split; [done|lia].
    + eexists. split; [done|lia].
  - destruct (f !! frag) as [v|] eqn:Ef; injection Hbody as <-; [done|].
    intros k v Hk. destruct (decide (k = frag)) as [->|Hne].
    + rewrite lookup_insert_eq in Hk. simplify_eq. by eexists.
    + rewrite lookup_insert_ne in Hk by done. by eapply (Hf k).
Qed.

(** X9.  The dict that [extractfragments] returns holds what its mode
    says: with [approx] every value is a count of at least 1, without it
    every value is a bitset. *)
Theorem extractfragments_values (trees1 : Ctrees) (sents1 : list Sent)
    (offset end_ : Z) (labels : list L) (trees2 : option Ctrees)
    (sents2 : option (list Sent))
    (approx discontinuous complement twoterms adjacent : bool)
    (fragments : gmap K fragval) :
  extractfragments junk_word junk_at iter_ints iter_bitsets fragkey contentword
    lexical trees1 sents1 offset end_ labels trees2 sents2 approx discontinuous
    complement twoterms adjacent = Ok fragments →
  values_of_mode approx fragments.
Proof.
  unfold extractfragments. intros Hx.
  destruct (for_each _ _ _) as [st| |] eqn:Ef; [|done..].
  cbn [mbind res_bind] in Hx. injection Hx as <-.
  revert Ef.
  apply (for_each_ind (λ st : DriverState,
           values_of_mode approx (dr_fragments st))).
  - intros n t t' _ Hfr Hbody. unfold extractfragments_body in Hbody.
    destruct (load _ n) as [a|]; [|done].
    cbn [of_option mbind res_bind] in Hbody.
    destruct (py_index sents1 n) as [asent| |]; [|done..].
    cbn [mbind res_bind] in Hbody.
    match type of Hbody with
    | (?pairs ≫= _) = _ => destruct pairs as [[pst start]| |]; [|done..]
    end.
    cbn [mbind res_bind] in Hbody.
    destruct (collectfragments _ _ _ _ _ _ _ _ _) as [fr| |] eqn:Ec; [|done..].
    cbn [mbind res_bind] in Hbody. injection Hbody as <-. simpl.
    by eapply collectfragments_mode.
  - simpl. intros k v Hk. by rewrite lookup_empty in Hk.
Qed.

End dict_more.

(** * Further properties of the candidates *)

(** X10.  When [twoterminals] returns, its result holds exactly the trees
    that the index lists both under a content-word terminal of the tree and
    under another, lexical, terminal of it. *)
Theorem twoterminals_exact (a : NodeArray) (anodes : list Node)
    (trees2 : Ctrees) (contentwordprods lexicalprods candidates : gset Z) :
  twoterminals a anodes trees2 contentwordprods lexicalprods = Ok candidates →
  ∀ m, m ∈ candidates ↔
    ∃ i j, 0 ≤ i < na_len a ∧ 0 ≤ j < na_len a ∧
      shares_terminals anodes trees2 contentwordprods lexicalprods i j m.
Proof.
  unfold twoterminals. intros Hfor.
  pose (I := λ (pre : list Z) (c : gset Z),
    ∀ m, m ∈ c ↔
      ∃ i j, i ∈ pre ∧ 0 ≤ j < na_len a ∧
        shares_terminals anodes trees2 contentwordprods lexicalprods i j m).
  apply (for_each_prefix I) in Hfor.
  - intros m. rewrite (Hfor m). split.
    + intros (i & j & Hi%elem_of_range & ? & ?). exists i, j. auto.
    + intros (i & j & ? & ? & ?). exists i, j. split; [|done].
      apply elem_of_range. lia.
  - intros pre i c c' _ Hc Hbody.
    destruct (load anodes i) as [ai|] eqn:Eai; [|done].
    cbn [of_option mbind res_bind] in Hbody.
    assert (Hskip : (left ai >= 0 ∨ prod ai ∉ contentwordprods) → I (pre ++ [i]) c).
    { intros Hno m. rewrite (Hc m). split.
      - intros (i' & j & ? & ? & ?). exists i', j. split; [set_solver|done].
      - intros (i' & j & [?| ->%list_elem_of_singleton]%elem_of_app & ? & Hsh).
        + by exists i', j.
        + destruct Hsh as (ai' & aj & tmp & other & _ & ? & _ & ? & ? & _).
          simplify_eq. destruct Hno; [lia|done]. }
    destruct (decide _) as [Hno|Hyes]; [injection Hbody as <-; by apply Hskip|].
    assert (Hterm : left ai < 0).
    { destruct (decide (left ai < 0)); [done|]. destruct Hyes. left. lia. }
    assert (Hcw : prod ai ∈ contentwordprods).
    { destruct (decide (prod ai ∈ contentwordprods)); [done|].
      destruct Hyes. by right. }
    destruct (treeswithprod_at trees2 (prod ai)) as [tmp| |] eqn:Etmp;
      [|done..].
    cbn [mbind res_bind] in Hbody.
    pose (J := λ (pre' : list Z) (c1 : gset Z),
      ∀ m, m ∈ c1 ↔
        m ∈ c ∨
        ∃ j, j ∈ pre' ∧
          shares_terminals anodes trees2 contentwordprods lexicalprods i j m).
    apply (for_each_prefix J) in Hbody.
    + intros m. rewrite (Hbody m), (Hc m). split.
      * intros [(i' & j & ? & ? & ?)|(j & Hj%elem_of_range & ?)].
        -- exists i', j. split; [set_solver|done].
        -- exists i, j. split; [set_solver|]. split; [lia|done].
      * intros (i' & j & [?| ->%list_elem_of_singleton]%elem_of_app & ? & ?).
        -- left. by exists i', j.
        -- right. exists j. split; [|done]. apply elem_of_range. lia.
    + intros pre' j c1 c2 _ Hc1 Hb.
      destruct (load anodes j) as [aj|] eqn:Eaj; [|done].
      cbn [of_option mbind res_bind] in Hb.
      destruct (decide _) as [(Hij & Hlex & Hin)|Hno].
      * destruct (treeswithprod_at trees2 (prod aj)) as [other| |] eqn:Eo;
          [|done..].
        cbn [mbind res_bind] in Hb. injection Hb as <-. intros m.
        rewrite elem_of_union, elem_of_intersection, (Hc1 m). split.
        -- intros [[?|(j' & ? & ?)]|[? ?]]; [by left|right..].
           ++ exists j'. split; [set_solver|done].
           ++ exists j. split; [set_solver|].
              exists ai, aj, tmp, other. split_and!; try done; lia.
        -- intros [?|(j' & [?| ->%list_elem_of_singleton]%elem_of_app & Hsh)].
           ++ by left; left.
           ++ left. right. by exists j'.
           ++ right.
              destruct Hsh as (ai' & aj' & tmp' & other' & _ & ? & ? & _ & _
                               & _ & _ & ? & ? & ? & ?).
              assert (ai' = ai) as -> by congruence.
              assert (aj' = aj) as -> by congruence.
              assert (tmp' = tmp) as -> by congruence.
              assert (other' = other) as -> by congruence. done.
      * injection Hb as <-. intros m. rewrite (Hc1 m). split.
        -- intros [?|(j' & ? & ?)]; [by left|right].
           exists j'. split; [set_solver|done].
        -- intros [?|(j' & [?| ->%list_elem_of_singleton]%elem_of_app & Hsh)];
             [by left|right; by exists j'|].
           destruct Hsh as (ai' & aj' & tmp' & other' & ? & ? & ? & _ & _
                            & ? & ? & _).
           assert (aj' = aj) as -> by congruence.
           destruct Hno. split_and!; [done|lia|done].
    + intros m. split; [by left|]. intros [?|(j & Hj & _)]; [done|].
      by apply elem_of_nil in Hj.
  - intros m. split; [set_solver|]. intros (i & j & Hi & _).
    by apply elem_of_nil in Hi.
Qed.

(** * Further properties of the counts *)

Lemma multiset_total_hit m ms :
  multiset_total (index_hit m ms) = multiset_total ms + 1.
Proof.
  unfold multiset_total, index_hit.
  assert (Hcomm : ∀ (mm : gmap Z Z) (j1 j2 z1 z2 y : Z),
    j1 ≠ j2 → mm !! j1 = Some z1 → mm !! j2 = Some z2 →
    z1 + (z2 + y) = z2 + (z1 + y)) by (intros; lia).
  destruct (ms !! m) as [v|] eqn:E; simpl.
  - rewrite <- insert_delete_eq.
    rewrite map_fold_insert_L; [|by eauto|by rewrite lookup_delete_eq].
    rewrite (map_fold_delete_L _ _ m v ms); [lia|by eauto|done].
  - rewrite map_fold_insert_L; [lia|by eauto|done].
Qed.

Section two_modes.
Context (iter_ints : gset Z → list Z).
Context {Acc1 Acc2 : Type} (hit1 : Z → Acc1 → Acc1) (hit2 : Z → Acc2 → Acc2).
Context (R : Acc1 → Acc2 → Prop).
Context (Hhit : ∀ m acc1 acc2, R acc1 acc2 → R (hit1 m acc1) (hit2 m acc2)).

Lemma exactcounts_tree_agree js anodes bnodes bitset i m : ∀ acc1 acc2,
  R acc1 acc2 →
  agree R
    (of_option (exactcounts_tree hit1 js anodes bnodes bitset i m acc1))
    (of_option (exactcounts_tree hit2 js anodes bnodes bitset i m acc2)).
Proof.
  induction js as [|j js IH]; intros acc1 acc2 Hacc; simpl; [done|].
  destruct (load anodes i) as [ai|]; [|done]. simpl.
  destruct (load bnodes j) as [bj|]; [|done]. simpl.
  destruct (decide (prod ai = prod bj)).
  - destruct (containsbitset _ _ _ _ _ _) as [[|]|]; simpl; [| |done].
    + apply IH. by apply Hhit.
    + by apply IH.
  - destruct (decide (prod ai < prod bj)); [done|]. by apply IH.
Qed.

Lemma for_each_agree {A} (l : list A) (body1 : A → Acc1 → res Acc1)
    (body2 : A → Acc2 → res Acc2) :
  (∀ x acc1 acc2, R acc1 acc2 → agree R (body1 x acc1) (body2 x acc2)) →
  ∀ acc1 acc2, R acc1 acc2 →
  agree R (for_each l acc1 body1) (for_each l acc2 body2).
Proof.
  intros Hbody. induction l as [|x l IH]; intros acc1 acc2 Hacc; simpl;
    [done|].
  specialize (Hbody x acc1 acc2 Hacc).
  destruct (body1 x acc1) as [u1|e1|], (body2 x acc2) as [u2|e2|]; try done.
  simpl. by apply IH.
Qed.

Lemma exactcounts_one_agree trees1 trees2 SLOTS wrapper acc1 acc2 :
  R acc1 acc2 →
  agree R (exactcounts_one iter_ints hit1 trees1 trees2 SLOTS wrapper acc1)
          (exactcounts_one iter_ints hit2 trees1 trees2 SLOTS wrapper acc2).
Proof.
  intros Hacc. unfold exactcounts_one.
  destruct (getid wrapper SLOTS) as [id|]; [|done].
  cbn [of_option mbind res_bind].
  destruct (load (ct_trees trees1) id) as [a|]; [|done].
  cbn [of_option mbind res_bind].
  destruct (load (bits wrapper) 0) as [cur|]; [|done].
  cbn [of_option mbind res_bind].
  destruct (iteratesetbits _ _ _ _ _ _) as [[[i cur'] idx]|]; [|done].
  cbn [of_option mbind res_bind].
  destruct (decide (i = -1)); [done|].
  destruct (load _ i) as [ai|]; [|done].
  cbn [of_option mbind res_bind].
  destruct (treeswithprod_at trees2 (prod ai)) as [first|e|]; [|done..].
  cbn [mbind res_bind].
  destruct (exactcounts_candidates _ _ _ _ _ _ _ _ _) as [cands|e|];
    [|done..].
  cbn [mbind res_bind].
  destruct (getroot wrapper SLOTS) as [rt|]; [|done].
  cbn [of_option mbind res_bind].
  apply for_each_agree; [|done].
  intros m u1 u2 Hu.
  destruct (load (ct_trees trees2) m) as [b|]; [|done].
  cbn [of_option mbind res_bind].
  by apply exactcounts_tree_agree.
Qed.

End two_modes.

(** X11.  The two modes of [exactcounts] end alike on the same arguments:
    both raise the same exception, or both return, and then the count of
    every fragment is the number of elements of its multiset of tree
    numbers, modulo 2^32. *)
Theorem exactcounts_totals_indices (iter_ints : gset Z → list Z)
    (trees1 trees2 : Ctrees) (bitsets : list Bitset) :
  agree (Forall2 (λ c ms, c = multiset_total ms `mod` 2 ^ 32))
    (exactcounts iter_ints trees1 trees2 bitsets)
    (exactindices iter_ints trees1 trees2 bitsets).
Proof.
  unfold exactcounts, exactindices.
  set (SLOTS := BITNSLOTS _).
  set (R0 := λ (c : Z) (ms : gmap Z Z), c = multiset_total ms `mod` 2 ^ 32).
  apply (for_each_agree (Forall2 R0)); [|by constructor].
  intros w counts idxs Hrel.
  assert (Hhit : ∀ m c ms, R0 c ms → R0 (count_hit m c) (index_hit m ms)).
  { intros m c ms ->. unfold R0, count_hit.
    by rewrite multiset_total_hit, Zplus_mod_idemp_l. }
  assert (H0 : R0 0 ∅) by done.
  pose proof (exactcounts_one_agree iter_ints count_hit index_hit R0
                Hhit trees1 trees2 SLOTS w 0 ∅ H0) as Hone.
  destruct (exactcounts_one iter_ints count_hit _ _ _ _ _) as [c|e|],
    (exactcounts_one iter_ints index_hit _ _ _ _ _) as [ms|e'|];
    try done; simpl.
  apply Forall2_app; [done|]. by constructor.
Qed.

(** * Further properties of the kernel *)

Section kernel_any.
Context (a b : list Node) (SLOTS : Z).
Context (Hslots : Z.of_nat (length a) ≤ 64 * SLOTS).

Local Abbreviation alen := (Z.of_nat (length a)).
Local Abbreviation blen := (Z.of_nat (length b)).

Lemma adds_refl m : adds_same_prod a b SLOTS m m.
Proof. split_and!; [done|auto..]. Qed.

Lemma adds_trans m1 m2 m3 :
  adds_same_prod a b SLOTS m1 m2 → adds_same_prod a b SLOTS m2 m3 →
  adds_same_prod a b SLOTS m1 m3.
Proof.
  intros (Hl1 & Hk1 & Hn1) (Hl2 & Hk2 & Hn2). split_and!; [congruence|auto|].
  intros k n Hn Hb. destruct (Hn2 k n Hn Hb) as [?|?]; [auto|by right].
Qed.

Lemma adds_SETBIT m m' i j :
  same_prod a b i j → SETBIT m (j * SLOTS) i = Some m' →
  adds_same_prod a b SLOTS m m'.
Proof.
  intros Hs (Hi & Hk & Hlen & Hbits)%SETBIT_Some. split_and!; [done| |].
  - intros k n Hn Hb. rewrite Hbits by done. by rewrite Hb.
  - intros k n Hn. rewrite Hbits by done.
    intros [?|[-> ->]%bool_decide_eq_true]%orb_true_iff; [by left|right].
    by exists i, j.
Qed.

Lemma ftk_run_any fuel : ∀ m j ii,
  0 ≤ ii < alen → 0 ≤ j < blen → alen - ii < Z.of_nat fuel →
  blen * SLOTS ≤ Z.of_nat (length m) →
  ∃ m', ftk_run fuel a b alen SLOTS m j ii = Some m' ∧
        adds_same_prod a b SLOTS m m'.
Proof.
  induction fuel as [|fuel IH]; intros m j ii Hii Hj Hf Hlen; [lia|].
  destruct (load_is_Some a ii Hii) as [an Ean].
  destruct (load_is_Some b j Hj) as [bn Ebn].
  simpl. rewrite Ean, Ebn. simpl.
  destruct (decide (prod an = prod bn)) as [Heq|Hne].
  - assert (Hs : same_prod a b ii j) by (exists an, bn; done).
    pose proof (cell_in_range SLOTS blen ii j) as Hk.
    destruct (SETBIT_is_Some m (j * SLOTS) ii) as [m1 E1]; [lia..|].
    rewrite E1. simpl.
    pose proof (adds_SETBIT _ _ _ _ Hs E1) as Hm1.
    destruct (decide (ii + 1 >= alen)) as [Hend|Hmore]; [by exists m1|].
    destruct (IH m1 j (ii + 1)) as (m' & E' & Hm'); [lia..| |].
    { destruct Hm1 as [-> _]. done. }
    exists m'. split; [done|]. by eapply adds_trans.
  - exists m. split; [done|]. apply adds_refl.
Qed.

Lemma ftk_block_any fuel : ∀ m i j,
  0 ≤ i < alen → 0 ≤ j < blen → blen - j < Z.of_nat fuel →
  blen * SLOTS ≤ Z.of_nat (length m) →
  ∃ m' r, ftk_block fuel a b alen blen SLOTS m i j = Some (m', r) ∧
          adds_same_prod a b SLOTS m m' ∧
          ∀ j', r = Some j' →
            j ≤ j' < blen ∧ (same_prod a b i j → j < j').
Proof.
  induction fuel as [|fuel IH]; intros m i j Hi Hj Hf Hlen; [lia|].
  destruct (load_is_Some a i Hi) as [an Ean].
  destruct (load_is_Some b j Hj) as [bn Ebn].
  cbn [ftk_block]. rewrite Ean, Ebn. cbn [mbind option_bind].
  destruct (decide (prod an = prod bn)) as [Heq|Hne].
  - destruct (ftk_run_any (S (Z.to_nat alen)) m j i) as (m1 & E1 & Hm1);
      [lia..|].
    rewrite E1. cbn [mbind option_bind].
    destruct (decide (j + 1 >= blen)) as [Hend|Hmore].
    + exists m1, None. split_and!; [done..|]. intros j' [=].
    + destruct (IH m1 i (j + 1)) as (m' & r & E' & Hm' & Hr); [lia..| |].
      { destruct Hm1 as [-> _]. done. }
      exists m', r. split_and!; [done|by eapply adds_trans|].
      intros j' Hj'. destruct (Hr j' Hj') as [? _]. split; [lia|]. lia.
  - exists m, (Some j). split_and!; [done|apply adds_refl|].
    intros j' [= <-]. split; [lia|].
    intros (an' & bn' & ? & ? & ?). simplify_eq.
Qed.

Lemma ftk_loop_any fuel : ∀ m i j,
  0 ≤ i < alen → 0 ≤ j < blen →
  (alen - i) + (blen - j) ≤ Z.of_nat fuel →
  blen * SLOTS ≤ Z.of_nat (length m) →
  ∃ m', ftk_loop fuel a b alen blen SLOTS m i j = Some m' ∧
        adds_same_prod a b SLOTS m m'.
Proof.
  induction fuel as [|fuel IH]; intros m i j Hi Hj Hf Hlen; [lia|].
  destruct (load_is_Some a i Hi) as [an Ean].
  destruct (load_is_Some b j Hj) as [bn Ebn].
  cbn [ftk_loop]. rewrite Ean, Ebn. cbn [mbind option_bind].
  destruct (decide (prod an < prod bn)) as [Hlt|Hge].
  { destruct (decide (i + 1 >= alen)); [exists m; split; [done|apply adds_refl]|].
    apply IH; lia. }
  destruct (decide (prod an > prod bn)) as [Hgt|Hle].
  { destruct (decide (j + 1 >= blen)); [exists m; split; [done|apply adds_refl]|].
    apply IH; lia. }
  destruct (ftk_block_any (S (Z.to_nat blen)) m i j) as (m1 & r & E1 & Hm1 & Hr);
    [lia..|].
  rewrite E1. cbn [mbind option_bind].
  destruct r as [j'|]; [|by exists m1].
  destruct (Hr j' eq_refl) as [Hj' Hadv].
  specialize (Hadv ltac:(exists an, bn; split_and!; [done..|lia])).
  destruct (IH m1 i j') as (m' & E' & Hm'); [lia..| |].
  { destruct Hm1 as [-> _]. done. }
  exists m'. split; [done|]. by eapply adds_trans.
Qed.

(** X12.  For any two non-empty node arrays, sorted or not, with room in
    the matrix, [fasttreekernel] returns, and the matrix it leaves has the
    bits of the matrix it was given and, besides, only cells of pairs of
    nodes with equal productions. *)
Theorem fasttreekernel_only_equal_prods (m : list Z) :
  0 < alen → 0 < blen →
  blen * SLOTS ≤ Z.of_nat (length m) →
  ∃ m', fasttreekernel a b alen blen m SLOTS = Some m' ∧
        adds_same_prod a b SLOTS m m'.
Proof.
  intros Ha Hb Hlen. unfold fasttreekernel. apply ftk_loop_any; lia.
Qed.

End kernel_any.

(** * Further properties of the extraction *)

Lemma SETBIT_gbit r i r' g :
  SETBIT r 0 i = Some r' → gbit r' g = gbit r g || bool_decide (g = i).
Proof.
  intros (Hi & Hk & Hlen & Hbits)%SETBIT_Some. unfold gbit.
  destruct (decide (0 ≤ g)) as [Hg|Hg].
  - rewrite Hbits by (apply Z.mod_pos_bound; lia). f_equal.
    apply bool_decide_ext. split; [|by intros ->].
    intros [Hd Hm]. rewrite (Z.div_mod g 64), (Z.div_mod i 64) by lia. lia.
  - assert (g `div` 64 < 0) by (apply Z.div_lt_upper_bound; lia).
    unfold wbit, load. rewrite !decide_False by lia.
    rewrite bool_decide_eq_false_2 by lia. done.
Qed.

Lemma linked_grows a r r' i g :
  (∀ g, gbit r g = true → gbit r' g = true) →
  linked a r i g → linked a r' i g.
Proof.
  intros Hsub. induction 1 as [i ?|i ai g ? ? ? _ IH|i ai g ? ? ? ? _ IH].
  - apply linked_here. auto.
  - eapply linked_left; eauto.
  - eapply linked_right; eauto.
Qed.

(** The bits that [extractat] adds hang together. *)
Lemma extractat_linked fuel :
  ∀ m r a b i j SLOTS t m' r',
  extractat fuel m r a b i j SLOTS = Some (t, m', r') →
  ∀ g, gbit r' g = true → gbit r g = true ∨ linked a r' i g.
Proof.
  induction fuel as [|fuel IH]; intros m r a b i j SLOTS t m' r' Hx; [done|].
  cbn [extractat] in Hx.
  destruct (SETBIT r 0 i) as [r1|] eqn:Eset; [|done].
  pose proof (λ g, SETBIT_gbit r i r1 g Eset) as Hr1.
  assert (Hi1 : gbit r1 i = true).
  { rewrite Hr1, bool_decide_eq_true_2 by done. by rewrite orb_true_r. }
  cbn [mbind option_bind] in Hx.
  destruct (CLEARBIT m _ i) as [m1|]; [|done]. cbn [mbind option_bind] in Hx.
  destruct (load a i) as [ai|] eqn:Eai; [|done]. cbn [mbind option_bind] in Hx.
  assert (Hbase : ∀ g, gbit r1 g = true → gbit r g = true ∨ g = i).
  { intros g. rewrite Hr1.
    intros [?| ->%bool_decide_eq_true]%orb_true_iff; auto. }
  destruct (decide (left ai < 0)) as [|Hleft].
  { simplify_eq. intros g [?| ->]%Hbase; [by left|right].
    by apply linked_here. }
  destruct (load b j) as [bj|]; [|done]. cbn [mbind option_bind] in Hx.
  destruct (TESTBIT m1 _ (left ai)) as [tl|]; [|done].
  cbn [mbind option_bind] in Hx.
  assert (Hl : ∀ t2 m2 r2,
    (if tl then extractat fuel m1 r1 a b (left ai) (left bj) SLOTS
     else Some (0, m1, r1)) = Some (t2, m2, r2) →
    grows r1 r2 ∧
    ∀ g, gbit r2 g = true → gbit r1 g = true ∨ linked a r2 (left ai) g).
  { intros t2 m2 r2. destruct tl.
    - intros Hl. split; [by apply extractat_grows in Hl as (? & _)|].
      by eapply IH.
    - intros; simplify_eq. split; [apply grows_refl|auto]. }
  destruct (if tl then _ else _) as [[[t2 m2] r2]|] eqn:El; [|done].
  destruct (Hl _ _ _ eq_refl) as [(_ & _ & Hg12) Hnew2].
  cbn [mbind option_bind] in Hx.
  assert (Hi2 : gbit r2 i = true) by auto.
  assert (Hat2 : ∀ g, gbit r2 g = true → gbit r g = true ∨ linked a r2 i g).
  { intros g [[?| ->]%Hbase|Hlk]%Hnew2; [by left|right..].
    - by apply linked_here.
    - eapply linked_left; [done|done|lia|done]. }
  destruct (decide (right ai < 0)) as [|Hright]; [by simplify_eq|].
  destruct (TESTBIT m2 _ (right ai)) as [tr|]; [|done].
  cbn [mbind option_bind] in Hx.
  destruct tr; [|by simplify_eq].
  destruct (extractat fuel m2 r2 a b (right ai) (right bj) SLOTS)
    as [[[t3 m3] r3]|] eqn:Er; [|done].
  pose proof (extractat_grows _ _ _ _ _ _ _ _ _ _ _ Er) as ((_ & _ & Hg23) & _).
  pose proof (IH _ _ _ _ _ _ _ _ _ _ Er) as Hnew3.
  cbn [mbind option_bind] in Hx. simplify_eq.
  intros g [[?|Hlk]%Hat2|Hlk]%Hnew3; [by left|right..].
  - by eapply linked_grows.
  - eapply linked_right; [by auto|done|lia|lia|done].
Qed.

(** X13.  The bits that [extractat(matrix, result, a, b, i, j, SLOTS)]
    adds to [result] form a connected part of the tree [a] with root [i]:
    every bit set afterwards was set before or belongs to a node that is
    reached from [i] along child links through nodes whose bits are set. *)
Theorem extractat_connected fuel :
  ∀ m r a b i j SLOTS t m' r',
  extractat fuel m r a b i j SLOTS = Some (t, m', r') →
  ∀ g, gbit r' g = true → gbit r g = true ∨ linked a r' i g.
Proof. apply extractat_linked. Qed.

(** * Further properties of the occurrence test *)

(** X14.  A fragment with fewer nodes occurs wherever a larger one with
    the same root does: if [containsbitset] finds the fragment [bitset2]
    of [a] at node [i] in [b] at node [j], it also finds there every
    fragment [bitset1] of as many words whose bits are bits of
    [bitset2]. *)
Theorem containsbitset_smaller fuel (a b : list Node)
    (bitset1 bitset2 : list Z) :
  length bitset1 = length bitset2 →
  (∀ g, gbit bitset1 g = true → gbit bitset2 g = true) →
  ∀ i j,
  containsbitset fuel a b bitset2 i j = Some true →
  containsbitset fuel a b bitset1 i j = Some true.
Proof.
  intros Hlen Hsub.
  assert (Htest : ∀ g t2, TESTBIT bitset2 0 g = Some t2 →
    ∃ t1, TESTBIT bitset1 0 g = Some t1 ∧ (t1 = true → t2 = true)).
  { intros g t2 (Hg & Hk & ->)%TESTBIT_Some.
    exists (gbit bitset1 g). split.
    - rewrite TESTBIT_is_Some; [done|done|lia].
    - apply Hsub. }
  induction fuel as [|fuel IH]; intros i j Hc; [done|].
  cbn [containsbitset] in *.
  destruct (load a i) as [ai|]; [|done]. cbn [mbind option_bind] in *.
  destruct (load b j) as [bj|]; [|done]. cbn [mbind option_bind] in *.
  destruct (decide (prod ai ≠ prod bj)); [done|].
  destruct (decide (left ai < 0)); [done|].
  destruct (TESTBIT bitset2 0 (left ai)) as [tl2|] eqn:El2; [|done].
  destruct (Htest _ _ El2) as (tl1 & -> & Hl).
  cbn [mbind option_bind] in *.
  assert (Hleft :
    (if tl2 then containsbitset fuel a b bitset2 (left ai) (left bj)
     else Some true) = Some true).
  { destruct (if tl2 then _ else _) as [[|]|]; simplify_eq/=; done. }
  assert (Hleft1 :
    (if tl1 then containsbitset fuel a b bitset1 (left ai) (left bj)
     else Some true) = Some true).
  { destruct tl1; [|done]. rewrite (Hl eq_refl) in Hleft. by apply IH. }
  rewrite Hleft in Hc. rewrite Hleft1. cbn [mbind option_bind negb] in *.
  destruct (decide (right ai < 0)); [done|].
  destruct (TESTBIT bitset2 0 (right ai)) as [tr2|] eqn:Er2; [|done].
  destruct (Htest _ _ Er2) as (tr1 & -> & Hr).
  cbn [mbind option_bind] in *.
  destruct tr1; [|done]. rewrite (Hr eq_refl) in Hc. by apply IH.
Qed.

(** * The numbering of the productions *)

Section numbering.
Context {Item P B : Type} `{Countable P}.
Context (get_prod : Item → res P) (get_label : Item → res B).

Lemma getlabelsprods_item_inv labels prods seen st s s' :
  numbering_inv get_prod get_label labels prods seen s →
  getlabelsprods_item get_prod get_label st s = Ok s' →
  numbering_inv get_prod get_label labels prods (seen ++ [st]) s'.
Proof.
  destruct s as [[ls ps] pnum].
  intros (Hpnum & (Hlen & Hrange & Hinj) & Hext & [new Hnew] & Hseen & Hfrom).
  simpl in *. unfold getlabelsprods_item.
  destruct (get_prod st) as [p| |] eqn:Ep; [|done..].
  cbn [mbind res_bind].
  destruct (decide (ps !! p = None)) as [Hnone|Hsome].
  - destruct (get_label st) as [l| |] eqn:El; [|done..].
    cbn [mbind res_bind]. intros [= <-]. unfold numbering_inv, numbered. simpl.
    rewrite map_size_insert_None by done.
    split_and!.
    + lia.
    + rewrite length_app. simpl. lia.
    + intros q id Hq. destruct (decide (q = p)) as [->|Hne].
      * rewrite lookup_insert_eq in Hq. simplify_eq. lia.
      * rewrite lookup_insert_ne in Hq by done.
        specialize (Hrange q id Hq). lia.
    + intros q1 q2 id H1 H2.
      destruct (decide (q1 = p)) as [->|Hne1];
        destruct (decide (q2 = p)) as [->|Hne2]; [done|..].
      * rewrite lookup_insert_eq in H1. rewrite lookup_insert_ne in H2 by done.
        simplify_eq. specialize (Hrange q2 _ H2). lia.
      * rewrite lookup_insert_eq in H2. rewrite lookup_insert_ne in H1 by done.
        simplify_eq. specialize (Hrange q1 _ H1). lia.
      * rewrite lookup_insert_ne in H1, H2 by done. by eapply Hinj.
    + intros q id Hq. rewrite lookup_insert_ne; [by apply Hext|].
      intros ->. specialize (Hext _ _ Hq). congruence.
    + exists (new ++ [l]). by rewrite Hnew, app_assoc.
    + intros st' [Hst'| ->%list_elem_of_singleton]%elem_of_app.
      * destruct (Hseen st' Hst') as (q & ? & Hq). exists q. split; [done|].
        destruct (decide (q = p)) as [->|Hne].
        -- by rewrite lookup_insert_eq.
        -- by rewrite lookup_insert_ne.
      * exists p. split; [done|]. by rewrite lookup_insert_eq.
    + intros q id Hq Hq0. destruct (decide (q = p)) as [->|Hne].
      * rewrite lookup_insert_eq in Hq. simplify_eq.
        exists st, l. split_and!; [set_solver|done..|].
        rewrite Nat2Z.id, <- Hlen. by rewrite lookup_app_r, Nat.sub_diag.
      * rewrite lookup_insert_ne in Hq by done.
        destruct (Hfrom q id Hq Hq0) as (st' & l' & ? & ? & ? & Hl').
        exists st', l'. split_and!; [set_solver|done..|].
        by apply lookup_app_l_Some.
  - intros [= <-]. unfold numbering_inv, numbered. simpl.
    split_and!; try done.
    + by exists new.
    + intros st' [Hst'| ->%list_elem_of_singleton]%elem_of_app; [by auto|].
      exists p. split; [done|]. by destruct (ps !! p).
    + intros q id Hq Hq0.
      destruct (Hfrom q id Hq Hq0) as (st' & l' & ? & ? & ? & Hl').
      exists st', l'. split_and!; [set_solver|done..].
Qed.

Lemma getlabelsprods_inv (trees : list (list Item)) (labels : list B)
    (prods : gmap P Z) (labels' : list B) (prods' : gmap P Z) :
  numbered labels prods →
  getlabelsprods get_prod get_label trees labels prods
    = Ok (labels', prods') →
  numbering_inv get_prod get_label labels prods (mjoin trees)
    (labels', prods', Z.of_nat (size prods')).
Proof.
  intros Hnum Hget. unfold getlabelsprods in Hget.
  destruct (for_each trees _ _) as [s| |] eqn:Efor; [|done..].
  cbn [mbind res_bind] in Hget. injection Hget as Hs.
  assert (Hinv : numbering_inv get_prod get_label labels prods (mjoin trees) s).
  { revert Efor.
    apply (for_each_prefix (λ pre s,
             numbering_inv get_prod get_label labels prods (mjoin pre) s)).
    - intros pre tree t t' _ Ht Hin. rewrite join_app. simpl.
      rewrite app_nil_r. revert Hin.
      apply (for_each_prefix (λ pre' s,
               numbering_inv get_prod get_label labels prods
                 (mjoin pre ++ pre') s)).
      + intros pre' st u u' _ Hu Hbody. rewrite app_assoc.
        by eapply getlabelsprods_item_inv.
      + by rewrite app_nil_r.
    - unfold numbering_inv. simpl. split_and!; try done.
      + exists []. by rewrite app_nil_r.
      + intros st Hst. by apply elem_of_nil in Hst.
      + intros p id Hp Hp0. congruence. }
  destruct s as [[ls ps] pnum]. simpl in Hs. simplify_eq.
  destruct Hinv as (Hpnum & Hrest). simpl in Hpnum. subst pnum.
  by split.
Qed.

(** X15.  On a dict that numbers its keys from 0 without gaps, with one
    label for each number, [getlabelsprods] keeps the entries and the
    labels there are, and when it returns the dict again numbers its keys
    from 0 without gaps or repetitions, holds the production of every node
    of the trees, and each new key is the production of a node whose label
    stands in [labels] at the number of the key. *)
Theorem getlabelsprods_numbers (trees : list (list Item)) (labels : list B)
    (prods : gmap P Z) (labels' : list B) (prods' : gmap P Z) :
  numbered labels prods →
  getlabelsprods get_prod get_label trees labels prods
    = Ok (labels', prods') →
  numbered labels' prods' ∧
  (∀ p id, prods !! p = Some id → prods' !! p = Some id) ∧
  (∃ new, labels' = labels ++ new) ∧
  (∀ tree st, tree ∈ trees → st ∈ tree →
     ∃ p, get_prod st = Ok p ∧ is_Some (prods' !! p)) ∧
  (∀ p id, prods' !! p = Some id → prods !! p = None →
     ∃ tree st l, tree ∈ trees ∧ st ∈ tree ∧ get_prod st = Ok p ∧
                  get_label st = Ok l ∧ labels' !! Z.to_nat id = Some l).
Proof.
  intros Hnum Hget.
  destruct (getlabelsprods_inv _ _ _ _ _ Hnum Hget)
    as (_ & Hnum' & Hext & Hnew & Hseen & Hfrom). simpl in *.
  split_and!; [done..| |].
  - intros tree st Ht Hst. apply Hseen. apply list_elem_of_join. by exists tree.
  - intros p id Hp Hp0.
    destruct (Hfrom p id Hp Hp0) as (st & l & Hst & ? & ? & ?).
    apply list_elem_of_join in Hst as (tree & ? & ?). by exists tree, st, l.
Qed.

End numbering.

(** * From the constructor to the index *)

Lemma sum_len_nonneg {A} (trees : list (list A)) : 0 ≤ sum_len trees.
Proof. induction trees; simpl; lia. Qed.

Lemma sum_len_take {A} (trees : list (list A)) n tree :
  trees !! n = Some tree →
  sum_len (take n trees) + Z.of_nat (length tree) ≤ sum_len trees.
Proof.
  revert n. induction trees as [|t trees IH]; intros [|n] Hn; simplify_eq/=.
  - pose proof (sum_len_nonneg trees). lia.
  - specialize (IH n Hn). lia.
Qed.

Lemma converted_prod {P} `{Countable P} (prods : gmap P Z) (a : pyitem P) new :
  converted prods a new →
  ∃ p, item_prod a = Ok p ∧ prods !! p = Some (prod new).
Proof.
  destruct a as [|[p|] rt ch]; [done| |done]. simpl.
  intros Hc. exists p. split; [done|].
  destruct ch as [|[k|[l|]] [|[k'|[r|]] [|? ?]]]; naive_solver.
Qed.

Section pipeline.
Context {P : Type} `{Countable P}.
Context (junk_node : nat → Node) (junk_tree : nat → NodeArray).

(** X16.  When [Ctrees(trees, prods)] returns, for trees of fewer than
    2^15 nodes and a dict [prods] whose ids lie in [0, len(prods)),
    [indextrees(prods)] on the new arena returns, and the set it stores
    for the id [q] holds exactly the numbers of the trees of the list that
    have a node whose production has the id [q]. *)
Theorem init_then_indextrees (trees : list (list (pyitem P)))
    (prods : gmap P Z) (self : Ctrees) :
  Forall (λ tree, Z.of_nat (length tree) < 2 ^ 15) trees →
  (∀ p id, prods !! p = Some id → 0 ≤ id < Z.of_nat (size prods)) →
  init junk_node junk_tree (Some trees) (Some prods) = (Ok (), self) →
  ∃ index, indextrees_result self (size prods) = Ok index ∧
    length index = size prods ∧
    ∀ q : nat, (q < size prods)%nat →
      ∃ s, index !! q = Some s ∧
        ∀ n, n ∈ s ↔
          0 ≤ n ∧
          ∃ tree a p, trees !! Z.to_nat n = Some tree ∧ a ∈ tree ∧
                      item_prod a = Ok p ∧ prods !! p = Some (Z.of_nat q).
Proof.
  intros Hshort Hids Hinit.
  destruct (init_layout junk_node junk_tree trees prods self Hshort Hinit)
    as (Hlen & _ & _ & _ & Hnodes & _ & Hrec).
  assert (Htree : ∀ n, 0 ≤ n < ct_len self →
    ∃ tree r, trees !! Z.to_nat n = Some tree ∧
      load (ct_trees self) n
      = Some (mkNodeArray (sum_len (take (Z.to_nat n) trees))
                (Z.of_nat (length tree)) r) ∧
      ∀ (k : nat) a, tree !! k = Some a →
        ∃ new,
          load (slice (ct_nodes self)
                  (mkNodeArray (sum_len (take (Z.to_nat n) trees))
                     (Z.of_nat (length tree)) r)) (Z.of_nat k) = Some new ∧
          converted prods a new).
  { intros n Hn.
    destruct (lookup_lt_is_Some_2 trees (Z.to_nat n) ltac:(lia)) as [tree Et].
    destruct (Hrec _ _ Et) as (r & _ & Er & Hnew).
    rewrite Z2Nat.id in Er by lia. exists tree, r. split_and!; [done..|].
    intros k a Hk. destruct (Hnew k a Hk) as (new & En & Hc).
    exists new. split; [|done]. rewrite load_slice; [done|..]; simpl.
    - apply sum_len_nonneg.
    - apply lookup_lt_Some in Hk. lia. }
  assert (Hstored : trees_stored self).
  { intros n Hn. destruct (Htree n Hn) as (tree & r & Et & Er & _).
    eexists. split; [exact Er|]. simpl.
    pose proof (sum_len_nonneg (take (Z.to_nat n) trees)).
    split; [done|]. rewrite slice_length; simpl; [done|lia..|].
    rewrite Hnodes. by apply sum_len_take. }
  assert (Hhas : ∀ n q, 0 ≤ n < ct_len self →
    has_prod self n q ↔
    ∃ tree a p, trees !! Z.to_nat n = Some tree ∧ a ∈ tree ∧
                item_prod a = Ok p ∧ prods !! p = Some q).
  { intros n q Hn. destruct (Htree n Hn) as (tree & r & Et & Er & Hnew).
    split.
    - intros (t & i & nd & Et' & End & <-). rewrite Er in Et'.
      injection Et' as <-.
      pose proof (slice_load_range _ _ _ _ End) as Hi. simpl in Hi.
      destruct (lookup_lt_is_Some_2 tree (Z.to_nat i) ltac:(lia)) as [a Ea].
      destruct (Hnew _ _ Ea) as (new & En & Hc).
      rewrite Z2Nat.id in En by lia. rewrite End in En. injection En as <-.
      destruct (converted_prod _ _ _ Hc) as (p & ? & ?).
      exists tree, a, p. split_and!; [done| |done..].
      by eapply list_elem_of_lookup_2.
    - intros (tree' & a & p & Et' & Ha & Hp & Hq).
      rewrite Et in Et'. injection Et' as <-.
      apply list_elem_of_lookup in Ha as [k Hk].
      destruct (Hnew _ _ Hk) as (new & En & Hc).
      destruct (converted_prod _ _ _ Hc) as (p' & Hp' & Hq').
      rewrite Hp in Hp'. injection Hp' as <-.
      eexists _, (Z.of_nat k), new. split_and!; [done..|congruence]. }
  destruct (indextrees_index self (size prods) Hstored) as (index & Ei & Hl & Hidx).
  { intros n q Hn (tree & a & p & _ & _ & _ & Hq)%Hhas; [|done].
    specialize (Hids _ _ Hq). unfold id_in_range. lia. }
  exists index. split_and!; [done..|]. intros q Hq.
  destruct (Hidx q Hq) as (s & Es & Hs). exists s. split; [done|].
  intros n. rewrite Hs. split.
  - intros [Hn [Hh|Hh]]; apply Hhas in Hh; try done.
    + split; [lia|done].
    + destruct Hh as (tree & a & p & _ & _ & _ & Hneg).
      specialize (Hids _ _ Hneg). lia.
  - intros [Hn (tree & a & p & Et & Ha & Hp & Hq')].
    assert (0 ≤ n < ct_len self).
    { apply lookup_lt_Some in Et. lia. }
    split; [done|]. left. apply Hhas; [done|]. by exists tree, a, p.
Qed.

Lemma copynode_KeyError (a : pyitem P) prods result k result' :
  copynode a prods result k = (Raise KeyError, result') →
  ∃ p, item_prod a = Ok p ∧ prods !! p = None.
Proof.
  unfold copynode, py_to_int, py_to_short. intros Hc.
  destruct a as [|[p|] rt ch]; [done| |by repeat (case_match; simplify_eq/=)].
  exists p. split; [done|].
  destruct (prods !! p) eqn:E; [|done].
  exfalso. repeat (case_match; simplify_eq/=).
Qed.

Lemma copynodes_KeyError (tree : list (pyitem P)) prods :
  ∀ nodes base n nodes',
  copynodes tree prods nodes base n = (Raise KeyError, nodes') →
  ∃ a p, a ∈ tree ∧ item_prod a = Ok p ∧ prods !! p = None.
Proof.
  induction tree as [|a tree IH]; intros nodes base n nodes' Hc; simpl in Hc;
    [done|].
  destruct (copynode a prods nodes (base + n)) as [r1 nodes1] eqn:E1.
  destruct r1 as [[]|e|].
  - destruct (IH _ _ _ _ Hc) as (a' & p & ? & ? & ?).
    exists a', p. split; [by right|done].
  - injection Hc as -> ->.
    destruct (copynode_KeyError _ _ _ _ _ E1) as (p & ? & ?).
    exists a, p. split; [by left|done].
  - done.
Qed.

Lemma add_KeyError (self self' : Ctrees) (tree : list (pyitem P)) prods :
  add junk_node junk_tree self tree prods = (Raise KeyError, self') →
  ∃ a p, a ∈ tree ∧ item_prod a = Ok p ∧ prods !! p = None.
Proof.
  unfold add. intros Hadd.
  destruct (decide (ct_max self = 0)); [done|].
  destruct (update _ _ (set_na_len _)) as [tr1|]; [|done].
  cbn [with_trees with_nodes ct_trees ct_len ct_numnodes ct_nodes] in Hadd.
  destruct (update tr1 _ (set_na_offset _)) as [tr2|]; [|done].
  cbn [with_trees with_nodes ct_trees ct_len ct_numnodes ct_nodes] in Hadd.
  destruct (copynodes tree prods _ _ 0) as [r nodes'] eqn:Ec.
  destruct r as [[]|e|]; [|injection Hadd as -> _; by eapply copynodes_KeyError
                          |done].
  exfalso. unfold py_to_short in Hadd. repeat (case_match; simplify_eq/=).
Qed.

(** X17.  With the dict of productions that [getlabelsprods] built from
    some trees, the constructor [Ctrees(trees2, prods)] does not raise
    [KeyError] for trees whose nodes carry productions of nodes of those
    trees, such as the same trees with their nodes sorted: every production
    it looks up has a number. *)
Theorem numbered_prods_no_KeyError {B : Type} (get_label : pyitem P → res B)
    (trees trees2 : list (list (pyitem P))) (labels labels' : list B)
    (prods prods' : gmap P Z) :
  numbered labels prods →
  getlabelsprods item_prod get_label trees labels prods
    = Ok (labels', prods') →
  (∀ tree2 a, tree2 ∈ trees2 → a ∈ tree2 →
     ∃ tree a0, tree ∈ trees ∧ a0 ∈ tree ∧ item_prod a0 = item_prod a) →
  (init junk_node junk_tree (Some trees2) (Some prods')).1 ≠ Raise KeyError.
Proof.
  intros Hnum Hget Hsame.
  destruct (getlabelsprods_inv _ _ _ _ _ _ _ Hnum Hget)
    as (_ & _ & _ & _ & Hseen & _). simpl in Hseen.
  unfold init.
  generalize (alloc junk_node junk_tree (mkCtrees [] [] 0 0 0 0 0 None)
                (Z.of_nat (length trees2)) (sum_len trees2)).
  assert (Hall : ∀ tree2 a, tree2 ∈ trees2 → a ∈ tree2 →
            item_prod a = Raise AttributeError ∨
            ∃ p, item_prod a = Ok p ∧ is_Some (prods' !! p)).
  { intros tree2 a Ht Ha.
    destruct (Hsame tree2 a Ht Ha) as (tree & a0 & Ht0 & Ha0 & Heq).
    destruct (Hseen a0) as (p & Hp & ?).
    { apply list_elem_of_join. by exists tree. }
    right. exists p. split; [congruence|done]. }
  clear Hseen Hget Hsame.
  induction trees2 as [|tree trees' IH]; intros self; [done|].
  simpl.
  destruct (add junk_node junk_tree self tree prods') as [r self1] eqn:Eadd.
  destruct r as [[]|e|]; simpl.
  - apply IH. intros tree' a Ht Ha. apply (Hall tree'); [by right|done].
  - intros [= ->].
    destruct (add_KeyError _ _ _ _ Eadd) as (a & p & Ha & Hp & Hnone).
    destruct (Hall tree a ltac:(left) Ha) as [?|(p' & Hp' & [id Hid])];
      congruence.
  - done.
Qed.

End pipeline.

(** * Bitsets of whole trees *)

Section whole.
Context (junk_word : nat → Z).
Context {L W K : Type} `{Countable K}.
Context (wholekey : list Node → Bitset → list L → list (option W) → bool
                    → res K).

Lemma completebitsets_bits_spec (nodes : list Node) (sent : list (option W))
    len zeroed bs :
  (∀ g, gbit zeroed g = false) →
  completebitsets_bits nodes sent len zeroed = Ok bs →
  length bs = length zeroed ∧
  ∀ g, gbit bs g = true ↔ 0 ≤ g < len ∧ nonfrontier_at nodes sent g.
Proof.
  intros Hzero. unfold completebitsets_bits. intros Hfor.
  apply (for_each_prefix (λ (pre : list Z) (r : list Z),
    length r = length zeroed ∧
    ∀ g, gbit r g = true ↔ g ∈ pre ∧ nonfrontier_at nodes sent g)) in Hfor.
  - destruct Hfor as [Hl Hb]. split; [done|]. intros g.
    rewrite Hb, elem_of_range. done.
  - intros pre i r r' _ [Hl Hb].
    destruct (load nodes i) as [nd|] eqn:End; [|done].
    cbn [of_option mbind res_bind].
    assert (Hskip : ¬ nonfrontier_at nodes sent i →
      length r = length zeroed ∧
      ∀ g, gbit r g = true ↔ g ∈ pre ++ [i] ∧ nonfrontier_at nodes sent g).
    { intros Hno. split; [done|]. intros g. rewrite Hb, elem_of_app.
      rewrite list_elem_of_singleton. split; [intros [? ?]; auto|].
      intros [[?| ->] ?]; [done|]. by destruct Hno. }
    assert (Hkeep : ∀ r', nonfrontier_at nodes sent i →
      SETBIT r 0 i = Some r' →
      length r' = length zeroed ∧
      ∀ g, gbit r' g = true ↔ g ∈ pre ++ [i] ∧ nonfrontier_at nodes sent g).
    { intros r2 Hyes Hset. split.
      - apply SETBIT_Some in Hset as (_ & _ & -> & _). done.
      - intros g. rewrite (SETBIT_gbit _ _ _ g Hset), orb_true_iff, Hb.
        rewrite bool_decide_eq_true, elem_of_app, list_elem_of_singleton.
        split; [intros [[? ?]| ->]; auto|].
        intros [[?| ->] ?]; auto. }
    destruct (decide (left nd >= 0)) as [Hin|Hterm].
    + cbn [mbind res_bind].
      destruct (SETBIT r 0 i) as [r2|] eqn:Eset; [|done].
      intros [= <-]. apply Hkeep; [|done]. exists nd. auto.
    + destruct (py_index sent (termidx (left nd))) as [[w|]| |] eqn:Ew;
        [| |done..]; cbn [mbind res_bind].
      * rewrite bool_decide_eq_true_2 by eauto.
        destruct (SETBIT r 0 i) as [r2|] eqn:Eset; [|done].
        intros [= <-]. apply Hkeep; [|done]. exists nd. eauto.
      * rewrite bool_decide_eq_false_2 by (by intros [? ?]).
        intros [= <-]. apply Hskip. intros (nd' & End' & [?|[w Hw]]).
        -- simplify_eq. lia.
        -- assert (nd' = nd) as -> by congruence. congruence.
  - split; [done|]. intros g. rewrite Hzero. split; [done|].
    intros [Hg _]. by apply elem_of_nil in Hg.
Qed.

(** X18.  When [completebitsets] returns, every entry of the dict is the
    bitset of a whole tree of the arena under the key built for it: the tail
    names the tree and its root, and the bits are those of the nodes that
    are not frontiers; and for every tree of the arena its key is in the
    dict. *)
Theorem completebitsets_whole_trees (trees : Ctrees)
    (sents : list (list (option W))) (labels : list L) (maxnodes : Z)
    (discontinuous : bool) (result : gmap K Bitset) :
  0 ≤ maxnodes →
  completebitsets junk_word wholekey trees sents labels maxnodes
    discontinuous = Ok result →
  (∀ k w, result !! k = Some w →
     ∃ n, 0 ≤ n < ct_len trees ∧
          whole_tree wholekey trees sents labels (BITNSLOTS (maxnodes + 1))
            discontinuous n w k) ∧
  (∀ n, 0 ≤ n < ct_len trees →
     ∃ w k, whole_tree wholekey trees sents labels (BITNSLOTS (maxnodes + 1))
              discontinuous n w k ∧
            is_Some (result !! k)).
Proof.
  intros Hmax. unfold completebitsets.
  destruct (BITNSLOTS_room maxnodes Hmax) as [HS _].
  set (SLOTS := BITNSLOTS (maxnodes + 1)) in *.
  destruct (for_each _ _ _) as [st| |] eqn:Efor; [|done..].
  cbn [mbind res_bind]. intros [= <-].
  apply (for_each_prefix (λ (pre : list Z) (st : gmap K Bitset * Bitset),
    Z.of_nat (length (bits st.2)) = SLOTS ∧
    (∀ k w, st.1 !! k = Some w →
       ∃ n, n ∈ pre ∧
            whole_tree wholekey trees sents labels SLOTS discontinuous n w k) ∧
    (∀ n, n ∈ pre →
       ∃ w k, whole_tree wholekey trees sents labels SLOTS discontinuous n w k
              ∧ is_Some (st.1 !! k)))) in Efor.
  - destruct Efor as (_ & Hval & Hall). split.
    + intros k w Hk. destruct (Hval k w Hk) as (n & Hn%elem_of_range & ?).
      exists n. split; [lia|done].
    + intros n Hn. apply Hall. apply elem_of_range. lia.
  - intros pre n [result0 scratch] [result1 scratch1] _ (Hlen & Hval & Hall).
    simpl in Hlen, Hval, Hall. unfold completebitsets_body.
    destruct (memset0 (bits scratch) 0 SLOTS) as [zeroed|] eqn:Ez; [|done].
    cbn [of_option mbind res_bind].
    destruct (load (ct_trees trees) n) as [t|] eqn:Et; [|done].
    cbn [of_option mbind res_bind].
    destruct (py_index sents n) as [sent| |] eqn:Es; [|done..].
    cbn [mbind res_bind].
    destruct (completebitsets_bits _ _ _ _) as [bs| |] eqn:Eb; [|done..].
    cbn [mbind res_bind].
    destruct (wholekey _ _ _ _ _) as [frag| |] eqn:Ek; [|done..].
    cbn [mbind res_bind]. intros [= <- <-]. simpl.
    apply memset0_spec in Ez as [Hlz Hzero].
    apply completebitsets_bits_spec in Eb as [Hlb Hbits].
    2:{ intros g. unfold gbit.
        destruct (decide (0 ≤ g `div` 64 < SLOTS)); [by apply Hzero|].
        unfold wbit. destruct (load zeroed _) eqn:E; [|done].
        apply load_bound in E. lia. }
    assert (Hwhole : whole_tree wholekey trees sents labels SLOTS
              discontinuous n
              (setrootid (mkBitset bs (tail_id scratch) (tail_root scratch))
                 (na_root t) n) frag).
    { exists t, sent. split_and!; try done. simpl. lia. }
    split_and!.
    + lia.
    + intros k w Hk. destruct (decide (k = frag)) as [->|Hne].
      * rewrite lookup_insert_eq in Hk. injection Hk as <-.
        exists n. split; [set_solver|done].
      * rewrite lookup_insert_ne in Hk by done.
        destruct (Hval k w Hk) as (n' & ? & ?). exists n'.
        split; [set_solver|done].
    + intros n' [Hn'| ->%list_elem_of_singleton]%elem_of_app.
      * destruct (Hall n' Hn') as (w & k & ? & Hs). exists w, k.
        split; [done|]. destruct (decide (k = frag)) as [->|Hne].
        -- by rewrite lookup_insert_eq.
        -- by rewrite lookup_insert_ne.
      * eexists _, frag. split; [exact Hwhole|]. by rewrite lookup_insert_eq.
  - simpl. rewrite grow_length. split_and!; [lia| |].
    + intros k w Hk. by rewrite lookup_empty in Hk.
    + intros n Hn. by apply elem_of_nil in Hn.
Qed.

End whole.

(** * The fragments of a pair of trees are connected *)

Lemma memset0_gbit r SLOTS z :
  memset0 r 0 SLOTS = Some z → Z.of_nat (length r) = SLOTS →
  ∀ g, gbit z g = false.
Proof.
  intros [Hl Hzero]%memset0_spec Hlen g. unfold gbit.
  destruct (decide (0 ≤ g `div` 64 < SLOTS)); [by apply Hzero|].
  unfold wbit. destruct (load z _) eqn:E; [|done].
  apply load_bound in E. lia.
Qed.

Lemma extractbitsets_row_connected fuel :
  ∀ a b j n minterms SLOTS st cur idx i st',
  extractbitsets_row fuel a b j n minterms SLOTS st cur idx i = Some st' →
  Z.of_nat (length (bits (st_scratch st))) = SLOTS →
  Z.of_nat (length (bits (st_scratch st'))) = SLOTS ∧
  ∀ w, w ∈ st_results st' → w ∈ st_results st ∨ connected_frag a w.
Proof.
  induction fuel as [|fuel IH];
    intros a b j n minterms SLOTS st cur idx i st' Hrow Hlen;
    cbn [extractbitsets_row] in Hrow;
    (destruct (decide (i = -1)); [simplify_eq; by auto|]); [done|].
  destruct (memset0 _ 0 SLOTS) as [zeroed|] eqn:Ez; [|done].
  pose proof (memset0_gbit _ _ _ Ez Hlen) as Hzero.
  apply memset0_spec in Ez as [Hzlen _].
  cbn [mbind option_bind] in Hrow.
  destruct (extractat _ _ zeroed _ _ _ _ _) as [[[terms m1] r1]|] eqn:Ex;
    [|done].
  pose proof (extractat_linked _ _ _ _ _ _ _ _ _ _ _ Ex) as Hconn.
  apply extractat_grows in Ex as ((Hl1 & _ & _) & _ & _).
  cbn [mbind option_bind] in Hrow.
  destruct (iteratesetbits _ _ _ _ _ _) as [[[i' cur'] idx']|]; [|done].
  cbn [mbind option_bind] in Hrow.
  apply IH in Hrow as [Hlen' Hres'].
  2:{ simpl. case_decide; simpl; lia. }
  split; [done|]. intros w Hw. destruct (Hres' w Hw) as [Hold|?]; [|by right].
  simpl in Hold. case_decide; [|by left].
  apply elem_of_union in Hold as [?|Hnew%elem_of_singleton]; [by left|right].
  subst w. exists i. simpl. split; [done|].
  intros g Hg. destruct (Hconn g Hg) as [Hz|?]; [|done].
  by rewrite Hzero in Hz.
Qed.

Lemma extractbitsets_connected fuel :
  ∀ a b j n minterms SLOTS st st',
  extractbitsets fuel a b j n minterms SLOTS st = Some st' →
  Z.of_nat (length (bits (st_scratch st))) = SLOTS →
  Z.of_nat (length (bits (st_scratch st'))) = SLOTS ∧
  ∀ w, w ∈ st_results st' → w ∈ st_results st ∨ connected_frag a w.
Proof.
  induction fuel as [|fuel IH]; intros a b j n minterms SLOTS st st' Hx Hlen;
    [done|].
  cbn [extractbitsets] in Hx.
  destruct (load (st_matrix st) _) as [cur|]; [|done].
  cbn [mbind option_bind] in Hx.
  destruct (iteratesetbits _ _ _ _ _ _) as [[[i cur'] idx]|]; [|done].
  cbn [mbind option_bind] in Hx.
  destruct (extractbitsets_row _ _ _ _ _ _ _ _ _ _ _) as [st1|] eqn:Erow;
    [|done].
  apply extractbitsets_row_connected in Erow as [Hlen1 Hres1]; [|done].
  cbn [mbind option_bind] in Hx.
  destruct (load b j) as [bj|]; [|done]. cbn [mbind option_bind] in Hx.
  destruct (decide (left bj >= 0)); [|by simplify_eq].
  destruct (extractbitsets fuel _ _ (left bj) _ _ _ _) as [st2|] eqn:El; [|done].
  apply IH in El as [Hlen2 Hres2]; [|done].
  cbn [mbind option_bind] in Hx.
  assert (Hres12 : ∀ w, w ∈ st_results st2 →
            w ∈ st_results st ∨ connected_frag a w).
  { intros w [?%Hres1|?]%Hres2; [done|by right]. }
  destruct (decide (right bj >= 0)); [|injection Hx as <-; by split].
  apply IH in Hx as [Hlen3 Hres3]; [|done].
  split; [done|]. intros w [?%Hres12|?]%Hres3; [done|by right].
Qed.

(** X19.  Without [complement], every bitset that [extractfrompair] adds
    to the set of the current tree is connected: its tail names a node of
    the tree as root, and every node of the fragment is reached from that
    root along child links through nodes of the fragment. *)
Theorem extractfrompair_connected
    (junk_at : Z → nat → Z) (iter_bitsets : gset Bitset → list Bitset)
    (a : NodeArray) (anodes : list Node) (trees2 : Ctrees)
    (n m minterms SLOTS : Z) (st st' : PairState) :
  Z.of_nat (length (bits (pr_scratch st))) = SLOTS →
  extractfrompair junk_at iter_bitsets a anodes trees2 n m false minterms
    SLOTS st = Ok st' →
  ∀ w, w ∈ pr_inter st' → w ∈ pr_inter st ∨ connected_frag anodes w.
Proof.
  intros Hlen. unfold extractfrompair.
  destruct (load (ct_trees trees2) m) as [b|]; [|done].
  cbn [of_option mbind res_bind].
  destruct (memset0 _ 0 _) as [z|]; [|done]. cbn [of_option mbind res_bind].
  destruct (fasttreekernel _ _ _ _ _ _) as [m1|]; [|done].
  cbn [of_option mbind res_bind].
  destruct (extractbitsets _ _ _ _ _ _ _ _) as [est|] eqn:Ex; [|done].
  cbn [of_option mbind res_bind]. intros [= <-]. simpl.
  by apply extractbitsets_connected in Ex as [_ ?].
Qed.

(** * [coverbitsets] on an index that is sound *)

Section cover_total.
Context (junk_word : nat → Z).
Context (iter_ints : gset Z → list Z).
Context {L Sent K : Type} `{Countable K}.
Context (fragkey : list Node → Bitset → list L → Sent → bool → res K).

Lemma coverbitsets_find_total (nodes : list Node) (p n : Z)
    (scratch : Bitset) : ∀ (k : nat) lo,
  0 ≤ lo →
  (∀ i, lo ≤ i < lo + Z.of_nat k → is_Some (load nodes i)) →
  lo + Z.of_nat k ≤ 64 * Z.of_nat (length (bits scratch)) →
  (∃ i nd, lo ≤ i < lo + Z.of_nat k ∧ load nodes i = Some nd ∧ prod nd = p) →
  ∃ bs i,
    coverbitsets_find (seqZ lo (Z.of_nat k)) nodes p n scratch
    = Ok (setrootid (mkBitset bs (tail_id scratch) (tail_root scratch)) i n, i)
    ∧ length bs = length (bits scratch).
Proof.
  induction k as [|k IH]; intros lo Hlo Hload Hroom (i & nd & Hi & End & Hp);
    [lia|].
  rewrite Nat2Z.inj_succ, seqZ_cons by lia. cbn [coverbitsets_find].
  destruct (Hload lo ltac:(lia)) as [nd0 End0]. rewrite End0.
  cbn [of_option mbind res_bind].
  destruct (decide (prod nd0 = p)) as [Heq|Hne].
  - destruct (SETBIT_is_Some (bits scratch) 0 lo) as [bs Ebs]; [lia| |].
    { split; [apply Z.div_pos; lia|]. apply Z.div_lt_upper_bound; lia. }
    rewrite Ebs. cbn [of_option mbind res_bind]. exists bs, lo.
    split; [done|]. by apply SETBIT_Some in Ebs as (_ & _ & ? & _).
  - replace (Z.pred (Z.succ (Z.of_nat k))) with (Z.of_nat k) by lia.
    apply IH; [lia| | |].
    + intros i' Hi'. apply Hload. lia.
    + lia.
    + exists i, nd. split_and!; [|lia|done..].
      destruct (decide (i = lo)) as [->|]; [|lia]. congruence.
Qed.

(** X20.  On an arena whose tree records point into its pool, with an
    index that lists a tree under a production only if the tree has a node
    of that production, a sentence for every tree, trees of at most
    [maxnodes] nodes and a key that can be built for every one-node
    fragment of a tree of the arena with the sentence of that tree:
    [coverbitsets] returns; in particular it does not raise for a
    production that is not found. *)
Theorem coverbitsets_returns (trees : Ctrees) (sents : list Sent)
    (labels : list L) (maxnodes : Z) (discontinuous : bool)
    (index : list (gset Z)) :
  (∀ s, iter_ints s ≡ₚ elements s) →
  trees_stored trees →
  ct_treeswithprod trees = Some index →
  index_sound trees index →
  ct_len trees ≤ Z.of_nat (length sents) →
  0 ≤ maxnodes →
  (∀ n t, 0 ≤ n < ct_len trees → load (ct_trees trees) n = Some t →
     na_len t ≤ maxnodes) →
  (∀ n t i nd sent w,
     load (ct_trees trees) n = Some t →
     load (slice (ct_nodes trees) t) i = Some nd →
     py_index sents n = Ok sent →
     one_node (BITNSLOTS (maxnodes + 1)) i n = Some w →
     ∃ k, fragkey (slice (ct_nodes trees) t) w labels sent discontinuous
          = Ok k) →
  ∃ result,
    coverbitsets junk_word iter_ints fragkey trees sents labels maxnodes
      discontinuous = Ok result.
Proof.
  intros Hiter Hstored Hindex Hsound Hsents Hmax Hfit Hkey.
  unfold coverbitsets. rewrite Hindex.
  destruct (BITNSLOTS_room maxnodes Hmax) as [HS Hroom].
  set (SLOTS := BITNSLOTS (maxnodes + 1)) in *.
  rewrite decide_False by lia.
  destruct (for_each_total
    (λ (_ : list (Z * gset Z)) (st : gmap K Bitset * Bitset),
       Z.of_nat (length (bits st.2)) = SLOTS)
    (zip (seqZ 0 (Z.of_nat (length index))) index)
    (coverbitsets_body iter_ints fragkey trees sents labels SLOTS
       discontinuous)
    (∅, mkBitset (grow junk_word [] SLOTS) (junk_word 0) (junk_word 1)))
    as (st & -> & _).
  - intros _ [p s] [result scratch] Hps Hlen. simpl in Hlen.
    apply elem_of_lookup_zip_with in Hps as (k & p' & s' & [= -> ->] & Hk & Hs).
    apply lookup_seqZ in Hk as [-> _].
    unfold coverbitsets_body.
    destruct (iter_ints s') as [|n rest] eqn:Eit; [by eexists|].
    assert (Hn : n ∈ s').
    { apply elem_of_elements. rewrite <- Hiter, Eit. by left. }
    destruct (Hsound k s' n Hs Hn) as [Hnr (t & i & nd & Et & End & Hp)].
    rewrite Z.add_0_l. rewrite Et. cbn [of_option mbind res_bind].
    destruct (memset0_is_Some (bits scratch) SLOTS ltac:(lia)) as [zeroed Ez].
    rewrite Ez. cbn [of_option mbind res_bind].
    pose proof (memset0_all (bits scratch) zeroed SLOTS ltac:(lia) Ez) as Hzero.
    apply memset0_spec in Ez as [Hlz _].
    destruct (Hstored n Hnr) as (t' & Et' & Hoff & Hslice).
    assert (t' = t) as -> by congruence.
    pose proof (slice_load_range _ _ _ _ End) as Hi.
    pose proof (Hfit n t Hnr Et) as Hnt.
    destruct (coverbitsets_find_total (slice (ct_nodes trees) t) (Z.of_nat k) n
                (mkBitset zeroed (tail_id scratch) (tail_root scratch))
                (Z.to_nat (na_len t)) 0) as (bs & i0 & Efind & Hlb).
    + lia.
    + intros i' Hi'. apply load_is_Some. lia.
    + simpl. lia.
    + exists i, nd. split; [lia|done].
    + unfold range. rewrite Z.sub_0_r.
      rewrite Z2Nat.id in Efind by lia. rewrite Efind.
      cbn [mbind res_bind].
      destruct (lookup_lt_is_Some_2 sents (Z.to_nat n) ltac:(lia)) as [sent Es].
      assert (Hsent : py_index sents n = Ok sent).
      { unfold py_index, py_slot. rewrite decide_True by lia. simpl.
        by rewrite Es. }
      rewrite Hsent. cbn [mbind res_bind].
      pose proof Efind as Hfound.
      apply coverbitsets_find_spec in Hfound
        as (nd0 & bs0 & _ & End0 & _ & Ebs0 & Heq).
      simpl in Ebs0, Heq. injection Heq as <-.
      destruct (Hkey n t i0 nd0 sent
                  (setrootid (mkBitset bs (tail_id scratch) (tail_root scratch))
                     i0 n) Et End0 Hsent) as [frag Efrag].
      { unfold one_node. by rewrite <- Hzero, Ebs0. }
      simpl in Efrag |- *. rewrite Efrag. cbn [mbind res_bind].
      eexists. split; [done|]. simpl. simpl in Hlb. lia.
  - simpl. rewrite grow_length. lia.
  - cbn [mbind res_bind]. by eexists.
Qed.

End cover_total.

(** * A sentence that is too short *)

Section short_sentence.
Context (t : ftree) (Hwf : fragment_wf t).
Context {W : Type} (sent : list W) (maxl : Z).
Context (Hmax : ∀ z, last (sorted_leaves t) = Some z → maxl = lf_start z).

Lemma getsent_body_step pre x rest newsent leafmap m :
  sorted_leaves t = pre ++ x :: rest → 0 ≤ m → m + 2 < 2 ^ 31 →
  getsent_body sent (terms_of t) (spans_of t) maxl (lf_start x)
    (newsent, leafmap, m)
  = if decide (lf_term x = true ∧ Z.of_nat (length sent) ≤ lf_start x)
    then Raise IndexError
    else Ok (newsent ++ (if lf_term x then sent !! Z.to_nat (lf_start x)
                         else None)
               :: (if gap_after x rest then [None] else []),
             <[lf_start x := " "%char :: dec m]> leafmap,
             if gap_after x rest then m + 2 else m + 1).
Proof.
  intros Hsl Hm Hfit.
  assert (Hx : x ∈ leaves_of t).
  { apply sorted_leaves_elem. rewrite Hsl. set_solver. }
  pose proof (fw_bounds _ Hwf x Hx) as Hbx.
  unfold getsent_body, py_to_int.
  rewrite (decide_True (P := - 2 ^ 31 ≤ lf_start x < 2 ^ 31)) by lia.
  cbn [mbind res_bind].
  destruct (decide (lf_term x = true ∧ _)) as [[Ht Hshort]|Hgood].
  - rewrite (decide_True (P := lf_start x ∈ terms_of t))
      by (by apply terms_iff).
    unfold py_index, py_slot.
    rewrite (decide_False (P := 0 ≤ lf_start x < Z.of_nat (length sent)))
      by lia.
    rewrite (decide_False
               (P := - Z.of_nat (length sent) ≤ lf_start x < 0)) by lia.
    done.
  - assert (Hword :
      (if decide (lf_start x ∈ terms_of t)
       then w ← py_index sent (lf_start x); Ok (Some w)
       else Ok None)
      = Ok (if lf_term x then sent !! Z.to_nat (lf_start x) else None)).
    { destruct (lf_term x) eqn:Ht.
      - rewrite decide_True by (by apply terms_iff).
        assert (Hlt : lf_start x < Z.of_nat (length sent)).
        { destruct (decide (lf_start x < Z.of_nat (length sent))); [done|].
          destruct Hgood. split; [done|lia]. }
        unfold py_index, py_slot. rewrite decide_True by lia.
        cbn [mbind res_bind].
        destruct (lookup_lt_is_Some_2 sent (Z.to_nat (lf_start x)) ltac:(lia))
          as [w ->]. done.
      - rewrite decide_False; [done|]. rewrite terms_iff by done. congruence. }
    rewrite Hword. cbn [mbind res_bind].
    rewrite (decide_True (P := m + 1 < 2 ^ 31)) by lia.
    cbn [of_option mbind res_bind].
    assert (Hstop : spans_of t !! lf_start x = Some (lf_last x + 1)).
    { apply spans_lookup; [done|]. by exists x. }
    rewrite Hstop. cbn [of_option mbind res_bind].
    assert (Hlong : ∀ y, y ∈ leaves_of t → lf_term y = true →
              lf_start y
              < Z.of_nat (length (replicate (Z.to_nat (2 ^ 31)) ()))).
    { intros y Hy _. pose proof (fw_bounds _ Hwf y Hy).
      rewrite length_replicate. lia. }
    pose proof (gap_decision t Hwf _ maxl Hlong Hmax pre x rest Hsl) as Hgap.
    destruct (gap_after x rest) eqn:Eg.
    + rewrite decide_True by (by apply Hgap).
      rewrite decide_True by lia. cbn [of_option mbind res_bind].
      f_equal. f_equal; [|lia]. f_equal. by rewrite <- app_assoc.
    + rewrite decide_False by (rewrite Hgap; congruence). done.
Qed.

Lemma getsent_loop_short suf : ∀ pre newsent leafmap m,
  sorted_leaves t = pre ++ suf → 0 ≤ m →
  m + 2 * Z.of_nat (length suf) < 2 ^ 31 →
  (∃ x, x ∈ suf ∧ lf_term x = true ∧ Z.of_nat (length sent) ≤ lf_start x) →
  for_each (lf_start <$> suf) (newsent, leafmap, m)
    (getsent_body sent (terms_of t) (spans_of t) maxl)
  = Raise IndexError.
Proof.
  induction suf as [|x rest IH]; intros pre newsent leafmap m Hsl Hm Hfit Hbad.
  { destruct Hbad as (x & Hx & _). by apply elem_of_nil in Hx. }
  cbn [length] in Hfit.
  cbn [fmap list_fmap for_each].
  rewrite (getsent_body_step pre x rest) by (done || lia).
  destruct (decide (lf_term x = true ∧ _)) as [|Hgood]; [done|].
  cbn [mbind res_bind]. apply (IH (pre ++ [x])).
  - by rewrite <- app_assoc.
  - destruct (gap_after x rest); lia.
  - destruct (gap_after x rest); lia.
  - destruct Hbad as (y & [->|Hy]%elem_of_cons & Ht & Hs).
    + by destruct Hgood.
    + by exists y.
Qed.

End short_sentence.

(** X21.  For a well-formed fragment with a terminal index that is not a
    position of the sentence, [getsent] raises [IndexError]. *)
Theorem getsent_short_sentence {W} (t : ftree) (sent : list W) :
  fragment_wf t →
  (∃ x, x ∈ leaves_of t ∧ lf_term x = true ∧
        Z.of_nat (length sent) ≤ lf_start x) →
  getsent (render t) sent = Raise IndexError.
Proof.
  intros Hwf Hbad. pose proof (fw_labels _ Hwf) as Hlab.
  assert (Hb : ∀ x, x ∈ leaves_of t →
            0 ≤ lf_start x ≤ lf_last x ∧ lf_start x < 2 ^ 31 - 1)
    by apply (fw_bounds _ Hwf).
  unfold getsent.
  rewrite (findall_frontiers_all t Hlab). cbn [of_option mbind res_bind].
  rewrite for_each_fmap.
  rewrite (for_each_ext _ _ _
             (λ (iv : Z * Z) spans, Ok (<[iv.1 := iv.2 + 1]> spans))).
  2:{ intros [a b'] s Hiv. cbn [fst snd].
      assert (Hx : mkLeaf a b' false ∈ leaves_of t).
      { apply elem_of_leaves. by right. }
      pose proof (Hb _ Hx) as Hbx. cbn in Hbx.
      rewrite !py_int_dec by lia. done. }
  rewrite (for_each_foldl (λ s (iv : Z * Z), <[iv.1 := iv.2 + 1]> s)).
  cbn [mbind res_bind].
  rewrite (findall_terminals_all t Hlab). cbn [of_option mbind res_bind].
  rewrite for_each_fmap.
  assert (Hterm : ∀ k, k ∈ terms_of t → 0 ≤ k < 2 ^ 31 - 1).
  { intros k Hk.
    assert (Hx : mkLeaf k k true ∈ leaves_of t).
    { apply elem_of_leaves. left. by split_and!. }
    pose proof (Hb _ Hx) as Hbx. cbn in Hbx. lia. }
  rewrite (for_each_ext _ _ _ (λ k leaves, Ok (leaves ++ [k]))).
  2:{ intros k s Hk. rewrite py_int_dec by (apply Hterm, Hk). done. }
  rewrite (for_each_foldl (λ leaves k, leaves ++ [k])), foldl_snoc.
  cbn [mbind res_bind app].
  rewrite (for_each_ext _ _ _ (λ n spans, Ok (<[n := n + 1]> spans))).
  2:{ intros k s Hk. pose proof (Hterm k Hk). unfold py_to_int.
      rewrite decide_True by lia. cbn [mbind res_bind].
      rewrite decide_True by lia. done. }
  rewrite (for_each_foldl (λ s n, <[n := n + 1]> s)).
  cbn [mbind res_bind]. fold (spans_of t).
  rewrite (spans_keys t Hwf).
  assert (Hperm : sorted_leaves t ≡ₚ leaves_of t) by apply sorted_by_perm.
  destruct (sorted_leaves t) as [|x0 rest0] eqn:Esl.
  { apply Permutation_nil in Hperm. by destruct (fw_leaves _ Hwf). }
  cbn [fmap list_fmap py_max mbind res_bind].
  set (maxl := foldr Z.max (lf_start x0) (lf_start <$> rest0)).
  assert (Hmax : ∀ z, last (sorted_leaves t) = Some z → maxl = lf_start z).
  { intros z Hz. unfold maxl. rewrite foldr_max_sorted.
    - rewrite Esl, last_cons in Hz. rewrite fmap_last.
      destruct (last rest0); simpl in *; congruence.
    - apply Sorted_StronglySorted; [intros x1 x2 x3; lia|].
      apply (Sorted_fmap lf_start (λ x y, lf_start x ≤ lf_start y) Z.le
               (x0 :: rest0)); [done|].
      rewrite <- Esl. apply sorted_by_sorted. }
  assert (Hmaxl : - 2 ^ 31 ≤ maxl < 2 ^ 31).
  { destruct (last (sorted_leaves t)) as [z|] eqn:Ez.
    - rewrite (Hmax z eq_refl). apply last_Some_elem_of in Ez.
      rewrite Esl, Hperm in Ez. pose proof (Hb z Ez). lia.
    - apply last_None in Ez. congruence. }
  unfold py_to_int at 1. rewrite decide_True by done.
  cbn [mbind res_bind].
  pose proof (getsent_loop_short t Hwf sent maxl Hmax (x0 :: rest0) [] [] ∅ 0)
    as Hloop.
  cbn [fmap list_fmap] in Hloop. rewrite Hloop; [done|by rewrite Esl|done| |].
  - rewrite Hperm. pose proof (fw_count _ Hwf). lia.
  - destruct Hbad as (x & Hx & Ht & Hs). exists x. split; [|done].
    by rewrite Hperm.
Qed.

(** * The trees that [exactcounts] reports *)

Lemma exactcounts_candidates_subset fuel trees2 a anodes bitset SLOTS :
  ∀ cur idx candidates c',
  exactcounts_candidates fuel trees2 a anodes bitset SLOTS cur idx candidates
    = Ok c' →
  c' ⊆ candidates.
Proof.
  induction fuel as [|fuel IH]; intros cur idx candidates c' Hc; [done|].
  cbn [exactcounts_candidates] in Hc.
  destruct (iteratesetbits _ _ _ _ _ _) as [[[i cur'] idx']|]; [|done].
  cbn [of_option mbind res_bind] in Hc.
  destruct (decide _); [by simplify_eq|].
  destruct (load anodes i) as [ai|]; [|done].
  cbn [of_option mbind res_bind] in Hc.
  destruct (treeswithprod_at trees2 (prod ai)) as [other| |]; [|done..].
  cbn [mbind res_bind] in Hc. apply IH in Hc. set_solver.
Qed.

Lemma exactcounts_tree_keys js anodes bnodes bitset i m (s : gset Z) :
  m ∈ s → ∀ acc acc',
  exactcounts_tree index_hit js anodes bnodes bitset i m acc = Some acc' →
  (∀ k c, acc !! k = Some c → 1 ≤ c ∧ k ∈ s) →
  ∀ k c, acc' !! k = Some c → 1 ≤ c ∧ k ∈ s.
Proof.
  intros Hm. induction js as [|j js IH]; intros acc acc' Ht Hacc; simpl in Ht;
    [by simplify_eq|].
  destruct (load anodes i) as [ai|]; [|done]. simpl in Ht.
  destruct (load bnodes j) as [bj|]; [|done]. simpl in Ht.
  destruct (decide (prod ai = prod bj)).
  - destruct (containsbitset _ _ _ _ _ _) as [[|]|]; simpl in Ht; [| |done].
    + eapply IH; [done|]. intros k c. unfold index_hit.
      destruct (decide (k = m)) as [->|Hne].
      * rewrite lookup_insert_eq. intros [= <-]. split; [|done].
        destruct (acc !! m) as [c0|] eqn:E; simpl; [|lia].
        destruct (Hacc m c0 E). lia.
      * rewrite lookup_insert_ne by done. apply Hacc.
    + by eapply IH.
  - destruct (decide (prod ai < prod bj)); [by simplify_eq|]. by eapply IH.
Qed.

(** X22.  With [indices=True], when [exactcounts] returns there is one
    multiset for each bitset, in order, and the multiset of a fragment
    counts each tree it mentions at least once and mentions only trees
    that the index of [trees2] lists under the production of a node of the
    tree the fragment comes from. *)
Theorem exactindices_reports_indexed (iter_ints : gset Z → list Z)
    (trees1 trees2 : Ctrees) (bitsets : list Bitset)
    (theindices : list (gmap Z Z)) :
  (∀ s, iter_ints s ≡ₚ elements s) →
  exactindices iter_ints trees1 trees2 bitsets = Ok theindices →
  Forall2 (reports_indexed trees1 trees2) bitsets theindices.
Proof.
  intros Hiter. unfold exactindices. set (SLOTS := BITNSLOTS _).
  apply (for_each_prefix (λ pre idxs,
           Forall2 (reports_indexed trees1 trees2) pre idxs)); [|constructor].
  intros pre w idxs idxs' _ Hpre Hbody.
  destruct (exactcounts_one _ _ _ _ _ _ _) as [ms| |] eqn:Eone; [|done..].
  cbn [mbind res_bind] in Hbody. injection Hbody as <-.
  apply Forall2_app; [done|]. constructor; [|constructor].
  unfold exactcounts_one, getid, getroot in Eone.
  destruct (decide (Z.of_nat (length (bits w)) = SLOTS)); [|done].
  cbn [of_option mbind res_bind] in Eone.
  destruct (load (ct_trees trees1) (tail_id w)) as [a|] eqn:Ea; [|done].
  cbn [of_option mbind res_bind] in Eone.
  destruct (load (bits w) 0) as [cur|]; [|done].
  cbn [of_option mbind res_bind] in Eone.
  destruct (iteratesetbits _ _ _ _ _ _) as [[[i cur'] idx]|]; [|done].
  cbn [of_option mbind res_bind] in Eone.
  destruct (decide (i = -1)); [done|].
  destruct (load _ i) as [ai|] eqn:Eai; [|done].
  cbn [of_option mbind res_bind] in Eone.
  destruct (treeswithprod_at trees2 (prod ai)) as [first| |] eqn:Efirst;
    [|done..].
  cbn [mbind res_bind] in Eone.
  destruct (exactcounts_candidates _ _ _ _ _ _ _ _ _) as [cands| |] eqn:Ec;
    [|done..].
  apply exactcounts_candidates_subset in Ec.
  cbn [of_option mbind res_bind] in Eone.
  exists a, i, ai, first. split_and!; [done..|].
  revert Eone.
  apply (for_each_ind (λ acc : gmap Z Z,
           ∀ m c, acc !! m = Some c → 1 ≤ c ∧ m ∈ first)).
  - intros m acc acc' Hm Hacc Hstep.
    rewrite Hiter in Hm. apply elem_of_elements in Hm.
    destruct (load (ct_trees trees2) m) as [b|]; [|done].
    cbn [of_option mbind res_bind] in Hstep.
    destruct (exactcounts_tree _ _ _ _ _ _ _ _) as [acc2|] eqn:Et; [|done].
    injection Hstep as <-.
    eapply exactcounts_tree_keys; [|exact Et|exact Hacc]. set_solver.
  - intros m c Hm. by rewrite lookup_empty in Hm.
Qed.

(** * The yield of a node *)

Lemma below_terminal a i ai g :
  load a i = Some ai → left ai < 0 → below a i g → g = i.
Proof.
  intros Eai Hl Hb. destruct Hb as [|i ai' g Eai' Hl' _|i ai' g Eai' Hl' _ _];
    [done|..]; simplify_eq; lia.
Qed.

(** X23.  On a tree (child indices local and acyclic), [getyield(tree, i)]
    returns a list that is not empty and holds exactly the indices of the
    terminals at or below node [i]. *)
Theorem getyield_terminals (a : list Node) (rank : Z → nat) :
  tree_ranked a rank →
  ∀ i, is_Some (load a i) →
  ∃ ys, getyield (length a) a i = Some ys ∧ ys ≠ [] ∧
    ∀ k, k ∈ ys ↔
      ∃ g nd, below a i g ∧ load a g = Some nd ∧ left nd < 0 ∧
              k = termidx (left nd).
Proof.
  intros Hrank.
  assert (Hgen : ∀ fuel i, (rank i < fuel)%nat → is_Some (load a i) →
    ∃ ys, getyield fuel a i = Some ys ∧ ys ≠ [] ∧
      ∀ k, k ∈ ys ↔
        ∃ g nd, below a i g ∧ load a g = Some nd ∧ left nd < 0 ∧
                k = termidx (left nd)).
  { induction fuel as [|fuel IH]; intros i Hfuel [ai Eai]; [lia|].
    cbn [getyield]. rewrite Eai. cbn [mbind option_bind].
    destruct (Hrank i ai Eai) as (_ & Hch).
    destruct (decide (left ai < 0)) as [Hterm|Hleft].
    { eexists. split; [done|]. split; [done|]. intros k.
      rewrite list_elem_of_singleton. split.
      - intros ->. exists i, ai. split_and!; [constructor|done..].
      - intros (g & nd & Hb & End & _ & ->).
        apply (below_terminal _ _ _ _ Eai Hterm) in Hb as ->. congruence. }
    destruct Hch as [[Hl Hrl] Hright]; [lia|].
    destruct (IH (left ai) ltac:(lia) (load_is_Some a (left ai) ltac:(lia)))
      as (ls & El & Hlne & Hls).
    destruct (decide (right ai < 0)) as [Hun|Hbin].
    { exists ls. split; [done|]. split; [done|]. intros k. rewrite Hls. split.
      - intros (g & nd & Hb & ?). exists g, nd. split; [|done].
        eapply below_left; [done|lia|done].
      - intros (g & nd & Hb & End & Ht & ->).
        destruct Hb as [|i ai' g Eai' Hl' Hb|i ai' g Eai' Hl' Hr' Hb];
          simplify_eq; try lia.
        by exists g, nd. }
    destruct Hright as [Hr Hrr]; [lia|].
    destruct (IH (right ai) ltac:(lia) (load_is_Some a (right ai) ltac:(lia)))
      as (rs & Er & Hrne & Hrs).
    rewrite El, Er. cbn [mbind option_bind].
    exists (ls ++ rs). split; [done|]. split.
    { destruct ls; [done|]. done. }
    intros k. rewrite elem_of_app, Hls, Hrs. split.
    - intros [(g & nd & Hb & ?)|(g & nd & Hb & ?)]; exists g, nd;
        (split; [|done]).
      + eapply below_left; [done|lia|done].
      + eapply below_right; [done|lia|lia|done].
    - intros (g & nd & Hb & End & Ht & ->).
      destruct Hb as [|i ai' g Eai' Hl' Hb|i ai' g Eai' Hl' Hr' Hb];
        simplify_eq; try lia; [left|right]; by exists g, nd. }
  intros i [ai Eai]. apply Hgen; [|by eexists].
  by destruct (Hrank i ai Eai) as [? _].
Qed.

(** * Instances of the further properties *)

Lemma ex_one_wf : arena_wf ex_one.
Proof. unfold arena_wf. simpl. lia. Qed.

Lemma realloc_keeps_contents_witness :
  5 ≤ ct_max (realloc ex_junk_node ex_junk_tree ex_one 5 10) ∧
  10 ≤ ct_nodesleft (realloc ex_junk_node ex_junk_tree ex_one 5 10).
Proof.
  destruct (realloc_keeps_contents ex_junk_node ex_junk_tree ex_one 5 10
              ex_one_wf) as (_ & H1 & _ & H2 & _).
  split; [exact H1|exact H2].
Defined.

Lemma add_stores_tree_witness :
  ct_len (add ex_junk_node ex_junk_tree ex_one ex_goodtree ex_prods).2 = 2 ∧
  ct_numnodes (add ex_junk_node ex_junk_tree ex_one ex_goodtree ex_prods).2
  = 6.
Proof.
  destruct (add_stores_tree ex_junk_node ex_junk_tree ex_one
              (add ex_junk_node ex_junk_tree ex_one ex_goodtree ex_prods).2
              ex_goodtree ex_prods ex_one_wf)
    as (_ & H1 & H2 & _).
  - simpl. lia.
  - vm_compute. reflexivity.
  - split; [exact H1|exact H2].
Defined.

Lemma init_exact_fit_witness :
  ct_nodesleft
    (init ex_junk_node ex_junk_tree (Some [ex_goodtree; ex_goodtree])
       (Some ex_prods)).2 = 0.
Proof.
  destruct (init_exact_fit ex_junk_node ex_junk_tree
              [ex_goodtree; ex_goodtree] ex_prods
              (init ex_junk_node ex_junk_tree (Some [ex_goodtree; ex_goodtree])
                 (Some ex_prods)).2)
    as (_ & _ & _ & H1 & _).
  - repeat constructor; simpl; lia.
  - vm_compute. reflexivity.
  - exact H1.
Defined.

Lemma ex_corpus_stored : trees_stored ex_corpus.
Proof.
  intros n Hn. simpl in Hn.
  assert (n = 0 ∨ n = 1) as [-> | ->] by lia; eexists;
    (split; [reflexivity|]); simpl; lia.
Qed.

Lemma ex_corpus_prods n p :
  0 ≤ n < ct_len ex_corpus → has_prod ex_corpus n p → 0 ≤ p < 4.
Proof.
  intros Hn (t & i & nd & Et & End & <-). simpl in Hn.
  assert (n = 0 ∨ n = 1) as [-> | ->] by lia; injection Et as <-.
  - change (slice (ct_nodes ex_corpus) (mkNodeArray 0 3 2))
      with [mkNode 0 (-1) (-1); mkNode 1 (-2) (-1); mkNode 2 0 1] in End.
    load_cases End; simpl; lia.
  - change (slice (ct_nodes ex_corpus) (mkNodeArray 3 3 1))
      with [mkNode 0 (-1) (-1); mkNode 2 0 2; mkNode 3 (-2) (-1)] in End.
    load_cases End; simpl; lia.
Qed.

Lemma indextrees_exact_witness :
  ∃ index, indextrees_result ex_corpus 4 = Ok index ∧ length index = 4%nat.
Proof.
  destruct (indextrees_exact ex_corpus 4 ex_corpus_stored)
    as (index & H1 & H2 & _).
  - intros n p Hn Hp. pose proof (ex_corpus_prods n p Hn Hp).
    unfold id_in_range. lia.
  - exists index. split; [exact H1|exact H2].
Defined.

Lemma indextrees_raises_witness :
  indextrees_result ex_corpus 3 = Raise IndexError.
Proof.
  destruct (indextrees_raises ex_corpus 3 ex_corpus_stored) as [_ [_ H1]].
  apply H1. exists 1, 3. split; [simpl; lia|]. split.
  - exists (mkNodeArray 3 3 1), 2, (mkNode 3 (-2) (-1)). by split_and!.
  - unfold id_in_range. lia.
Defined.

Lemma addnodes_keeps_earlier_witness :
  ct_treeswithprod
    (addnodes ex_junk_node ex_junk_tree map_to_list ex_one ex_source 3 0).2
  = ct_treeswithprod ex_one.
Proof.
  destruct (addnodes_keeps_earlier ex_junk_node ex_junk_tree map_to_list ex_one
    (addnodes ex_junk_node ex_junk_tree map_to_list ex_one ex_source 3 0).2
    ex_source 3 0
    (addnodes ex_junk_node ex_junk_tree map_to_list ex_one ex_source 3 0).1)
    as (_ & _ & H1 & _).
  - done.
  - exact ex_one_wf.
  - lia.
  - by destruct (addnodes _ _ _ _ _ _ _).
  - exact H1.
Defined.

Lemma collectfragments_counts_witness :
  ∃ result,
    collectfragments elements ex_fragkey (∅ : gmap Z fragval)
      {[ mkBitset [5] 0 2 ]} ex_anodes () [] false true = Ok result ∧
    count_of result 2 = 1.
Proof.
  destruct (collectfragments_counts elements ex_fragkey (∅ : gmap Z fragval)
              {[ mkBitset [5] 0 2 ]} ex_anodes () [] false)
    as (result & H1 & _ & H2).
  - done.
  - intros k v Hk. by rewrite lookup_empty in Hk.
  - intros w ->%elem_of_singleton. eexists. vm_compute. reflexivity.
  - exists result. split; [exact H1|]. rewrite (H2 2). vm_compute. reflexivity.
Defined.

Lemma collectfragments_keeps_first_witness :
  ({[ 2 := Repr (mkBitset [7] 1 2) ]} : gmap Z fragval) !! 2
  = Some (Repr (mkBitset [7] 1 2)).
Proof.
  destruct (collectfragments_keeps_first elements ex_fragkey
              ({[ 2 := Repr (mkBitset [7] 1 2) ]} : gmap Z fragval)
              {[ 2 := Repr (mkBitset [7] 1 2) ]}
              {[ mkBitset [5] 0 2 ]} ex_anodes () [] false)
    as (H1 & _).
  - done.
  - vm_compute. reflexivity.
  - apply H1. vm_compute. reflexivity.
Defined.

Lemma extractfragments_values_witness :
  values_of_mode false ({[ 2 := Repr (mkBitset [5] 0 2) ]} : gmap Z fragval).
Proof.
  apply (extractfragments_values (λ _, 7) (λ _ _, 7) elements elements
           ex_fragkey (λ _, true) (λ _, true) ex_indexed [(); ()] 0 0 [] None
           None false false false false false).
  vm_compute. reflexivity.
Defined.

Lemma twoterminals_exact_witness :
  ∃ i j, 0 ≤ i < 3 ∧ 0 ≤ j < 3 ∧
    shares_terminals ex_anodes ex_indexed {[ 0 ]} {[ 1 ]} i j 0.
Proof.
  apply (twoterminals_exact ex_a ex_anodes ex_indexed {[ 0 ]} {[ 1 ]} {[ 0 ]}).
  - vm_compute. reflexivity.
  - set_solver.
Defined.

Lemma fasttreekernel_only_equal_prods_witness :
  ∃ m', fasttreekernel ex_source ex_source 3 3 [0; 0; 0] 1 = Some m' ∧
        adds_same_prod ex_source ex_source 1 [0; 0; 0] m'.
Proof.
  apply (fasttreekernel_only_equal_prods ex_source ex_source 1);
    simpl; lia.
Defined.

Lemma extractat_connected_witness : linked ex_anodes [7] 2 0.
Proof.
  destruct (extractat_connected 3 [1; 2; 4] [0] ex_anodes ex_anodes 2 2 1
              2 [0; 0; 0] [7]) with (g := 0) as [H|H].
  - vm_compute. reflexivity.
  - vm_compute. reflexivity.
  - vm_compute in H. discriminate H.
  - exact H.
Defined.

Lemma containsbitset_smaller_witness :
  containsbitset 3 ex_anodes ex_anodes [4] 2 2 = Some true.
Proof.
  apply (containsbitset_smaller 3 ex_anodes ex_anodes [4] [7]).
  - reflexivity.
  - intros g. unfold gbit, wbit, load.
    destruct (decide (0 ≤ g `div` 64)); [|done].
    destruct (Z.to_nat (g `div` 64)) as [|k]; simpl; [|by destruct k].
    change 4 with (2 ^ 2). rewrite Z.pow2_bits_eqb by lia.
    intros <-%Z.eqb_eq. reflexivity.
  - vm_compute. reflexivity.
Defined.

Lemma getlabelsprods_numbers_witness :
  numbered [(); (); ()] ({[ 12 := 0; 10 := 1; 11 := 2 ]} : gmap Z Z).
Proof.
  apply (getlabelsprods_numbers item_prod (λ _ : pyitem Z, Ok ())
           [ex_goodtree] [] ∅).
  - split_and!; [done| |].
    + intros p id Hp. by rewrite lookup_empty in Hp.
    + intros p q id Hp. by rewrite lookup_empty in Hp.
  - vm_compute. reflexivity.
Defined.

Lemma ex_prods_ids p id :
  ex_prods !! p = Some id → 0 ≤ id < Z.of_nat (size ex_prods).
Proof.
  replace (size ex_prods) with 3%nat by (vm_compute; reflexivity).
  unfold ex_prods. rewrite !lookup_insert_Some, lookup_singleton_Some. lia.
Qed.

Lemma init_then_indextrees_witness :
  ∃ index,
    indextrees_result
      (init ex_junk_node ex_junk_tree (Some [ex_goodtree; ex_goodtree])
         (Some ex_prods)).2 (size ex_prods) = Ok index ∧
    length index = size ex_prods.
Proof.
  destruct (init_then_indextrees ex_junk_node ex_junk_tree
              [ex_goodtree; ex_goodtree] ex_prods
              (init ex_junk_node ex_junk_tree (Some [ex_goodtree; ex_goodtree])
                 (Some ex_prods)).2)
    as (index & H1 & H2 & _).
  - repeat constructor; simpl; lia.
  - exact ex_prods_ids.
  - vm_compute. reflexivity.
  - exists index. split; [exact H1|exact H2].
Defined.

Lemma completebitsets_whole_trees_witness :
  ∃ w k, whole_tree ex_wholekey ex_corpus ex_sents [] (BITNSLOTS (3 + 1))
           false 1 w k ∧
         is_Some (({[ 0 := mkBitset [7] 0 2; 1 := mkBitset [7] 1 1 ]}
                     : gmap Z Bitset) !! k).
Proof.
  apply (completebitsets_whole_trees (λ _, 7) ex_wholekey ex_corpus ex_sents
           [] 3 false).
  - lia.
  - vm_compute. reflexivity.
  - simpl. lia.
Defined.

Lemma extractfrompair_connected_witness :
  connected_frag ex_anodes (mkBitset [5] 0 2).
Proof.
  destruct (extractfrompair_connected (λ _ _, 7) elements ex_a ex_anodes
              ex_corpus 0 1 0 1 ex_pair
              (mkPairState [0; 0; 0] (mkBitset [5] 0 2)
                 {[ mkBitset [5] 0 2 ]} [(2, 1)]))
    with (w := mkBitset [5] 0 2) as [H|H].
  - reflexivity.
  - vm_compute. reflexivity.
  - simpl. set_solver.
  - simpl in H. set_solver.
  - exact H.
Defined.

Lemma ex_indexed_sound :
  index_sound ex_indexed [{[0; 1]}; {[0]}; {[0; 1]}; {[1]}].
Proof.
  assert (H0 : ∀ p, p ∈ [0; 1; 2] → has_prod ex_indexed 0 p).
  { intros p Hp. exists ex_a.
    repeat (apply elem_of_cons in Hp as [->|Hp]);
      [by exists 0, (mkNode 0 (-1) (-1))|by exists 1, (mkNode 1 (-2) (-1))
      |by exists 2, (mkNode 2 0 1)|by apply elem_of_nil in Hp]. }
  assert (H1 : ∀ p, p ∈ [0; 2; 3] → has_prod ex_indexed 1 p).
  { intros p Hp. exists ex_b.
    repeat (apply elem_of_cons in Hp as [->|Hp]);
      [by exists 0, (mkNode 0 (-1) (-1))|by exists 1, (mkNode 2 0 2)
      |by exists 2, (mkNode 3 (-2) (-1))|by apply elem_of_nil in Hp]. }
  intros p s n Hp Hn.
  destruct p as [|[|[|[|p]]]]; simplify_eq/=;
    repeat (apply elem_of_union in Hn as [Hn|Hn]);
    apply elem_of_singleton in Hn as ->;
    (split; [lia|]); first [apply H0|apply H1]; set_solver.
Qed.

Lemma ex_keys_built n t i nd sent w :
  load (ct_trees ex_indexed) n = Some t →
  load (slice (ct_nodes ex_indexed) t) i = Some nd →
  py_index ex_words n = Ok sent →
  one_node (BITNSLOTS (3 + 1)) i n = Some w →
  ∃ k, ex_key (slice (ct_nodes ex_indexed) t) w ex_labels sent false = Ok k.
Proof.
  intros Et End Hsent Hw. simpl in Et, End. load_cases Et.
  - change (slice _ _) with
      [mkNode 0 (-1) (-1); mkNode 1 (-2) (-1); mkNode 2 0 1] in End |- *.
    load_cases End; vm_compute in Hsent; injection Hsent as <-;
      vm_compute in Hw; injection Hw as <-; eexists; vm_compute; reflexivity.
  - change (slice _ _) with
      [mkNode 0 (-1) (-1); mkNode 2 0 2; mkNode 3 (-2) (-1)] in End |- *.
    load_cases End; vm_compute in Hsent; injection Hsent as <-;
      vm_compute in Hw; injection Hw as <-; eexists; vm_compute; reflexivity.
Qed.

Lemma coverbitsets_returns_witness :
  ∃ result,
    coverbitsets (λ _, 7) elements ex_key ex_indexed ex_words ex_labels 3 false
    = Ok result.
Proof.
  apply (coverbitsets_returns (λ _, 7) elements ex_key ex_indexed ex_words
           ex_labels 3 false [{[0; 1]}; {[0]}; {[0; 1]}; {[1]}]).
  - done.
  - exact ex_corpus_stored.
  - reflexivity.
  - exact ex_indexed_sound.
  - simpl. lia.
  - lia.
  - intros n t Hn Et. simpl in Hn.
    assert (n = 0 ∨ n = 1) as [-> | ->] by lia; injection Et as <-; simpl; lia.
  - exact ex_keys_built.
Defined.

Lemma numbered_prods_no_KeyError_witness :
  (init ex_junk_node ex_junk_tree (Some [ex_goodtree])
     (Some ({[ 12 := 0; 10 := 1; 11 := 2 ]} : gmap Z Z))).1
  ≠ Raise KeyError.
Proof.
  apply (numbered_prods_no_KeyError ex_junk_node ex_junk_tree
           (λ _ : pyitem Z, Ok ()) [ex_goodtree] [ex_goodtree] [] [(); (); ()]
           ∅).
  - split_and!; [done| |].
    + intros p id Hp. by rewrite lookup_empty in Hp.
    + intros p q id Hp. by rewrite lookup_empty in Hp.
  - vm_compute. reflexivity.
  - intros tree2 a Ht Ha. by exists tree2, a.
Defined.

Lemma getsent_short_sentence_witness :
  getsent (bytes_of_string "(S (NP 2) (VP 4))") ["The"; "tall"; "man"]
  = Raise IndexError.
Proof.
  apply (getsent_short_sentence ex_frag ["The"; "tall"; "man"]).
  - apply ex_frag_wf.
  - exists (mkLeaf 4 4 true). split_and!; [|done|simpl; lia].
    simpl. set_solver.
Defined.

Lemma exactindices_reports_indexed_witness :
  Forall2 (reports_indexed ex_indexed ex_indexed) [mkBitset [5] 0 2]
    [({[ 0 := 1; 1 := 1 ]} : gmap Z Z)].
Proof.
  apply (exactindices_reports_indexed elements ex_indexed ex_indexed).
  - done.
  - vm_compute. reflexivity.
Defined.

Lemma getyield_terminals_witness :
  ∃ ys, getyield 3 ex_anodes 2 = Some ys ∧ ys ≠ [].
Proof.
  destruct (getyield_terminals ex_anodes ex_rank_a ex_ranked_a 2)
    as (ys & H1 & H2 & _).
  - by eexists.
  - exists ys. split; [exact H1|exact H2].
Defined.

(** * The calls of [extractat] *)

(** The log does not change what [extractat] computes. *)
Lemma extractat_calls_erase (a b : list Node) (SLOTS : Z) fuel : ∀ m r i j,
  fst <$> extractat_calls fuel m r a b i j SLOTS
  = extractat fuel m r a b i j SLOTS.
Proof.
  induction fuel as [|fuel IH]; intros m r i j; [done|].
  cbn [extractat extractat_calls].
  destruct (SETBIT r 0 i) as [r1|]; [|done]. cbn [mbind option_bind].
  destruct (CLEARBIT m (j * SLOTS) i) as [m1|]; [|done].
  cbn [mbind option_bind].
  destruct (load a i) as [ai|]; [|done]. cbn [mbind option_bind].
  destruct (decide (left ai < 0)); [done|].
  destruct (load b j) as [bj|]; [|done]. cbn [mbind option_bind].
  destruct (TESTBIT m1 (left bj * SLOTS) (left ai)) as [tl|]; [|done].
  cbn [mbind option_bind].
  assert (Hl : fst <$>
            (if tl
             then extractat_calls fuel m1 r1 a b (left ai) (left bj) SLOTS
             else Some (0, m1, r1, []))
          = (if tl then extractat fuel m1 r1 a b (left ai) (left bj) SLOTS
             else Some (0, m1, r1))).
  { destruct tl; [apply IH|done]. }
  destruct (if tl then extractat_calls _ _ _ _ _ _ _ _ else _)
    as [[[[t2 m2] r2] c2]|]; simpl in Hl; rewrite <- Hl; [|done].
  cbn [mbind option_bind].
  destruct (decide (right ai < 0)); [done|].
  destruct (TESTBIT m2 (right bj * SLOTS) (right ai)) as [[|]|]; [|done..].
  cbn [mbind option_bind].
  rewrite <- IH.
  by destruct (extractat_calls fuel m2 r2 a b (right ai) (right bj) SLOTS)
    as [[[[t3 m3] r3] c3]|].
Qed.

Lemma extractat_calls_head (a b : list Node) (SLOTS : Z) fuel m r i j t m' r' cs :
  extractat_calls fuel m r a b i j SLOTS = Some (t, m', r', cs) →
  ∃ cs', cs = (i, j) :: cs'.
Proof.
  destruct fuel as [|fuel]; [done|]. cbn [extractat_calls].
  destruct (SETBIT r 0 i) as [r1|]; [|done]. cbn [mbind option_bind].
  destruct (CLEARBIT m (j * SLOTS) i) as [m1|]; [|done].
  cbn [mbind option_bind].
  destruct (load a i) as [ai|]; [|done]. cbn [mbind option_bind].
  destruct (decide (left ai < 0)); [intros [= <- <- <- <-]; by eexists|].
  destruct (load b j) as [bj|]; [|done]. cbn [mbind option_bind].
  destruct (TESTBIT m1 (left bj * SLOTS) (left ai)) as [tl|]; [|done].
  cbn [mbind option_bind].
  destruct (if tl then extractat_calls _ _ _ _ _ _ _ _ else _)
    as [[[[t2 m2] r2] c2]|]; [|done].
  cbn [mbind option_bind].
  destruct (decide (right ai < 0)); [intros [= <- <- <- <-]; by eexists|].
  destruct (TESTBIT m2 (right bj * SLOTS) (right ai)) as [[|]|]; [| |done].
  - cbn [mbind option_bind].
    destruct (extractat_calls fuel m2 r2 a b (right ai) (right bj) SLOTS)
      as [[[[t3 m3] r3] c3]|]; [|done].
    intros [= <- <- <- <-]; by eexists.
  - intros [= <- <- <- <-]; by eexists.
Qed.

(** The bits that a call adds to the result are the nodes of [a] at which
    [extractat] was entered. *)
Lemma extractat_calls_bits (a b : list Node) (SLOTS : Z) fuel :
  ∀ m r i j t m' r' cs,
  extractat_calls fuel m r a b i j SLOTS = Some (t, m', r', cs) →
  ∀ g, gbit r' g = true ↔ gbit r g = true ∨ ∃ j', (g, j') ∈ cs.
Proof.
  induction fuel as [|fuel IH]; intros m r i j t m' r' cs; [done|].
  cbn [extractat_calls].
  destruct (SETBIT r 0 i) as [r1|] eqn:Er1; [|done]. cbn [mbind option_bind].
  destruct (CLEARBIT m (j * SLOTS) i) as [m1|]; [|done].
  cbn [mbind option_bind].
  destruct (load a i) as [ai|]; [|done]. cbn [mbind option_bind].
  pose proof (λ g, SETBIT_gbit r i r1 g Er1) as Hr1.
  assert (Hbase : ∀ g, gbit r1 g = true ↔ gbit r g = true ∨ g = i).
  { intros g. rewrite Hr1, orb_true_iff, bool_decide_eq_true. done. }
  destruct (decide (left ai < 0)).
  { intros [= <- <- <- <-] g. rewrite Hbase.
    setoid_rewrite list_elem_of_singleton. naive_solver. }
  destruct (load b j) as [bj|]; [|done]. cbn [mbind option_bind].
  destruct (TESTBIT m1 (left bj * SLOTS) (left ai)) as [tl|]; [|done].
  cbn [mbind option_bind].
  destruct (if tl then extractat_calls _ _ _ _ _ _ _ _ else _)
    as [[[[t2 m2] r2] c2]|] eqn:E2; [|done].
  cbn [mbind option_bind].
  assert (H2 : ∀ g, gbit r2 g = true ↔ gbit r1 g = true ∨ ∃ j', (g, j') ∈ c2).
  { destruct tl.
    - by eapply IH.
    - injection E2 as <- <- <- <-. intros g.
      setoid_rewrite elem_of_nil. naive_solver. }
  destruct (decide (right ai < 0)).
  { intros [= <- <- <- <-] g. rewrite H2, Hbase.
    setoid_rewrite elem_of_cons. naive_solver. }
  destruct (TESTBIT m2 (right bj * SLOTS) (right ai)) as [[|]|]; [| |done].
  - cbn [mbind option_bind].
    destruct (extractat_calls fuel m2 r2 a b (right ai) (right bj) SLOTS)
      as [[[[t3 m3] r3] c3]|] eqn:E3; [|done].
    intros [= <- <- <- <-] g. rewrite (IH _ _ _ _ _ _ _ _ E3), H2, Hbase.
    setoid_rewrite elem_of_cons. setoid_rewrite elem_of_app. naive_solver.
  - intros [= <- <- <- <-] g. rewrite H2, Hbase.
    setoid_rewrite elem_of_cons. naive_solver.
Qed.

Lemma calls_of_cons calls e (log : list extraction) :
  calls_of ((calls, e) :: log) = calls ++ calls_of log.
Proof. done. Qed.

Lemma calls_of_app (l1 l2 : list extraction) :
  calls_of (l1 ++ l2) = calls_of l1 ++ calls_of l2.
Proof. unfold calls_of. by rewrite fmap_app, join_app. Qed.

Lemma log_fragments_nil SLOTS (r : gset Bitset) : log_fragments SLOTS r r [].
Proof.
  split_and!; [done| |by left].
  by intros calls w ?%elem_of_nil.
Qed.

Lemma log_fragments_app SLOTS (r0 r1 r2 : gset Bitset) l1 l2 :
  log_fragments SLOTS r0 r1 l1 → log_fragments SLOTS r1 r2 l2 →
  log_fragments SLOTS r0 r2 (l1 ++ l2).
Proof.
  intros (Hs1 & Ha1 & Hb1) (Hs2 & Ha2 & Hb2). split_and!.
  - set_solver.
  - intros calls w [Hin|Hin]%elem_of_app.
    + destruct (Ha1 calls w Hin) as [? ?]. split; [set_solver|done].
    + by apply Ha2.
  - intros w Hw. destruct (Hb2 w Hw) as [Hold|[calls Hin]].
    + destruct (Hb1 w Hold) as [?|[calls Hin]]; [by left|right].
      exists calls. apply elem_of_app. by left.
    + right. exists calls. apply elem_of_app. by right.
Qed.

Lemma log_starts_app s1 s2 l1 l2 :
  log_starts s1 l1 → log_starts s2 l2 → log_starts (s1 ++ s2) (l1 ++ l2).
Proof. apply Forall2_app. Qed.

Section calls.
Context (a b : list Node) (SLOTS : Z) (ra rb : Z → nat).
Context (Hta : tree_ranked a ra) (Htb : tree_ranked b rb).
Context (Har : same_arity a b).
Context (Hslots : Z.of_nat (length a) ≤ 64 * SLOTS) (Hpos : 0 < SLOTS).

Local Abbreviation alen := (Z.of_nat (length a)).
Local Abbreviation blen := (Z.of_nat (length b)).

(** A child cell that tests as set is the cell of a pair of nodes with the
    same production. *)
Lemma child_cell m ci cj t :
  cells_sound a b SLOTS m → 0 ≤ ci < alen → 0 ≤ cj < blen →
  TESTBIT m (cj * SLOTS) ci = Some t →
  t = cell m SLOTS ci cj ∧ (t = true → same_prod a b ci cj).
Proof.
  intros Hs Hci Hcj (_ & _ & ->)%TESTBIT_Some. split; [done|].
  intros Hc. eapply cells_sound_cell; [done|done|lia|done|done].
Qed.

(** [extractat] is entered only at cells that are set, and leaves the cells
    it was entered at cleared: no pair occurs twice among its calls. *)
Lemma extractat_calls_once fuel : ∀ m r i j t m' r' cs,
  cells_sound a b SLOTS m → same_prod a b i j →
  cell m SLOTS i j = true →
  extractat_calls fuel m r a b i j SLOTS = Some (t, m', r', cs) →
  starts_once b SLOTS m m' cs.
Proof.
  induction fuel as [|fuel IH]; intros m r i j t m' r' cs Hs Hp Hc; [done|].
  pose proof Hp as (an & bn & Ean & Ebn & Heq).
  destruct (same_prod_bounds _ _ _ _ Hp) as [Hi Hj].
  cbn [extractat_calls].
  destruct (SETBIT r 0 i) as [r1|]; [|done]. cbn [mbind option_bind].
  destruct (CLEARBIT m (j * SLOTS) i) as [m1|] eqn:Em1; [|done].
  cbn [mbind option_bind]. rewrite Ean. cbn [mbind option_bind].
  destruct (CLEARBIT_cell _ _ _ _ _ Em1 ltac:(lia)) as (Hc1 & Hz1 & _).
  assert (Hs1 : cells_sound a b SLOTS m1) by by eapply cells_sound_only_clears.
  assert (H0 : starts_once b SLOTS m m1 [(i, j)]).
  { split; [done|]. split; [apply NoDup_singleton|].
    intros i0 j0 [= -> ->]%list_elem_of_singleton.
    split; [lia|]. done. }
  destruct (Hta i an Ean) as (_ & Hleft).
  destruct (Htb j bn Ebn) as (_ & Hleftb).
  destruct (Har i j an bn Ean Ebn Heq) as [Harl Harr].
  destruct (decide (left an < 0)) as [Hterm|Hnt].
  { by intros [= <- <- <- <-]. }
  rewrite Ebn. cbn [mbind option_bind].
  destruct Hleft as [[Hla Hra] Hright]; [lia|].
  destruct Hleftb as [[Hlb Hrb] Hrightb]; [lia|].
  destruct (TESTBIT m1 (left bn * SLOTS) (left an)) as [tl|] eqn:Etl; [|done].
  cbn [mbind option_bind].
  destruct (child_cell m1 (left an) (left bn) tl Hs1) as [-> Hpl];
    [lia..|done|].
  destruct (if cell m1 SLOTS (left an) (left bn)
            then extractat_calls _ _ _ _ _ _ _ _ else _)
    as [[[[t2 m2] r2] c2]|] eqn:E2; [|done].
  cbn [mbind option_bind].
  assert (H2 : starts_once b SLOTS m1 m2 c2).
  { destruct (cell m1 SLOTS (left an) (left bn)) eqn:Ecl.
    - eapply IH; [done|by apply Hpl|done|done].
    - injection E2 as <- <- <- <-. apply starts_once_nil. }
  assert (Hs2 : cells_sound a b SLOTS m2).
  { eapply cells_sound_only_clears; [done|apply H2]. }
  pose proof (starts_once_app _ _ _ _ _ _ _ H0 H2) as H02.
  destruct (decide (right an < 0)) as [Hun|Hbin].
  { by intros [= <- <- <- <-]. }
  destruct Hright as [Hra2 Hrk2]; [lia|].
  destruct Hrightb as [Hrb2 Hrkb2]; [lia|].
  destruct (TESTBIT m2 (right bn * SLOTS) (right an)) as [tr|] eqn:Etr;
    [|done].
  cbn [mbind option_bind].
  destruct (child_cell m2 (right an) (right bn) tr Hs2) as [-> Hpr];
    [lia..|done|].
  destruct (cell m2 SLOTS (right an) (right bn)) eqn:Ecr.
  - destruct (extractat_calls fuel m2 r2 a b (right an) (right bn) SLOTS)
      as [[[[t3 m3] r3] c3]|] eqn:E3; [|done].
    cbn [mbind option_bind]. intros [= <- <- <- <-].
    change ((i, j) :: c2 ++ c3) with (([(i, j)] ++ c2) ++ c3).
    eapply starts_once_app; [done|].
    eapply IH; [done|by apply Hpr|done|done].
  - by intros [= <- <- <- <-].
Qed.


(** What an extraction does to the state of the loop. *)
Lemma extraction_step m z i j terms m' r' cs :
  cells_sound a b SLOTS m → blen * SLOTS ≤ Z.of_nat (length m) →
  SLOTS ≤ Z.of_nat (length z) →
  0 ≤ i < 64 * SLOTS → 0 ≤ j < blen → cell m SLOTS i j = true →
  extractat_calls (length a) m z a b i j SLOTS = Some (terms, m', r', cs) →
  extract_post b SLOTS rb i j m z m' r' ∧ starts_once b SLOTS m m' cs ∧
  head cs = Some (i, j).
Proof.
  intros Hs Hlm Hlz Hi Hj Hc Ecs.
  assert (Hp : same_prod a b i j).
  { eapply cells_sound_cell; [done|done|lia|done|done]. }
  pose proof Hp as (an & bn & Ean & Ebn & Heq).
  destruct (extractat_spec a b SLOTS ra rb Hta Htb Har Hslots
              (length a) m z i j)
    as (terms0 & m0 & r0 & E & Hpost); [|done|done|lia|done|].
  { apply (Hta i an Ean). }
  rewrite <- extractat_calls_erase, Ecs in E. injection E as <- <- <-.
  split; [done|]. split; [by eapply extractat_calls_once|].
  by destruct (extractat_calls_head _ _ _ _ _ _ _ _ _ _ _ _ Ecs) as [cs' ->].
Qed.

Lemma extractbitsets_row_calls_spec fuel : ∀ j n minterms st cur idx i st' log,
  extract_inv a b SLOTS st → 0 ≤ j < blen →
  (i = -1 ∨
   (0 ≤ i < 64 * SLOTS ∧ cell (st_matrix st) SLOTS i j = true ∧
    cur_ok (st_matrix st) SLOTS j cur idx i ∧ 0 ≤ idx < SLOTS ∧
    i < 64 * (idx + 1))) →
  extractbitsets_row_calls fuel a b j n minterms SLOTS st cur idx i
    = Some (st', log) →
  extract_inv a b SLOTS st' ∧
  starts_once b SLOTS (st_matrix st) (st_matrix st') (calls_of log) ∧
  (∃ tr, st_starts st' = st_starts st ++ tr ∧ log_starts tr log) ∧
  log_fragments SLOTS (st_results st) (st_results st') log.
Proof.
  assert (Hstop : ∀ st, extract_inv a b SLOTS st →
    extract_inv a b SLOTS st ∧
    starts_once b SLOTS (st_matrix st) (st_matrix st) (calls_of []) ∧
    (∃ tr, st_starts st = st_starts st ++ tr ∧ log_starts tr []) ∧
    log_fragments SLOTS (st_results st) (st_results st) []).
  { intros st Hinv. split; [done|]. split; [apply starts_once_nil|].
    split; [|apply log_fragments_nil].
    exists []. rewrite app_nil_r. split; [done|constructor]. }
  induction fuel as [|fuel IH]; intros j n minterms st cur idx i st' log
    Hinv Hj Hi.
  - simpl. case_decide; [|done]. intros [= <- <-]. by apply Hstop.
  - cbn [extractbitsets_row_calls].
    destruct (decide (i = -1)) as [->|Hne].
    { intros [= <- <-]. by apply Hstop. }
    destruct Hinv as (Hs & Hlm & Hlr).
    destruct Hi as [?|(Hi & Hc & Hcur & Hidx & Hi64)]; [done|].
    destruct (memset0 (bits (st_scratch st)) 0 SLOTS) as [z|] eqn:Ez; [|done].
    cbn [mbind option_bind].
    destruct (memset0_spec _ _ _ Ez) as [Hlz Hzero].
    destruct (extractat_calls (length a) (st_matrix st) z a b i j SLOTS)
      as [[[[terms m'] r'] cs]|] eqn:Ecs; [|done].
    cbn [mbind option_bind].
    assert (Hlz' : SLOTS ≤ Z.of_nat (length z)) by lia.
    destruct (extraction_step _ _ _ _ _ _ _ _ Hs Hlm Hlz' Hi Hj Hc Ecs)
      as (Hpost & Honce & Hhead).
    destruct Hpost as (Hcl & Hrl & Hz & Hroot & Hframe).
    assert (Hs' : cells_sound a b SLOTS m')
      by by eapply cells_sound_only_clears.
    assert (Hlm' : length m' = length (st_matrix st)) by apply Hcl.
    assert (Hcur' : cur_ok m' SLOTS j cur idx i).
    { destruct Hcur as [H0 Hbits]. split; [done|]. intros k Hk Ht.
      destruct (Hbits k Hk Ht) as [Hlive Hlt]. split; [|done].
      assert (k < 64).
      { eapply (cells_sound_bit_lt64 a b SLOTS (st_matrix st));
          [done| |done|done]. nia. }
      rewrite wbit_cell in Hlive |- * by lia.
      rewrite Hframe; [done|lia|done|done|]. intros [= ?]. lia. }
    destruct (iteratesetbits_spec a b SLOTS Hslots Hpos (Z.to_nat SLOTS) m' j cur idx i)
      as (i' & cur' & idx' & Eit & Hi'); [done|done|lia|done|done|done|lia|].
    rewrite Eit. cbn [mbind option_bind].
    set (st1 := mkExtractState m' _ _ _).
    destruct (extractbitsets_row_calls fuel a b j n minterms SLOTS st1 cur'
                idx' i') as [[st2 log2]|] eqn:E2; [|done].
    cbn [mbind option_bind]. intros [= <- <-].
    assert (Hlr' : length r' = length z) by (symmetry; apply Hrl).
    destruct (IH j n minterms st1 cur' idx' i' st2 log2)
      as (Hinv2 & Honce2 & (tr & Etr & Hst) & Hfr2); [| | |done|].
    { split_and!; [done|simpl; lia|]. subst st1. simpl.
      destruct (decide _); simpl; lia. }
    { done. }
    { destruct Hi' as [->|(? & ? & ? & ? & ? & ?)]; [by left|right]. done. }
    split; [done|]. rewrite calls_of_cons. split.
    { eapply starts_once_app; done. }
    split.
    { exists ((i, j) :: tr). split.
      - rewrite Etr. subst st1. simpl. by rewrite <- app_assoc.
      - by constructor. }
    assert (Hbits : ∀ g, 0 ≤ g < 64 * SLOTS →
              gbit r' g = true ↔ ∃ j', (g, j') ∈ cs).
    { intros g Hg. rewrite (extractat_calls_bits _ _ _ _ _ _ _ _ _ _ _ _ Ecs).
      assert (gbit z g = false) as ->.
      { unfold gbit. apply Hzero. split; [apply Z.div_pos; lia|].
        apply Z.div_lt_upper_bound; lia. }
      naive_solver. }
    change (?x :: log2) with ([x] ++ log2).
    eapply log_fragments_app; [|done]. subst st1. simpl.
    destruct (decide (terms >= minterms)).
    + split_and!.
      * set_solver.
      * intros calls w [= -> ->]%list_elem_of_singleton.
        split; [set_solver|done].
      * intros w [?|Hw%elem_of_singleton]%elem_of_union; [by left|right].
        subst w. eexists. by apply list_elem_of_singleton.
    + split_and!; [done| |by left].
      by intros calls w ?%list_elem_of_singleton.
Qed.

Lemma extractbitsets_calls_spec fuel : ∀ j n minterms st st' log,
  extract_inv a b SLOTS st → 0 ≤ j < blen →
  extractbitsets_calls fuel a b j n minterms SLOTS st = Some (st', log) →
  extract_inv a b SLOTS st' ∧
  starts_once b SLOTS (st_matrix st) (st_matrix st') (calls_of log) ∧
  (∃ tr, st_starts st' = st_starts st ++ tr ∧ log_starts tr log) ∧
  log_fragments SLOTS (st_results st) (st_results st') log.
Proof.
  induction fuel as [|fuel IH]; intros j n minterms st st' log Hinv Hj;
    [done|].
  pose proof Hinv as (Hs & Hlm & Hlr).
  cbn [extractbitsets_calls].
  assert (Hk : 0 ≤ j * SLOTS < blen * SLOTS) by nia.
  destruct (load (st_matrix st) (j * SLOTS)) as [cur0|] eqn:Ecur; [|done].
  cbn [mbind option_bind].
  destruct (iteratesetbits_spec a b SLOTS Hslots Hpos (Z.to_nat SLOTS) (st_matrix st) j
              cur0 0 (-1))
    as (i & cur & idx & Eit & Hi); [done|done|done| |lia|lia|lia|].
  { split; [by eapply cells_sound_word_nonneg|].
    intros k Hk0 Ht. split; [|lia]. unfold wbit.
    replace (j * SLOTS + 0) with (j * SLOTS) by lia. by rewrite Ecur. }
  rewrite Eit. cbn [mbind option_bind].
  destruct (extractbitsets_row_calls _ a b j n minterms SLOTS st cur idx i)
    as [[st1 log1]|] eqn:E1; [|done].
  cbn [mbind option_bind].
  destruct (extractbitsets_row_calls_spec _ _ _ _ _ _ _ _ _ _ Hinv Hj
              ltac:(destruct Hi as [->|(? & ? & ? & ? & ? & ?)];
                      [by left|by right]) E1)
    as (Hinv1 & Honce1 & (tr1 & Etr1 & Hst1) & Hfr1).
  destruct (load b j) as [bj|] eqn:Ebj; [|done]. cbn [mbind option_bind].
  destruct (Htb j bj Ebj) as (_ & Hleft).
  destruct (decide (left bj >= 0)) as [Hl|Hl].
  2: { intros [= <- <-]. split_and!; [done|done|by exists tr1|done]. }
  destruct Hleft as [[Hlb Hrl] Hright]; [lia|].
  destruct (extractbitsets_calls fuel a b (left bj) n minterms SLOTS st1)
    as [[st2 log2]|] eqn:E2; [|done].
  cbn [mbind option_bind].
  assert (Hjl : 0 ≤ left bj < blen) by lia.
  destruct (IH _ _ _ _ _ _ Hinv1 Hjl E2)
    as (Hinv2 & Honce2 & (tr2 & Etr2 & Hst2) & Hfr2).
  destruct (decide (right bj >= 0)) as [Hr|Hr].
  - destruct Hright as [Hrb Hrr]; [lia|].
    destruct (extractbitsets_calls fuel a b (right bj) n minterms SLOTS st2)
      as [[st3 log3]|] eqn:E3; [|done].
    cbn [mbind option_bind]. intros [= <- <-].
    assert (Hjr : 0 ≤ right bj < blen) by lia.
    destruct (IH _ _ _ _ _ _ Hinv2 Hjr E3)
      as (Hinv3 & Honce3 & (tr3 & Etr3 & Hst3) & Hfr3).
    split; [done|]. rewrite !calls_of_app. split.
    { eauto using starts_once_app. }
    split.
    { exists (tr1 ++ tr2 ++ tr3). split.
      - rewrite Etr3, Etr2, Etr1. by rewrite <- !app_assoc.
      - eauto using log_starts_app. }
    eauto using log_fragments_app.
  - intros [= <- <-]. split; [done|]. rewrite calls_of_app. split.
    { eauto using starts_once_app. }
    split.
    { exists (tr1 ++ tr2). split.
      - rewrite Etr2, Etr1. by rewrite <- !app_assoc.
      - eauto using log_starts_app. }
    eauto using log_fragments_app.
Qed.

End calls.

(** Nor does it change what the loop and [extractbitsets] compute. *)
Lemma extractbitsets_row_calls_erase (a b : list Node) (SLOTS : Z) fuel :
  ∀ j n minterms st cur idx i,
  fst <$> extractbitsets_row_calls fuel a b j n minterms SLOTS st cur idx i
  = extractbitsets_row fuel a b j n minterms SLOTS st cur idx i.
Proof.
  induction fuel as [|fuel IH]; intros j n minterms st cur idx i.
  - simpl. by case_decide.
  - cbn [extractbitsets_row extractbitsets_row_calls].
    case_decide; [done|].
    destruct (memset0 _ 0 SLOTS) as [z|]; [|done]. cbn [mbind option_bind].
    rewrite <- extractat_calls_erase.
    destruct (extractat_calls _ _ z a b i j SLOTS)
      as [[[[terms m'] r'] cs]|]; [|done].
    cbn [fmap option_fmap option_map mbind option_bind fst].
    destruct (iteratesetbits _ m' _ _ cur idx) as [[[i' cur'] idx']|]; [|done].
    cbn [mbind option_bind]. rewrite <- IH.
    by destruct (extractbitsets_row_calls fuel a b j n minterms SLOTS _ cur'
                   idx' i') as [[st2 log2]|].
Qed.

Lemma extractbitsets_calls_erase (a b : list Node) (SLOTS : Z) fuel :
  ∀ j n minterms st,
  fst <$> extractbitsets_calls fuel a b j n minterms SLOTS st
  = extractbitsets fuel a b j n minterms SLOTS st.
Proof.
  induction fuel as [|fuel IH]; intros j n minterms st; [done|].
  cbn [extractbitsets extractbitsets_calls].
  destruct (load (st_matrix st) (j * SLOTS)) as [cur0|]; [|done].
  cbn [mbind option_bind].
  destruct (iteratesetbits _ _ _ _ cur0 0) as [[[i cur] idx]|]; [|done].
  cbn [mbind option_bind]. rewrite <- extractbitsets_row_calls_erase.
  destruct (extractbitsets_row_calls _ a b j n minterms SLOTS st cur idx i)
    as [[st1 log1]|]; [|done].
  cbn [fmap option_fmap option_map mbind option_bind fst].
  destruct (load b j) as [bj|]; [|done]. cbn [mbind option_bind].
  case_decide; [|done]. rewrite <- IH.
  destruct (extractbitsets_calls fuel a b (left bj) n minterms SLOTS st1)
    as [[st2 log2]|]; [|done].
  cbn [fmap option_fmap option_map mbind option_bind fst].
  case_decide; [|done]. rewrite <- IH.
  by destruct (extractbitsets_calls fuel a b (right bj) n minterms SLOTS st2)
    as [[st3 log3]|].
Qed.



